(** * Verification of the Solana payout manager (src/solana_manager.py)

    A shallow embedding of [SolanaPayoutManager] and the properties its
    specification states about it.

    Conventions of the embedding.
    - Python [int] is [Z].  A clock reading and a timeout are the exact
      rationals [Q] that the floats denote.  A [float] that ends up in
      [time.sleep] (the backoff, a pause) is a [Float]: it can also be an
      infinity or NaN; the product of a finite float and an [int] is exact
      here, its rounding is left out.
    - Python [str] is a Stdlib [string].  The character predicates below
      ([str.strip], [\s], [str.lower]) agree with Python on ASCII text; the
      byte-order mark U+FEFF is its three UTF-8 bytes.
    - A raised exception is a value of [Exception]: its Python class, the
      message with the holes of the source's f-string, and its cause.
    - Methods are computations in the monad [M]: a state holding the manager
      object, the remote service, the clock and a trace of the effects
      performed; [inl] is a raised exception, [inr] a returned value.  Like
      in Python, a raised exception keeps the mutations made before it.
    - The clock starts at the time given and moves on by what is slept; the
      time that a call to the service takes is not counted.  What is stated
      about the wait for a confirmation is the order of its polls and
      sleeps and bounds on their number, not times of day.
    - A file is what reading it gives ([FileRead]): no file, the exception
      of [read_text], or the text. *)

From Stdlib Require Import ZArith QArith Qround Lqa Ascii String.
From Stdlib Require Strings.Byte.
From stdpp Require Import gmap strings list.

Set Warnings "-register-all".
Open Scope Z_scope.

(** ** Text *)

Module Text.

(** [c.isspace()] for an ASCII character: TAB, LF, VT, FF, CR, the four
    separators FS GS RS US, and the space. *)
Definition is_space (c : ascii) : bool :=
  let n := N_of_ascii c in
  ((9 <=? n) && (n <=? 13) || (28 <=? n) && (n <=? 32))%N.

Fixpoint lstrip (s : string) : string :=
  match s with
  | String c rest => if is_space c then lstrip rest else s
  | EmptyString => EmptyString
  end.

(** [rstrip] keeps a character when something other than white space
    follows it. *)
Fixpoint rstrip (s : string) : string :=
  match s with
  | EmptyString => EmptyString
  | String c rest =>
      match rstrip rest with
      | EmptyString => if is_space c then EmptyString else String c EmptyString
      | kept => String c kept
      end
  end.

(** [s.strip()] *)
Definition strip (s : string) : string := rstrip (lstrip s).

(** U+FEFF in UTF-8. *)
Definition bom : string :=
  String (ascii_of_N 239) (String (ascii_of_N 187) (String (ascii_of_N 191) EmptyString)).

(** [s.lstrip(BOM)]: every leading byte-order mark is removed. *)
Fixpoint lstrip_bom_fuel (fuel : nat) (s : string) : string :=
  match fuel with
  | O => s
  | S fuel' =>
      match s with
      | String a (String b (String c rest)) =>
          if (N_of_ascii a =? 239)%N && (N_of_ascii b =? 187)%N && (N_of_ascii c =? 191)%N
          then lstrip_bom_fuel fuel' rest
          else s
      | _ => s
      end
  end.

Definition lstrip_bom (s : string) : string := lstrip_bom_fuel (String.length s) s.

(** [s.startswith("#")] *)
Definition starts_with_hash (s : string) : bool :=
  match s with
  | String c _ => (N_of_ascii c =? 35)%N
  | EmptyString => false
  end.

Definition lower_char (c : ascii) : ascii :=
  let n := N_of_ascii c in
  if ((65 <=? n) && (n <=? 90))%N then ascii_of_N (n + 32) else c.

(** [s.lower()] *)
Fixpoint lower (s : string) : string :=
  match s with
  | EmptyString => EmptyString
  | String c rest => String (lower_char c) (lower rest)
  end.

(** The separator class of [re.split(r"[\s,;]+", line)]. *)
Definition is_separator (c : ascii) : bool :=
  is_space c || (N_of_ascii c =? 44)%N || (N_of_ascii c =? 59)%N.

(** [[token for token in re.split(r"[\s,;]+", line) if token]]: the maximal
    runs of characters that are not separators.  [cur] is the run being
    read, in reverse. *)
Fixpoint tokens_from (cur : list ascii) (s : string) : list string :=
  let flush := match cur with
               | [] => []
               | _ => [string_of_list_ascii (rev cur)]
               end in
  match s with
  | EmptyString => flush
  | String c rest =>
      if is_separator c then flush ++ tokens_from [] rest
      else tokens_from (c :: cur) rest
  end.

Definition tokenize (line : string) : list string := tokens_from [] line.

End Text.

(** ** Exceptions *)

(** One entry of [client.get_signature_statuses(...).value]:
    - [err]: the transaction error, when the transaction failed;
    - [confirmation_status]: [str(status.confirmation_status)], when the
      service reports a named level;
    - [confirmations]: the confirmation count, when reported. *)
Record TxStatus := {
  err : option string;
  confirmation_status : option string;
  confirmations : option Z
}.

(** The text of every message the manager produces, with the holes of its
    f-string as arguments. *)
Inductive Message :=
| MNeedEndpoint                 (* "Se necesita al menos un endpoint RPC válido" *)
| MMaxRetriesAtLeastOne         (* "max_retries debe ser al menos 1" *)
| MBackoffNegative              (* "retry_backoff no puede ser negativo" *)
| MRetryExhausted (max_attempts : Z) (pool : list string) (last_error : option Message)
                                (* "Error tras {max_attempts} intentos usando pool RPC {pool}: {last_error}" *)
| MWalletFileMissing            (* "No se encontró el archivo de la wallet: ..." *)
| MWalletFileEmpty              (* "El archivo ... está vacío" *)
| MSecretUnreadable             (* "No se pudo interpretar la clave secreta en ..." *)
| MSecretLength                 (* "La clave secreta debe tener 32 bytes (seed) o 64 bytes (full secret key)." *)
| MRecipientsFileMissing        (* "No se encontró el archivo de wallets: ..." *)
| MLineEmpty (line_number : Z)  (* "La línea {n} está vacía" *)
| MAddressInvalid (line_number : Z) (address : string)
                                (* "La dirección en la línea {n} es inválida: {address}" *)
| MAmountInvalid (line_number : Z) (amount_text : string)
                                (* "Cantidad inválida en la línea {n}: {amount_text}" *)
| MNoAmount (line_number : Z)   (* "La línea {n} no incluye cantidad y no se proporcionó un valor por defecto." *)
| MDuplicate (address : string) (occurrences : Z)
                                (* "La dirección {address} aparece {count + 1} veces; los montos se sumaron automáticamente." *)
| MNoValidRecipients            (* "No se pudieron cargar destinatarios válidos. Revisa el archivo." *)
| MFileEmptyOrComments          (* "El archivo de wallets está vacío o todas las líneas son comentarios." *)
| MAmountNotPositive            (* "La cantidad debe ser mayor que cero" *)
| MAmountTooSmall               (* "La cantidad es demasiado pequeña (0 lamports)" *)
| MBatchSize                    (* "max_per_transaction debe ser al menos 1" *)
| MWalletNotLoaded              (* "Carga primero la wallet madre antes de operar." *)
| MTxFailed (signature : string) (tx_err : string)
                                (* "La transacción {signature} falló: {status.err}" *)
| MNotConfirmed (signature : string) (timeout_seconds : Q) (last_status : option TxStatus)
                                (* "No se confirmó la transacción {signature} dentro de {timeout_seconds} segundos. Último estado: {last_status}" *)
| MNoSignature                  (* "No se pudo extraer la firma de la respuesta: ..." *)
| MLibrary (detail : string).   (* the message of an exception raised by a library *)

(** The Python classes of the exceptions that occur. *)
Inductive PyClass :=
| ClsException
| ClsValueError
| ClsRuntimeError
| ClsTimeoutError
| ClsArithmeticError
| ClsOverflowError
| ClsTypeError
| ClsIndexError
| ClsAttributeError
| ClsOSError
| ClsRecursionError
| ClsUnicodeDecodeError     (* a ValueError, through UnicodeError *)
| ClsJSONDecodeError        (* json.JSONDecodeError(ValueError) *)
| ClsInvalidOperation       (* decimal.InvalidOperation *)
| ClsDecimalOverflow        (* decimal.Overflow *)
| ClsRecipientParseError    (* class RecipientParseError(ValueError) *)
| ClsWalletLoadError        (* class WalletLoadError(RuntimeError) *)
| ClsWalletNotLoadedError.  (* class WalletNotLoadedError(RuntimeError) *)

Global Instance PyClass_eq_dec : EqDecision PyClass.
Proof. solve_decision. Defined.

(** The direct base class; [Exception] is the root here. *)
Definition base_class (c : PyClass) : option PyClass :=
  match c with
  | ClsException => None
  | ClsValueError | ClsRuntimeError | ClsArithmeticError
  | ClsTypeError | ClsIndexError | ClsAttributeError | ClsOSError => Some ClsException
  | ClsRecursionError => Some ClsRuntimeError
  | ClsUnicodeDecodeError | ClsJSONDecodeError => Some ClsValueError
  | ClsTimeoutError => Some ClsException
  | ClsOverflowError | ClsInvalidOperation | ClsDecimalOverflow => Some ClsArithmeticError
  | ClsRecipientParseError => Some ClsValueError
  | ClsWalletLoadError | ClsWalletNotLoadedError => Some ClsRuntimeError
  end.

(** [issubclass(c, d)]; the hierarchy above is three levels deep. *)
Definition issubclass (c d : PyClass) : bool :=
  bool_decide (c = d)
  || match base_class c with
     | None => false
     | Some b =>
         bool_decide (b = d)
         || match base_class b with
            | None => false
            | Some b' => bool_decide (b' = d)
            end
     end.

Inductive Exception :=
| Raise (cls : PyClass) (msg : Message) (cause : option Exception).

Definition exn_class (e : Exception) : PyClass := let '(Raise c _ _) := e in c.
Definition exn_message (e : Exception) : Message := let '(Raise _ m _) := e in m.
Definition exn_cause (e : Exception) : option Exception := let '(Raise _ _ c) := e in c.

(** [isinstance(e, d)], the test of an [except d] clause. *)
Definition isinstance (e : Exception) (d : PyClass) : bool := issubclass (exn_class e) d.

(** ** Files *)

(** What [Path(path).expanduser().resolve()], [exists()] and
    [read_text(encoding="utf-8")] give, none of them inside a [try]:
    - [FileMissing]: [exists()] is false;
    - [FileUnreadable e]: one of them raises [e]: a path that does not
      resolve, a directory that may not be searched, and for [read_text] a
      directory, a file without permission, bytes that are no UTF-8;
    - [FileText contents]: the text read. *)
Inductive FileRead (T : Type) :=
| FileMissing
| FileUnreadable (e : Exception)
| FileText (contents : T).

Arguments FileMissing {T}.
Arguments FileUnreadable {T} _.
Arguments FileText {T} _.

(** ** Floats *)

(** A Python [float] that ends up in [time.sleep]: a finite value, given by
    the rational it denotes, an infinity, or NaN. *)
Inductive Float :=
| FFinite (value : Q)
| FInfinity (negative : bool)
| FNaN.

(** [x < 0]; a comparison with NaN is false. *)
Definition float_lt_zero (x : Float) : bool :=
  match x with
  | FFinite q => if Qlt_le_dec q 0 then true else false
  | FInfinity negative => negative
  | FNaN => false
  end.

(** [max(0.0, x)]: [x] when [x > 0.0], and [0.0] otherwise, also for NaN. *)
Definition float_max_zero (x : Float) : Float :=
  match x with
  | FFinite q => if Qlt_le_dec 0 q then x else FFinite 0
  | FInfinity false => x
  | FInfinity true | FNaN => FFinite 0
  end.

(** [x * k] for a Python [int] [k]. *)
Definition float_mul_int (x : Float) (k : Z) : Float :=
  match x with
  | FFinite q => FFinite (q * inject_Z k)
  | FInfinity negative => if k =? 0 then FNaN else FInfinity (xorb negative (k <? 0))
  | FNaN => FNaN
  end.

(** ** The manager object and the remote service *)

(** [Client(endpoint, timeout=timeout)] *)
Record Client := {
  client_endpoint : string;
  client_timeout : Q
}.

(** A [solders] keypair: the secret it was built from and [str(pubkey())]. *)
Record Keypair := {
  keypair_secret : list Byte.byte;
  pubkey : string
}.

(** The attributes of a [SolanaPayoutManager]. *)
Record Manager := {
  timeout : Q;
  max_retries_per_endpoint : Z;
  retry_backoff_seconds : Float;
  accounts_query_chunk : Z;
  default_max_recipients_per_tx : Z;
  default_compute_unit_limit : option Z;
  default_compute_unit_price : option Z;
  rpc_endpoints : list string;
  _current_endpoint_index : Z;
  endpoint : string;
  client : Client;
  last_recipient_warnings : list Message;
  wallet : option Keypair
}.

(** Attribute assignments [self.x = v]. *)
Definition set_timeout (v : Q) (m : Manager) : Manager :=
  let '(Build_Manager _ a2 a3 a4 a5 a6 a7 a8 a9 a10 a11 a12 a13) := m in
  Build_Manager v a2 a3 a4 a5 a6 a7 a8 a9 a10 a11 a12 a13.
Definition set_max_retries_per_endpoint (v : Z) (m : Manager) : Manager :=
  let '(Build_Manager a1 _ a3 a4 a5 a6 a7 a8 a9 a10 a11 a12 a13) := m in
  Build_Manager a1 v a3 a4 a5 a6 a7 a8 a9 a10 a11 a12 a13.
Definition set_retry_backoff_seconds (v : Float) (m : Manager) : Manager :=
  let '(Build_Manager a1 a2 _ a4 a5 a6 a7 a8 a9 a10 a11 a12 a13) := m in
  Build_Manager a1 a2 v a4 a5 a6 a7 a8 a9 a10 a11 a12 a13.
Definition set_rpc_endpoints (v : list string) (m : Manager) : Manager :=
  let '(Build_Manager a1 a2 a3 a4 a5 a6 a7 _ a9 a10 a11 a12 a13) := m in
  Build_Manager a1 a2 a3 a4 a5 a6 a7 v a9 a10 a11 a12 a13.
Definition set_current_endpoint_index (v : Z) (m : Manager) : Manager :=
  let '(Build_Manager a1 a2 a3 a4 a5 a6 a7 a8 _ a10 a11 a12 a13) := m in
  Build_Manager a1 a2 a3 a4 a5 a6 a7 a8 v a10 a11 a12 a13.
Definition set_endpoint_attr (v : string) (m : Manager) : Manager :=
  let '(Build_Manager a1 a2 a3 a4 a5 a6 a7 a8 a9 _ a11 a12 a13) := m in
  Build_Manager a1 a2 a3 a4 a5 a6 a7 a8 a9 v a11 a12 a13.
Definition set_client (v : Client) (m : Manager) : Manager :=
  let '(Build_Manager a1 a2 a3 a4 a5 a6 a7 a8 a9 a10 _ a12 a13) := m in
  Build_Manager a1 a2 a3 a4 a5 a6 a7 a8 a9 a10 v a12 a13.
Definition set_last_recipient_warnings (v : list Message) (m : Manager) : Manager :=
  let '(Build_Manager a1 a2 a3 a4 a5 a6 a7 a8 a9 a10 a11 _ a13) := m in
  Build_Manager a1 a2 a3 a4 a5 a6 a7 a8 a9 a10 a11 v a13.
Definition set_wallet (v : option Keypair) (m : Manager) : Manager :=
  let '(Build_Manager a1 a2 a3 a4 a5 a6 a7 a8 a9 a10 a11 a12 _) := m in
  Build_Manager a1 a2 a3 a4 a5 a6 a7 a8 a9 a10 a11 a12 v.

(** [solana.rpc.commitment]: the three levels, weakest first. *)
Inductive Commitment := Processed | Confirmed | Finalized.

(** The instructions the manager builds. *)
Inductive Instruction :=
| SetComputeUnitLimit (units : Z)
| SetComputeUnitPrice (micro_lamports : Z)
| Transfer (from_pubkey to_pubkey : string) (lamports : Z).

(** [Transaction.new_signed_with_payer(instructions, payer, signers, blockhash)] *)
Record Transaction := {
  tx_instructions : list Instruction;
  tx_payer : string;
  tx_signers : list Keypair;
  tx_blockhash : string
}.

Record Account := { account_lamports : Z }.

(** The client methods the manager calls. *)
Inductive Request :=
| GetLatestBlockhash (commitment : Commitment)
| SendTransaction (tx : Transaction) (skip_preflight : bool) (preflight_commitment : Commitment)
| GetSignatureStatuses (signatures : list string)
| GetMultipleAccounts (pubkeys : list string) (commitment : Commitment).

(** What a client method returns.  Python reads the answer by attribute; an
    answer of another shape raises there. *)
Inductive Response :=
| BlockhashResp (blockhash : string)            (* resp.value.blockhash *)
| SignatureResp (signature : string)            (* a bare Signature *)
| ValueSignatureResp (signature : string)       (* resp.value is a Signature *)
| ValueStrResp (signature : string)             (* resp.value is a str *)
| StatusesResp (value : list (option TxStatus)) (* resp.value *)
| AccountsResp (value : list (option Account)). (* resp.value *)

(** One call of a client method and how it ended. *)
Record RpcCall := {
  call_request : Request;
  call_result : Exception + Response
}.

(** The observable effects of the manager, in order:
    - [EvAttempt c calls raised]: [_perform] invoked its callable on the
      client [c]; the callable made the RPC calls [calls] and raised
      [raised], or returned when [raised] is [None];
    - [EvSleep d]: [time.sleep(d)]. *)
Inductive Event :=
| EvAttempt (c : Client) (calls : list RpcCall) (raised : option Exception)
| EvSleep (seconds : Q).

Section Model.

(** The remote service: an arbitrary state and an arbitrary answer, or
    exception, to every call, depending on the client used. *)
Variable World : Type.
Variable rpc : Client -> Request -> World -> (Exception + Response) * World.

(** [Keypair.from_bytes] and [Keypair.from_seed] of [solders], and the
    validity checks of [Pubkey.from_string] and [Signature.from_string]. *)
Variable Keypair_from_bytes : list Byte.byte -> option Keypair.
Variable Keypair_from_seed : list Byte.byte -> option Keypair.
Variable Pubkey_valid : string -> bool.
Variable Signature_valid : string -> bool.

Record State := {
  manager : Manager;
  world : World;
  clock : Q;                (* time.time() *)
  trace : list Event
}.

(** A callable handed to [_perform]: it talks to the service and reports the
    calls it made. *)
Definition Remote (T : Type) : Type := World -> ((Exception + T) * list RpcCall) * World.

(** [client.method(...)] *)
Definition client_call (c : Client) (req : Request) : Remote Response :=
  fun w => let '(r, w') := rpc c req w in ((r, [Build_RpcCall req r]), w').

Definition M (T : Type) : Type := State -> (Exception + T) * State.

Definition ret {T} (x : T) : M T := fun st => (inr x, st).

Definition bind {T U} (m : M T) (k : T -> M U) : M U :=
  fun st => match m st with
            | (inl e, st') => (inl e, st')
            | (inr x, st') => k x st'
            end.

Definition raise {T} (e : Exception) : M T := fun st => (inl e, st).

Notation "x <- m ;; k" := (bind m (fun x => k))
  (at level 62, m at next level, right associativity).
Notation "m ;;; k" := (bind m (fun _ => k))
  (at level 62, right associativity).

(** [self.attr] and [self.attr = v] *)
Definition self {T} (attr : Manager -> T) : M T := fun st => (inr (attr (manager st)), st).

Definition assign (update : Manager -> Manager) : M unit :=
  fun st => (inr tt, {| manager := update (manager st); world := world st;
                        clock := clock st; trace := trace st |}).

Definition log (ev : Event) (st : State) : State :=
  {| manager := manager st; world := world st; clock := clock st;
     trace := trace st ++ [ev] |}.

(** [time.time()] *)
Definition time_time : M Q := fun st => (inr (clock st), st).

(** The length of a sleep in nanoseconds, as CPython converts it: rounded
    away from zero. *)
Definition sleep_nanoseconds (d : Q) : Z :=
  if Qlt_le_dec d 0 then Qfloor (d * 1000000000) else Qceiling (d * 1000000000).

(** [time.sleep(d)], as CPython treats its argument: NaN is refused with
    [ValueError]; the length is converted to nanoseconds in a signed 64-bit
    integer, rounded away from zero, and a length that does not fit, an
    infinity among them, is refused with [OverflowError]; a negative length
    is refused with [ValueError]; otherwise the clock moves on by [d].  Two
    things at the very end of the range are left out, in which interpreters
    differ: for a length within the uptime of the machine of [2^63]
    nanoseconds, CPython 3.11 lets the deadline overflow and the operating
    system refuses it with [OSError]; and for a product of exactly [2^63]
    nanoseconds it raises the [ValueError] in place of the [OverflowError].
    Where a statement below needs a sleep to be taken, it asks for a length
    of at most [2^62] nanoseconds. *)
Definition time_sleep (d : Float) : M unit :=
  fun st =>
    match d with
    | FNaN =>
        (inl (Raise ClsValueError (MLibrary "Invalid value NaN (not a number)") None), st)
    | FInfinity _ =>
        (inl (Raise ClsOverflowError
                (MLibrary "timestamp too large to convert to C _PyTime_t") None), st)
    | FFinite seconds =>
        let nanoseconds := sleep_nanoseconds seconds in
        if (nanoseconds <? - 2 ^ 63) || (2 ^ 63 <=? nanoseconds)
        then (inl (Raise ClsOverflowError
                     (MLibrary "timestamp too large to convert to C _PyTime_t") None), st)
        else if nanoseconds <? 0
        then (inl (Raise ClsValueError (MLibrary "sleep length must be non-negative") None), st)
        else (inr tt, log (EvSleep seconds)
                        {| manager := manager st; world := world st;
                           clock := (clock st + seconds)%Q; trace := trace st |})
    end.

(** [func(client)] inside the [try] of [_perform]; the outcome is handed
    back so that the loop can decide. *)
Definition invoke {T} (func : Client -> Remote T) (c : Client) : M (Exception + T) :=
  fun st =>
    let '((r, calls), w') := func c (world st) in
    let raised := match r with inl e => Some e | inr _ => None end in
    (inr r, log (EvAttempt c calls raised)
              {| manager := manager st; world := w';
                 clock := clock st; trace := trace st |}).

(** *** Pool management *)

(** The first loop of [set_rpc_pool]: strip, drop blanks, keep the first
    occurrence of each endpoint. *)
Fixpoint clean_endpoints (endpoints : list string) (unique : list string)
    (seen : gset string) : list string :=
  match endpoints with
  | [] => unique
  | e :: rest =>
      let cleaned := Text.strip e in
      if bool_decide (cleaned = EmptyString) then clean_endpoints rest unique seen
      else if bool_decide (cleaned ∈ seen) then clean_endpoints rest unique seen
      else clean_endpoints rest (unique ++ [cleaned]) (seen ∪ {[cleaned]})
  end.

Definition set_rpc_pool (endpoints : list string) (max_retries : option Z)
    (retry_backoff : option Float) (timeout' : option Q) : M unit :=
  let unique := clean_endpoints endpoints [] ∅ in
  match unique with
  | [] => raise (Raise ClsValueError MNeedEndpoint None)
  | first :: _ =>
      (match max_retries with
       | Some max_retries =>
           if max_retries <? 1
           then raise (Raise ClsValueError MMaxRetriesAtLeastOne None)
           else assign (set_max_retries_per_endpoint max_retries)
       | None => ret tt
       end) ;;;
      (match retry_backoff with
       | Some retry_backoff =>
           if float_lt_zero retry_backoff
           then raise (Raise ClsValueError MBackoffNegative None)
           else assign (set_retry_backoff_seconds retry_backoff)
       | None => ret tt
       end) ;;;
      (match timeout' with
       | Some t => assign (set_timeout t)
       | None => ret tt
       end) ;;;
      assign (set_rpc_endpoints unique) ;;;
      assign (set_current_endpoint_index 0) ;;;
      assign (set_endpoint_attr first) ;;;
      e <- self endpoint ;;
      t <- self timeout ;;
      assign (set_client {| client_endpoint := e; client_timeout := t |})
  end.

(** [set_endpoint] *)
Definition set_endpoint (endpoint' : string) (timeout' : option Q) : M unit :=
  set_rpc_pool [endpoint'] None None timeout'.

Definition _rotate_endpoint : M unit :=
  pool <- self rpc_endpoints ;;
  if Z.of_nat (length pool) <=? 1 then ret tt
  else
    i <- self _current_endpoint_index ;;
    assign (set_current_endpoint_index ((i + 1) mod Z.of_nat (length pool))) ;;;
    i <- self _current_endpoint_index ;;
    match pool !! Z.to_nat i with
    | None => raise (Raise ClsIndexError (MLibrary "list index out of range") None)
    | Some e =>
        assign (set_endpoint_attr e) ;;;
        t <- self timeout ;;
        assign (set_client {| client_endpoint := e; client_timeout := t |})
    end.

(** The [while attempts < max_attempts] loop of [_perform].  [attempts]
    grows by one in every iteration that does not return, so the loop is
    written by recursion on [remaining = max_attempts - attempts]. *)
Fixpoint _perform_loop {T} (func : Client -> Remote T)
    (total_endpoints max_attempts : Z) (remaining : nat)
    (attempts : Z) (last_error : option Exception) : M T :=
  match remaining with
  | O =>
      pool <- self rpc_endpoints ;;
      raise (Raise ClsRuntimeError
               (MRetryExhausted max_attempts pool (exn_message <$> last_error))
               last_error)
  | S remaining' =>
      c <- self client ;;
      r <- invoke func c ;;
      match r with
      | inr v => ret v
      | inl exc =>
          let attempts := attempts + 1 in
          b <- self retry_backoff_seconds ;;
          time_sleep (float_mul_int b (Z.min attempts 4)) ;;;
          R <- self max_retries_per_endpoint ;;
          (if (1 <? total_endpoints) && (attempts mod R =? 0)
           then _rotate_endpoint else ret tt) ;;;
          _perform_loop func total_endpoints max_attempts remaining' attempts (Some exc)
      end
  end.

Definition _perform {T} (func : Client -> Remote T) : M T :=
  pool <- self rpc_endpoints ;;
  R <- self max_retries_per_endpoint ;;
  let total_endpoints := Z.of_nat (length pool) in
  let max_attempts := total_endpoints * R in
  _perform_loop func total_endpoints max_attempts (Z.to_nat max_attempts) 0 None.

(** *** Loading the wallet *)

(** A value returned by [json.loads]. *)
Inductive Json :=
| JNull
| JBool (b : bool)
| JInt (n : Z)
| JFloat (value : Q)
| JNaN
| JInfinity (negative : bool)
| JString (s : string)
| JList (items : list Json)
| JObject (members : list (string * Json)).

(** [json.loads]: the value, or the exception raised, which is a
    [JSONDecodeError] for a text that is no JSON and can be another one (a
    plain [ValueError] for an integer of more digits than the interpreter
    converts, a [RecursionError] for a nesting too deep).
    [base58.b58decode]; [None] is its [ValueError]. *)
Variable json_loads : string -> Exception + Json.
Variable b58decode : string -> option (list Byte.byte).

Definition digit_value (c : ascii) : option Z :=
  let n := N_of_ascii c in
  if ((48 <=? n) && (n <=? 57))%N then Some (Z.of_N n - 48) else None.

(** Reads the longest run of digits at the head of [s]: its value after
    [acc], the number of digits read, and the rest. *)
Fixpoint read_digits (acc count : Z) (s : list ascii) : Z * Z * list ascii :=
  match s with
  | c :: rest =>
      match digit_value c with
      | Some d => read_digits (10 * acc + d) (count + 1) rest
      | None => (acc, count, s)
      end
  | [] => (acc, count, s)
  end.

(** The digit groups of an integer literal: digits, then any number of
    [_digits]. *)
Fixpoint read_groups (fuel : nat) (acc : Z) (s : list ascii) : option Z :=
  match fuel with
  | O => None
  | S fuel' =>
      let '(v, n, rest) := read_digits acc 0 s in
      if n =? 0 then None
      else match rest with
           | [] => Some v
           | c :: rest' =>
               if (N_of_ascii c =? 95)%N then read_groups fuel' v rest' else None
           end
  end.

(** [int(text)] for a string; [None] is its [ValueError]. *)
Definition int_of_text (text : string) : option Z :=
  let s := list_ascii_of_string (Text.strip text) in
  let '(negative, body) :=
    match s with
    | c :: rest =>
        if (N_of_ascii c =? 45)%N then (true, rest)
        else if (N_of_ascii c =? 43)%N then (false, rest)
        else (false, s)
    | [] => (false, s)
    end in
  match read_groups (S (length body)) 0 body with
  | Some v => Some (if negative then - v else v)
  | None => None
  end.

(** [Qfloor] towards zero: [int(x)] for a finite float. *)
Definition Qtruncate (q : Q) : Z :=
  if Qlt_le_dec q 0 then Qceiling q else Qfloor q.

(** [int(value)] for a JSON value. *)
Definition py_int (value : Json) : Exception + Z :=
  match value with
  | JInt n => inr n
  | JBool b => inr (if b then 1 else 0)
  | JFloat q => inr (Qtruncate q)
  | JNaN => inl (Raise ClsValueError (MLibrary "cannot convert float NaN to integer") None)
  | JInfinity _ => inl (Raise ClsOverflowError (MLibrary "cannot convert float infinity to integer") None)
  | JString s =>
      match int_of_text s with
      | Some n => inr n
      | None => inl (Raise ClsValueError (MLibrary "invalid literal for int()") None)
      end
  | JNull | JList _ | JObject _ =>
      inl (Raise ClsTypeError (MLibrary "int() argument must be a string or a number") None)
  end.

(** [bytes(int(value) for value in data)] *)
Fixpoint bytes_of_json (data : list Json) : Exception + list Byte.byte :=
  match data with
  | [] => inr []
  | value :: rest =>
      match py_int value with
      | inl e => inl e
      | inr n =>
          match (if (0 <=? n) && (n <? 256) then Byte.of_N (Z.to_N n) else None) with
          | None => inl (Raise ClsValueError (MLibrary "bytes must be in range(0, 256)") None)
          | Some b =>
              match bytes_of_json rest with
              | inl e => inl e
              | inr bs => inr (b :: bs)
              end
          end
      end
  end.

Definition library_keypair (k : option Keypair) : M Keypair :=
  match k with
  | Some kp => ret kp
  | None => raise (Raise ClsValueError (MLibrary "invalid keypair bytes") None)
  end.

Definition _keypair_from_bytes (secret_bytes : list Byte.byte) : M Keypair :=
  if Z.of_nat (length secret_bytes) =? 64 then library_keypair (Keypair_from_bytes secret_bytes)
  else if Z.of_nat (length secret_bytes) =? 32 then library_keypair (Keypair_from_seed secret_bytes)
  else raise (Raise ClsWalletLoadError MSecretLength None).

(** The [try] around [json.loads]: only a [JSONDecodeError] is caught,
    and leaves [data = None]. *)
Definition try_json_loads (raw : string) : Exception + option Json :=
  match json_loads raw with
  | inr data => inr (Some data)
  | inl exc => if isinstance exc ClsJSONDecodeError then inr None else inl exc
  end.

(** [file] is what reading the wallet file gives. *)
Definition load_wallet_from_file (file : FileRead string) : M string :=
  match file with
  | FileMissing => raise (Raise ClsWalletLoadError MWalletFileMissing None)
  | FileUnreadable e => raise e
  | FileText text =>
      let raw := Text.strip text in
      if bool_decide (raw = EmptyString)
      then raise (Raise ClsWalletLoadError MWalletFileEmpty None)
      else
        match try_json_loads raw with
        | inl e => raise e
        | inr (Some (JList data)) =>
            match bytes_of_json data with
            | inl e => raise e
            | inr secret_bytes =>
                kp <- _keypair_from_bytes secret_bytes ;;
                assign (set_wallet (Some kp)) ;;;
                ret (pubkey kp)
            end
        | inr _ =>
            match b58decode raw with
            | None =>
                raise (Raise ClsWalletLoadError MSecretUnreadable
                         (Some (Raise ClsValueError (MLibrary "Invalid character") None)))
            | Some secret_bytes =>
                kp <- _keypair_from_bytes secret_bytes ;;
                assign (set_wallet (Some kp)) ;;;
                ret (pubkey kp)
            end
        end
  end.

Definition _require_wallet : M Keypair :=
  w <- self wallet ;;
  match w with
  | None => raise (Raise ClsWalletNotLoadedError MWalletNotLoaded None)
  | Some kp => ret kp
  end.

(** *** Decimal amounts *)

(** A [decimal.Decimal]: sign, coefficient and exponent, or a special
    value.  The value of [DFinite s c e] is [(-1)^s * c * 10^e]. *)
Inductive Decimal :=
| DFinite (negative : bool) (coefficient : Z) (exponent : Z)
| DInfinity (negative : bool)
| DNaN.

Definition LAMPORTS_PER_SOL : Z := 1000000000.

(** The default arithmetic context. *)
Definition context_prec : Z := 28.
Definition context_Emax : Z := 999999.

Fixpoint remove_underscores (s : list ascii) : list ascii :=
  match s with
  | [] => []
  | c :: rest =>
      if (N_of_ascii c =? 95)%N then remove_underscores rest
      else c :: remove_underscores rest
  end.

Definition lower_list (s : list ascii) : list ascii := map Text.lower_char s.

Definition is_e (c : ascii) : bool := (N_of_ascii (Text.lower_char c) =? 101)%N.

(** The exponent part: nothing, or [E], an optional sign and digits up to
    the end of the text. *)
Definition read_exponent (s : list ascii) : option Z :=
  match s with
  | [] => Some 0
  | c :: rest =>
      if is_e c then
        let '(negative, body) :=
          match rest with
          | d :: rest' =>
              if (N_of_ascii d =? 45)%N then (true, rest')
              else if (N_of_ascii d =? 43)%N then (false, rest')
              else (false, rest)
          | [] => (false, rest)
          end in
        match read_digits 0 0 body with
        | (v, n, []) => if n =? 0 then None else Some (if negative then - v else v)
        | _ => None
        end
      else None
  end.

(** The numeric alternative of the constructor's grammar: digits with an
    optional fractional part, at least one digit, and the exponent. *)
Definition read_number (negative : bool) (s : list ascii) : option Decimal :=
  let '(int_value, int_digits, rest) := read_digits 0 0 s in
  let '(coefficient, frac_digits, rest) :=
    match rest with
    | c :: rest' =>
        if (N_of_ascii c =? 46)%N
        then read_digits int_value 0 rest'
        else (int_value, 0, rest)
    | [] => (int_value, 0, rest)
    end in
  if int_digits + frac_digits =? 0 then None
  else match read_exponent rest with
       | Some e => Some (DFinite negative coefficient (e - frac_digits))
       | None => None
       end.

(** The special values: [Inf], [Infinity], [NaN] and [sNaN] with optional
    diagnostic digits, in any case. *)
Definition read_special (negative : bool) (s : list ascii) : option Decimal :=
  let text := string_of_list_ascii (lower_list s) in
  if bool_decide (text = "inf") || bool_decide (text = "infinity")
  then Some (DInfinity negative)
  else
    let body :=
      match lower_list s with
      | a :: rest => if (N_of_ascii a =? 115)%N then rest else lower_list s
      | [] => []
      end in
    match body with
    | a :: b :: c :: diag =>
        if (N_of_ascii a =? 110)%N && (N_of_ascii b =? 97)%N && (N_of_ascii c =? 110)%N
        then match read_digits 0 0 diag with
             | (_, _, []) => Some DNaN
             | _ => None
             end
        else None
    | _ => None
    end.

(** [Decimal(text)]; [None] is [decimal.InvalidOperation].  The text is
    stripped and its underscores removed before it is matched. *)
Definition Decimal_of_string (text : string) : option Decimal :=
  let s := remove_underscores (list_ascii_of_string (Text.strip text)) in
  let '(negative, body) :=
    match s with
    | c :: rest =>
        if (N_of_ascii c =? 45)%N then (true, rest)
        else if (N_of_ascii c =? 43)%N then (false, rest)
        else (false, s)
    | [] => (false, s)
    end in
  match read_number negative body with
  | Some d => Some d
  | None => read_special negative body
  end.

(** The number of decimal digits of a positive coefficient. *)
Fixpoint count_digits (fuel : nat) (c : Z) : Z :=
  match fuel with
  | O => 1
  | S fuel' => if c <? 10 then 1 else 1 + count_digits fuel' (c / 10)
  end.

Definition ndigits (c : Z) : Z := count_digits (Z.to_nat (Z.log2 c)) c.

(** Rounding of a result to [context_prec] digits, half to even. *)
Definition round_to_prec (c e : Z) : Z * Z :=
  let n := ndigits c in
  if n <=? context_prec then (c, e)
  else
    let drop := n - context_prec in
    let q := c / 10 ^ drop in
    let r := c mod 10 ^ drop in
    let half := 5 * 10 ^ (drop - 1) in
    let q' := if (half <? r) || ((r =? half) && Z.odd q) then q + 1 else q in
    if q' =? 10 ^ context_prec then (10 ^ (context_prec - 1), e + drop + 1)
    else (q', e + drop).

(** [d <= 0]; a NaN operand signals [InvalidOperation]. *)
Definition decimal_le_zero (d : Decimal) : Exception + bool :=
  match d with
  | DNaN => inl (Raise ClsInvalidOperation (MLibrary "comparison involving NaN") None)
  | DInfinity negative => inr negative
  | DFinite negative c _ => inr ((c =? 0) || negative)
  end.

(** [a * b] in the default context. *)
Definition decimal_mul (a b : Decimal) : Exception + Decimal :=
  match a, b with
  | DFinite s1 c1 e1, DFinite s2 c2 e2 =>
      let '(c, e) := round_to_prec (c1 * c2) (e1 + e2) in
      if (0 <? c) && (context_Emax <? e + ndigits c - 1)
      then inl (Raise ClsDecimalOverflow (MLibrary "decimal.Overflow") None)
      else inr (DFinite (xorb s1 s2) c e)
  | DNaN, _ | _, DNaN => inr DNaN
  | DInfinity s1, DInfinity s2 => inr (DInfinity (xorb s1 s2))
  | DInfinity s1, DFinite s2 c _ | DFinite s2 c _, DInfinity s1 =>
      if c =? 0 then inl (Raise ClsInvalidOperation (MLibrary "0 * Infinity") None)
      else inr (DInfinity (xorb s1 s2))
  end.

(** [d.to_integral_value(rounding=ROUND_DOWN)] *)
Definition to_integral_value_down (d : Decimal) : Decimal :=
  match d with
  | DFinite s c e => if e <? 0 then DFinite s (c / 10 ^ (- e)) 0 else d
  | _ => d
  end.

(** [int(d)] *)
Definition int_of_decimal (d : Decimal) : Exception + Z :=
  match d with
  | DFinite s c e =>
      let v := if e <? 0 then c / 10 ^ (- e) else c * 10 ^ e in
      inr (if s then - v else v)
  | DInfinity _ => inl (Raise ClsOverflowError (MLibrary "cannot convert Infinity to integer") None)
  | DNaN => inl (Raise ClsValueError (MLibrary "cannot convert NaN to integer") None)
  end.

Definition _sol_to_lamports (amount_sol : Decimal) : Exception + Z :=
  let decimal_amount := amount_sol in
  match decimal_le_zero decimal_amount with
  | inl e => inl e
  | inr true => inl (Raise ClsValueError MAmountNotPositive None)
  | inr false =>
      match decimal_mul decimal_amount (DFinite false LAMPORTS_PER_SOL 0) with
      | inl e => inl e
      | inr product =>
          match int_of_decimal (to_integral_value_down product) with
          | inl e => inl e
          | inr lamports =>
              if lamports <=? 0 then inl (Raise ClsValueError MAmountTooSmall None)
              else inr lamports
          end
      end
  end.

(** *** Reading the recipients *)

Record Recipient := {
  address : string;
  lamports : Z
}.

(** A Python [dict] with string keys: the items in insertion order.
    Assigning to a key that is present keeps its position. *)
Fixpoint dict_get {V} (k : string) (d : list (string * V)) : option V :=
  match d with
  | [] => None
  | (k', v) :: rest => if bool_decide (k' = k) then Some v else dict_get k rest
  end.

Fixpoint dict_set {V} (k : string) (v : V) (d : list (string * V)) : list (string * V) :=
  match d with
  | [] => [(k, v)]
  | (k', v') :: rest =>
      if bool_decide (k' = k) then (k, v) :: rest else (k', v') :: dict_set k v rest
  end.

Definition dict_values {V} (d : list (string * V)) : list V := map snd d.
Definition dict_keys {V} (d : list (string * V)) : list string := map fst d.

(** [default_amount_sol] is the caller's [Decimal], when given. *)
Definition _parse_recipient_line (line : string) (line_number : Z)
    (default_amount_sol : option Decimal) : Exception + Recipient :=
  let tokens := Text.tokenize line in
  match tokens with
  | [] => inl (Raise ClsRecipientParseError (MLineEmpty line_number) None)
  | address :: more =>
      if negb (Pubkey_valid address)
      then inl (Raise ClsRecipientParseError (MAddressInvalid line_number address)
                  (Some (Raise ClsValueError (MLibrary "invalid public key") None)))
      else
        let amount :=
          match more with
          | amount_text :: _ =>
              match Decimal_of_string amount_text with
              | Some d => inr d
              | None =>
                  inl (Raise ClsRecipientParseError (MAmountInvalid line_number amount_text)
                         (Some (Raise ClsInvalidOperation (MLibrary "ConversionSyntax") None)))
              end
          | [] =>
              match default_amount_sol with
              | None => inl (Raise ClsRecipientParseError (MNoAmount line_number) None)
              | Some d => inr d
              end
          end in
        match amount with
        | inl e => inl e
        | inr amount_sol =>
            match _sol_to_lamports amount_sol with
            | inl e => inl e
            | inr lamports => inr {| address := address; lamports := lamports |}
            end
        end
  end.

(** The first loop of [read_recipients_from_file], over
    [enumerate(raw_lines, start=line_number)].  Only a
    [RecipientParseError] becomes a warning. *)
Fixpoint parse_lines (raw_lines : list string) (line_number : Z)
    (default_amount_sol : option Decimal)
    (recipients_raw : list Recipient) (warnings : list Message)
    : Exception + (list Recipient * list Message) :=
  match raw_lines with
  | [] => inr (recipients_raw, warnings)
  | raw_line :: rest =>
      let line := Text.lstrip_bom (Text.strip raw_line) in
      if bool_decide (line = EmptyString) || Text.starts_with_hash line
      then parse_lines rest (line_number + 1) default_amount_sol recipients_raw warnings
      else
        match _parse_recipient_line line line_number default_amount_sol with
        | inl exc =>
            if isinstance exc ClsRecipientParseError
            then parse_lines rest (line_number + 1) default_amount_sol
                   recipients_raw (warnings ++ [exn_message exc])
            else inl exc
        | inr recipient =>
            parse_lines rest (line_number + 1) default_amount_sol
              (recipients_raw ++ [recipient]) warnings
        end
  end.

(** The second loop: merging by address. *)
Fixpoint aggregate (recipients_raw : list Recipient)
    (aggregated : list (string * Recipient)) (duplicates_counter : list (string * Z))
    : list (string * Recipient) * list (string * Z) :=
  match recipients_raw with
  | [] => (aggregated, duplicates_counter)
  | recipient :: rest =>
      match dict_get (address recipient) aggregated with
      | Some aggregated_rec =>
          aggregate rest
            (dict_set (address recipient)
               {| address := address aggregated_rec;
                  lamports := lamports aggregated_rec + lamports recipient |}
               aggregated)
            (dict_set (address recipient)
               (default 0 (dict_get (address recipient) duplicates_counter) + 1)
               duplicates_counter)
      | None =>
          aggregate rest
            (dict_set (address recipient)
               {| address := address recipient; lamports := lamports recipient |}
               aggregated)
            duplicates_counter
      end
  end.

(** The third loop: one warning for each key of [duplicates_counter]. *)
Definition duplicate_warnings (duplicates_counter : list (string * Z)) : list Message :=
  map (fun '(address, count) => MDuplicate address (count + 1)) duplicates_counter.

Definition lift {T} (r : Exception + T) : M T :=
  match r with
  | inl e => raise e
  | inr v => ret v
  end.

(** [file] is what reading the recipients file gives, the text as
    [read_text(...).splitlines()]. *)
Definition read_recipients_from_file (file : FileRead (list string))
    (default_amount_sol : option Decimal) : M (list Recipient) :=
  match file with
  | FileMissing => raise (Raise ClsRecipientParseError MRecipientsFileMissing None)
  | FileUnreadable e => raise e
  | FileText raw_lines =>
      parsed <- lift (parse_lines raw_lines 1 default_amount_sol [] []) ;;
      let '(recipients_raw, warnings) := parsed in
      let '(aggregated, duplicates_counter) := aggregate recipients_raw [] [] in
      let warnings := warnings ++ duplicate_warnings duplicates_counter in
      let recipients := dict_values aggregated in
      assign (set_last_recipient_warnings warnings) ;;;
      match recipients with
      | [] =>
          match warnings with
          | _ :: _ => raise (Raise ClsRecipientParseError MNoValidRecipients None)
          | [] => raise (Raise ClsRecipientParseError MFileEmptyOrComments None)
          end
      | _ => ret recipients
      end
  end.

Definition sum_lamports (recipients : list Recipient) : Z :=
  foldr (fun recipient total => lamports recipient + total) 0 recipients.

(** *** Chunks *)

(** [range(0, stop, step)] for a stop that is not negative. *)
Definition py_range (stop step : Z) : Exception + list Z :=
  if step =? 0 then inl (Raise ClsValueError (MLibrary "range() arg 3 must not be zero") None)
  else if step <? 0 then inr []
  else inr (map (fun k => Z.of_nat k * step) (seq 0 (Z.to_nat ((stop + step - 1) / step)))).

(** [items[index : index + size]] for an index and a size that are not
    negative. *)
Definition slice {T} (items : list T) (index size : Z) : list T :=
  take (Z.to_nat size) (drop (Z.to_nat index) items).

Definition _chunk {T} (items : list T) (size : Z) : Exception + list (list T) :=
  match py_range (Z.of_nat (length items)) size with
  | inl e => inl e
  | inr indices => inr (map (fun index => slice items index size) indices)
  end.

(** *** Confirmation *)

Definition extract_statuses (response : Response) : Exception + option TxStatus :=
  match response with
  | StatusesResp (status :: _) => inr status
  | StatusesResp [] => inl (Raise ClsIndexError (MLibrary "list index out of range") None)
  | _ => inl (Raise ClsAttributeError (MLibrary "unexpected response") None)
  end.

(** [str(confirmation_status).lower() in {"confirmed", "finalized"}] *)
Definition named_level_accepted (confirmation_status : string) : bool :=
  let s := Text.lower confirmation_status in
  bool_decide (s = "confirmed") || bool_decide (s = "finalized").

Definition poll_interval : Q := 8 # 10.

(** The polling loop of [_await_confirmation].  Every iteration that does
    not end the wait sleeps [poll_interval], so at most
    [timeout_seconds / poll_interval] iterations (rounded up) start before
    the deadline; [fuel] is set to that number by [_await_confirmation]. *)
Fixpoint _await_loop (fuel : nat) (signature : string) (timeout_seconds deadline : Q)
    (last_status : option TxStatus) : M unit :=
  now <- time_time ;;
  if Qlt_le_dec now deadline then
    match fuel with
    | O => raise (Raise ClsTimeoutError (MNotConfirmed signature timeout_seconds last_status) None)
    | S fuel' =>
        response <- _perform (fun client => client_call client (GetSignatureStatuses [signature])) ;;
        status <- lift (extract_statuses response) ;;
        match status with
        | None =>
            time_sleep (FFinite poll_interval) ;;;
            _await_loop fuel' signature timeout_seconds deadline last_status
        | Some status =>
            match err status with
            | Some reason => raise (Raise ClsRuntimeError (MTxFailed signature reason) None)
            | None =>
                if match confirmation_status status with
                   | Some level => named_level_accepted level
                   | None => false
                   end
                then ret tt
                else if match confirmations status with
                        | Some n => 0 <? n
                        | None => false
                        end
                then ret tt
                else
                  time_sleep (FFinite poll_interval) ;;;
                  _await_loop fuel' signature timeout_seconds deadline (Some status)
            end
        end
    end
  else raise (Raise ClsTimeoutError (MNotConfirmed signature timeout_seconds last_status) None).

Definition await_fuel (timeout_seconds : Q) : nat :=
  Z.to_nat (Qceiling (timeout_seconds / poll_interval)).

(** The [commitment] argument is accepted and not read. *)
Definition _await_confirmation (signature : string) (timeout_seconds : Q)
    (commitment : Commitment) : M unit :=
  now <- time_time ;;
  let deadline := (now + timeout_seconds)%Q in
  if negb (Signature_valid signature)
  then raise (Raise ClsValueError (MLibrary "invalid signature") None)
  else _await_loop (await_fuel timeout_seconds) signature timeout_seconds deadline None.

Definition _extract_signature (response : Response) : Exception + string :=
  match response with
  | SignatureResp s => inr s
  | ValueSignatureResp s => inr s
  | ValueStrResp s => inr s
  | _ => inl (Raise ClsRuntimeError MNoSignature None)
  end.

(** *** Mass payments *)

(** The integer widths of the [solders] constructors: a value outside the
    width raises [OverflowError]. *)
Definition fits (bits : Z) (v : Z) : bool := (0 <=? v) && (v <? 2 ^ bits).

Definition overflow {T} : Exception + T :=
  inl (Raise ClsOverflowError (MLibrary "out of range integral type conversion attempted") None).

(** The transfers of one chunk, in the order of the chunk. *)
Fixpoint transfers (wallet : Keypair) (chunk : list Recipient) : Exception + list Instruction :=
  match chunk with
  | [] => inr []
  | recipient :: rest =>
      if negb (Pubkey_valid (address recipient))
      then inl (Raise ClsValueError (MLibrary "invalid public key") None)
      else if negb (fits 64 (lamports recipient)) then overflow
      else match transfers wallet rest with
           | inl e => inl e
           | inr instructions =>
               inr (Transfer (pubkey wallet) (address recipient) (lamports recipient)
                      :: instructions)
           end
  end.

(** The instruction list of one chunk: the compute-budget instructions
    that are configured, then the transfers. *)
Definition build_instructions (wallet : Keypair) (chunk : list Recipient)
    (limit_value price_value : option Z) : Exception + list Instruction :=
  match (match limit_value with
         | Some v => if fits 32 v then inr [SetComputeUnitLimit v] else overflow
         | None => inr []
         end) with
  | inl e => inl e
  | inr limit_instructions =>
      match (match price_value with
             | Some v => if fits 64 v then inr [SetComputeUnitPrice v] else overflow
             | None => inr []
             end) with
      | inl e => inl e
      | inr price_instructions =>
          match transfers wallet chunk with
          | inl e => inl e
          | inr transfer_instructions =>
              inr (limit_instructions ++ price_instructions ++ transfer_instructions)
          end
      end
  end.

Definition extract_blockhash (response : Response) : Exception + string :=
  match response with
  | BlockhashResp blockhash => inr blockhash
  | _ => inl (Raise ClsAttributeError (MLibrary "unexpected response") None)
  end.

Definition default_timeout_seconds : Q := 60.

(** The body of the [for chunk in ...] loop of [send_mass_payments]; it
    returns the signature that the loop appends. *)
Definition send_chunk (wallet : Keypair) (chunk : list Recipient)
    (skip_preflight : bool) (commitment : Commitment)
    (compute_unit_limit compute_unit_price_micro_lamports : option Z) : M string :=
  default_limit <- self default_compute_unit_limit ;;
  let limit_value :=
    match compute_unit_limit with Some v => Some v | None => default_limit end in
  default_price <- self default_compute_unit_price ;;
  let price_value :=
    match compute_unit_price_micro_lamports with Some v => Some v | None => default_price end in
  instructions <- lift (build_instructions wallet chunk limit_value price_value) ;;
  blockhash_resp <- _perform (fun client => client_call client (GetLatestBlockhash commitment)) ;;
  blockhash <- lift (extract_blockhash blockhash_resp) ;;
  let tx := {| tx_instructions := instructions; tx_payer := pubkey wallet;
               tx_signers := [wallet]; tx_blockhash := blockhash |} in
  response <- _perform (fun client =>
                client_call client (SendTransaction tx skip_preflight commitment)) ;;
  signature <- lift (_extract_signature response) ;;
  _await_confirmation signature default_timeout_seconds commitment ;;;
  ret signature.

(** The loop over the chunks; [signatures] is the list built so far. *)
Fixpoint send_chunks (wallet : Keypair) (chunks : list (list Recipient))
    (skip_preflight : bool) (commitment : Commitment)
    (compute_unit_limit compute_unit_price_micro_lamports : option Z)
    (signatures : list string) : M (list string) :=
  match chunks with
  | [] => ret signatures
  | chunk :: rest =>
      signature <- send_chunk wallet chunk skip_preflight commitment
                     compute_unit_limit compute_unit_price_micro_lamports ;;
      send_chunks wallet rest skip_preflight commitment
        compute_unit_limit compute_unit_price_micro_lamports (signatures ++ [signature])
  end.

(** [max_per_transaction or self.default_max_recipients_per_tx] *)
Definition effective_batch_size (max_per_transaction : option Z) (default_size : Z) : Z :=
  match max_per_transaction with
  | Some n => if n =? 0 then default_size else n
  | None => default_size
  end.

Definition send_mass_payments (recipients : list Recipient)
    (max_per_transaction : option Z) (skip_preflight : bool) (commitment : Commitment)
    (compute_unit_limit compute_unit_price_micro_lamports : option Z) : M (list string) :=
  default_size <- self default_max_recipients_per_tx ;;
  let batch_size := effective_batch_size max_per_transaction default_size in
  if batch_size <? 1 then raise (Raise ClsValueError MBatchSize None)
  else
    wallet <- _require_wallet ;;
    chunks <- lift (_chunk recipients batch_size) ;;
    send_chunks wallet chunks skip_preflight commitment
      compute_unit_limit compute_unit_price_micro_lamports [].

(** *** Balances *)

(** The first loop of [fetch_balances]. *)
Fixpoint dedupe (addresses : list string) (order unique : list string)
    (seen : gset string) : list string * list string :=
  match addresses with
  | [] => (order, unique)
  | address :: rest =>
      if bool_decide (address ∈ seen)
      then dedupe rest (order ++ [address]) unique seen
      else dedupe rest (order ++ [address]) (unique ++ [address]) (seen ∪ {[address]})
  end.

Fixpoint strip_trailing_zeros (fuel : nat) (c e : Z) : Z * Z :=
  match fuel with
  | O => (c, e)
  | S fuel' =>
      if (e <? 0) && (c mod 10 =? 0) then strip_trailing_zeros fuel' (c / 10) (e + 1)
      else (c, e)
  end.

(** [Decimal(lamports) / Decimal(LAMPORTS_PER_SOL)] for the lamports of an
    account, an unsigned 64-bit number: the quotient is exact in the
    default context. *)
Definition lamports_to_sol (lamports : Z) : Decimal :=
  if lamports =? 0 then DFinite false 0 0
  else let '(c, e) := strip_trailing_zeros 9 lamports (-9) in DFinite false c e.

Definition extract_accounts (response : Response) : Exception + list (option Account) :=
  match response with
  | AccountsResp value => inr value
  | _ => inl (Raise ClsAttributeError (MLibrary "unexpected response") None)
  end.

(** [for address, account in zip(chunk, response.value): ...] *)
Fixpoint record_page (chunk : list string) (accounts : list (option Account))
    (balances_unique : gmap string Decimal) : gmap string Decimal :=
  match chunk, accounts with
  | address :: chunk', account :: accounts' =>
      record_page chunk' accounts'
        (match account with
         | None => <[address := DFinite false 0 0]> balances_unique
         | Some account => <[address := lamports_to_sol (account_lamports account)]> balances_unique
         end)
  | _, _ => balances_unique
  end.

(** [[Pubkey.from_string(address) for address in chunk]] *)
Definition pubkeys_of (chunk : list string) : Exception + list string :=
  if forallb Pubkey_valid chunk then inr chunk
  else inl (Raise ClsValueError (MLibrary "invalid public key") None).

(** The loop over the pages. *)
Fixpoint fetch_pages (chunks : list (list string)) (commitment : Commitment)
    (balances_unique : gmap string Decimal) : M (gmap string Decimal) :=
  match chunks with
  | [] => ret balances_unique
  | chunk :: rest =>
      pubkeys <- lift (pubkeys_of chunk) ;;
      response <- _perform (fun client =>
                    client_call client (GetMultipleAccounts pubkeys commitment)) ;;
      accounts <- lift (extract_accounts response) ;;
      fetch_pages rest commitment (record_page chunk accounts balances_unique)
  end.

(** [{address: balances_unique.get(address, Decimal("0")) for address in order}] *)
Definition result_dict (order : list string) (balances_unique : gmap string Decimal)
    : list (string * Decimal) :=
  foldl (fun d address =>
           dict_set address (default (DFinite false 0 0) (balances_unique !! address)) d)
        [] order.

Definition fetch_balances (addresses : list string) (commitment : Commitment)
    : M (list (string * Decimal)) :=
  match addresses with
  | [] => ret []
  | _ =>
      let '(order, unique) := dedupe addresses [] [] ∅ in
      page_size <- self accounts_query_chunk ;;
      chunks <- lift (_chunk unique page_size) ;;
      balances_unique <- fetch_pages chunks commitment ∅ ;;
      ret (result_dict order balances_unique)
  end.

(** *** Construction *)

(** The attributes set by [__init__] before it calls [set_rpc_pool]. *)
Definition new_manager (endpoint' : string) (timeout' : Q)
    (max_retries_per_endpoint' : Z) (retry_backoff_seconds' : Float)
    (accounts_query_chunk' default_max_recipients_per_tx' : Z)
    (default_compute_unit_limit' default_compute_unit_price_micro_lamports : option Z)
    : Manager :=
  {| timeout := timeout';
     max_retries_per_endpoint := Z.max 1 max_retries_per_endpoint';
     retry_backoff_seconds := float_max_zero retry_backoff_seconds';
     accounts_query_chunk := Z.max 1 accounts_query_chunk';
     default_max_recipients_per_tx := Z.max 1 default_max_recipients_per_tx';
     default_compute_unit_limit := default_compute_unit_limit';
     default_compute_unit_price := default_compute_unit_price_micro_lamports;
     rpc_endpoints := [];
     _current_endpoint_index := 0;
     endpoint := endpoint';
     client := {| client_endpoint := endpoint'; client_timeout := timeout' |};
     last_recipient_warnings := [];
     wallet := None |}.

(** [SolanaPayoutManager(...)] against the service [w] at time [now]: the
    state after [__init__], or the exception of its [set_rpc_pool]. *)
Definition __init__ (endpoint' : string) (timeout' : Q)
    (max_retries_per_endpoint' : Z) (retry_backoff_seconds' : Float)
    (accounts_query_chunk' default_max_recipients_per_tx' : Z)
    (default_compute_unit_limit' default_compute_unit_price_micro_lamports : option Z)
    (w : World) (now : Q) : (Exception + unit) * State :=
  set_rpc_pool [endpoint'] None None None
    {| manager := new_manager endpoint' timeout' max_retries_per_endpoint'
                    retry_backoff_seconds' accounts_query_chunk'
                    default_max_recipients_per_tx' default_compute_unit_limit'
                    default_compute_unit_price_micro_lamports;
       world := w; clock := now; trace := [] |}.

End Model.

Arguments manager {World} _.
Arguments world {World} _.
Arguments clock {World} _.
Arguments trace {World} _.
Arguments Build_State {World} _ _ _ _.
Arguments ret {World T} _ _.
Arguments bind {World T U} _ _ _.
Arguments raise {World T} _ _.
Arguments self {World T} _ _.
Arguments assign {World} _ _.
Arguments log {World} _ _.
Arguments lift {World T} _ _.
Arguments time_time {World} _.
Arguments time_sleep {World} _ _.
Arguments invoke {World T} _ _ _.
Arguments client_call {World} _ _ _ _.
Arguments set_rpc_pool {World} _ _ _ _ _.
Arguments set_endpoint {World} _ _ _.
Arguments _rotate_endpoint {World} _.
Arguments _perform_loop {World T} _ _ _ _ _ _ _.
Arguments _perform {World T} _ _.
Arguments library_keypair {World} _ _.
Arguments _keypair_from_bytes {World} _ _ _ _.
Arguments load_wallet_from_file {World} _ _ _ _ _ _.
Arguments _require_wallet {World} _.
Arguments read_recipients_from_file {World} _ _ _ _.
Arguments _await_loop {World} _ _ _ _ _ _ _.
Arguments _await_confirmation {World} _ _ _ _ _ _.
Arguments send_chunk {World} _ _ _ _ _ _ _ _ _ _.
Arguments send_chunks {World} _ _ _ _ _ _ _ _ _ _ _.
Arguments send_mass_payments {World} _ _ _ _ _ _ _ _ _ _.
Arguments fetch_pages {World} _ _ _ _ _ _.
Arguments fetch_balances {World} _ _ _ _ _.
Arguments __init__ {World} _ _ _ _ _ _ _ _ _ _.

(** ** More of the manager *)

Section Accessors.
Variable World : Type.

Definition get_wallet_address : M World string :=
  bind (_require_wallet (World := World)) (fun wallet => ret (pubkey wallet)).

(** [client.get_balance(pubkey, commitment=commitment)], read as the
    [value] of its answer: the lamports of the account, an unsigned 64-bit
    number. *)
Variable client_get_balance : Client -> string -> Commitment -> Remote World Z.

Definition get_balance_sol (commitment : Commitment) : M World Decimal :=
  bind (_require_wallet (World := World)) (fun wallet =>
  bind (_perform (fun client => client_get_balance client (pubkey wallet) commitment))
       (fun lamports =>
  ret (lamports_to_sol lamports))).

End Accessors.

Arguments get_wallet_address {World} _.
Arguments get_balance_sol {World} _ _ _.

(** ** The window: transaction tuning *)

(** The messages of [_get_transaction_tuning] in [solana_gui.py]; each is
    raised as a [ValueError]. *)
Inductive TuningMessage :=
| MMaxPerTxNotInteger         (* the wallets-per-transaction field must be an integer *)
| MMaxPerTxBelowOne           (* the wallets-per-transaction field must be at least 1 *)
| MComputeUnitsNotInteger     (* "El limite de compute units debe ser un entero" *)
| MComputeUnitsBelowMinimum   (* "El limite de compute units debe ser al menos 25000" *)
| MPriorityFeeNotInteger      (* "La priority fee debe ser un entero (micro-lamports)" *)
| MPriorityFeeNegative.       (* "La priority fee no puede ser negativa" *)

(** The dictionary that [_get_transaction_tuning] returns. *)
Record Tuning := {
  tuning_max_per_tx : option Z;
  tuning_compute_unit_limit : option Z;
  tuning_priority_fee : option Z
}.

(** The arguments are the texts of the three entry fields. *)
Definition _get_transaction_tuning
    (max_per_tx_var compute_unit_limit_var priority_fee_var : string)
    : TuningMessage + Tuning :=
  let max_per_tx := Text.strip max_per_tx_var in
  match (if bool_decide (max_per_tx = EmptyString) then inr None
         else match int_of_text max_per_tx with
              | None => inl MMaxPerTxNotInteger
              | Some value =>
                  if value <? 1 then inl MMaxPerTxBelowOne else inr (Some value)
              end) with
  | inl message => inl message
  | inr result_max_per_tx =>
      let compute_units := Text.strip compute_unit_limit_var in
      match (if bool_decide (compute_units = EmptyString) then inr None
             else match int_of_text compute_units with
                  | None => inl MComputeUnitsNotInteger
                  | Some value =>
                      if value <? 25000 then inl MComputeUnitsBelowMinimum
                      else inr (Some value)
                  end) with
      | inl message => inl message
      | inr result_compute_unit_limit =>
          let priority_fee := Text.strip priority_fee_var in
          match (if bool_decide (priority_fee = EmptyString) then inr None
                 else match int_of_text priority_fee with
                      | None => inl MPriorityFeeNotInteger
                      | Some value =>
                          if value <? 0 then inl MPriorityFeeNegative else inr (Some value)
                      end) with
          | inl message => inl message
          | inr result_priority_fee =>
              inr {| tuning_max_per_tx := result_max_per_tx;
                     tuning_compute_unit_limit := result_compute_unit_limit;
                     tuning_priority_fee := result_priority_fee |}
          end
      end
  end.

(** ** Airdrops *)

(** What the airdrop functions raise: an exception of the code above, or
    one of their own two. *)
Inductive AirdropError :=
| Propagated (e : Exception)
| AirdropExhausted (max_attempts : Z) (last_error : option Exception)
      (* RuntimeError("Error al solicitar airdrop tras {max_attempts} intentos: {last_error}") *)
| ChunkLimitNotPositive.
      (* ValueError("max_per_request_sol debe ser mayor que cero") *)

Section Airdrop.
Variable World : Type.
Variable rpc : Client -> Request -> World -> (Exception + Response) * World.
Variable Signature_valid : string -> bool.

(** [client.request_airdrop(pubkey, lamports, commitment=commitment)] *)
Variable client_request_airdrop : Client -> string -> Z -> Commitment -> Remote World Response.

(** The [while attempt < max_attempts] loop of [_request_airdrop_lamports],
    by recursion on [remaining = max_attempts - attempt]. *)
Fixpoint _request_airdrop_loop (remaining : nat) (public_key : string) (lamports : Z)
    (commitment : Commitment) (max_attempts : Z) (pause_seconds : Float)
    (attempt : Z) (last_error : option Exception)
    : State World -> (AirdropError + string) * State World :=
  match remaining with
  | O => fun st => (inl (AirdropExhausted max_attempts last_error), st)
  | S remaining' =>
      let attempt := attempt + 1 in
      fun st =>
        match _perform (fun client =>
                          client_request_airdrop client public_key lamports commitment) st with
        | (inl exc, st1) =>
            match time_sleep (float_mul_int pause_seconds attempt) st1 with
            | (inl e, st2) => (inl (Propagated e), st2)
            | (inr _, st2) =>
                _request_airdrop_loop remaining' public_key lamports commitment max_attempts
                  pause_seconds attempt (Some exc) st2
            end
        | (inr response, st1) =>
            match _extract_signature response with
            | inl e => (inl (Propagated e), st1)
            | inr signature => (inr signature, st1)
            end
        end
  end.

Definition _request_airdrop_lamports (public_key : string) (lamports : Z)
    (commitment : Commitment) (max_attempts : Z) (pause_seconds : Float)
    : State World -> (AirdropError + string) * State World :=
  _request_airdrop_loop (Z.to_nat max_attempts) public_key lamports commitment max_attempts
    pause_seconds 0 None.

End Airdrop.

Arguments _request_airdrop_loop {World} _ _ _ _ _ _ _ _ _ _.
Arguments _request_airdrop_lamports {World} _ _ _ _ _ _ _.

(** *** More of [decimal] *)

Definition context_Emin : Z := -999999.
Definition Etiny : Z := context_Emin - context_prec + 1.
Definition Etop : Z := context_Emax - context_prec + 1.

(** [Decimal._fix]: the finite value [(-1)^negative * c * 10^e] brought
    into the default context: a coefficient of more than [context_prec]
    digits is rounded half to even, a value below the normal range is
    rounded at [Etiny], one above it overflows. *)
Definition decimal_fix (negative : bool) (c e : Z) : Exception + Decimal :=
  if c =? 0 then inr (DFinite negative 0 (Z.min (Z.max e Etiny) context_Emax))
  else
    let exp_min := ndigits c + e - context_prec in
    if Etop <? exp_min
    then inl (Raise ClsDecimalOverflow (MLibrary "decimal.Overflow") None)
    else
      let exp_min := Z.max exp_min Etiny in
      if e <? exp_min then
        let drop := exp_min - e in
        let q := c / 10 ^ drop in
        let r := c mod 10 ^ drop in
        let half := 5 * 10 ^ (drop - 1) in
        let q' := if (half <? r) || ((r =? half) && Z.odd q) then q + 1 else q in
        let '(q', exp_min) :=
          if q' =? 10 ^ context_prec then (10 ^ (context_prec - 1), exp_min + 1)
          else (q', exp_min) in
        if Etop <? exp_min
        then inl (Raise ClsDecimalOverflow (MLibrary "decimal.Overflow") None)
        else inr (DFinite negative q' exp_min)
      else inr (DFinite negative c e).

Definition signed (negative : bool) (c : Z) : Z := if negative then - c else c.

(** [a + b] in the default context. *)
Definition decimal_add (a b : Decimal) : Exception + Decimal :=
  match a, b with
  | DNaN, _ | _, DNaN => inr DNaN
  | DInfinity s1, DInfinity s2 =>
      if xorb s1 s2
      then inl (Raise ClsInvalidOperation (MLibrary "-INF + INF") None)
      else inr (DInfinity s1)
  | DInfinity s1, DFinite _ _ _ => inr (DInfinity s1)
  | DFinite _ _ _, DInfinity s2 => inr (DInfinity s2)
  | DFinite s1 c1 e1, DFinite s2 c2 e2 =>
      let exp := Z.min e1 e2 in
      if (c1 =? 0) && (c2 =? 0) then decimal_fix (s1 && s2) 0 exp
      else if c1 =? 0 then
        let exp := Z.max exp (e2 - context_prec - 1) in
        decimal_fix s2 (c2 * 10 ^ (e2 - exp)) exp
      else if c2 =? 0 then
        let exp := Z.max exp (e1 - context_prec - 1) in
        decimal_fix s1 (c1 * 10 ^ (e1 - exp)) exp
      else
        let v := signed s1 c1 * 10 ^ (e1 - exp) + signed s2 c2 * 10 ^ (e2 - exp) in
        if v =? 0 then decimal_fix false 0 exp
        else decimal_fix (v <? 0) (Z.abs v) exp
  end.

(** [d.copy_negate()] *)
Definition decimal_negate (d : Decimal) : Decimal :=
  match d with
  | DFinite s c e => DFinite (negb s) c e
  | DInfinity s => DInfinity (negb s)
  | DNaN => DNaN
  end.

(** [a - b] in the default context. *)
Definition decimal_sub (a b : Decimal) : Exception + Decimal :=
  match a, b with
  | DNaN, _ | _, DNaN => inr DNaN
  | _, _ => decimal_add a (decimal_negate b)
  end.

(** [a <= b]; a NaN operand signals [InvalidOperation]. *)
Definition decimal_le (a b : Decimal) : Exception + bool :=
  match a, b with
  | DNaN, _ | _, DNaN =>
      inl (Raise ClsInvalidOperation (MLibrary "comparison involving NaN") None)
  | DInfinity s1, DInfinity s2 => inr (s1 || negb s2)
  | DInfinity s1, DFinite _ _ _ => inr s1
  | DFinite _ _ _, DInfinity s2 => inr (negb s2)
  | DFinite s1 c1 e1, DFinite s2 c2 e2 =>
      let exp := Z.min e1 e2 in
      inr (signed s1 c1 * 10 ^ (e1 - exp) <=? signed s2 c2 * 10 ^ (e2 - exp))
  end.

(** [d > Decimal("0")] *)
Definition decimal_gt_zero (d : Decimal) : Exception + bool :=
  match decimal_le_zero d with
  | inl e => inl e
  | inr b => inr (negb b)
  end.

(** *** [request_airdrop] *)

Section RequestAirdrop.
Variable World : Type.
Variable rpc : Client -> Request -> World -> (Exception + Response) * World.
Variable Signature_valid : string -> bool.
Variable client_request_airdrop : Client -> string -> Z -> Commitment -> Remote World Response.

(** The [while remaining > Decimal("0")] loop of [request_airdrop].
    Nothing bounds the number of its iterations, so the loop takes fuel:
    [None] says that the fuel was used up before the loop ended. *)
Fixpoint request_airdrop_loop (fuel : nat) (wallet : Keypair) (commitment : Commitment)
    (chunk_limit : Decimal) (max_attempts : Z) (pause_seconds : Float)
    (remaining : Decimal) (signatures : list string) (st : State World)
    : option ((AirdropError + list string) * State World) :=
  match decimal_gt_zero remaining with
  | inl e => Some (inl (Propagated e), st)
  | inr false => Some (inr signatures, st)
  | inr true =>
      match fuel with
      | O => None
      | S fuel' =>
          match decimal_le remaining chunk_limit with
          | inl e => Some (inl (Propagated e), st)
          | inr within_limit =>
              let chunk_amount := if within_limit then remaining else chunk_limit in
              match _sol_to_lamports chunk_amount with
              | inl e => Some (inl (Propagated e), st)
              | inr lamports =>
                  match _request_airdrop_lamports client_request_airdrop (pubkey wallet)
                          lamports commitment max_attempts pause_seconds st with
                  | (inl e, st1) => Some (inl e, st1)
                  | (inr signature, st1) =>
                      let signatures := signatures ++ [signature] in
                      match _await_confirmation rpc Signature_valid signature
                              default_timeout_seconds commitment st1 with
                      | (inl e, st2) => Some (inl (Propagated e), st2)
                      | (inr _, st2) =>
                          match decimal_sub remaining chunk_amount with
                          | inl e => Some (inl (Propagated e), st2)
                          | inr remaining =>
                              match decimal_gt_zero remaining with
                              | inl e => Some (inl (Propagated e), st2)
                              | inr false =>
                                  request_airdrop_loop fuel' wallet commitment chunk_limit
                                    max_attempts pause_seconds remaining signatures st2
                              | inr true =>
                                  match time_sleep pause_seconds st2 with
                                  | (inl e, st3) => Some (inl (Propagated e), st3)
                                  | (inr _, st3) =>
                                      request_airdrop_loop fuel' wallet commitment chunk_limit
                                        max_attempts pause_seconds remaining signatures st3
                                  end
                              end
                          end
                      end
                  end
              end
          end
      end
  end.

(** [amount_sol] is the amount as a [Decimal]; [max_per_request_sol] is
    [Decimal(str(max_per_request_sol))], the conversion of the float that
    the caller gives. *)
Definition request_airdrop (fuel : nat) (amount_sol : Decimal) (commitment : Commitment)
    (max_per_request_sol : Decimal) (max_attempts : Z) (pause_seconds : Float)
    (st : State World) : option ((AirdropError + list string) * State World) :=
  match _require_wallet st with
  | (inl e, st1) => Some (inl (Propagated e), st1)
  | (inr wallet, st1) =>
      let decimal_amount := amount_sol in
      match decimal_le_zero decimal_amount with
      | inl e => Some (inl (Propagated e), st1)
      | inr true => Some (inl (Propagated (Raise ClsValueError MAmountNotPositive None)), st1)
      | inr false =>
          let chunk_limit := max_per_request_sol in
          match decimal_le_zero chunk_limit with
          | inl e => Some (inl (Propagated e), st1)
          | inr true => Some (inl ChunkLimitNotPositive, st1)
          | inr false =>
              request_airdrop_loop fuel wallet commitment chunk_limit max_attempts
                pause_seconds decimal_amount [] st1
          end
      end
  end.

End RequestAirdrop.

Arguments request_airdrop_loop {World} _ _ _ _ _ _ _ _ _ _ _ _.
Arguments request_airdrop {World} _ _ _ _ _ _ _ _ _ _.

(** * Vocabulary of the statements *)

(** ** Retries over the pool *)

(** [pool[i]] for an index inside the pool. *)
Definition endpoint_at (pool : list string) (i : Z) : string :=
  nth (Z.to_nat i) pool EmptyString.

(** What [__init__] and [set_rpc_pool] establish about the pool: it is not
    empty, the retry budget is positive, the backoff is not below zero (the
    test that [set_rpc_pool] makes, which NaN and the positive infinity
    pass), and the active index, endpoint and client agree. *)
Record pool_ok (m : Manager) : Prop := {
  pool_not_empty : rpc_endpoints m <> [];
  retries_positive : 1 <= max_retries_per_endpoint m;
  backoff_not_negative : float_lt_zero (retry_backoff_seconds m) = false;
  index_in_pool : 0 <= _current_endpoint_index m < Z.of_nat (length (rpc_endpoints m));
  endpoint_is_active : endpoint m = endpoint_at (rpc_endpoints m) (_current_endpoint_index m);
  client_is_active : client m = {| client_endpoint := endpoint m; client_timeout := timeout m |}
}.

(** The pool entry that is active once [k] attempts have failed: the index
    moves on by one, wrapping, after every [max_retries_per_endpoint]
    attempts. *)
Definition scheduled_index (m : Manager) (k : Z) : Z :=
  (_current_endpoint_index m + k / max_retries_per_endpoint m)
    mod Z.of_nat (length (rpc_endpoints m)).

Definition scheduled_client (m : Manager) (k : Z) : Client :=
  {| client_endpoint := endpoint_at (rpc_endpoints m) (scheduled_index m k);
     client_timeout := timeout m |}.

(** The manager after [k] failed attempts. *)
Definition rotated (m : Manager) (k : Z) : Manager :=
  set_client (scheduled_client m k)
    (set_endpoint_attr (endpoint_at (rpc_endpoints m) (scheduled_index m k))
       (set_current_endpoint_index (scheduled_index m k) m)).

(** A length that [time.sleep] takes whatever the uptime of the machine:
    a number of seconds from zero to [2^62] nanoseconds, half of what the
    nanosecond counter holds. *)
Definition sleep_taken (d : Float) : Prop :=
  match d with
  | FFinite seconds => (0 <= seconds)%Q /\ sleep_nanoseconds seconds <= 2 ^ 62
  | FInfinity _ | FNaN => False
  end.

(** The seconds of a finite float. *)
Definition seconds_of (d : Float) : Q :=
  match d with
  | FFinite seconds => seconds
  | FInfinity _ | FNaN => 0
  end.

(** The trace of a run of failed attempts, the first of them being attempt
    number [k + 1]: each attempt is made on the scheduled client and is
    followed by a sleep of [backoff * min(attempt number, 4)]. *)
Fixpoint exhausting_trace (m : Manager) (k : Z) (attempts : list (list RpcCall * Exception))
    : list Event :=
  match attempts with
  | [] => []
  | (calls, e) :: rest =>
      EvAttempt (scheduled_client m k) calls (Some e)
      :: EvSleep (seconds_of (retry_backoff_seconds m) * inject_Z (Z.min (k + 1) 4))%Q
      :: exhausting_trace m (k + 1) rest
  end.

(** The exception of the last failed attempt, [before] when there is none. *)
Fixpoint last_raised (attempts : list (list RpcCall * Exception)) (before : option Exception)
    : option Exception :=
  match attempts with
  | [] => before
  | (_, e) :: rest => last_raised rest (Some e)
  end.

(** ** A scripted service for the examples *)

(** The service answers the calls with the entries of a list, in order,
    whatever the client and the request; once the list is used up every
    call is refused. *)
Definition Script : Type := list (Exception + Response).

Definition refused : Exception := Raise ClsException (MLibrary "connection refused") None.

Definition scripted (c : Client) (req : Request) (w : Script)
    : (Exception + Response) * Script :=
  match w with
  | r :: w' => (r, w')
  | [] => (inl refused, [])
  end.

(** A service that refuses every call. *)
Definition refusing (c : Client) (req : Request) (w : unit) : (Exception + Response) * unit :=
  (inl refused, w).

(** A manager on two endpoints with two retries per endpoint and a backoff
    of half a second, at time 0, talking to that service. *)
Definition two_endpoint_state_refusing : State unit :=
  snd (set_rpc_pool ["https://a.example"; "https://b.example"] (Some 2) None None
         (snd (__init__ "https://api.devnet.solana.com" 10 3 (FFinite (1 # 2)) 95 10
                 (Some 200000) None tt 0))).

(** The same manager after [set_rpc_pool] has been given a backoff of
    [1e10] seconds. *)
Definition long_backoff_state : State unit :=
  snd (set_rpc_pool ["https://a.example"; "https://b.example"] (Some 2)
         (Some (FFinite 10000000000)) None two_endpoint_state_refusing).

(** The claim about the retries in the words of the specification: on
    every pool that is in order, whatever its backoff, an operation that
    fails on every attempt is attempted [N * R] times, each attempt followed
    by its sleep, and ends in the error of the exhausted budget. *)
Definition retries_always_exhaust_pool : Prop :=
  forall (World T : Type) (func : Client -> Remote World T) (st : State World),
    pool_ok (manager st) ->
    (forall c w, exists e calls w', func c w = ((inl e, calls), w')) ->
    exists attempts e st',
      _perform func st
      = (inl (Raise ClsRuntimeError
                (MRetryExhausted
                   (Z.of_nat (length (rpc_endpoints (manager st)))
                    * max_retries_per_endpoint (manager st))
                   (rpc_endpoints (manager st)) (Some (exn_message e)))
                (Some e)), st')
      /\ Z.of_nat (length attempts)
         = Z.of_nat (length (rpc_endpoints (manager st)))
           * max_retries_per_endpoint (manager st)
      /\ trace st' = trace st ++ exhausting_trace (manager st) 0 attempts.

(** ** Chunks *)

(** [n] consecutive pages of [s] items each, the last page holding what is
    left. *)
Fixpoint pages {T} (n s : nat) (items : list T) : list (list T) :=
  match n with
  | O => []
  | S n' => take s items :: pages n' s (drop s items)
  end.

(** The number of pages of [size] items that [len] items fill. *)
Definition page_count (len size : Z) : nat := Z.to_nat ((len + size - 1) / size).

(** ** What a run leaves in the trace *)

Definition succeeded (c : RpcCall) : bool :=
  match call_result c with
  | inr _ => true
  | inl _ => false
  end.

(** The calls that the service answered, in order. *)
Fixpoint successful_calls (events : list Event) : list RpcCall :=
  match events with
  | [] => []
  | EvAttempt _ calls _ :: rest => List.filter succeeded calls ++ successful_calls rest
  | EvSleep _ :: rest => successful_calls rest
  end.

Definition is_payment_request (r : Request) : bool :=
  match r with
  | GetLatestBlockhash _ | SendTransaction _ _ _ => true
  | _ => false
  end.

(** The blockhash queries and the submissions that the service answered. *)
Definition payment_calls (events : list Event) : list RpcCall :=
  List.filter (fun c => is_payment_request (call_request c)) (successful_calls events).

(** The attributes that no remote operation assigns: everything but the
    active index, endpoint and client. *)
Definition settings (m : Manager) :=
  (timeout m, max_retries_per_endpoint m, retry_backoff_seconds m,
   accounts_query_chunk m, default_max_recipients_per_tx m,
   default_compute_unit_limit m, default_compute_unit_price m,
   rpc_endpoints m, last_recipient_warnings m, wallet m).

(** A run from [st] to [st'] that adds the events [events] to the trace,
    keeps the settings, and during which the clock does not go back. *)
Definition steps {World} (st st' : State World) (events : list Event) : Prop :=
  settings (manager st') = settings (manager st)
  /\ (clock st <= clock st')%Q
  /\ trace st' = trace st ++ events.

(** [override if override is not None else fallback] *)
Definition or_default (override fallback : option Z) : option Z :=
  match override with
  | Some v => Some v
  | None => fallback
  end.

(** The answered payment calls of a run over [chunks] and the signatures
    it collects: for each chunk, in order, one blockhash query, then one
    submission of a transaction that carries the blockhash just returned
    and the instructions of that chunk. *)
Inductive chunk_rounds (Pubkey_valid : string -> bool) (wallet : Keypair)
    (skip_preflight : bool) (commitment : Commitment) (limit_value price_value : option Z)
    : list (list Recipient) -> list RpcCall -> list string -> Prop :=
| rounds_done :
    chunk_rounds Pubkey_valid wallet skip_preflight commitment limit_value price_value [] [] []
| rounds_next chunk rest instructions blockhash response signature calls signatures :
    build_instructions Pubkey_valid wallet chunk limit_value price_value = inr instructions ->
    _extract_signature response = inr signature ->
    chunk_rounds Pubkey_valid wallet skip_preflight commitment limit_value price_value
      rest calls signatures ->
    chunk_rounds Pubkey_valid wallet skip_preflight commitment limit_value price_value
      (chunk :: rest)
      ({| call_request := GetLatestBlockhash commitment;
          call_result := inr (BlockhashResp blockhash) |}
       :: {| call_request :=
               SendTransaction {| tx_instructions := instructions;
                                  tx_payer := pubkey wallet;
                                  tx_signers := [wallet];
                                  tx_blockhash := blockhash |}
                               skip_preflight commitment;
             call_result := inr response |}
       :: calls)
      (signature :: signatures).

(** ** Mass payments: the examples *)

Definition example_wallet : Keypair := {| keypair_secret := []; pubkey := "PAYER" |}.

(** A manager on the default endpoint with one attempt per endpoint and
    the wallet loaded, talking to a scripted service. *)
Definition paying_state (w : Script) : State Script :=
  let st := snd (__init__ "https://api.devnet.solana.com" 10 1 (FFinite (1 # 2)) 95 10
                   (Some 200000) None w 0) in
  {| manager := set_wallet (Some example_wallet) (manager st);
     world := world st; clock := clock st; trace := trace st |}.

Definition any_address (address : string) : bool := true.

Definition confirmed_status : TxStatus :=
  {| err := None; confirmation_status := Some "confirmed"; confirmations := Some 1 |}.

(** The answers to one successful round: blockhash, signature, status. *)
Definition round_answers (blockhash signature : string) : Script :=
  [inr (BlockhashResp blockhash); inr (ValueStrResp signature);
   inr (StatusesResp [Some confirmed_status])].

Definition recipient_number (k : nat) : Recipient :=
  {| address := String (ascii_of_nat (65 + k)) EmptyString; lamports := 1000 + Z.of_nat k |}.

Definition three_recipients : list Recipient := map recipient_number (seq 0 3).
Definition twenty_five_recipients : list Recipient := map recipient_number (seq 0 25).

(** ** The claim that the signatures travel with the error *)

(** The confirmed signatures can be read off the raised exception:
    whenever the chunks [chunks_done] went through with [signatures] and
    the next chunk fails with [e], which is what [send_mass_payments] then
    raises, [e] determines [signatures]. *)
Definition signatures_delivered_with_error : Prop :=
  exists recover : Exception -> list string,
    forall (World : Type) (rpc : Client -> Request -> World -> (Exception + Response) * World)
           (Pubkey_valid Signature_valid : string -> bool) (st : State World)
           recipients max_per_transaction skip_preflight commitment limit price
           wallet' chunks_done chunk rest signatures st1 e st2,
      wallet (manager st) = Some wallet' ->
      _chunk recipients
        (effective_batch_size max_per_transaction (default_max_recipients_per_tx (manager st)))
      = inr (chunks_done ++ chunk :: rest) ->
      send_chunks rpc Pubkey_valid Signature_valid wallet' chunks_done skip_preflight
        commitment limit price [] st = (inr signatures, st1) ->
      send_chunk rpc Pubkey_valid Signature_valid wallet' chunk skip_preflight
        commitment limit price st1 = (inl e, st2) ->
      send_mass_payments rpc Pubkey_valid Signature_valid recipients max_per_transaction
        skip_preflight commitment limit price st = (inl e, st2) ->
      recover e = signatures.

(** The service answers one round and then refuses: the second chunk of
    three fails. *)
Definition failing_state (signature : string) : State Script :=
  paying_state (round_answers "h1" signature).

Definition exhausted : Exception :=
  Raise ClsRuntimeError
    (MRetryExhausted 1 ["https://api.devnet.solana.com"] (Some (MLibrary "connection refused")))
    (Some refused).

Definition first_chunk_done (signature : string) : State Script :=
  snd (send_chunks scripted any_address any_address example_wallet
         [[recipient_number 0]] false Confirmed None None [] (failing_state signature)).

Definition second_chunk_failed (signature : string) : State Script :=
  snd (send_chunk scripted any_address any_address example_wallet
         [recipient_number 1] false Confirmed None None (first_chunk_done signature)).

(** ** Confirmation levels *)

Definition commitment_rank (c : Commitment) : Z :=
  match c with
  | Processed => 0
  | Confirmed => 1
  | Finalized => 2
  end.

(** The level that a reported name stands for, in any case of letters. *)
Definition commitment_of_name (name : string) : option Commitment :=
  let s := Text.lower name in
  if bool_decide (s = "processed") then Some Processed
  else if bool_decide (s = "confirmed") then Some Confirmed
  else if bool_decide (s = "finalized") then Some Finalized
  else None.

Definition at_or_above (requested : Commitment) (name : string) : bool :=
  match commitment_of_name name with
  | Some level => commitment_rank requested <=? commitment_rank level
  | None => false
  end.

Definition positive_count (status : TxStatus) : bool :=
  match confirmations status with
  | Some n => 0 <? n
  | None => false
  end.

(** The rule in the words of the specification: a named level decides by
    comparison with the requested commitment; the count decides only when
    no level is named. *)
Definition spec_poll_succeeds (requested : Commitment) (status : TxStatus) : bool :=
  match confirmation_status status with
  | Some name => at_or_above requested name
  | None => positive_count status
  end.

(** The specification's rule as a statement about [_await_confirmation]:
    whenever the first poll is answered with a status without error and the
    wait returns right after that poll, the rule holds for the requested
    commitment. *)
Definition wait_honours_requested_commitment : Prop :=
  forall (World : Type) (rpc : Client -> Request -> World -> (Exception + Response) * World)
         (Signature_valid : string -> bool) (st : State World)
         signature timeout_seconds commitment status more st1,
    Signature_valid signature = true ->
    _perform (fun c => client_call rpc c (GetSignatureStatuses [signature])) st
    = (inr (StatusesResp (Some status :: more)), st1) ->
    err status = None ->
    _await_confirmation rpc Signature_valid signature timeout_seconds commitment st
    = (inr tt, st1) ->
    spec_poll_succeeds commitment status = true.

(** The rule that the watcher applies: a named level at or above
    "confirmed", or a positive count whether or not a level is named. *)
Definition poll_succeeds (status : TxStatus) : bool :=
  match confirmation_status status with
  | Some name => at_or_above Confirmed name
  | None => false
  end
  || positive_count status.

Definition only_confirmed : TxStatus :=
  {| err := None; confirmation_status := Some "confirmed"; confirmations := None |}.

Definition watching_state : State Script :=
  paying_state [inr (StatusesResp [Some only_confirmed])].

(** ** Recipients *)

(** How many of the parsed lines name [a], and what they add up to. *)
Fixpoint occurrences (a : string) (recipients_raw : list Recipient) : Z :=
  match recipients_raw with
  | [] => 0
  | r :: rest => (if bool_decide (address r = a) then 1 else 0) + occurrences a rest
  end.

Fixpoint total_for (a : string) (recipients_raw : list Recipient) : Z :=
  match recipients_raw with
  | [] => 0
  | r :: rest => (if bool_decide (address r = a) then lamports r else 0) + total_for a rest
  end.

(** The base units of a list of lines or recipients, added up. *)
Definition base_units (recipients : list Recipient) : Z :=
  foldl Z.add 0 (map lamports recipients).

(** The addresses of a list in the order of their first occurrence, those
    in [seen] left out. *)
Fixpoint first_occurrences (seen : list string) (addresses : list string) : list string :=
  match addresses with
  | [] => []
  | a :: rest =>
      if bool_decide (a ∈ seen) then first_occurrences seen rest
      else a :: first_occurrences (seen ++ [a]) rest
  end.

(** The number of times the merge finds [a] already present while it goes
    through the lines; [present] tells whether [a] is there at the start. *)
Fixpoint merges_of (a : string) (recipients_raw : list Recipient) (present : bool) : Z :=
  match recipients_raw with
  | [] => 0
  | r :: rest =>
      if bool_decide (address r = a)
      then (if present then 1 else 0) + merges_of a rest true
      else merges_of a rest present
  end.

Definition is_duplicate_warning_for (a : string) (m : Message) : bool :=
  match m with
  | MDuplicate a' _ => bool_decide (a' = a)
  | _ => false
  end.

Definition has_address (a : string) (r : Recipient) : bool := bool_decide (address r = a).

(** Every value of the merged dictionary carries its key as address. *)
Definition keyed (aggregated : list (string * Recipient)) : Prop :=
  Forall (fun item => address (snd item) = fst item) aggregated.


(** A file of three lines, the second of them below one lamport. *)
Definition file_with_small_amount : list string :=
  ["A 1"; "B 0.0000000001"; "C 2"].

(** A file in which [A] occurs three times and [B] once. *)
Definition file_with_duplicates : list string :=
  ["# payouts"; "A 1"; "B,5"; ""; "A 2"; "A;0.5"].

(** ** The wallet secret *)

(** The bytes that [load_wallet_from_file] decodes from the file: those of
    the JSON array when the text is one, those of the base-58 text
    otherwise; [None] when there is no file, no reading, no text or no
    decoding. *)
Definition decoded_secret (json_loads : string -> Exception + Json)
    (b58decode : string -> option (list Byte.byte)) (file : FileRead string)
    : option (list Byte.byte) :=
  match file with
  | FileMissing | FileUnreadable _ => None
  | FileText text =>
      let raw := Text.strip text in
      if bool_decide (raw = EmptyString) then None
      else match try_json_loads json_loads raw with
           | inl _ => None
           | inr (Some (JList data)) =>
               match bytes_of_json data with
               | inr secret_bytes => Some secret_bytes
               | inl _ => None
               end
           | inr _ => b58decode raw
           end
  end.

(** Stand-ins for the libraries in the examples: two JSON texts are known,
    a seed of 32 bytes and an array of 3 bytes; base-58 decoding knows one
    text, of 64 bytes; every secret makes a key pair. *)
Definition no_json : Exception := Raise ClsJSONDecodeError (MLibrary "Expecting value") None.

Definition example_json_loads (raw : string) : Exception + Json :=
  if bool_decide (raw = "[seed]") then inr (JList (replicate 32 (JInt 7)))
  else if bool_decide (raw = "[1, 2, 3]") then inr (JList [JInt 1; JInt 2; JInt 3])
  else inl no_json.

Definition example_b58decode (raw : string) : option (list Byte.byte) :=
  if bool_decide (raw = "key") then Some (replicate 64 Byte.x01) else None.

Definition example_keypair (secret : list Byte.byte) : option Keypair :=
  Some {| keypair_secret := secret; pubkey := "PAYER" |}.

(** ** Balances *)

Definition zero_balance : Decimal := DFinite false 0 0.

(** The balance recorded for one entry of an answer: zero for an account
    that the ledger does not know. *)
Definition reported_balance (account : option Account) : Decimal :=
  match account with
  | None => zero_balance
  | Some account => lamports_to_sol (account_lamports account)
  end.

(** An answered query for the accounts of one page. *)
Definition accounts_call (commitment : Commitment) (chunk : list string)
    (accounts : list (option Account)) : RpcCall :=
  {| call_request := GetMultipleAccounts chunk commitment;
     call_result := inr (AccountsResp accounts) |}.

(** The balances after the pages [chunks] have been answered with
    [answers], page by page. *)
Fixpoint record_pages (chunks : list (list string)) (answers : list (list (option Account)))
    (balances_unique : gmap string Decimal) : gmap string Decimal :=
  match chunks, answers with
  | chunk :: chunks', accounts :: answers' =>
      record_pages chunks' answers' (record_page chunk accounts balances_unique)
  | _, _ => balances_unique
  end.

(** A manager that asks for two accounts at a time, and a service that
    knows [B] only. *)
Definition balances_state : State Script :=
  snd (__init__ "https://api.devnet.solana.com" 10 1 (FFinite (1 # 2)) 2 10 (Some 200000) None
         [inr (AccountsResp [None; Some {| account_lamports := 1500000000 |}]);
          inr (AccountsResp [None])] 0).

(** * Further vocabulary *)

(** ** The pool *)

(** The endpoints of a list after stripping, blanks left out. *)
Definition stripped_endpoints (endpoints : list string) : list string :=
  List.filter (fun s => negb (bool_decide (s = EmptyString))) (map Text.strip endpoints).

(** [value if value is not None else current] *)
Definition or_current {T} (value : option T) (current : T) : T :=
  match value with
  | Some v => v
  | None => current
  end.

(** ** Retries over the pool *)

(** The trace of a call that went through [_perform]: the failed attempts,
    then the attempt that returned, if one did. *)
Definition perform_trace (m : Manager) (attempts : list (list RpcCall * Exception))
    (final : option (list RpcCall)) : list Event :=
  exhausting_trace m 0 attempts
  ++ match final with
     | Some calls => [EvAttempt (scheduled_client m (Z.of_nat (length attempts))) calls None]
     | None => []
     end.

(** ** Confirmation *)

(** The events of [n] polls that were answered at the first attempt, each
    followed by the sleep of the watcher. *)
Fixpoint pending_polls (c : Client) (call : RpcCall) (n : nat) : list Event :=
  match n with
  | O => []
  | S n' => EvAttempt c [call] None :: EvSleep poll_interval :: pending_polls c call n'
  end.

(** ** Recipients *)

(** The line number that a warning of the per-line loop names. *)
Definition warning_line (m : Message) : option Z :=
  match m with
  | MLineEmpty n | MAddressInvalid n _ | MAmountInvalid n _ | MNoAmount n => Some n
  | _ => None
  end.

(** A line that the reader skips: blank, or a comment. *)
Definition skipped_line (raw_line : string) : bool :=
  let line := Text.lstrip_bom (Text.strip raw_line) in
  bool_decide (line = EmptyString) || Text.starts_with_hash line.

(** ** Amounts *)

(** The whole lamports in the amount [c * 10^e] SOL: the amount times
    [10^9], rounded towards zero. *)
Definition whole_lamports (c e : Z) : Z :=
  if -9 <=? e then c * 10 ^ (e + 9) else c / 10 ^ (- 9 - e).

(** ** Mass payments *)

Definition is_transfer (i : Instruction) : bool :=
  match i with
  | Transfer _ _ _ => true
  | _ => false
  end.

(** The transfers of the transactions among [calls], in order. *)
Fixpoint submitted_transfers (calls : list RpcCall) : list Instruction :=
  match calls with
  | [] => []
  | c :: rest =>
      match call_request c with
      | SendTransaction tx _ _ => List.filter is_transfer (tx_instructions tx)
      | _ => []
      end ++ submitted_transfers rest
  end.

(** The transfer that pays one recipient. *)
Definition payment_to (payer : string) (r : Recipient) : Instruction :=
  Transfer payer (address r) (lamports r).

(** ** Airdrops *)

(** The number of attempts among the events of a run. *)
Fixpoint attempts_made (events : list Event) : nat :=
  match events with
  | [] => O
  | EvAttempt _ _ _ :: rest => S (attempts_made rest)
  | EvSleep _ :: rest => attempts_made rest
  end.

(** ** [request_airdrop] *)

(** [d] is a positive amount of [l] whole lamports, below [10^28]: a
    [Decimal] with at most nine decimals. *)
Definition plain_amount (d : Decimal) (l : Z) : Prop :=
  exists c e, d = DFinite false c e /\ -9 <= e /\ l = c * 10 ^ (e + 9) /\ 0 < l < 10 ^ 28.

(** The lamports of the requests that pay [total] in parts of at most
    [limit]: the limit as often as it fits with something left, then the
    rest. *)
Definition airdrop_amounts (total limit : Z) : list Z :=
  replicate (Z.to_nat ((total - 1) / limit)) limit
  ++ [total - (total - 1) / limit * limit].

(** One request, its confirmation and the pause before the next one, for
    each of [amounts] in turn. *)
Fixpoint airdrop_rounds {World}
    (rpc : Client -> Request -> World -> (Exception + Response) * World)
    (Signature_valid : string -> bool)
    (client_request_airdrop : Client -> string -> Z -> Commitment -> Remote World Response)
    (wallet : Keypair) (commitment : Commitment) (max_attempts : Z) (pause_seconds : Float)
    (amounts : list Z) (signatures : list string) (st : State World)
    : (AirdropError + list string) * State World :=
  match amounts with
  | [] => (inr signatures, st)
  | lamports :: rest =>
      match _request_airdrop_lamports client_request_airdrop (pubkey wallet) lamports
              commitment max_attempts pause_seconds st with
      | (inl e, st1) => (inl e, st1)
      | (inr signature, st1) =>
          match _await_confirmation rpc Signature_valid signature default_timeout_seconds
                  commitment st1 with
          | (inl e, st2) => (inl (Propagated e), st2)
          | (inr _, st2) =>
              match rest with
              | [] => (inr (signatures ++ [signature]), st2)
              | _ :: _ =>
                  match time_sleep pause_seconds st2 with
                  | (inl e, st3) => (inl (Propagated e), st3)
                  | (inr _, st3) =>
                      airdrop_rounds rpc Signature_valid client_request_airdrop wallet
                        commitment max_attempts pause_seconds rest
                        (signatures ++ [signature]) st3
                  end
              end
          end
      end
  end.

(** ** Examples *)

(** A manager on two endpoints with two retries per endpoint and a
    backoff of half a second, at time 0, talking to a scripted service. *)
Definition two_endpoint_state (w : Script) : State Script :=
  snd (set_rpc_pool ["https://a.example"; "https://b.example"] (Some 2) None None
         (snd (__init__ "https://api.devnet.solana.com" 10 3 (FFinite (1 # 2)) 95 10
                 (Some 200000) None w 0))).

(** The service refuses twice and then answers. *)
Definition third_time_lucky : State Script :=
  two_endpoint_state [inl refused; inl refused; inr (BlockhashResp "h")].

(** A status without error that is not yet confirmed, and a service that
    answers every call with it. *)
Definition pending_status : TxStatus :=
  {| err := None; confirmation_status := Some "processed"; confirmations := Some 0 |}.

Definition always_pending (c : Client) (req : Request) (w : unit)
    : (Exception + Response) * unit :=
  (inr (StatusesResp [Some pending_status]), w).

(** A file whose third line has an amount that is no number. *)
Definition file_with_bad_amount : list string := ["# payouts"; "A 1"; "B abc"; "C 2"].

(** A client whose [get_balance] answers one and a half SOL. *)
Definition answering_balance (c : Client) (public_key : string) (commitment : Commitment)
    : Remote Script Z :=
  fun w => ((inr 1500000000, []), w).

(** A JSON library that knows one text, an array with an entry that is
    no byte. *)
Definition json_with_bad_entry (raw : string) : Exception + Json :=
  if bool_decide (raw = "[1, 300]") then inr (JList [JInt 1; JInt 300]) else inl no_json.

(** What [read_text] raises for a directory. *)
Definition is_a_directory : Exception :=
  Raise ClsOSError (MLibrary "[Errno 21] Is a directory") None.

(** What [json.loads] raises for an integer of more digits than the
    interpreter converts, and a JSON library that meets one in every text. *)
Definition too_many_digits : Exception :=
  Raise ClsValueError (MLibrary "Exceeds the limit (4300 digits) for integer string conversion")
    None.

Definition json_over_the_limit (raw : string) : Exception + Json := inl too_many_digits.

(** The service answers two rounds: three recipients in chunks of two are
    all paid. *)
Definition two_rounds_state : State Script :=
  paying_state (round_answers "h1" "s1" ++ round_answers "h2" "s2").

(** An airdrop client that is refused once and then answers with a
    signature, whatever is asked. *)
Definition airdrop_client (c : Client) (public_key : string) (lamports : Z)
    (commitment : Commitment) : Remote Script Response :=
  fun w => match w with
           | r :: w' => ((r, []), w')
           | [] => ((inr (SignatureResp "airdrop"), []), [])
           end.

(** A faucet that grants every request with the same signature, and a
    service that reports every signature as confirmed. *)
Definition granting_faucet (c : Client) (public_key : string) (lamports : Z)
    (commitment : Commitment) : Remote unit Response :=
  fun w => ((inr (SignatureResp "airdrop"), []), w).

Definition confirming (c : Client) (req : Request) (w : unit)
    : (Exception + Response) * unit :=
  (inr (StatusesResp [Some confirmed_status]), w).

(** A manager on the default endpoint with the wallet loaded, talking to
    that service. *)
Definition granted_state : State unit :=
  let st := snd (__init__ "https://api.devnet.solana.com" 10 1 (FFinite (1 # 2)) 95 10
                   (Some 200000) None tt 0) in
  {| manager := set_wallet (Some example_wallet) (manager st);
     world := world st; clock := clock st; trace := trace st |}.

(** Five SOL, and the default limit of two SOL per request. *)
Definition five_sol : Decimal := DFinite false 5 0.
Definition two_sol : Decimal := DFinite false 20 (-1).

(** * Properties *)

Ltac run :=
  repeat (progress (unfold bind, self, assign, ret, raise, lift, log in *;
                    cbn [fst snd manager world clock trace] in *)).

(** ** Chunks *)

Section Chunks.
Context {T : Type}.
Implicit Types items : list T.

Lemma slices_are_pages items (size : Z) n :
  1 <= size ->
  forall j,
    map (fun index => slice items index size)
        (map (fun k => Z.of_nat k * size) (seq j n))
    = pages n (Z.to_nat size) (drop (j * Z.to_nat size)%nat items).
Proof.
  intros Hsize. induction n as [|n IH]; intros j; [reflexivity|].
  cbn [seq map pages]. f_equal.
  - unfold slice. f_equal. f_equal.
    rewrite Z2Nat.inj_mul, Nat2Z.id by lia. reflexivity.
  - rewrite IH, drop_drop. f_equal. f_equal. lia.
Qed.

Lemma chunk_pages items (size : Z) :
  1 <= size ->
  _chunk items size
  = inr (pages (page_count (Z.of_nat (length items)) size) (Z.to_nat size) items).
Proof.
  intros Hsize. unfold _chunk, py_range.
  assert ((size =? 0) = false) as -> by (apply Z.eqb_neq; lia).
  assert ((size <? 0) = false) as -> by (apply Z.ltb_ge; lia).
  rewrite (slices_are_pages items size _ Hsize 0%nat). reflexivity.
Qed.

Lemma pages_concat n s items :
  (length items <= n * s)%nat -> concat (pages n s items) = items.
Proof.
  revert items. induction n as [|n IH]; intros items Hlen.
  - destruct items; [reflexivity | simpl in Hlen; lia].
  - cbn [pages concat]. rewrite IH; [apply take_drop|].
    rewrite length_drop. lia.
Qed.

Lemma pages_length n s items : length (pages n s items) = n.
Proof. revert items. induction n as [|n IH]; intros items; simpl; [|rewrite IH]; reflexivity. Qed.

(** Every page is full except the last one, which is not empty. *)
Lemma pages_sizes n s items :
  (1 <= s)%nat -> (length items <= n * s)%nat -> (n * s < length items + s)%nat ->
  forall i page,
    pages n s items !! i = Some page ->
    (1 <= length page <= s)%nat /\ (S i < n -> length page = s)%nat.
Proof.
  intros Hs. revert items. induction n as [|n IH]; intros items Hup Hlow i page Hi; [done|].
  destruct i as [|i]; cbn in Hi.
  - injection Hi as <-. rewrite length_take. split; [nia|]. intros Hn. nia.
  - destruct n as [|n]; [done|].
    destruct (IH (drop s items)) with (i := i) (page := page) as [H1 H2];
      try (rewrite length_drop; nia); [exact Hi|].
    split; [exact H1 | intros Hn; apply H2; lia].
Qed.

Lemma page_count_bounds (len size : Z) :
  0 <= len -> 1 <= size ->
  len <= Z.of_nat (page_count len size) * size < len + size.
Proof.
  intros Hlen Hsize. unfold page_count.
  rewrite Z2Nat.id by (apply Z.div_pos; lia).
  pose proof (Z.div_mod (len + size - 1) size ltac:(lia)).
  pose proof (Z.mod_pos_bound (len + size - 1) size ltac:(lia)).
  nia.
Qed.

(** [_chunk] cuts a list into consecutive chunks of [size] items, in
    order; only the last chunk can hold fewer, and no chunk is empty. *)
Lemma chunk_partition items (size : Z) :
  1 <= size ->
  exists chunks,
    _chunk items size = inr chunks
    /\ concat chunks = items
    /\ forall i chunk,
         chunks !! i = Some chunk ->
         1 <= Z.of_nat (length chunk) <= size
         /\ (S i < length chunks -> Z.of_nat (length chunk) = size)%nat.
Proof.
  intros Hsize. eexists. split; [apply chunk_pages, Hsize|].
  pose proof (page_count_bounds (Z.of_nat (length items)) size ltac:(lia) Hsize) as Hb.
  set (n := page_count (Z.of_nat (length items)) size) in *.
  assert (length items <= n * Z.to_nat size)%nat as Hup by nia.
  assert (n * Z.to_nat size < length items + Z.to_nat size)%nat as Hlow by nia.
  split; [apply pages_concat, Hup|].
  intros i chunk Hi. rewrite pages_length.
  destruct (pages_sizes n (Z.to_nat size) items ltac:(lia) Hup Hlow i chunk Hi) as [H1 H2].
  split; [lia|]. intros Hlt. specialize (H2 Hlt). lia.
Qed.

End Chunks.

(** ** Pool configuration *)

Section PoolConfiguration.
Context {World : Type}.
Implicit Types st : State World.

(** An empty pool is refused before anything is assigned. *)
Lemma set_rpc_pool_empty_unchanged st endpoints max_retries retry_backoff timeout' :
  clean_endpoints endpoints [] ∅ = [] ->
  set_rpc_pool endpoints max_retries retry_backoff timeout' st
  = (inl (Raise ClsValueError MNeedEndpoint None), st).
Proof. intros H. unfold set_rpc_pool. rewrite H. reflexivity. Qed.

(** So is a retry budget below one. *)
Lemma set_rpc_pool_bad_retries_unchanged st endpoints max_retries retry_backoff timeout' :
  clean_endpoints endpoints [] ∅ <> [] ->
  max_retries < 1 ->
  set_rpc_pool endpoints (Some max_retries) retry_backoff timeout' st
  = (inl (Raise ClsValueError MMaxRetriesAtLeastOne None), st).
Proof.
  intros Hne Hlt. unfold set_rpc_pool.
  destruct (clean_endpoints endpoints [] ∅) as [|first rest]; [done|].
  apply Z.ltb_lt in Hlt. run. rewrite Hlt. reflexivity.
Qed.

(** C2. A negative backoff given together with a valid retry budget is
    refused only after the new retry budget has been stored in the manager:
    the call fails and [max_retries_per_endpoint] has changed. *)
Theorem set_rpc_pool_stores_retries_before_refusing_backoff
    st endpoints max_retries retry_backoff timeout' :
  clean_endpoints endpoints [] ∅ <> [] ->
  1 <= max_retries ->
  float_lt_zero retry_backoff = true ->
  set_rpc_pool endpoints (Some max_retries) (Some retry_backoff) timeout' st
  = (inl (Raise ClsValueError MBackoffNegative None),
     {| manager := set_max_retries_per_endpoint max_retries (manager st);
        world := world st; clock := clock st; trace := trace st |}).
Proof.
  intros Hne Hge Hneg. unfold set_rpc_pool.
  destruct (clean_endpoints endpoints [] ∅) as [|first rest]; [done|].
  assert ((max_retries <? 1) = false) as -> by (apply Z.ltb_ge; lia).
  run. rewrite Hneg. reflexivity.
Qed.

(** A call of [set_rpc_pool] that returns leaves a pool that is in order,
    provided the retry budget and the backoff were in order before. *)
Lemma set_rpc_pool_ok st endpoints max_retries retry_backoff timeout' st' :
  1 <= max_retries_per_endpoint (manager st) ->
  float_lt_zero (retry_backoff_seconds (manager st)) = false ->
  set_rpc_pool endpoints max_retries retry_backoff timeout' st = (inr tt, st') ->
  pool_ok (manager st').
Proof.
  intros HR Hb. unfold set_rpc_pool.
  destruct (clean_endpoints endpoints [] ∅) as [|first rest]; [discriminate|].
  destruct st as [m w c tr]. destruct m. cbn in HR, Hb.
  destruct max_retries as [R|]; [destruct (R <? 1) eqn:HR'|];
    (destruct retry_backoff as [b|]; [destruct (float_lt_zero b) eqn:Hdec|]);
    destruct timeout' as [t|]; run; try rewrite HR'; run; try rewrite Hdec; run;
    try discriminate; intros H; injection H as <-;
    (split; cbn; [discriminate | try (apply Z.ltb_ge in HR'); lia | assumption
                 | lia | reflexivity | reflexivity]).
Qed.

(** So does the constructor. *)
Lemma init_ok endpoint' timeout' max_retries retry_backoff page_size batch_size limit price
    (w : World) now st :
  __init__ endpoint' timeout' max_retries retry_backoff page_size batch_size limit price w now
  = (inr tt, st) ->
  pool_ok (manager st) /\ 1 <= accounts_query_chunk (manager st)
  /\ 1 <= default_max_recipients_per_tx (manager st).
Proof.
  unfold __init__. intros H. split.
  - eapply set_rpc_pool_ok; [| |exact H]; cbn; [lia|].
    destruct retry_backoff as [b|[|]|]; cbn; try reflexivity.
    destruct (Qlt_le_dec 0 b) as [Hlt|_]; cbn; [|reflexivity].
    destruct (Qlt_le_dec b 0) as [Hneg|_]; [|reflexivity].
    exfalso. exact (Qlt_irrefl _ (Qlt_trans _ _ _ Hlt Hneg)).
  - unfold set_rpc_pool in H.
    destruct (clean_endpoints [endpoint'] [] ∅) as [|first rest]; [discriminate|].
    run. injection H as <-. cbn. lia.
Qed.

End PoolConfiguration.

(** ** Retries over the pool *)

Section Retries.
Context {World : Type}.
Implicit Types st : State World.

(** A length that is not negative has no negative number of nanoseconds. *)
Lemma sleep_nanoseconds_nonneg (d : Q) : (0 <= d)%Q -> 0 <= sleep_nanoseconds d.
Proof.
  intros Hd. unfold sleep_nanoseconds.
  destruct (Qlt_le_dec d 0) as [Hneg|_]; [exfalso; exact (Qlt_not_le _ _ Hneg Hd)|].
  assert (0 <= d * 1000000000)%Q as Hp by (apply Qmult_le_0_compat; [exact Hd | discriminate]).
  pose proof (Qle_ceiling (d * 1000000000)) as Hc.
  pose proof (Qle_trans _ _ _ Hp Hc) as H0.
  change 0%Q with (inject_Z 0) in H0. rewrite <- Zle_Qle in H0. exact H0.
Qed.

Lemma sleep_nanoseconds_neg (d : Q) : (d < 0)%Q -> sleep_nanoseconds d < 0.
Proof.
  intros Hd. unfold sleep_nanoseconds.
  destruct (Qlt_le_dec d 0) as [_|Hge]; [|exfalso; exact (Qlt_not_le _ _ Hd Hge)].
  assert (d * 1000000000 < 0)%Q as Hp.
  { rewrite <- (Qmult_0_l 1000000000). apply Qmult_lt_compat_r; [reflexivity | exact Hd]. }
  pose proof (Qfloor_le (d * 1000000000)) as Hf.
  pose proof (Qle_lt_trans _ _ _ Hf Hp) as H0.
  change 0%Q with (inject_Z 0) in H0. rewrite <- Zlt_Qlt in H0. exact H0.
Qed.

Lemma sleep_nanoseconds_mono (d d' : Q) :
  (0 <= d)%Q -> (d <= d')%Q -> sleep_nanoseconds d <= sleep_nanoseconds d'.
Proof.
  intros Hd Hle. unfold sleep_nanoseconds.
  destruct (Qlt_le_dec d 0) as [Hneg|_]; [exfalso; exact (Qlt_not_le _ _ Hneg Hd)|].
  destruct (Qlt_le_dec d' 0) as [Hneg|_];
    [exfalso; exact (Qlt_not_le _ _ Hneg (Qle_trans _ _ _ Hd Hle))|].
  apply Qceiling_resp_le. apply Qmult_le_compat_r; [exact Hle | discriminate].
Qed.

(** A length that is taken is slept: the clock moves on by it and the
    sleep enters the trace. *)
Lemma sleep_taken_runs (d : Float) st :
  sleep_taken d ->
  time_sleep d st
  = (inr tt, log (EvSleep (seconds_of d))
               {| manager := manager st; world := world st;
                  clock := (clock st + seconds_of d)%Q; trace := trace st |}).
Proof.
  destruct d as [seconds| |]; cbn [sleep_taken]; [|done|done].
  intros [Hd Hns]. pose proof (sleep_nanoseconds_nonneg seconds Hd) as H0.
  unfold time_sleep. cbn [seconds_of].
  assert ((sleep_nanoseconds seconds <? - 2 ^ 63) = false) as -> by (apply Z.ltb_ge; lia).
  assert ((2 ^ 63 <=? sleep_nanoseconds seconds) = false) as -> by (apply Z.leb_gt; lia).
  assert ((sleep_nanoseconds seconds <? 0) = false) as -> by (apply Z.ltb_ge; lia).
  reflexivity.
Qed.

(** When a multiple of a length is taken, so is every smaller multiple. *)
Lemma scaled_sleep_taken (b : Float) (k n : Z) :
  sleep_taken (float_mul_int b n) -> 1 <= k <= n ->
  sleep_taken (float_mul_int b k)
  /\ seconds_of (float_mul_int b k) = (seconds_of b * inject_Z k)%Q.
Proof.
  destruct b as [seconds|negative|]; cbn [float_mul_int sleep_taken seconds_of].
  - intros [Hd Hns] Hk. split; [|reflexivity].
    assert (0 <= seconds)%Q as Hs.
    { destruct (Qlt_le_dec seconds 0) as [Hneg|Hge]; [|exact Hge]. exfalso.
      apply (Qlt_not_le _ _ Hneg).
      assert (0 < inject_Z n)%Q as Hpos
        by (change 0%Q with (inject_Z 0); rewrite <- Zlt_Qlt; lia).
      apply (Qmult_le_r _ _ _ Hpos). rewrite Qmult_0_l. exact Hd. }
    assert (0 <= seconds * inject_Z k)%Q as Hk0.
    { apply Qmult_le_0_compat; [exact Hs|].
      change 0%Q with (inject_Z 0). rewrite <- Zle_Qle. lia. }
    split; [exact Hk0|].
    etransitivity; [|exact Hns]. apply sleep_nanoseconds_mono; [exact Hk0|].
    rewrite !(Qmult_comm seconds). apply Qmult_le_compat_r; [|exact Hs].
    rewrite <- Zle_Qle. lia.
  - destruct (n =? 0); intros [].
  - intros [].
Qed.

(** When the longest backoff sleep of a run is taken, so is every one of
    them. *)
Lemma backoff_sleep_taken (b : Float) (k n : Z) :
  sleep_taken (float_mul_int b (Z.min n 4)) -> 1 <= k <= n ->
  sleep_taken (float_mul_int b (Z.min k 4))
  /\ seconds_of (float_mul_int b (Z.min k 4)) = (seconds_of b * inject_Z (Z.min k 4))%Q.
Proof. intros Hn Hk. apply (scaled_sleep_taken b (Z.min k 4) (Z.min n 4) Hn). lia. Qed.

Lemma scheduled_index_range m k :
  rpc_endpoints m <> [] -> 0 <= scheduled_index m k < Z.of_nat (length (rpc_endpoints m)).
Proof.
  intros Hne. unfold scheduled_index. apply Z.mod_pos_bound.
  destruct (rpc_endpoints m); [done | simpl; lia].
Qed.

(** The fields that rotation leaves alone. *)
Lemma rotated_fields m k :
  rpc_endpoints (rotated m k) = rpc_endpoints m
  /\ max_retries_per_endpoint (rotated m k) = max_retries_per_endpoint m
  /\ retry_backoff_seconds (rotated m k) = retry_backoff_seconds m
  /\ timeout (rotated m k) = timeout m
  /\ client (rotated m k) = scheduled_client m k
  /\ _current_endpoint_index (rotated m k) = scheduled_index m k.
Proof. destruct m; repeat split. Qed.

Lemma rotated_0 m : pool_ok m -> rotated m 0 = m.
Proof.
  intros [Hne HR Hb Hi He Hc]. unfold rotated, scheduled_client, scheduled_index.
  rewrite Z.div_0_l by lia. rewrite Z.add_0_r, Z.mod_small by lia.
  rewrite <- He, <- Hc. destruct m; reflexivity.
Qed.

Lemma scheduled_index_wraps m :
  pool_ok m ->
  scheduled_index m (Z.of_nat (length (rpc_endpoints m)) * max_retries_per_endpoint m)
  = scheduled_index m 0.
Proof.
  intros [Hne HR Hb Hi He Hc]. unfold scheduled_index.
  rewrite Z.div_mul by lia. rewrite Z.div_0_l by lia.
  rewrite Z.add_0_r.
  rewrite <- (Z.mul_1_l (Z.of_nat (length (rpc_endpoints m)))) at 1.
  rewrite Z.mod_add by lia. reflexivity.
Qed.

Lemma rotated_full_cycle m :
  pool_ok m ->
  rotated m (Z.of_nat (length (rpc_endpoints m)) * max_retries_per_endpoint m) = m.
Proof.
  intros Hok. transitivity (rotated m 0); [|apply rotated_0; exact Hok].
  unfold rotated, scheduled_client. rewrite (scheduled_index_wraps m Hok). reflexivity.
Qed.

(** One failed attempt more without a rotation. *)
Lemma rotated_same_endpoint m k :
  1 <= max_retries_per_endpoint m -> 0 <= k ->
  (k + 1) mod max_retries_per_endpoint m <> 0 ->
  rotated m (k + 1) = rotated m k.
Proof.
  intros HR Hk Hmod.
  assert ((k + 1) / max_retries_per_endpoint m = k / max_retries_per_endpoint m) as Hdiv.
  { pose proof (Z.div_mod (k + 1) (max_retries_per_endpoint m) ltac:(lia)) as H1.
    pose proof (Z.div_mod k (max_retries_per_endpoint m) ltac:(lia)) as H2.
    pose proof (Z.mod_pos_bound (k + 1) (max_retries_per_endpoint m) ltac:(lia)).
    pose proof (Z.mod_pos_bound k (max_retries_per_endpoint m) ltac:(lia)).
    nia. }
  unfold rotated, scheduled_client, scheduled_index. rewrite Hdiv. reflexivity.
Qed.

(** One failed attempt more with a rotation: the index moves on by one. *)
Lemma scheduled_index_next m k :
  1 <= max_retries_per_endpoint m -> 0 <= k ->
  (k + 1) mod max_retries_per_endpoint m = 0 ->
  scheduled_index m (k + 1)
  = (scheduled_index m k + 1) mod Z.of_nat (length (rpc_endpoints m)).
Proof.
  intros HR Hk Hmod.
  assert ((k + 1) / max_retries_per_endpoint m = k / max_retries_per_endpoint m + 1) as Hdiv.
  { pose proof (Z.div_mod (k + 1) (max_retries_per_endpoint m) ltac:(lia)) as H1.
    pose proof (Z.div_mod k (max_retries_per_endpoint m) ltac:(lia)) as H2.
    pose proof (Z.mod_pos_bound k (max_retries_per_endpoint m) ltac:(lia)).
    nia. }
  unfold scheduled_index. rewrite Hdiv, Z.add_assoc.
  rewrite Zplus_mod_idemp_l. reflexivity.
Qed.

(** A pool of one endpoint never rotates. *)
Lemma rotated_single m k :
  Z.of_nat (length (rpc_endpoints m)) = 1 -> rotated m (k + 1) = rotated m k.
Proof.
  intros HN. unfold rotated, scheduled_client, scheduled_index.
  rewrite HN, !Z.mod_1_r. reflexivity.
Qed.

Lemma endpoint_at_lookup pool i :
  0 <= i < Z.of_nat (length pool) -> pool !! Z.to_nat i = Some (endpoint_at pool i).
Proof.
  intros Hi. unfold endpoint_at.
  destruct (nth_lookup_or_length pool (Z.to_nat i) EmptyString) as [H|H]; [exact H|].
  exfalso. apply Nat2Z.inj_le in H. rewrite Z2Nat.id in H; lia.
Qed.

(** [_rotate_endpoint] moves the manager from [rotated m k] to
    [rotated m (k + 1)] when attempt [k + 1] completes a round. *)
Lemma rotate_endpoint_step st m k :
  pool_ok m -> 0 <= k ->
  1 < Z.of_nat (length (rpc_endpoints m)) ->
  (k + 1) mod max_retries_per_endpoint m = 0 ->
  manager st = rotated m k ->
  _rotate_endpoint st
  = (inr tt, {| manager := rotated m (k + 1); world := world st;
                clock := clock st; trace := trace st |}).
Proof.
  intros Hok Hk HN Hmod Hm. pose proof Hok as [Hne HR Hb Hi He Hc].
  destruct (rotated_fields m k) as (Hp & _ & _ & Ht & _ & Hidx).
  unfold _rotate_endpoint. run. rewrite Hm, Hp.
  assert ((Z.of_nat (length (rpc_endpoints m)) <=? 1) = false) as -> by (apply Z.leb_gt; lia).
  run. rewrite Hm.
  replace (_current_endpoint_index
             (set_current_endpoint_index
                ((_current_endpoint_index (rotated m k) + 1)
                 mod Z.of_nat (length (rpc_endpoints m))) (rotated m k)))
    with (scheduled_index m (k + 1)).
  2:{ rewrite Hidx, (scheduled_index_next m k) by (assumption || lia).
      destruct m; reflexivity. }
  rewrite (endpoint_at_lookup (rpc_endpoints m)) by (apply scheduled_index_range; assumption).
  run. f_equal.
  rewrite Hidx, <- (scheduled_index_next m k) by (assumption || lia).
  destruct m; reflexivity.
Qed.

Section AlwaysFailing.
Context {T : Type} (func : Client -> Remote World T).
Hypothesis func_fails : forall c w, exists e calls w', func c w = ((inl e, calls), w').

Lemma perform_loop_exhausts m (Hok : pool_ok m)
    (Hsleep : sleep_taken
                (float_mul_int (retry_backoff_seconds m)
                   (Z.min (Z.of_nat (length (rpc_endpoints m)) * max_retries_per_endpoint m) 4)))
    remaining :
  forall k st last_error,
    0 <= k ->
    k + Z.of_nat remaining = Z.of_nat (length (rpc_endpoints m)) * max_retries_per_endpoint m ->
    manager st = rotated m k ->
    exists attempts st',
      _perform_loop func (Z.of_nat (length (rpc_endpoints m)))
        (Z.of_nat (length (rpc_endpoints m)) * max_retries_per_endpoint m)
        remaining k last_error st
      = (inl (Raise ClsRuntimeError
                (MRetryExhausted
                   (Z.of_nat (length (rpc_endpoints m)) * max_retries_per_endpoint m)
                   (rpc_endpoints m)
                   (exn_message <$> last_raised attempts last_error))
                (last_raised attempts last_error)), st')
      /\ length attempts = remaining
      /\ manager st' = m
      /\ trace st' = trace st ++ exhausting_trace m k attempts.
Proof.
  pose proof Hok as [Hne HR Hb Hi He Hc].
  induction remaining as [|remaining IH]; intros k st last_error Hk Hsum Hm.
  - exists [], st. cbn [_perform_loop]. run.
    destruct (rotated_fields m k) as (Hp & _).
    rewrite Hm, Hp. repeat split.
    + replace k with (Z.of_nat (length (rpc_endpoints m)) * max_retries_per_endpoint m) by lia.
      apply rotated_full_cycle, Hok.
    + cbn. rewrite app_nil_r. reflexivity.
  - destruct (rotated_fields m k) as (Hp & HRk & Hbk & Ht & Hcl & Hidx).
    cbn [_perform_loop]. run. unfold invoke. run. rewrite Hm, Hcl.
    destruct (func_fails (scheduled_client m k) (world st)) as (e & calls & w' & Hf).
    rewrite Hf. run. rewrite Hbk.
    destruct (backoff_sleep_taken _ (k + 1) _ Hsleep ltac:(lia)) as [Htaken Hseconds].
    rewrite (sleep_taken_runs _ _ Htaken), Hseconds. run. rewrite HRk.
    match goal with
    | |- context [(if _ then _rotate_endpoint else _) ?s] => set (st1 := s)
    end.
    assert (exists st2, (if (1 <? Z.of_nat (length (rpc_endpoints m)))
                            && ((k + 1) mod max_retries_per_endpoint m =? 0)
                         then _rotate_endpoint else fun st => (inr tt, st)) st1 = (inr tt, st2)
                        /\ manager st2 = rotated m (k + 1)
                        /\ trace st2 = trace st1) as (st2 & Hrot & Hm2 & Htr2).
    { destruct ((1 <? Z.of_nat (length (rpc_endpoints m)))
                && ((k + 1) mod max_retries_per_endpoint m =? 0)) eqn:Hcond.
      - apply andb_true_iff in Hcond as [HN Hmod].
        apply Z.ltb_lt in HN. apply Z.eqb_eq in Hmod.
        eexists. split; [apply (rotate_endpoint_step st1 m k); try assumption; reflexivity|].
        split; reflexivity.
      - exists st1. split; [reflexivity|]. split; [|reflexivity].
        subst st1. cbn. symmetry.
        apply andb_false_iff in Hcond as [HN|Hmod].
        + apply rotated_single. apply Z.ltb_ge in HN.
          destruct (rpc_endpoints m); [done | simpl in *; lia].
        + apply rotated_same_endpoint; [exact HR | exact Hk |].
          apply Z.eqb_neq. exact Hmod. }
    rewrite Hrot.
    destruct (IH (k + 1) st2 (Some e)) as (attempts & st' & Hloop & Hlen & Hm' & Htr');
      [lia | lia | exact Hm2 |].
    exists ((calls, e) :: attempts), st'. rewrite Hloop.
    repeat split; [simpl; congruence | exact Hm' |].
    rewrite Htr', Htr2. subst st1. cbn. rewrite <- !app_assoc. reflexivity.
Qed.

Lemma last_raised_last attempts before :
  last_raised attempts before
  = match last attempts with Some (_, e) => Some e | None => before end.
Proof.
  revert before. induction attempts as [|[calls e] rest IH]; intros before; [reflexivity|].
  cbn [last_raised]. rewrite IH. destruct rest as [|[calls' e'] rest]; [reflexivity|].
  change (last ((calls, e) :: (calls', e') :: rest)) with (last ((calls', e') :: rest)).
  destruct (last ((calls', e') :: rest)) as [[? ?]|] eqn:Hlast; [reflexivity|].
  by apply last_None in Hlast.
Qed.

(** C5 (as amended). On a manager whose pool holds N endpoints, with R
    retries per endpoint and a backoff b whose longest sleep of the run,
    [b * min(N * R, 4)], is one that [time.sleep] takes, an operation that
    fails on every attempt is attempted exactly N * R times: attempt number
    k (counted from 1) is made on the pool entry [(i + (k - 1) / R) mod N],
    where [i] is the index active at the start, so the active endpoint moves
    to the next entry, wrapping, after every R attempts; every attempt is
    followed by a sleep of [b * min(k, 4)]; and [_perform] raises the
    RuntimeError of the exhausted budget, carrying the exception of the last
    attempt as its cause and in its message. *)
Theorem perform_exhausts_pool st :
  pool_ok (manager st) ->
  let N := Z.of_nat (length (rpc_endpoints (manager st))) in
  let R := max_retries_per_endpoint (manager st) in
  sleep_taken (float_mul_int (retry_backoff_seconds (manager st)) (Z.min (N * R) 4)) ->
  exists attempts calls e st',
    _perform func st
    = (inl (Raise ClsRuntimeError
              (MRetryExhausted (N * R) (rpc_endpoints (manager st)) (Some (exn_message e)))
              (Some e)), st')
    /\ Z.of_nat (length attempts) = N * R
    /\ last attempts = Some (calls, e)
    /\ trace st' = trace st ++ exhausting_trace (manager st) 0 attempts
    /\ manager st' = manager st.
Proof.
  intros Hok N R Hsleep. pose proof Hok as [Hne HR Hb Hi He Hc].
  assert (1 <= N) as HN by (subst N; destruct (rpc_endpoints (manager st)); [done | simpl; lia]).
  destruct (perform_loop_exhausts (manager st) Hok Hsleep (Z.to_nat (N * R)) 0 st None)
    as (attempts & st' & Hloop & Hlen & Hm & Htr).
  { lia. }
  { subst N R. rewrite Z2Nat.id; nia. }
  { symmetry. apply rotated_0, Hok. }
  assert (Z.of_nat (length attempts) = N * R) as Hlen' by (rewrite Hlen, Z2Nat.id; nia).
  destruct (last attempts) as [[calls e]|] eqn:Hlast.
  2:{ apply last_None in Hlast. subst attempts. simpl in Hlen'. nia. }
  exists attempts, calls, e, st'.
  rewrite last_raised_last, Hlast in Hloop.
  subst N R. unfold _perform. run. rewrite Hloop. auto.
Qed.

End AlwaysFailing.

End Retries.

(** ** Runs and their traces *)

Section Runs.
Context {World : Type}.
Variable rpc : Client -> Request -> World -> (Exception + Response) * World.
Implicit Types st : State World.

Lemma bind_inv {T U} (m : M World T) (k : T -> M World U) st r st' :
  bind m k st = (r, st') ->
  (exists e, m st = (inl e, st') /\ r = inl e)
  \/ (exists x st1, m st = (inr x, st1) /\ k x st1 = (r, st')).
Proof.
  unfold bind. destruct (m st) as [[e|x] st1]; intros H.
  - left. exists e. by injection H as <- <-.
  - right. by exists x, st1.
Qed.

Lemma lift_inv {T} (v : Exception + T) st r st' :
  lift v st = (r, st') -> r = v /\ st' = st.
Proof. destruct v; unfold lift, raise, ret; intros H; by injection H as <- <-. Qed.

Lemma successful_calls_app evs1 evs2 :
  successful_calls (evs1 ++ evs2) = successful_calls evs1 ++ successful_calls evs2.
Proof.
  induction evs1 as [|[c calls raised|d] evs1 IH]; cbn; [reflexivity| |exact IH].
  rewrite IH. apply app_assoc.
Qed.

Lemma steps_refl st : steps st st [].
Proof. repeat split; [apply Qle_refl | symmetry; apply app_nil_r]. Qed.

Lemma steps_trans st st1 st2 evs1 evs2 :
  steps st st1 evs1 -> steps st1 st2 evs2 -> steps st st2 (evs1 ++ evs2).
Proof.
  intros (Hs1 & Hc1 & Ht1) (Hs2 & Hc2 & Ht2). repeat split.
  - congruence.
  - eapply Qle_trans; eassumption.
  - rewrite Ht2, Ht1. symmetry. apply app_assoc.
Qed.

Lemma rotate_endpoint_steps st r st' :
  _rotate_endpoint st = (r, st') -> steps st st' [].
Proof.
  unfold _rotate_endpoint. run.
  destruct (Z.of_nat (length (rpc_endpoints (manager st))) <=? 1).
  - intros H. injection H as <- <-. apply steps_refl.
  - run. destruct (rpc_endpoints (manager st) !! _); run; intros H; injection H as <- <-.
    + repeat split; cbn; [destruct (manager st); reflexivity | apply Qle_refl
                         | symmetry; apply app_nil_r].
    + repeat split; cbn; [destruct (manager st); reflexivity | apply Qle_refl
                         | symmetry; apply app_nil_r].
Qed.

Lemma time_sleep_steps d st r st' :
  time_sleep d st = (r, st') ->
  (r = inr tt /\ steps st st' [EvSleep (seconds_of d)]) \/ (exists e, r = inl e /\ st' = st).
Proof.
  unfold time_sleep. destruct d as [seconds|negative|].
  - destruct ((sleep_nanoseconds seconds <? - 2 ^ 63) || (2 ^ 63 <=? sleep_nanoseconds seconds));
      [intros H; injection H as <- <-; right; eauto|].
    destruct (sleep_nanoseconds seconds <? 0) eqn:Hns; intros H; injection H as <- <-;
      [right; eauto|].
    left. split; [reflexivity|]. repeat split; cbn.
    rewrite <- (Qplus_0_r (clock st)) at 1. apply Qplus_le_r.
    destruct (Qlt_le_dec seconds 0) as [Hneg|Hpos]; [|exact Hpos].
    apply sleep_nanoseconds_neg in Hneg. apply Z.ltb_ge in Hns. lia.
  - intros H; injection H as <- <-; right; eauto.
  - intros H; injection H as <- <-; right; eauto.
Qed.

(** A call through [_perform]: whatever the outcome, the trace grows by
    the attempts and sleeps made, among which the only answered call is the
    one whose answer is returned. *)
Lemma perform_loop_call req total_endpoints max_attempts remaining :
  forall attempts last_error st r st',
    _perform_loop (fun c => client_call rpc c req)
      total_endpoints max_attempts remaining attempts last_error st = (r, st') ->
    exists evs,
      steps st st' evs
      /\ successful_calls evs
         = match r with
           | inr resp => [{| call_request := req; call_result := inr resp |}]
           | inl _ => []
           end.
Proof.
  induction remaining as [|remaining IH]; intros attempts last_error st r st'.
  - cbn [_perform_loop]. run. intros H. injection H as <- <-.
    exists []. split; [apply steps_refl | reflexivity].
  - cbn [_perform_loop]. run. unfold invoke, client_call. run.
    destruct (rpc (client (manager st)) req (world st)) as [[e|resp] w'] eqn:Hrpc; run.
    + set (st0 := {| manager := manager st; world := w'; clock := clock st;
                     trace := trace st ++ _ |}).
      assert (steps st st0 [EvAttempt (client (manager st))
                              [{| call_request := req; call_result := inl e |}] (Some e)])
        as Hst0 by (repeat split; apply Qle_refl).
      destruct (time_sleep _ st0) as [[e1|[]] st1] eqn:Hsleep.
      * intros H. injection H as <- <-.
        apply time_sleep_steps in Hsleep as [[? _]|(e2 & _ & ->)]; [done|].
        eexists. split; [exact Hst0 | reflexivity].
      * apply time_sleep_steps in Hsleep as [[_ Hst1]|(e2 & ? & _)]; [|done].
        match goal with
        | |- context [(if ?c then _rotate_endpoint else _) st1] =>
            destruct ((if c then _rotate_endpoint else fun st => (inr tt, st)) st1)
              as [[e2|[]] st2] eqn:Hrot
        end.
        -- intros H. injection H as <- <-.
           assert (steps st1 st2 []) as Hst2.
           { destruct (_ && _) in Hrot; [eapply rotate_endpoint_steps, Hrot|].
             injection Hrot as _ <-. apply steps_refl. }
           eexists. split; [eapply steps_trans; [eapply steps_trans|]; eassumption|].
           reflexivity.
        -- intros Hloop.
           assert (steps st1 st2 []) as Hst2.
           { destruct (_ && _) in Hrot; [eapply rotate_endpoint_steps, Hrot|].
             injection Hrot as <-. apply steps_refl. }
           destruct (IH _ _ _ _ _ Hloop) as (evs & Hevs & Hcalls).
           eexists. split.
           { eapply steps_trans; [eapply steps_trans; [eapply steps_trans|]|]; eassumption. }
           rewrite !successful_calls_app, Hcalls. reflexivity.
    + intros H. injection H as <- <-.
      eexists [EvAttempt _ _ None]. split; [repeat split; apply Qle_refl | reflexivity].
Qed.

Lemma perform_call req st r st' :
  _perform (fun c => client_call rpc c req) st = (r, st') ->
  exists evs,
    steps st st' evs
    /\ successful_calls evs
       = match r with
         | inr resp => [{| call_request := req; call_result := inr resp |}]
         | inl _ => []
         end.
Proof. unfold _perform. run. apply perform_loop_call. Qed.

Tactic Notation "bind_step" hyp(H) "as" ident(x) ident(st1) ident(Hm) :=
  let Heq := fresh "Heq" in
  apply bind_inv in H as [(? & Hm & Heq)|(x & st1 & Hm & H)];
  [try discriminate Heq; try subst|].

Lemma payment_calls_app evs1 evs2 :
  payment_calls (evs1 ++ evs2) = payment_calls evs1 ++ payment_calls evs2.
Proof. unfold payment_calls. rewrite successful_calls_app. apply List.filter_app. Qed.

Variable Signature_valid : string -> bool.

(** The wait for a confirmation only asks for the status of its
    signature. *)
Lemma await_loop_steps signature timeout_seconds deadline fuel :
  forall last_status st r st',
    _await_loop rpc fuel signature timeout_seconds deadline last_status st = (r, st') ->
    exists evs,
      steps st st' evs
      /\ Forall (fun c => call_request c = GetSignatureStatuses [signature])
                (successful_calls evs).
Proof.
  induction fuel as [|fuel IH]; intros last_status st r st' H; cbn [_await_loop] in H.
  - unfold bind, time_time, raise in H.
    exists []. split; [|constructor].
    destruct (Qlt_le_dec _ _); injection H as <- <-; apply steps_refl.
  - unfold bind at 1 in H. unfold time_time in H.
    destruct (Qlt_le_dec (clock st) deadline) as [Hlt|Hge].
    2:{ injection H as <- <-. exists []. split; [apply steps_refl | constructor]. }
    bind_step H as response st1 Hm.
    { apply perform_call in Hm as (evs & Hsteps & Hcalls).
      exists evs. split; [exact Hsteps|]. rewrite Hcalls. constructor. }
    apply perform_call in Hm as (evs & Hsteps & Hcalls).
    assert (Forall (fun c => call_request c = GetSignatureStatuses [signature])
                   (successful_calls evs)) as Hevs.
    { rewrite Hcalls. repeat constructor. }
    bind_step H as status st2 Hl.
    { apply lift_inv in Hl as [_ ->]. eauto. }
    apply lift_inv in Hl as [_ ->].
    assert (forall last r st',
              bind (time_sleep (FFinite poll_interval))
                (fun _ => _await_loop rpc fuel signature timeout_seconds deadline last) st1
              = (r, st') ->
            exists evs0, steps st st' evs0
              /\ Forall (fun c => call_request c = GetSignatureStatuses [signature])
                        (successful_calls evs0)) as Hnext.
    { intros last r0 st0 Hs. bind_step Hs as u st3 Hsl.
      - apply time_sleep_steps in Hsl as [[? _]|(e1 & _ & ->)]; [done|]. eauto.
      - apply time_sleep_steps in Hsl as [[_ Hsl]|(e1 & ? & _)]; [|done].
        destruct (IH _ _ _ _ Hs) as (evs1 & Hst1 & Hev1).
        exists (evs ++ [EvSleep poll_interval] ++ evs1). split.
        + eapply steps_trans; [eassumption|]. eapply steps_trans; eassumption.
        + rewrite !successful_calls_app. cbn. apply Forall_app. split; assumption. }
    destruct status as [status|]; [|exact (Hnext _ _ _ H)].
    destruct (err status).
    { injection H as <- <-. eauto. }
    destruct (match confirmation_status status with
              | Some level => named_level_accepted level
              | None => false
              end).
    { injection H as <- <-. eauto. }
    destruct (match confirmations status with
              | Some n => 0 <? n
              | None => false
              end).
    { injection H as <- <-. eauto. }
    exact (Hnext _ _ _ H).
Qed.

Lemma await_confirmation_steps signature timeout_seconds commitment st r st' :
  _await_confirmation rpc Signature_valid signature timeout_seconds commitment st = (r, st') ->
  exists evs, steps st st' evs /\ payment_calls evs = [].
Proof.
  unfold _await_confirmation. unfold bind at 1. unfold time_time.
  destruct (negb (Signature_valid signature)).
  - intros H. injection H as <- <-. exists []. split; [apply steps_refl | reflexivity].
  - intros H. apply await_loop_steps in H as (evs & Hsteps & Hcalls).
    exists evs. split; [exact Hsteps|].
    unfold payment_calls. induction Hcalls as [|c calls Hc _ IH]; [reflexivity|].
    cbn. rewrite Hc. exact IH.
Qed.

Variable Pubkey_valid : string -> bool.

(** One iteration of the payment loop that returns a signature made one
    blockhash query and one submission, of a transaction built on the
    blockhash just returned. *)
Lemma send_chunk_round wallet chunk skip_preflight commitment limit price st signature st' :
  send_chunk rpc Pubkey_valid Signature_valid wallet chunk skip_preflight commitment
    limit price st = (inr signature, st') ->
  exists evs instructions blockhash response,
    steps st st' evs
    /\ build_instructions Pubkey_valid wallet chunk
         (or_default limit (default_compute_unit_limit (manager st)))
         (or_default price (default_compute_unit_price (manager st))) = inr instructions
    /\ _extract_signature response = inr signature
    /\ payment_calls evs
       = [{| call_request := GetLatestBlockhash commitment;
             call_result := inr (BlockhashResp blockhash) |};
          {| call_request :=
               SendTransaction {| tx_instructions := instructions;
                                  tx_payer := pubkey wallet;
                                  tx_signers := [wallet];
                                  tx_blockhash := blockhash |}
                               skip_preflight commitment;
             call_result := inr response |}].
Proof.
  unfold send_chunk. intros H.
  unfold bind at 1 in H. unfold self at 1 in H.
  unfold bind at 1 in H. unfold self at 1 in H.
  bind_step H as instructions st1 Hm. apply lift_inv in Hm as [Hbuild ->].
  bind_step H as blockhash_resp st2 Hm.
  apply perform_call in Hm as (evs1 & Hst1 & Hc1).
  bind_step H as blockhash st3 Hm. apply lift_inv in Hm as [Hhash ->].
  bind_step H as response st4 Hm.
  apply perform_call in Hm as (evs2 & Hst2 & Hc2).
  bind_step H as signature' st5 Hm. apply lift_inv in Hm as [Hsig ->].
  bind_step H as u st6 Hm.
  apply await_confirmation_steps in Hm as (evs3 & Hst3 & Hc3).
  unfold ret in H. injection H as <- <-.
  destruct blockhash_resp; try discriminate Hhash. injection Hhash as <-.
  exists (evs1 ++ evs2 ++ evs3), instructions, blockhash, response.
  split; [eapply steps_trans; [eassumption|]; eapply steps_trans; eassumption|].
  split; [symmetry; exact Hbuild|]. split; [symmetry; exact Hsig|].
  rewrite !payment_calls_app, Hc3, app_nil_r.
  unfold payment_calls. rewrite Hc1, Hc2. reflexivity.
Qed.

Lemma settings_defaults m m' :
  settings m' = settings m ->
  default_compute_unit_limit m' = default_compute_unit_limit m
  /\ default_compute_unit_price m' = default_compute_unit_price m.
Proof. unfold settings. intros H. injection H as _ _ _ _ _ H1 H2 _ _ _. by split. Qed.

Lemma send_chunks_rounds wallet skip_preflight commitment limit price chunks :
  forall signatures st result st',
    send_chunks rpc Pubkey_valid Signature_valid wallet chunks skip_preflight commitment
      limit price signatures st = (inr result, st') ->
    exists evs added,
      result = signatures ++ added
      /\ steps st st' evs
      /\ chunk_rounds Pubkey_valid wallet skip_preflight commitment
           (or_default limit (default_compute_unit_limit (manager st)))
           (or_default price (default_compute_unit_price (manager st)))
           chunks (payment_calls evs) added.
Proof.
  induction chunks as [|chunk rest IH]; intros signatures st result st' H; cbn [send_chunks] in H.
  - unfold ret in H. injection H as <- <-.
    exists [], []. rewrite app_nil_r. repeat split; try apply Qle_refl.
    + symmetry. apply app_nil_r.
    + constructor.
  - bind_step H as x st1 Hm.
    apply send_chunk_round in Hm as (evs1 & instructions & blockhash & response
                                      & Hst1 & Hbuild & Hsig & Hcalls).
    apply IH in H as (evs2 & added & -> & Hst2 & Hrounds).
    destruct Hst1 as (Hset & Hclk & Htr).
    destruct (settings_defaults _ _ Hset) as [Hl Hp]. rewrite Hl, Hp in Hrounds.
    exists (evs1 ++ evs2), (x :: added). split; [by rewrite <- app_assoc|].
    split; [apply (steps_trans st st1 st'); [by repeat split | exact Hst2]|].
    rewrite payment_calls_app, Hcalls. cbn [app].
    econstructor; eassumption.
Qed.

(** ** Mass payments *)

Lemma send_chunks_app wallet skip_preflight commitment limit price chunks_done more :
  forall signatures st result st1,
    send_chunks rpc Pubkey_valid Signature_valid wallet chunks_done skip_preflight commitment
      limit price signatures st = (inr result, st1) ->
    send_chunks rpc Pubkey_valid Signature_valid wallet (chunks_done ++ more) skip_preflight
      commitment limit price signatures st
    = send_chunks rpc Pubkey_valid Signature_valid wallet more skip_preflight commitment
        limit price result st1.
Proof.
  induction chunks_done as [|chunk rest IH]; intros signatures st result st1 H;
    cbn [send_chunks app] in *.
  - unfold ret in H. by injection H as <- <-.
  - unfold bind in *.
    destruct (send_chunk _ _ _ _ _ _ _ _ _ st) as [[e|signature] st0]; [discriminate|].
    apply IH. exact H.
Qed.

(** C7. [send_mass_payments] refuses an effective batch size below one
    before anything is sent.  For a batch size of at least one the
    recipients are cut into consecutive chunks of that size, in input order,
    only the last chunk holding fewer; and a call that returns has made, for
    each chunk in turn, exactly one answered blockhash query followed by one
    answered submission whose transaction carries the blockhash just
    returned and the transfers of that chunk. *)
Theorem send_mass_payments_batches
    recipients max_per_transaction skip_preflight commitment limit price st :
  let batch_size :=
    effective_batch_size max_per_transaction (default_max_recipients_per_tx (manager st)) in
  (batch_size < 1 ->
   send_mass_payments rpc Pubkey_valid Signature_valid recipients max_per_transaction
     skip_preflight commitment limit price st
   = (inl (Raise ClsValueError MBatchSize None), st))
  /\ (1 <= batch_size ->
      exists chunks,
        _chunk recipients batch_size = inr chunks
        /\ concat chunks = recipients
        /\ (forall i chunk,
              chunks !! i = Some chunk ->
              1 <= Z.of_nat (length chunk) <= batch_size
              /\ (S i < length chunks -> Z.of_nat (length chunk) = batch_size)%nat)
        /\ forall signatures st',
             send_mass_payments rpc Pubkey_valid Signature_valid recipients
               max_per_transaction skip_preflight commitment limit price st
             = (inr signatures, st') ->
             exists wallet' evs,
               wallet (manager st) = Some wallet'
               /\ steps st st' evs
               /\ chunk_rounds Pubkey_valid wallet' skip_preflight commitment
                    (or_default limit (default_compute_unit_limit (manager st)))
                    (or_default price (default_compute_unit_price (manager st)))
                    chunks (payment_calls evs) signatures).
Proof.
  intros batch_size. split.
  - intros Hlt. unfold send_mass_payments. unfold bind at 1. unfold self at 1.
    fold batch_size. apply Z.ltb_lt in Hlt. rewrite Hlt. reflexivity.
  - intros Hge.
    destruct (chunk_partition recipients batch_size Hge) as (chunks & Hchunk & Hcat & Hsizes).
    exists chunks. split; [exact Hchunk|]. split; [exact Hcat|]. split; [exact Hsizes|].
    intros signatures st' H. unfold send_mass_payments in H.
    unfold bind at 1 in H. unfold self at 1 in H. fold batch_size in H.
    assert ((batch_size <? 1) = false) as Hb by (apply Z.ltb_ge; lia). rewrite Hb in H.
    unfold bind at 1, _require_wallet in H. unfold bind at 1 in H. unfold self at 1 in H.
    destruct (wallet (manager st)) as [wallet'|]; [|discriminate H].
    unfold ret at 1 in H. rewrite Hchunk in H. unfold bind at 1, lift, ret at 1 in H.
    apply send_chunks_rounds in H as (evs & added & -> & Hsteps & Hrounds).
    exists wallet', evs. split; [reflexivity|]. split; [exact Hsteps | exact Hrounds].
Qed.

(** C1 (as amended). When the chunks before some chunk have gone through
    and that chunk fails, [send_mass_payments] ends there: it raises the
    exception of the failing chunk in the state in which that chunk failed,
    so that nothing is done for the chunks after it; the signatures
    collected so far are not part of what is raised. *)
Theorem send_mass_payments_aborts_at_failure
    recipients max_per_transaction skip_preflight commitment limit price st
    wallet' chunks_done chunk rest signatures st1 e st2 :
  1 <= effective_batch_size max_per_transaction (default_max_recipients_per_tx (manager st)) ->
  wallet (manager st) = Some wallet' ->
  _chunk recipients
    (effective_batch_size max_per_transaction (default_max_recipients_per_tx (manager st)))
  = inr (chunks_done ++ chunk :: rest) ->
  send_chunks rpc Pubkey_valid Signature_valid wallet' chunks_done skip_preflight commitment
    limit price [] st = (inr signatures, st1) ->
  send_chunk rpc Pubkey_valid Signature_valid wallet' chunk skip_preflight commitment
    limit price st1 = (inl e, st2) ->
  send_mass_payments rpc Pubkey_valid Signature_valid recipients max_per_transaction
    skip_preflight commitment limit price st
  = (inl e, st2).
Proof.
  intros Hge Hwallet Hchunk Hdone Hfail. unfold send_mass_payments.
  unfold bind at 1. unfold self at 1.
  assert ((effective_batch_size max_per_transaction
             (default_max_recipients_per_tx (manager st)) <? 1) = false) as ->
    by (apply Z.ltb_ge; lia).
  unfold bind at 1, _require_wallet. unfold bind at 1. unfold self at 1.
  rewrite Hwallet. unfold ret at 1. rewrite Hchunk. unfold bind at 1, lift, ret at 1.
  rewrite (send_chunks_app _ _ _ _ _ _ _ _ _ _ _ Hdone).
  cbn [send_chunks]. unfold bind at 1. rewrite Hfail. reflexivity.
Qed.

(** ** Confirmation *)

Lemma named_level_accepted_confirmed name :
  named_level_accepted name = at_or_above Confirmed name.
Proof.
  unfold named_level_accepted, at_or_above, commitment_of_name.
  repeat case_bool_decide; try reflexivity; congruence.
Qed.

(** What one poll decides.  At a poll made before the deadline and
    answered with a status that has no error, the wait returns at once when
    the named level is "confirmed" or "finalized" or when the confirmation
    count is positive; otherwise the watcher sleeps for the poll interval
    and polls again.  The requested commitment does not enter. *)
Lemma await_poll_decision
    fuel signature timeout_seconds deadline last_status st status more st1 :
  (clock st < deadline)%Q ->
  _perform (fun c => client_call rpc c (GetSignatureStatuses [signature])) st
  = (inr (StatusesResp (Some status :: more)), st1) ->
  err status = None ->
  _await_loop rpc (S fuel) signature timeout_seconds deadline last_status st
  = if poll_succeeds status then (inr tt, st1)
    else bind (time_sleep (FFinite poll_interval))
           (fun _ => _await_loop rpc fuel signature timeout_seconds deadline (Some status))
           st1.
Proof.
  intros Hlt Hpoll Herr. cbn [_await_loop]. unfold bind at 1. unfold time_time.
  destruct (Qlt_le_dec (clock st) deadline) as [_|Hle];
    [|exfalso; exact (Qlt_not_le _ _ Hlt Hle)].
  unfold bind at 1. rewrite Hpoll. unfold bind at 1. cbn [extract_statuses lift ret].
  rewrite Herr. unfold poll_succeeds, positive_count.
  destruct (confirmation_status status) as [name|].
  - rewrite <- named_level_accepted_confirmed.
    destruct (named_level_accepted name); [reflexivity|]. cbn [orb].
    destruct (confirmations status) as [n|]; [destruct (0 <? n)|]; reflexivity.
  - cbn [orb]. destruct (confirmations status) as [n|]; [destruct (0 <? n)|]; reflexivity.
Qed.

End Runs.

(** ** The fuel of the wait *)

Section Fuel.
Context {World : Type}.
Variable rpc : Client -> Request -> World -> (Exception + Response) * World.
Implicit Types st : State World.

Lemma poll_sleep st :
  time_sleep (FFinite poll_interval) st
  = (inr tt, {| manager := manager st; world := world st;
                clock := (clock st + poll_interval)%Q;
                trace := trace st ++ [EvSleep poll_interval] |}).
Proof. reflexivity. Qed.

(** Once the fuel covers the time left to the deadline, more fuel changes
    nothing: the loop ends by its own test of the clock. *)
Lemma await_loop_fuel_enough signature timeout_seconds deadline fuel :
  forall extra last_status st,
    (deadline - clock st <= poll_interval * inject_Z (Z.of_nat fuel))%Q ->
    _await_loop rpc (fuel + extra) signature timeout_seconds deadline last_status st
    = _await_loop rpc fuel signature timeout_seconds deadline last_status st.
Proof.
  induction fuel as [|fuel IH]; intros extra last_status st Hleft.
  - assert (deadline <= clock st)%Q as Hpast
      by (change (inject_Z (Z.of_nat 0)) with 0%Q in Hleft; lra).
    destruct extra as [|extra]; [reflexivity|].
    cbn [Nat.add _await_loop]. unfold bind, time_time.
    destruct (Qlt_le_dec (clock st) deadline) as [Hlt|_]; [|reflexivity].
    exfalso. exact (Qlt_not_le _ _ Hlt Hpast).
  - cbn [Nat.add _await_loop]. unfold bind, time_time.
    destruct (Qlt_le_dec (clock st) deadline) as [Hlt|_]; [|reflexivity].
    destruct (_perform _ st) as [[e|response] st1] eqn:Hcall; [reflexivity|].
    apply (perform_call rpc) in Hcall as (evs & (_ & Hclock & _) & _).
    unfold lift, raise, ret.
    destruct (extract_statuses response) as [e|status]; [reflexivity|].
    assert (forall last,
              _await_loop rpc (fuel + extra) signature timeout_seconds deadline last
                {| manager := manager st1; world := world st1;
                   clock := (clock st1 + poll_interval)%Q;
                   trace := trace st1 ++ [EvSleep poll_interval] |}
              = _await_loop rpc fuel signature timeout_seconds deadline last
                  {| manager := manager st1; world := world st1;
                     clock := (clock st1 + poll_interval)%Q;
                     trace := trace st1 ++ [EvSleep poll_interval] |})
      as Hnext.
    { intros last. apply IH. cbn [clock].
      rewrite Nat2Z.inj_succ, <- Z.add_1_r, inject_Z_plus in Hleft.
      unfold poll_interval in *. change (inject_Z 1) with 1%Q in Hleft. lra. }
    destruct status as [status|]; [|rewrite poll_sleep; apply Hnext].
    destruct (err status); [reflexivity|].
    destruct (match confirmation_status status with
              | Some level => named_level_accepted level
              | None => false
              end); [reflexivity|].
    destruct (match confirmations status with
              | Some n => 0 <? n
              | None => false
              end); [reflexivity|].
    rewrite poll_sleep. apply Hnext.
Qed.

(** The fuel that [_await_confirmation] hands to the loop covers its
    timeout. *)
Lemma await_fuel_covers timeout_seconds now :
  (now + timeout_seconds - now
   <= poll_interval * inject_Z (Z.of_nat (await_fuel timeout_seconds)))%Q.
Proof.
  unfold await_fuel.
  replace (Z.of_nat (Z.to_nat (Qceiling (timeout_seconds / poll_interval))))
    with (Z.max 0 (Qceiling (timeout_seconds / poll_interval))) by lia.
  pose proof (Qle_ceiling (timeout_seconds / poll_interval)) as Hceil.
  assert (inject_Z (Qceiling (timeout_seconds / poll_interval))
          <= inject_Z (Z.max 0 (Qceiling (timeout_seconds / poll_interval))))%Q as Hmax
    by (rewrite <- Zle_Qle; lia).
  assert (timeout_seconds == poll_interval * (timeout_seconds / poll_interval))%Q as Hdiv
    by (unfold poll_interval; field).
  assert (0 <= poll_interval)%Q as Hpos by (unfold poll_interval; lra).
  assert (poll_interval * (timeout_seconds / poll_interval)
          <= poll_interval * inject_Z (Z.max 0 (Qceiling (timeout_seconds / poll_interval))))%Q
    as Hmul.
  { rewrite !(Qmult_comm poll_interval). apply Qmult_le_compat_r; [|exact Hpos].
    eapply Qle_trans; eassumption. }
  lra.
Qed.

(** [_await_confirmation] never runs out of fuel: with any amount of extra
    fuel the wait ends in the same way. *)
Lemma await_confirmation_fuel signature timeout_seconds extra st :
  _await_loop rpc (await_fuel timeout_seconds + extra) signature timeout_seconds
    (clock st + timeout_seconds) None st
  = _await_loop rpc (await_fuel timeout_seconds) signature timeout_seconds
      (clock st + timeout_seconds) None st.
Proof. apply await_loop_fuel_enough, await_fuel_covers. Qed.

End Fuel.

(** ** The commitment that the wait is asked for *)

Section RequestedCommitment.
Context {World : Type}.
Variable rpc : Client -> Request -> World -> (Exception + Response) * World.
Variable Signature_valid : string -> bool.
Implicit Types st : State World.

Lemma await_fuel_positive timeout_seconds :
  (0 < timeout_seconds)%Q -> exists fuel, await_fuel timeout_seconds = S fuel.
Proof.
  intros Hpos. destruct (await_fuel timeout_seconds) as [|fuel] eqn:Hfuel; [|eauto].
  exfalso. pose proof (await_fuel_covers timeout_seconds 0) as Hcover.
  rewrite Hfuel in Hcover. change (inject_Z (Z.of_nat 0)) with 0%Q in Hcover. lra.
Qed.

(** C3. [_await_confirmation] does not read the commitment that it is
    asked for.  Whatever that commitment is, "finalized" included, the wait
    returns at a first poll whose status has no error and names the level
    "confirmed" (in any letter case); by the rule of the specification a
    wait for "finalized" does not succeed on such a status. *)
Theorem wait_for_finalized_returns_on_confirmed
    signature timeout_seconds commitment st status more st1 name :
  Signature_valid signature = true ->
  (0 < timeout_seconds)%Q ->
  _perform (fun c => client_call rpc c (GetSignatureStatuses [signature])) st
  = (inr (StatusesResp (Some status :: more)), st1) ->
  err status = None ->
  confirmation_status status = Some name ->
  Text.lower name = "confirmed" ->
  _await_confirmation rpc Signature_valid signature timeout_seconds commitment st
  = (inr tt, st1)
  /\ spec_poll_succeeds Finalized status = false.
Proof.
  intros Hvalid Hpos Hpoll Herr Hname Hlower. split.
  - unfold _await_confirmation. unfold bind at 1. unfold time_time.
    rewrite Hvalid. cbn [negb].
    destruct (await_fuel_positive timeout_seconds Hpos) as (fuel & ->).
    cbn [_await_loop]. unfold bind at 1. unfold time_time.
    destruct (Qlt_le_dec (clock st) (clock st + timeout_seconds)) as [_|Hle];
      [|exfalso; lra].
    unfold bind at 1. rewrite Hpoll. unfold bind at 1. cbn [extract_statuses lift ret].
    rewrite Herr, Hname. unfold named_level_accepted. rewrite Hlower. reflexivity.
  - unfold spec_poll_succeeds, at_or_above, commitment_of_name.
    rewrite Hname, Hlower. reflexivity.
Qed.

End RequestedCommitment.

(** ** Reading the recipients *)

Section Recipients.
Context {World : Type}.
Variable Pubkey_valid : string -> bool.
Implicit Types st : State World.

Lemma parse_lines_app lines_before more default_amount_sol :
  forall line_number recipients_raw warnings recipients_raw' warnings',
    parse_lines Pubkey_valid lines_before line_number default_amount_sol recipients_raw warnings
    = inr (recipients_raw', warnings') ->
    parse_lines Pubkey_valid (lines_before ++ more) line_number default_amount_sol
      recipients_raw warnings
    = parse_lines Pubkey_valid more (line_number + Z.of_nat (length lines_before))
        default_amount_sol recipients_raw' warnings'.
Proof.
  induction lines_before as [|raw_line rest IH];
    intros line_number recipients_raw warnings recipients_raw' warnings' H.
  - cbn in H. injection H as <- <-. cbn. by rewrite Z.add_0_r.
  - cbn [app parse_lines length] in *.
    replace (line_number + Z.of_nat (S (length rest)))
      with (line_number + 1 + Z.of_nat (length rest)) by lia.
    destruct (bool_decide _ || _); [apply IH, H|].
    destruct (_parse_recipient_line _ _ _ _) as [exc|recipient]; [|apply IH, H].
    destruct (isinstance exc ClsRecipientParseError); [apply IH, H | discriminate H].
Qed.

(** C4. A line with a valid address whose amount is positive but converts
    to zero lamports does not become a warning: the [ValueError] of the
    conversion leaves [read_recipients_from_file], whatever the other lines
    are, and no warning is recorded. *)
Theorem small_amount_aborts_parse
    st lines_before raw_line lines_after default_amount_sol
    recipients_before warnings_before address amount_text more amount_sol :
  parse_lines Pubkey_valid lines_before 1 default_amount_sol [] []
  = inr (recipients_before, warnings_before) ->
  Text.starts_with_hash (Text.lstrip_bom (Text.strip raw_line)) = false ->
  Text.tokenize (Text.lstrip_bom (Text.strip raw_line)) = address :: amount_text :: more ->
  Pubkey_valid address = true ->
  Decimal_of_string amount_text = Some amount_sol ->
  _sol_to_lamports amount_sol = inl (Raise ClsValueError MAmountTooSmall None) ->
  read_recipients_from_file Pubkey_valid (FileText (lines_before ++ raw_line :: lines_after))
    default_amount_sol st
  = (inl (Raise ClsValueError MAmountTooSmall None), st).
Proof.
  intros Hbefore Hhash Htokens Hvalid Hdecimal Hlamports.
  unfold read_recipients_from_file. unfold bind at 1.
  rewrite (parse_lines_app _ _ _ _ _ _ _ _ Hbefore). cbn [parse_lines].
  assert (bool_decide (Text.lstrip_bom (Text.strip raw_line) = EmptyString) = false) as ->.
  { apply bool_decide_eq_false. intros Hempty. rewrite Hempty in Htokens. discriminate Htokens. }
  rewrite Hhash. cbn [orb].
  unfold _parse_recipient_line. rewrite Htokens, Hvalid. cbn [negb].
  rewrite Hdecimal, Hlamports. reflexivity.
Qed.

(** *** The dictionary *)

Lemma dict_get_set_eq {V} k (v : V) d : dict_get k (dict_set k v d) = Some v.
Proof.
  induction d as [|[k' v'] d IH]; cbn.
  - by rewrite bool_decide_eq_true_2.
  - case_bool_decide; cbn; [by rewrite bool_decide_eq_true_2|].
    by rewrite bool_decide_eq_false_2.
Qed.

Lemma dict_get_set_ne {V} k k' (v : V) d :
  k <> k' -> dict_get k' (dict_set k v d) = dict_get k' d.
Proof.
  intros Hne. induction d as [|[k0 v0] d IH]; cbn.
  - by rewrite bool_decide_eq_false_2.
  - case_bool_decide as Hk; cbn.
    + subst k0. by rewrite !bool_decide_eq_false_2.
    + by rewrite IH.
Qed.

Lemma dict_get_set {V} k k' (v : V) d :
  dict_get k' (dict_set k v d) = if bool_decide (k = k') then Some v else dict_get k' d.
Proof.
  case_bool_decide as Hk; [subst; apply dict_get_set_eq | by apply dict_get_set_ne].
Qed.

Lemma dict_get_None {V} k (d : list (string * V)) : dict_get k d = None <-> k ∉ dict_keys d.
Proof.
  unfold dict_keys. induction d as [|[k' v'] d IH]; cbn.
  - split; [intros _; apply not_elem_of_nil | done].
  - rewrite not_elem_of_cons. case_bool_decide as Hk.
    + split; [done | intros [Hne _]; by subst].
    + rewrite IH. split; [intros ?; split; [congruence | done] | by intros [_ ?]].
Qed.

Lemma dict_keys_set_present {V} k (v v0 : V) d :
  dict_get k d = Some v0 -> dict_keys (dict_set k v d) = dict_keys d.
Proof.
  unfold dict_keys. induction d as [|[k' v'] d IH]; cbn; [done|].
  case_bool_decide as Hk; cbn; [by subst | intros H; by rewrite IH].
Qed.

Lemma dict_keys_set_absent {V} k (v : V) d :
  dict_get k d = None -> dict_keys (dict_set k v d) = dict_keys d ++ [k].
Proof.
  unfold dict_keys. induction d as [|[k' v'] d IH]; cbn; [done|].
  case_bool_decide as Hk; cbn; [done | intros H; by rewrite IH].
Qed.

Lemma dict_keys_set_NoDup {V} k (v : V) d :
  NoDup (dict_keys d) -> NoDup (dict_keys (dict_set k v d)).
Proof.
  intros Hnd. destruct (dict_get k d) as [v0|] eqn:Hget.
  - by rewrite (dict_keys_set_present _ _ _ _ Hget).
  - rewrite (dict_keys_set_absent _ _ _ Hget). apply NoDup_app. split; [exact Hnd|].
    split; [|apply NoDup_singleton].
    intros x Hx Hin. apply list_elem_of_singleton in Hin. subst x.
    by apply dict_get_None in Hget.
Qed.

(** With keys that do not repeat, the items under a key are the one that
    [dict_get] finds. *)
Lemma dict_filter_key {V} k (d : list (string * V)) :
  NoDup (dict_keys d) ->
  List.filter (fun item => bool_decide (fst item = k)) d
  = match dict_get k d with
    | Some v => [(k, v)]
    | None => []
    end.
Proof.
  unfold dict_keys. induction d as [|[k' v'] d IH]; intros Hnd; cbn in *; [done|].
  apply NoDup_cons in Hnd as [Hnotin Hnd]. case_bool_decide as Hk.
  - subst k'. f_equal. rewrite (IH Hnd).
    by apply dict_get_None in Hnotin as ->.
  - apply IH, Hnd.
Qed.

(** *** The merge *)

Lemma sum_lamports_set_present k v d r0 :
  dict_get k d = Some r0 ->
  sum_lamports (dict_values (dict_set k v d))
  = sum_lamports (dict_values d) - lamports r0 + lamports v.
Proof.
  unfold dict_values, sum_lamports. induction d as [|[k' v'] d IH]; cbn; [done|].
  case_bool_decide as Hk; cbn.
  - intros H. injection H as ->. lia.
  - intros H. rewrite (IH H). lia.
Qed.

Lemma sum_lamports_set_absent k v d :
  dict_get k d = None ->
  sum_lamports (dict_values (dict_set k v d)) = sum_lamports (dict_values d) + lamports v.
Proof.
  unfold dict_values, sum_lamports. induction d as [|[k' v'] d IH]; cbn; [intros _; lia|].
  case_bool_decide as Hk; cbn; [done|]. intros H. rewrite (IH H). lia.
Qed.

Lemma sum_lamports_app l1 l2 : sum_lamports (l1 ++ l2) = sum_lamports l1 + sum_lamports l2.
Proof.
  unfold sum_lamports. induction l1 as [|r l1 IH]; cbn; [reflexivity | rewrite IH; lia].
Qed.

(** The merge neither loses nor adds lamports. *)
Lemma aggregate_total recipients_raw :
  forall aggregated duplicates_counter,
    sum_lamports (dict_values (fst (aggregate recipients_raw aggregated duplicates_counter)))
    = sum_lamports (dict_values aggregated) + sum_lamports recipients_raw.
Proof.
  induction recipients_raw as [|r rest IH]; intros aggregated duplicates_counter;
    cbn [aggregate].
  { change (sum_lamports []) with 0. cbn [fst]. lia. }
  change (sum_lamports (r :: rest)) with (lamports r + sum_lamports rest).
  destruct (dict_get (address r) aggregated) as [r0|] eqn:Hget; rewrite IH.
  - rewrite (sum_lamports_set_present _ _ _ _ Hget). cbn [lamports]. lia.
  - rewrite (sum_lamports_set_absent _ _ _ Hget). cbn [lamports]. lia.
Qed.

(** The keys of the merged dictionary: those it had, then the new
    addresses in the order of their first occurrence. *)
Lemma aggregate_keys recipients_raw :
  forall aggregated duplicates_counter,
    dict_keys (fst (aggregate recipients_raw aggregated duplicates_counter))
    = dict_keys aggregated
      ++ first_occurrences (dict_keys aggregated) (map address recipients_raw).
Proof.
  induction recipients_raw as [|r rest IH]; intros aggregated duplicates_counter;
    cbn [aggregate map first_occurrences]; [by rewrite app_nil_r|].
  destruct (dict_get (address r) aggregated) as [r0|] eqn:Hget; rewrite IH.
  - rewrite (dict_keys_set_present _ _ _ _ Hget).
    rewrite bool_decide_eq_true_2; [reflexivity|].
    destruct (decide (address r ∈ dict_keys aggregated)) as [Hin|Hnotin]; [exact Hin|].
    apply dict_get_None in Hnotin. congruence.
  - rewrite (dict_keys_set_absent _ _ _ Hget).
    rewrite bool_decide_eq_false_2 by (by apply dict_get_None).
    by rewrite <- app_assoc.
Qed.

Lemma dict_set_keyed k v d : address v = k -> keyed d -> keyed (dict_set k v d).
Proof.
  intros Hv. unfold keyed. induction d as [|[k' v'] d IH]; intros Hd; cbn.
  - by constructor.
  - apply Forall_cons in Hd as [Hhd Htl]. case_bool_decide; constructor; auto.
Qed.

Lemma dict_get_keyed k r d : keyed d -> dict_get k d = Some r -> address r = k.
Proof.
  unfold keyed. induction d as [|[k' v'] d IH]; intros Hd; cbn; [done|].
  apply Forall_cons in Hd as [Hhd Htl]. case_bool_decide as Hk.
  - intros H. injection H as <-. by subst.
  - by apply IH.
Qed.

Lemma aggregate_invariants recipients_raw :
  forall aggregated duplicates_counter,
    keyed aggregated -> NoDup (dict_keys aggregated) -> NoDup (dict_keys duplicates_counter) ->
    keyed (fst (aggregate recipients_raw aggregated duplicates_counter))
    /\ NoDup (dict_keys (fst (aggregate recipients_raw aggregated duplicates_counter)))
    /\ NoDup (dict_keys (snd (aggregate recipients_raw aggregated duplicates_counter))).
Proof.
  induction recipients_raw as [|r rest IH]; intros aggregated duplicates_counter Hk Hn1 Hn2;
    cbn [aggregate]; [done|].
  destruct (dict_get (address r) aggregated) as [r0|] eqn:Hget; apply IH;
    try (by apply dict_keys_set_NoDup); try assumption.
  - apply dict_set_keyed; [|exact Hk]. cbn. eapply dict_get_keyed; eassumption.
  - by apply dict_set_keyed.
Qed.

(** What the merged dictionary holds under an address. *)
Lemma aggregate_get a recipients_raw :
  forall aggregated duplicates_counter,
    dict_get a (fst (aggregate recipients_raw aggregated duplicates_counter))
    = match dict_get a aggregated with
      | Some r => Some {| address := address r;
                          lamports := lamports r + total_for a recipients_raw |}
      | None =>
          if occurrences a recipients_raw =? 0 then None
          else Some {| address := a; lamports := total_for a recipients_raw |}
      end.
Proof.
  assert (forall l, 0 <= occurrences a l) as Hocc.
  { induction l as [|r l IH]; cbn; [lia|]. case_bool_decide; lia. }
  induction recipients_raw as [|r rest IH]; intros aggregated duplicates_counter;
    cbn [aggregate total_for occurrences].
  - cbn. destruct (dict_get a aggregated) as [[a0 l0]|]; [|reflexivity].
    cbn. by rewrite Z.add_0_r.
  - destruct (dict_get (address r) aggregated) as [r0|] eqn:Hget; rewrite IH, dict_get_set;
      case_bool_decide as Hk.
    + subst a. rewrite Hget. cbn. do 2 f_equal. lia.
    + destruct (dict_get a aggregated); [|by rewrite Z.add_0_l].
      by rewrite Z.add_0_l.
    + subst a. rewrite Hget. cbn.
      assert ((1 + occurrences (address r) rest =? 0) = false) as ->
        by (apply Z.eqb_neq; specialize (Hocc rest); lia).
      reflexivity.
    + destruct (dict_get a aggregated); by rewrite !Z.add_0_l.
Qed.

Lemma merges_of_nonneg a recipients_raw : forall present, 0 <= merges_of a recipients_raw present.
Proof.
  induction recipients_raw as [|r rest IH]; intros present; cbn; [lia|].
  case_bool_decide; [|apply IH]. specialize (IH true). destruct present; lia.
Qed.

Lemma merges_of_occurrences a recipients_raw :
  merges_of a recipients_raw true = occurrences a recipients_raw
  /\ merges_of a recipients_raw false = Z.max 0 (occurrences a recipients_raw - 1).
Proof.
  assert (forall l, 0 <= occurrences a l) as Hocc.
  { induction l as [|r l IH]; cbn; [lia|]. case_bool_decide; lia. }
  induction recipients_raw as [|r rest [IH1 IH2]]; cbn; [split; lia|].
  case_bool_decide; rewrite ?IH1, ?IH2; specialize (Hocc rest); split; lia.
Qed.

(** What the counter of duplicates holds under an address. *)
Lemma aggregate_counter a recipients_raw :
  forall aggregated duplicates_counter,
    dict_get a (snd (aggregate recipients_raw aggregated duplicates_counter))
    = let merges :=
        merges_of a recipients_raw
          (match dict_get a aggregated with Some _ => true | None => false end) in
      if merges =? 0 then dict_get a duplicates_counter
      else Some (default 0 (dict_get a duplicates_counter) + merges).
Proof.
  induction recipients_raw as [|r rest IH]; intros aggregated duplicates_counter;
    cbn [aggregate merges_of]; [reflexivity|].
  destruct (dict_get (address r) aggregated) as [r0|] eqn:Hget; rewrite IH, !dict_get_set;
    case_bool_decide as Hk; cbn zeta.
  - subst a. rewrite Hget. pose proof (merges_of_nonneg (address r) rest true) as Hn.
    destruct (merges_of (address r) rest true =? 0) eqn:H0.
    + apply Z.eqb_eq in H0. rewrite H0.
      assert ((1 + 0 =? 0) = false) as -> by reflexivity. reflexivity.
    + assert ((1 + merges_of (address r) rest true =? 0) = false) as ->
        by (apply Z.eqb_neq; lia).
      cbn. f_equal. lia.
  - reflexivity.
  - subst a. rewrite Hget. rewrite Z.add_0_l. reflexivity.
  - reflexivity.
Qed.

(** *** The whole of [read_recipients_from_file] *)

Lemma sol_to_lamports_raises amount_sol e :
  _sol_to_lamports amount_sol = inl e -> isinstance e ClsRecipientParseError = false.
Proof.
  unfold _sol_to_lamports. intros H.
  destruct amount_sol as [negative c x|negative|]; cbn [decimal_le_zero] in H.
  - destruct ((c =? 0) || negative); [by injection H as <-|].
    unfold decimal_mul in H. destruct (round_to_prec _ _) as [c' x'].
    destruct ((0 <? c') && _); [by injection H as <-|].
    unfold to_integral_value_down, int_of_decimal in H.
    destruct (x' <? 0); cbn in H;
      match type of H with
      | context [if ?b then _ else _] => destruct b
      end; try discriminate H; by injection H as <-.
  - destruct negative; [by injection H as <-|].
    cbn in H. by injection H as <-.
  - by injection H as <-.
Qed.

(** The warnings of the per-line loop are never duplicate warnings. *)
Lemma parse_recipient_line_warning line line_number default_amount_sol exc a :
  _parse_recipient_line Pubkey_valid line line_number default_amount_sol = inl exc ->
  isinstance exc ClsRecipientParseError = true ->
  is_duplicate_warning_for a (exn_message exc) = false.
Proof.
  unfold _parse_recipient_line. intros H Hcls.
  destruct (Text.tokenize line) as [|first more]; [by injection H as <-|].
  destruct (negb (Pubkey_valid first)); [by injection H as <-|].
  destruct more as [|amount_text more].
  - destruct default_amount_sol as [d|]; [|by injection H as <-].
    destruct (_sol_to_lamports d) as [e|l] eqn:Hl; [|discriminate H].
    injection H as <-. apply sol_to_lamports_raises in Hl. congruence.
  - destruct (Decimal_of_string amount_text) as [d|]; [|by injection H as <-].
    destruct (_sol_to_lamports d) as [e|l] eqn:Hl; [|discriminate H].
    injection H as <-. apply sol_to_lamports_raises in Hl. congruence.
Qed.

Lemma parse_lines_warnings a raw_lines default_amount_sol :
  forall line_number recipients_raw warnings recipients_raw' warnings',
    parse_lines Pubkey_valid raw_lines line_number default_amount_sol recipients_raw warnings
    = inr (recipients_raw', warnings') ->
    List.filter (is_duplicate_warning_for a) warnings = [] ->
    List.filter (is_duplicate_warning_for a) warnings' = [].
Proof.
  induction raw_lines as [|raw_line rest IH];
    intros line_number recipients_raw warnings recipients_raw' warnings' H Hw;
    cbn [parse_lines] in H.
  - by injection H as _ <-.
  - destruct (bool_decide _ || _); [eapply IH; eassumption|].
    destruct (_parse_recipient_line _ _ _ _) as [exc|recipient] eqn:Hline;
      [|eapply IH; eassumption].
    destruct (isinstance exc ClsRecipientParseError) eqn:Hcls; [|discriminate H].
    eapply IH; [exact H|]. rewrite List.filter_app, Hw. cbn.
    by rewrite (parse_recipient_line_warning _ _ _ _ a Hline Hcls).
Qed.

Lemma last_recipient_warnings_set v m :
  last_recipient_warnings (set_last_recipient_warnings v m) = v.
Proof. by destruct m. Qed.

(** A call that returns has parsed the lines, merged them and stored the
    warnings of both passes. *)
Lemma read_recipients_returns st raw_lines default_amount_sol recipients st' :
  read_recipients_from_file Pubkey_valid (FileText raw_lines) default_amount_sol st
  = (inr recipients, st') ->
  exists recipients_raw warnings,
    parse_lines Pubkey_valid raw_lines 1 default_amount_sol [] [] = inr (recipients_raw, warnings)
    /\ recipients = dict_values (fst (aggregate recipients_raw [] []))
    /\ last_recipient_warnings (manager st')
       = warnings ++ duplicate_warnings (snd (aggregate recipients_raw [] [])).
Proof.
  unfold read_recipients_from_file. unfold bind at 1.
  destruct (parse_lines _ _ _ _ _ _) as [e|[recipients_raw warnings]]; [discriminate|].
  cbn [lift ret]. destruct (aggregate recipients_raw [] []) as [aggregated counter] eqn:Hagg.
  unfold bind, assign. cbn [fst snd].
  destruct (dict_values aggregated) as [|r rest] eqn:Hvalues.
  - destruct (warnings ++ duplicate_warnings counter); discriminate.
  - intros H. injection H as <- <-. exists recipients_raw, warnings.
    rewrite Hagg. cbn [fst snd manager].
    split; [reflexivity|]. split; [symmetry; exact Hvalues|].
    apply last_recipient_warnings_set.
Qed.

Lemma keyed_values_filter a d :
  keyed d ->
  List.filter (has_address a) (dict_values d)
  = dict_values (List.filter (fun item => bool_decide (fst item = a)) d).
Proof.
  unfold keyed, dict_values, has_address.
  induction d as [|[k v] d IH]; intros Hd; cbn; [reflexivity|].
  apply Forall_cons in Hd as [Hhd Htl]. cbn in Hhd. rewrite Hhd.
  case_bool_decide; cbn; by rewrite (IH Htl).
Qed.

Lemma keyed_addresses d : keyed d -> map address (dict_values d) = dict_keys d.
Proof.
  unfold keyed, dict_values, dict_keys.
  induction d as [|[k v] d IH]; intros Hd; cbn; [reflexivity|].
  apply Forall_cons in Hd as [Hhd Htl]. cbn in Hhd. by rewrite Hhd, (IH Htl).
Qed.

Lemma duplicate_warnings_filter a counter :
  List.filter (is_duplicate_warning_for a) (duplicate_warnings counter)
  = duplicate_warnings (List.filter (fun item => bool_decide (fst item = a)) counter).
Proof.
  unfold duplicate_warnings. induction counter as [|[k c] counter IH]; cbn; [reflexivity|].
  case_bool_decide; cbn; by rewrite IH.
Qed.

Lemma occurrences_nonneg a recipients_raw : 0 <= occurrences a recipients_raw.
Proof. induction recipients_raw as [|r l IH]; cbn; [lia|]. case_bool_decide; lia. Qed.

(** C6. In what [read_recipients_from_file] returns, the lines that share
    an address are one recipient whose lamports are the sum of the lamports
    of those lines; and an address that occurs more than once has exactly
    one duplicate warning, which names the address and the number of its
    occurrences, while an address that occurs once has none. *)
Theorem read_recipients_merges_duplicates st raw_lines default_amount_sol recipients st' :
  read_recipients_from_file Pubkey_valid (FileText raw_lines) default_amount_sol st
  = (inr recipients, st') ->
  exists recipients_raw warnings,
    parse_lines Pubkey_valid raw_lines 1 default_amount_sol [] [] = inr (recipients_raw, warnings)
    /\ forall a,
         1 <= occurrences a recipients_raw ->
         List.filter (has_address a) recipients
         = [{| address := a; lamports := total_for a recipients_raw |}]
         /\ List.filter (is_duplicate_warning_for a) (last_recipient_warnings (manager st'))
            = if 2 <=? occurrences a recipients_raw
              then [MDuplicate a (occurrences a recipients_raw)]
              else [].
Proof.
  intros H. apply read_recipients_returns in H as (recipients_raw & warnings & Hparse & -> & Hw).
  exists recipients_raw, warnings. split; [exact Hparse|]. intros a Hocc.
  destruct (aggregate_invariants recipients_raw [] []) as (Hkeyed & Hnd1 & Hnd2);
    [constructor | constructor | constructor |].
  split.
  - rewrite (keyed_values_filter a _ Hkeyed), (dict_filter_key a _ Hnd1), aggregate_get.
    cbn [dict_get].
    assert ((occurrences a recipients_raw =? 0) = false) as -> by (apply Z.eqb_neq; lia).
    reflexivity.
  - rewrite Hw, List.filter_app.
    rewrite (parse_lines_warnings a _ _ _ _ _ _ _ Hparse) by reflexivity.
    rewrite duplicate_warnings_filter, (dict_filter_key a _ Hnd2), aggregate_counter.
    cbn [dict_get default app]. cbn zeta.
    destruct (merges_of_occurrences a recipients_raw) as [_ ->].
    destruct (2 <=? occurrences a recipients_raw) eqn:H2.
    + apply Z.leb_le in H2.
      assert ((Z.max 0 (occurrences a recipients_raw - 1) =? 0) = false) as ->
        by (apply Z.eqb_neq; lia).
      cbn. do 2 f_equal. lia.
    + apply Z.leb_gt in H2.
      assert ((Z.max 0 (occurrences a recipients_raw - 1) =? 0) = true) as ->
        by (apply Z.eqb_eq; lia).
      reflexivity.
Qed.

(** What [sum_lamports] computes is the sum of the base units. *)
Lemma sum_lamports_base_units recipients : sum_lamports recipients = base_units recipients.
Proof.
  unfold sum_lamports, base_units.
  assert (forall acc, foldl Z.add acc (map lamports recipients)
                      = acc + foldr (fun recipient total => lamports recipient + total) 0
                                recipients) as Hgen.
  { induction recipients as [|r rest IH]; intros acc; cbn [map foldl foldr]; [lia|].
    rewrite IH. lia. }
  rewrite Hgen. lia.
Qed.

(** C10. The recipients that [read_recipients_from_file] returns hold, in
    total, the base units of the parsed lines added up, whether the total
    is taken by [sum_lamports] or by adding up the amounts one by one, and
    they come in the order in which their addresses first occur. *)
Theorem read_recipients_preserves_total st raw_lines default_amount_sol recipients st' :
  read_recipients_from_file Pubkey_valid (FileText raw_lines) default_amount_sol st
  = (inr recipients, st') ->
  exists recipients_raw warnings,
    parse_lines Pubkey_valid raw_lines 1 default_amount_sol [] [] = inr (recipients_raw, warnings)
    /\ sum_lamports recipients = base_units recipients_raw
    /\ base_units recipients = base_units recipients_raw
    /\ map address recipients = first_occurrences [] (map address recipients_raw).
Proof.
  intros H. apply read_recipients_returns in H as (recipients_raw & warnings & Hparse & -> & _).
  exists recipients_raw, warnings. split; [exact Hparse|].
  destruct (aggregate_invariants recipients_raw [] []) as (Hkeyed & _);
    [constructor | constructor | constructor |].
  assert (sum_lamports (dict_values (aggregate recipients_raw [] []).1)
          = base_units recipients_raw) as Htotal.
  { rewrite aggregate_total, <- sum_lamports_base_units.
    change (sum_lamports (dict_values [])) with 0. lia. }
  split; [exact Htotal|]. split.
  - rewrite <- sum_lamports_base_units. exact Htotal.
  - rewrite (keyed_addresses _ Hkeyed), aggregate_keys. reflexivity.
Qed.

End Recipients.

(** ** Loading the wallet *)

Section Wallet.
Context {World : Type}.
Variable Keypair_from_bytes Keypair_from_seed : list Byte.byte -> option Keypair.
Variable json_loads : string -> Exception + Json.
Variable b58decode : string -> option (list Byte.byte).
Implicit Types st : State World.

Lemma wallet_set v m : wallet (set_wallet v m) = v.
Proof. by destruct m. Qed.

(** A secret of 32 bytes is taken as a seed, one of 64 bytes as a full
    key, and any other length is refused. *)
Lemma keypair_from_bytes_cases secret_bytes st :
  _keypair_from_bytes Keypair_from_bytes Keypair_from_seed secret_bytes st
  = if bool_decide (length secret_bytes = 64%nat)
    then library_keypair (Keypair_from_bytes secret_bytes) st
    else if bool_decide (length secret_bytes = 32%nat)
    then library_keypair (Keypair_from_seed secret_bytes) st
    else (inl (Raise ClsWalletLoadError MSecretLength None), st).
Proof.
  unfold _keypair_from_bytes.
  case_bool_decide as H64.
  - rewrite H64. reflexivity.
  - assert ((Z.of_nat (length secret_bytes) =? 64) = false) as -> by (apply Z.eqb_neq; lia).
    case_bool_decide as H32.
    + rewrite H32. reflexivity.
    + assert ((Z.of_nat (length secret_bytes) =? 32) = false) as -> by (apply Z.eqb_neq; lia).
      reflexivity.
Qed.

Lemma load_decoded secret_bytes st r st' :
  bind (_keypair_from_bytes Keypair_from_bytes Keypair_from_seed secret_bytes)
    (fun kp => bind (assign (set_wallet (Some kp))) (fun _ => ret (pubkey kp))) st = (r, st') ->
  match r with
  | inr public_key =>
      exists kp,
        (length secret_bytes = 32%nat /\ Keypair_from_seed secret_bytes = Some kp
         \/ length secret_bytes = 64%nat /\ Keypair_from_bytes secret_bytes = Some kp)
        /\ wallet (manager st') = Some kp /\ public_key = pubkey kp
  | inl e =>
      length secret_bytes <> 32%nat -> length secret_bytes <> 64%nat ->
      e = Raise ClsWalletLoadError MSecretLength None /\ st' = st
  end.
Proof.
  unfold bind at 1. rewrite keypair_from_bytes_cases.
  case_bool_decide as H64; [|case_bool_decide as H32].
  - destruct (Keypair_from_bytes secret_bytes) as [kp|] eqn:Hk; cbn.
    + intros H. injection H as <- <-. exists kp. cbn. rewrite wallet_set. auto.
    + intros H. injection H as <- <-. intros _ Hne. done.
  - destruct (Keypair_from_seed secret_bytes) as [kp|] eqn:Hk; cbn.
    + intros H. injection H as <- <-. exists kp. cbn. rewrite wallet_set. auto.
    + intros H. injection H as <- <-. intros Hne. done.
  - intros H. injection H as <- <-. auto.
Qed.

(** C9. Loading the wallet succeeds only on a decoded secret of exactly
    32 bytes, taken as a seed, or of exactly 64 bytes, taken as a full
    secret key; a secret decoded to any other length is refused with
    [WalletLoadError], and the manager is left as it was. *)
Theorem load_wallet_secret_length file st :
  (forall public_key st',
     load_wallet_from_file Keypair_from_bytes Keypair_from_seed json_loads b58decode file st
     = (inr public_key, st') ->
     exists secret_bytes kp,
       decoded_secret json_loads b58decode file = Some secret_bytes
       /\ (length secret_bytes = 32%nat /\ Keypair_from_seed secret_bytes = Some kp
           \/ length secret_bytes = 64%nat /\ Keypair_from_bytes secret_bytes = Some kp)
       /\ wallet (manager st') = Some kp
       /\ public_key = pubkey kp)
  /\ (forall secret_bytes,
        decoded_secret json_loads b58decode file = Some secret_bytes ->
        length secret_bytes <> 32%nat ->
        length secret_bytes <> 64%nat ->
        load_wallet_from_file Keypair_from_bytes Keypair_from_seed json_loads b58decode file st
        = (inl (Raise ClsWalletLoadError MSecretLength None), st)).
Proof.
  unfold load_wallet_from_file, decoded_secret.
  destruct file as [|e|text]; [split; [discriminate | discriminate]..|].
  case_bool_decide; [split; [discriminate | discriminate]|].
  assert (forall secret_bytes,
            (forall public_key st',
               bind (_keypair_from_bytes Keypair_from_bytes Keypair_from_seed secret_bytes)
                 (fun kp => bind (assign (set_wallet (Some kp))) (fun _ => ret (pubkey kp))) st
               = (inr public_key, st') ->
               exists secret_bytes' kp,
                 Some secret_bytes = Some secret_bytes'
                 /\ (length secret_bytes' = 32%nat /\ Keypair_from_seed secret_bytes' = Some kp
                     \/ length secret_bytes' = 64%nat
                        /\ Keypair_from_bytes secret_bytes' = Some kp)
                 /\ wallet (manager st') = Some kp /\ public_key = pubkey kp)
            /\ (forall secret_bytes',
                  Some secret_bytes = Some secret_bytes' ->
                  length secret_bytes' <> 32%nat -> length secret_bytes' <> 64%nat ->
                  bind (_keypair_from_bytes Keypair_from_bytes Keypair_from_seed secret_bytes)
                    (fun kp => bind (assign (set_wallet (Some kp))) (fun _ => ret (pubkey kp)))
                    st
                  = (inl (Raise ClsWalletLoadError MSecretLength None), st))) as Hdecoded.
  { intros secret_bytes. split.
    - intros public_key st' Hload. apply load_decoded in Hload as (kp & Hlen & Hw & Hp).
      exists secret_bytes, kp. auto.
    - intros secret_bytes' Heq H32 H64. injection Heq as <-.
      destruct (bind _ _ st) as [[e|public_key] st'] eqn:Hload.
      + apply load_decoded in Hload. destruct (Hload H32 H64) as [-> ->]. reflexivity.
      + apply load_decoded in Hload as (kp & [[Hlen _]|[Hlen _]] & _); congruence. }
  destruct (try_json_loads json_loads (Text.strip text)) as [e|[[| | | | | | |data|]|]];
    [split; [discriminate | discriminate]|..];
    try (destruct (b58decode (Text.strip text)) as [secret_bytes|];
         [apply Hdecoded | split; [discriminate | discriminate]]).
  destruct (bytes_of_json data) as [e|secret_bytes];
    [split; [discriminate | discriminate] | apply Hdecoded].
Qed.

End Wallet.

(** ** Balances *)

Section Balances.
Context {World : Type}.
Variable rpc : Client -> Request -> World -> (Exception + Response) * World.
Variable Pubkey_valid : string -> bool.
Implicit Types st : State World.

Lemma first_occurrences_NoDup addresses :
  forall seen, NoDup seen -> NoDup (seen ++ first_occurrences seen addresses).
Proof.
  induction addresses as [|a rest IH]; intros seen Hseen; cbn.
  - by rewrite app_nil_r.
  - case_bool_decide as Hin; [by apply IH|].
    replace (seen ++ a :: first_occurrences (seen ++ [a]) rest)
      with ((seen ++ [a]) ++ first_occurrences (seen ++ [a]) rest)
      by (by rewrite <- app_assoc).
    apply IH. apply NoDup_app. split; [exact Hseen|]. split; [|apply NoDup_singleton].
    intros x Hx Hxa. apply list_elem_of_singleton in Hxa. by subst.
Qed.

Lemma first_occurrences_complete addresses :
  forall seen a, a ∈ addresses -> a ∈ seen ++ first_occurrences seen addresses.
Proof.
  induction addresses as [|x rest IH]; intros seen a Ha; [by apply elem_of_nil in Ha|].
  cbn. apply elem_of_cons in Ha as [->|Ha].
  - case_bool_decide as Hin; [apply elem_of_app; by left|].
    apply elem_of_app. right. apply elem_of_cons. by left.
  - case_bool_decide as Hin; [by apply IH|].
    specialize (IH (seen ++ [x]) a Ha). rewrite <- app_assoc in IH. exact IH.
Qed.

Lemma first_occurrences_subset addresses :
  forall seen a, a ∈ first_occurrences seen addresses -> a ∈ addresses.
Proof.
  induction addresses as [|x rest IH]; intros seen a; cbn; [done|].
  case_bool_decide as Hseen; [intros Hin; apply elem_of_cons; right; by eapply IH|].
  intros Hin. apply elem_of_cons in Hin as [->|Hin]; apply elem_of_cons; [by left|].
  right. by eapply IH.
Qed.

(** The first loop keeps the caller's list as [order] and the first
    occurrences as [unique]. *)
Lemma dedupe_spec addresses :
  forall order unique (seen : gset string),
    (forall a, a ∈ seen <-> a ∈ unique) ->
    dedupe addresses order unique seen
    = (order ++ addresses, unique ++ first_occurrences unique addresses).
Proof.
  induction addresses as [|x rest IH]; intros order unique seen Hseen; cbn.
  - by rewrite !app_nil_r.
  - case_bool_decide as Hin.
    + rewrite bool_decide_eq_true_2 by (by apply Hseen).
      rewrite (IH _ _ _ Hseen). by rewrite <- app_assoc.
    + rewrite bool_decide_eq_false_2 by (by rewrite <- Hseen).
      rewrite (IH (order ++ [x]) (unique ++ [x]) (seen ∪ {[x]})).
      * by rewrite <- !app_assoc.
      * intros a. rewrite elem_of_union, elem_of_singleton, elem_of_app, list_elem_of_singleton.
        by rewrite Hseen.
Qed.

Lemma record_page_insert chunk accounts address account balances_unique :
  record_page (address :: chunk) (account :: accounts) balances_unique
  = record_page chunk accounts (<[address := reported_balance account]> balances_unique).
Proof. by destruct account. Qed.

Lemma record_page_other a chunk :
  forall accounts (balances_unique : gmap string Decimal),
    a ∉ chunk -> record_page chunk accounts balances_unique !! a = balances_unique !! a.
Proof.
  induction chunk as [|x chunk IH]; intros accounts balances_unique Ha; [reflexivity|].
  destruct accounts as [|account accounts]; [reflexivity|].
  apply not_elem_of_cons in Ha as [Hne Ha].
  rewrite record_page_insert, (IH _ _ Ha). by apply lookup_insert_ne.
Qed.

(** What a page records for the address at position [j]. *)
Lemma record_page_lookup chunk :
  forall accounts (balances_unique : gmap string Decimal) j a,
    NoDup chunk -> chunk !! j = Some a ->
    record_page chunk accounts balances_unique !! a
    = match accounts !! j with
      | Some account => Some (reported_balance account)
      | None => balances_unique !! a
      end.
Proof.
  induction chunk as [|x chunk IH]; intros accounts balances_unique j a Hnd Hj; [done|].
  apply NoDup_cons in Hnd as [Hx Hnd].
  destruct accounts as [|account accounts].
  { by rewrite lookup_nil. }
  rewrite record_page_insert. destruct j as [|j]; cbn in Hj |- *.
  - injection Hj as ->. rewrite (record_page_other _ _ _ _ Hx). apply lookup_insert_eq.
  - rewrite (IH _ _ _ _ Hnd Hj). destruct (accounts !! j); [reflexivity|].
    apply lookup_insert_ne. intros ->. apply Hx. eapply list_elem_of_lookup_2, Hj.
Qed.

Lemma elem_of_concat {A} (a : A) chunk (chunks : list (list A)) :
  a ∈ chunk -> chunk ∈ chunks -> a ∈ concat chunks.
Proof.
  intros Ha. induction chunks as [|c chunks IH]; intros Hin; [by apply elem_of_nil in Hin|].
  cbn. apply elem_of_app. apply elem_of_cons in Hin as [<-|Hin]; [by left | right; by apply IH].
Qed.

Lemma record_pages_other a chunks :
  forall answers (balances_unique : gmap string Decimal),
    a ∉ concat chunks -> record_pages chunks answers balances_unique !! a = balances_unique !! a.
Proof.
  induction chunks as [|chunk chunks IH]; intros answers balances_unique Ha; [reflexivity|].
  destruct answers as [|accounts answers]; [reflexivity|].
  cbn in Ha. apply not_elem_of_app in Ha as [Ha1 Ha2].
  cbn. rewrite (IH _ _ Ha2). by apply record_page_other.
Qed.

Lemma record_pages_lookup chunks :
  forall answers (balances_unique : gmap string Decimal) i j chunk accounts a,
    NoDup (concat chunks) ->
    chunks !! i = Some chunk -> answers !! i = Some accounts -> chunk !! j = Some a ->
    record_pages chunks answers balances_unique !! a
    = match accounts !! j with
      | Some account => Some (reported_balance account)
      | None => balances_unique !! a
      end.
Proof.
  induction chunks as [|chunk0 chunks IH];
    intros answers balances_unique i j chunk accounts a Hnd Hi Hans Hj; [done|].
  cbn in Hnd. apply NoDup_app in Hnd as (Hnd0 & Hdisjoint & Hnd1).
  destruct answers as [|accounts0 answers]; [by rewrite lookup_nil in Hans|].
  destruct i as [|i]; cbn in Hi, Hans |- *.
  - injection Hi as ->. injection Hans as ->.
    rewrite record_pages_other.
    + by apply record_page_lookup.
    + apply Hdisjoint. eapply list_elem_of_lookup_2, Hj.
  - rewrite (IH _ _ _ _ _ _ _ Hnd1 Hi Hans Hj). destruct (accounts !! j); [reflexivity|].
    apply record_page_other. intros Hin. apply (Hdisjoint a Hin).
    apply (elem_of_concat a chunk chunks); [eapply list_elem_of_lookup_2, Hj|].
    eapply list_elem_of_lookup_2, Hi.
Qed.

(** The loop over the pages asks once, successfully, for each page, and
    records the answers page by page. *)
Lemma fetch_pages_run commitment chunks :
  forall (balances_unique : gmap string Decimal) st balances st',
    fetch_pages rpc Pubkey_valid chunks commitment balances_unique st = (inr balances, st') ->
    exists evs answers,
      steps st st' evs
      /\ length answers = length chunks
      /\ successful_calls evs = zip_with (accounts_call commitment) chunks answers
      /\ balances = record_pages chunks answers balances_unique.
Proof.
  induction chunks as [|chunk chunks IH]; intros balances_unique st balances st' H;
    cbn [fetch_pages] in H.
  - unfold ret in H. injection H as <- <-. exists [], [].
    split; [apply steps_refl | done].
  - apply bind_inv in H as [(e & _ & Heq)|(pubkeys & st1 & Hkeys & H)]; [discriminate|].
    apply lift_inv in Hkeys as [Hkeys ->].
    unfold pubkeys_of in Hkeys. destruct (forallb Pubkey_valid chunk); [|discriminate].
    injection Hkeys as ->.
    apply bind_inv in H as [(e & _ & Heq)|(response & st2 & Hcall & H)]; [discriminate|].
    apply (perform_call rpc) in Hcall as (evs1 & Hsteps1 & Hcalls1).
    apply bind_inv in H as [(e & _ & Heq)|(accounts & st3 & Hacc & H)]; [discriminate|].
    apply lift_inv in Hacc as [Hacc ->].
    destruct response as [| | | | |value]; try discriminate Hacc. injection Hacc as ->.
    apply IH in H as (evs2 & answers & Hsteps2 & Hlen & Hcalls2 & ->).
    exists (evs1 ++ evs2), (value :: answers).
    split; [eapply steps_trans; eassumption|].
    split; [cbn; by rewrite Hlen|].
    split; [|reflexivity].
    rewrite successful_calls_app, Hcalls1, Hcalls2. reflexivity.
Qed.

(** The result dictionary has one item for each address of [order]. *)
Lemma result_dict_get (balances_unique : gmap string Decimal) order :
  forall d a,
    dict_get a (foldl (fun d address =>
                         dict_set address
                           (default (DFinite false 0 0) (balances_unique !! address)) d)
                      d order)
    = if bool_decide (a ∈ order)
      then Some (default (DFinite false 0 0) (balances_unique !! a))
      else dict_get a d.
Proof.
  induction order as [|x rest IH]; intros d a; cbn [foldl].
  - rewrite bool_decide_eq_false_2 by apply not_elem_of_nil. reflexivity.
  - rewrite IH, dict_get_set. case_bool_decide as Hrest.
    + rewrite bool_decide_eq_true_2 by (apply elem_of_cons; by right). reflexivity.
    + case_bool_decide as Hx.
      * subst x. rewrite bool_decide_eq_true_2 by (apply elem_of_cons; by left). reflexivity.
      * rewrite bool_decide_eq_false_2; [reflexivity|].
        intros Hin. apply elem_of_cons in Hin as [->|Hin]; done.
Qed.

Lemma result_dict_keys (balances_unique : gmap string Decimal) order :
  forall d,
    dict_keys (foldl (fun d address =>
                        dict_set address
                          (default (DFinite false 0 0) (balances_unique !! address)) d)
                     d order)
    = dict_keys d ++ first_occurrences (dict_keys d) order.
Proof.
  induction order as [|x rest IH]; intros d; cbn [foldl first_occurrences].
  - by rewrite app_nil_r.
  - rewrite IH. destruct (dict_get x d) as [v|] eqn:Hget.
    + rewrite (dict_keys_set_present _ _ _ _ Hget).
      rewrite bool_decide_eq_true_2; [reflexivity|].
      destruct (decide (x ∈ dict_keys d)) as [Hin|Hnotin]; [exact Hin|].
      apply dict_get_None in Hnotin. congruence.
    + rewrite (dict_keys_set_absent _ _ _ Hget).
      rewrite bool_decide_eq_false_2 by (by apply dict_get_None).
      by rewrite <- app_assoc.
Qed.

(** C8. What [fetch_balances] returns has every input address as a key,
    each key once, in the order of first occurrence, so that an address
    given twice has one value.  The unique addresses are asked for in
    consecutive pages of [accounts_query_chunk] addresses, the last page
    holding what is left, with one answered query per page; and the value of
    an address is what the answer to its page reports at its position: zero
    for an account that the ledger does not know, and zero as well when the
    answer does not reach that position. *)
Theorem fetch_balances_complete addresses commitment st result st' :
  1 <= accounts_query_chunk (manager st) ->
  fetch_balances rpc Pubkey_valid addresses commitment st = (inr result, st') ->
  (forall a, a ∈ addresses -> is_Some (dict_get a result))
  /\ NoDup (dict_keys result)
  /\ dict_keys result = first_occurrences [] addresses
  /\ exists chunks answers evs,
       _chunk (first_occurrences [] addresses) (accounts_query_chunk (manager st)) = inr chunks
       /\ (forall i chunk,
             chunks !! i = Some chunk ->
             1 <= Z.of_nat (length chunk) <= accounts_query_chunk (manager st)
             /\ (S i < length chunks ->
                 Z.of_nat (length chunk) = accounts_query_chunk (manager st))%nat)
       /\ length answers = length chunks
       /\ steps st st' evs
       /\ successful_calls evs = zip_with (accounts_call commitment) chunks answers
       /\ forall i j chunk accounts a,
            chunks !! i = Some chunk -> answers !! i = Some accounts -> chunk !! j = Some a ->
            dict_get a result
            = Some (match accounts !! j with
                    | Some account => reported_balance account
                    | None => zero_balance
                    end).
Proof.
  intros Hpage H.
  destruct (chunk_partition (first_occurrences [] addresses)
              (accounts_query_chunk (manager st)) Hpage) as (chunks & Hchunk & Hcat & Hsizes).
  pose proof (first_occurrences_NoDup addresses [] (NoDup_nil_2)) as Hnd. cbn [app] in Hnd.
  destruct addresses as [|first rest].
  { cbn in H. unfold ret in H. injection H as <- <-.
    assert (chunks = []) as ->.
    { destruct chunks as [|c cs]; [reflexivity|].
      destruct (Hsizes 0%nat c eq_refl) as [[Hc _] _].
      cbn in Hcat. apply app_eq_nil in Hcat as [-> _]. cbn in Hc. lia. }
    split; [intros a Ha; by apply elem_of_nil in Ha|].
    split; [constructor|]. split; [reflexivity|].
    exists [], [], []. split; [exact Hchunk|]. split; [done|]. split; [reflexivity|].
    split; [apply steps_refl|]. split; [reflexivity | done]. }
  unfold fetch_balances in H. cbv beta iota in H.
  set (addresses := first :: rest) in *.
  rewrite (dedupe_spec addresses [] [] ∅) in H
    by (intros a; split; intros Ha; [by apply elem_of_empty in Ha | by apply elem_of_nil in Ha]).
  cbn [app] in H. unfold bind at 1 in H. unfold self at 1 in H.
  rewrite Hchunk in H. unfold bind at 1, lift, ret at 1 in H.
  apply bind_inv in H as [(e & _ & Heq)|(balances & st1 & Hpages & H)]; [discriminate|].
  unfold ret in H. injection H as <- <-.
  apply fetch_pages_run in Hpages as (evs & answers & Hsteps & Hlen & Hcalls & ->).
  unfold result_dict.
  split.
  { intros a Ha. rewrite result_dict_get, bool_decide_eq_true_2 by exact Ha. eauto. }
  split; [rewrite result_dict_keys; exact Hnd|].
  split; [by rewrite result_dict_keys|].
  exists chunks, answers, evs.
  split; [exact Hchunk|]. split; [exact Hsizes|]. split; [exact Hlen|].
  split; [exact Hsteps|]. split; [exact Hcalls|].
  intros i j chunk accounts a Hi Hans Hj.
  assert (a ∈ addresses) as Ha.
  { apply (first_occurrences_subset addresses []). rewrite <- Hcat.
    apply (elem_of_concat a chunk chunks); eapply list_elem_of_lookup_2; eassumption. }
  rewrite result_dict_get, bool_decide_eq_true_2 by exact Ha.
  rewrite (record_pages_lookup chunks answers ∅ i j chunk accounts a) by
    (rewrite ?Hcat; assumption).
  destruct (accounts !! j); reflexivity.
Qed.

End Balances.

(** * Further properties *)

(** ** The pool *)

Section PoolMore.
Context {World : Type}.
Implicit Types st : State World.

Lemma clean_endpoints_spec endpoints :
  forall unique (seen : gset string),
    (forall a, a ∈ seen <-> a ∈ unique) ->
    clean_endpoints endpoints unique seen
    = unique ++ first_occurrences unique (stripped_endpoints endpoints).
Proof.
  unfold stripped_endpoints.
  induction endpoints as [|e rest IH]; intros unique seen Hseen; cbn.
  - by rewrite app_nil_r.
  - case_bool_decide as Hblank; cbn; [by apply IH|].
    case_bool_decide as Hin.
    + rewrite bool_decide_eq_true_2 by (by apply Hseen). by apply IH.
    + rewrite bool_decide_eq_false_2 by (by rewrite <- Hseen).
      rewrite (IH (unique ++ [Text.strip e]) (seen ∪ {[Text.strip e]})).
      * by rewrite <- app_assoc.
      * intros a. rewrite elem_of_union, elem_of_singleton, elem_of_app, list_elem_of_singleton.
        by rewrite Hseen.
Qed.

Lemma clean_endpoints_first_occurrences endpoints :
  clean_endpoints endpoints [] ∅ = first_occurrences [] (stripped_endpoints endpoints).
Proof.
  apply (clean_endpoints_spec endpoints [] ∅).
  intros a. split; intros Ha; [by apply elem_of_empty in Ha | by apply elem_of_nil in Ha].
Qed.

Lemma stripped_endpoints_not_blank endpoints e :
  e ∈ stripped_endpoints endpoints ->
  e <> EmptyString /\ exists raw, raw ∈ endpoints /\ e = Text.strip raw.
Proof.
  unfold stripped_endpoints. intros He.
  apply list_elem_of_In, List.filter_In in He as [Hin Hnb].
  split.
  - intros ->. by rewrite bool_decide_eq_true_2 in Hnb.
  - apply List.in_map_iff in Hin as (raw & <- & Hraw).
    exists raw. split; [by apply list_elem_of_In | reflexivity].
Qed.

(** X1. A call of [set_rpc_pool] that returns has replaced the pool by
    the given endpoints, stripped, without blanks, each kept at its first
    occurrence; the pool is not empty and holds no endpoint twice; the
    active index is 0, the active endpoint is the first of the pool and the
    client is built on it with the timeout now in force; and each of the
    retry budget, the backoff and the timeout is the value given, or the
    former value when none was given. *)
Theorem set_rpc_pool_installs_pool st endpoints max_retries retry_backoff timeout' st' :
  set_rpc_pool endpoints max_retries retry_backoff timeout' st = (inr tt, st') ->
  rpc_endpoints (manager st') = first_occurrences [] (stripped_endpoints endpoints)
  /\ rpc_endpoints (manager st') <> []
  /\ NoDup (rpc_endpoints (manager st'))
  /\ (forall e, e ∈ rpc_endpoints (manager st') ->
        e <> EmptyString /\ exists raw, raw ∈ endpoints /\ e = Text.strip raw)
  /\ _current_endpoint_index (manager st') = 0
  /\ Some (endpoint (manager st')) = head (rpc_endpoints (manager st'))
  /\ client (manager st')
     = {| client_endpoint := endpoint (manager st'); client_timeout := timeout (manager st') |}
  /\ max_retries_per_endpoint (manager st')
     = or_current max_retries (max_retries_per_endpoint (manager st))
  /\ retry_backoff_seconds (manager st')
     = or_current retry_backoff (retry_backoff_seconds (manager st))
  /\ timeout (manager st') = or_current timeout' (timeout (manager st)).
Proof.
  intros H.
  assert (rpc_endpoints (manager st') = clean_endpoints endpoints [] ∅
          /\ clean_endpoints endpoints [] ∅ <> []
          /\ _current_endpoint_index (manager st') = 0
          /\ Some (endpoint (manager st')) = head (rpc_endpoints (manager st'))
          /\ client (manager st')
             = {| client_endpoint := endpoint (manager st');
                  client_timeout := timeout (manager st') |}
          /\ max_retries_per_endpoint (manager st')
             = or_current max_retries (max_retries_per_endpoint (manager st))
          /\ retry_backoff_seconds (manager st')
             = or_current retry_backoff (retry_backoff_seconds (manager st))
          /\ timeout (manager st') = or_current timeout' (timeout (manager st)))
    as (Hpool & Hne & Hidx & Hhead & Hclient & HR & Hb & Ht).
  { unfold set_rpc_pool in H.
    destruct (clean_endpoints endpoints [] ∅) as [|first rest]; [discriminate|].
    destruct st as [m w c tr]. destruct m.
    destruct max_retries as [R|]; [destruct (R <? 1) eqn:HR'|];
      (destruct retry_backoff as [b|]; [destruct (float_lt_zero b) eqn:Hdec|]);
      destruct timeout' as [t|]; run; try rewrite HR' in H; run; try rewrite Hdec in H; run;
      try discriminate; injection H as <-; cbn; repeat split; discriminate. }
  pose proof (clean_endpoints_first_occurrences endpoints) as Hclean.
  assert (rpc_endpoints (manager st') = first_occurrences [] (stripped_endpoints endpoints))
    as Hfirst by (by rewrite Hpool).
  split; [exact Hfirst|].
  split; [by rewrite Hpool|].
  split; [rewrite Hfirst; exact (first_occurrences_NoDup _ [] (NoDup_nil_2))|].
  split.
  { intros e He. rewrite Hfirst in He. apply stripped_endpoints_not_blank.
    eapply first_occurrences_subset, He. }
  auto 10.
Qed.

(** X2. A call of [set_rpc_pool] with no usable endpoint, or with a retry
    budget below one, raises [ValueError] and leaves the whole state as it
    was. *)
Theorem set_rpc_pool_rejects_unchanged st endpoints max_retries retry_backoff timeout' :
  stripped_endpoints endpoints = []
  \/ (exists r, max_retries = Some r /\ r < 1) ->
  exists e,
    set_rpc_pool endpoints max_retries retry_backoff timeout' st = (inl e, st)
    /\ exn_class e = ClsValueError.
Proof.
  intros Hbad.
  destruct (clean_endpoints endpoints [] ∅) as [|first rest] eqn:Hclean.
  - eexists. split; [by apply set_rpc_pool_empty_unchanged | reflexivity].
  - destruct Hbad as [Hnone|(r & -> & Hr)].
    + rewrite clean_endpoints_first_occurrences, Hnone in Hclean. discriminate Hclean.
    + eexists. split;
        [apply set_rpc_pool_bad_retries_unchanged; [by rewrite Hclean | exact Hr]
        | reflexivity].
Qed.

(** X3. [set_endpoint] on an endpoint that is not blank always succeeds:
    the pool becomes that one endpoint, stripped, which is the active one;
    the timeout is replaced when one is given; the retry budget, the
    backoff, the wallet and the rest of the state are left alone. *)
Theorem set_endpoint_single_pool st endpoint' timeout' :
  Text.strip endpoint' <> EmptyString ->
  exists st',
    set_endpoint endpoint' timeout' st = (inr tt, st')
    /\ rpc_endpoints (manager st') = [Text.strip endpoint']
    /\ endpoint (manager st') = Text.strip endpoint'
    /\ client (manager st')
       = {| client_endpoint := Text.strip endpoint';
            client_timeout := or_current timeout' (timeout (manager st)) |}
    /\ _current_endpoint_index (manager st') = 0
    /\ timeout (manager st') = or_current timeout' (timeout (manager st))
    /\ max_retries_per_endpoint (manager st') = max_retries_per_endpoint (manager st)
    /\ retry_backoff_seconds (manager st') = retry_backoff_seconds (manager st)
    /\ wallet (manager st') = wallet (manager st)
    /\ last_recipient_warnings (manager st') = last_recipient_warnings (manager st)
    /\ world st' = world st /\ clock st' = clock st /\ trace st' = trace st.
Proof.
  unfold set_endpoint, set_rpc_pool. cbn [clean_endpoints].
  intros Hstrip.
  rewrite bool_decide_eq_false_2 by exact Hstrip.
  rewrite bool_decide_eq_false_2 by apply not_elem_of_empty.
  cbn [app]. destruct st as [m w c tr]. destruct m.
  destruct timeout' as [t|]; run; eexists; repeat split.
Qed.

(** X4. The constructor, given an endpoint that is not blank, builds a
    manager whose pool is that endpoint alone, stripped, and is in order:
    a retry budget, a page size and a batch size below one are raised to
    one; a negative backoff is raised to zero, and so are NaN and the
    negative infinity, while the positive infinity is kept, so that the
    backoff stored is never NaN; no wallet is loaded and no warning is
    recorded. *)
Theorem init_establishes_pool endpoint' timeout' max_retries retry_backoff page_size
    batch_size limit price (w : World) now :
  Text.strip endpoint' <> EmptyString ->
  exists st,
    __init__ endpoint' timeout' max_retries retry_backoff page_size batch_size limit price w now
    = (inr tt, st)
    /\ pool_ok (manager st)
    /\ rpc_endpoints (manager st) = [Text.strip endpoint']
    /\ timeout (manager st) = timeout'
    /\ max_retries_per_endpoint (manager st) = Z.max 1 max_retries
    /\ retry_backoff_seconds (manager st) <> FNaN
    /\ (forall q, retry_backoff = FFinite q ->
          exists q', retry_backoff_seconds (manager st) = FFinite q'
                     /\ ((0 <= q)%Q -> (q' == q)%Q) /\ ((q <= 0)%Q -> (q' == 0)%Q))
    /\ (retry_backoff = FInfinity false -> retry_backoff_seconds (manager st) = FInfinity false)
    /\ (retry_backoff = FInfinity true \/ retry_backoff = FNaN ->
        retry_backoff_seconds (manager st) = FFinite 0)
    /\ accounts_query_chunk (manager st) = Z.max 1 page_size
    /\ default_max_recipients_per_tx (manager st) = Z.max 1 batch_size
    /\ default_compute_unit_limit (manager st) = limit
    /\ default_compute_unit_price (manager st) = price
    /\ wallet (manager st) = None
    /\ last_recipient_warnings (manager st) = []
    /\ world st = w /\ clock st = now /\ trace st = [].
Proof.
  intros Hstrip.
  destruct (__init__ endpoint' timeout' max_retries retry_backoff page_size batch_size
              limit price w now) as [r st] eqn:Hinit.
  assert (r = inr tt
          /\ rpc_endpoints (manager st) = [Text.strip endpoint']
          /\ timeout (manager st) = timeout'
          /\ max_retries_per_endpoint (manager st) = Z.max 1 max_retries
          /\ retry_backoff_seconds (manager st) = float_max_zero retry_backoff
          /\ accounts_query_chunk (manager st) = Z.max 1 page_size
          /\ default_max_recipients_per_tx (manager st) = Z.max 1 batch_size
          /\ default_compute_unit_limit (manager st) = limit
          /\ default_compute_unit_price (manager st) = price
          /\ wallet (manager st) = None
          /\ last_recipient_warnings (manager st) = []
          /\ world st = w /\ clock st = now /\ trace st = [])
    as (-> & Hpool & Ht & HR & Hb & Hrest).
  { unfold __init__, set_rpc_pool in Hinit. cbn [clean_endpoints] in Hinit.
    rewrite bool_decide_eq_false_2 in Hinit by exact Hstrip.
    rewrite bool_decide_eq_false_2 in Hinit by apply not_elem_of_empty.
    cbn [app] in Hinit. run. injection Hinit as <- <-. cbn. repeat split. }
  exists st. split; [reflexivity|].
  split; [exact (proj1 (init_ok _ _ _ _ _ _ _ _ _ _ _ Hinit))|].
  split; [exact Hpool|]. split; [exact Ht|]. split; [exact HR|].
  rewrite Hb. split; [|split; [|split; [|split; [|exact Hrest]]]].
  - destruct retry_backoff as [q|[|]|]; cbn; [destruct (Qlt_le_dec 0 q)|..]; discriminate.
  - intros q ->. cbn. destruct (Qlt_le_dec 0 q) as [Hlt|Hle]; eexists;
      (split; [reflexivity|]); split; intros Hsign; lra.
  - intros ->. reflexivity.
  - intros [-> | ->]; reflexivity.
Qed.

(** X5. Whatever [set_rpc_pool] is given and whether it returns or
    raises, a pool that was in order is in order afterwards: the pool is
    not empty, the retry budget is at least one, the backoff is not below
    zero (it can be NaN or infinite, which the test of [set_rpc_pool] lets
    through), and the active index, endpoint and client agree; the wallet,
    the recorded warnings, the service, the clock and the trace are never
    touched. *)
Theorem set_rpc_pool_keeps_pool_in_order st endpoints max_retries retry_backoff timeout' :
  pool_ok (manager st) ->
  let st' := snd (set_rpc_pool endpoints max_retries retry_backoff timeout' st) in
  pool_ok (manager st')
  /\ wallet (manager st') = wallet (manager st)
  /\ last_recipient_warnings (manager st') = last_recipient_warnings (manager st)
  /\ world st' = world st /\ clock st' = clock st /\ trace st' = trace st.
Proof.
  intros Hok. pose proof Hok as [Hne HR Hb Hi He Hc]. cbv zeta.
  unfold set_rpc_pool.
  destruct (clean_endpoints endpoints [] ∅) as [|first rest]; [run; auto 10|].
  destruct st as [m w c tr]. destruct m. cbn in Hne, HR, Hb, Hi, He, Hc.
  destruct max_retries as [R|]; [destruct (R <? 1) eqn:HR'|];
    (destruct retry_backoff as [b|]; [destruct (float_lt_zero b) eqn:Hdec|]);
    destruct timeout' as [t|]; run; try rewrite HR'; run; try rewrite Hdec; run;
    (split; [|repeat split]);
    (split; cbn; [assumption || discriminate | try (apply Z.ltb_ge in HR'); lia | assumption
                 | assumption || lia | assumption || reflexivity | assumption || reflexivity]).
Qed.

End PoolMore.

(** ** Retries over the pool *)

Section RetriesMore.
Context {World : Type}.
Implicit Types st : State World.

Lemma rotated_ok m k : pool_ok m -> pool_ok (rotated m k).
Proof.
  intros Hok. pose proof Hok as [Hne HR Hb Hi He Hc].
  pose proof (scheduled_index_range m k Hne) as Hrange.
  destruct (rotated_fields m k) as (Hp & HRk & Hbk & Ht & Hcl & Hidx).
  split; rewrite ?Hp, ?HRk, ?Hbk, ?Hidx; try assumption.
  - destruct m; reflexivity.
  - rewrite Hcl. unfold scheduled_client. destruct m; reflexivity.
Qed.

(** The end of a failed attempt: the manager moves from [rotated m k] to
    [rotated m (k + 1)], whether the endpoint is rotated or not. *)
Lemma rotation_after_attempt st m k :
  pool_ok m -> 0 <= k -> manager st = rotated m k ->
  exists st2,
    (if (1 <? Z.of_nat (length (rpc_endpoints m)))
        && ((k + 1) mod max_retries_per_endpoint m =? 0)
     then _rotate_endpoint else fun st => (inr tt, st)) st = (inr tt, st2)
    /\ manager st2 = rotated m (k + 1)
    /\ world st2 = world st /\ clock st2 = clock st /\ trace st2 = trace st.
Proof.
  intros Hok Hk Hm. pose proof Hok as [Hne HR Hb Hi He Hc].
  destruct ((1 <? Z.of_nat (length (rpc_endpoints m)))
            && ((k + 1) mod max_retries_per_endpoint m =? 0)) eqn:Hcond.
  - apply andb_true_iff in Hcond as [HN Hmod].
    apply Z.ltb_lt in HN. apply Z.eqb_eq in Hmod.
    eexists. split; [apply (rotate_endpoint_step st m k); assumption|].
    repeat split.
  - exists st. split; [reflexivity|]. split; [|repeat split].
    rewrite Hm. symmetry.
    apply andb_false_iff in Hcond as [HN|Hmod].
    + apply rotated_single. apply Z.ltb_ge in HN.
      destruct (rpc_endpoints m); [done | simpl in *; lia].
    + apply rotated_same_endpoint; [exact HR | exact Hk |].
      apply Z.eqb_neq. exact Hmod.
Qed.

Lemma backoff_sleep_bound (b : Q) (k : Z) :
  (0 <= b)%Q -> 0 <= k -> (b * inject_Z (Z.min k 4) <= b * 4)%Q.
Proof.
  intros Hb Hk. apply Qmult_le_compat_nonneg.
  - split; [exact Hb | apply Qle_refl].
  - split; change 0%Q with (inject_Z 0); [|change 4%Q with (inject_Z 4)];
      rewrite <- Zle_Qle; lia.
Qed.

(** A sleep that returns was asked for a number that is not negative, and
    has moved the clock on by it. *)
Lemma time_sleep_returns d st st' :
  time_sleep d st = (inr tt, st') ->
  (0 <= seconds_of d)%Q
  /\ st' = log (EvSleep (seconds_of d))
             {| manager := manager st; world := world st;
                clock := (clock st + seconds_of d)%Q; trace := trace st |}.
Proof.
  unfold time_sleep. destruct d as [seconds|negative|]; [|discriminate|discriminate].
  destruct ((sleep_nanoseconds seconds <? - 2 ^ 63) || (2 ^ 63 <=? sleep_nanoseconds seconds));
    [discriminate|].
  destruct (sleep_nanoseconds seconds <? 0) eqn:Hns; [discriminate|].
  intros H. injection H as <-. split; [|reflexivity]. cbn [seconds_of].
  destruct (Qlt_le_dec seconds 0) as [Hneg|Hpos]; [|exact Hpos].
  apply sleep_nanoseconds_neg in Hneg. apply Z.ltb_ge in Hns. lia.
Qed.

(** A sleep that is refused leaves everything as it was; its length is
    none of those that are taken. *)
Lemma time_sleep_refused d st e st' :
  time_sleep d st = (inl e, st') -> st' = st /\ ~ sleep_taken d.
Proof.
  intros H. split.
  - apply time_sleep_steps in H as [[? _]|(e' & _ & ->)]; [discriminate | reflexivity].
  - intros Htaken. rewrite (sleep_taken_runs d st Htaken) in H. discriminate H.
Qed.

(** The backoff sleep after attempt [j], when it returns. *)
Lemma backoff_sleep_returns (b : Float) (j : Z) st st' :
  1 <= j ->
  time_sleep (float_mul_int b j) st = (inr tt, st') ->
  (0 <= seconds_of b)%Q
  /\ st' = log (EvSleep (seconds_of b * inject_Z j))
             {| manager := manager st; world := world st;
                clock := (clock st + seconds_of b * inject_Z j)%Q; trace := trace st |}.
Proof.
  intros Hj H. apply time_sleep_returns in H as [Hpos ->].
  destruct b as [seconds|negative|]; cbn [float_mul_int seconds_of] in *.
  - split; [|reflexivity].
    destruct (Qlt_le_dec seconds 0) as [Hneg|Hge]; [|exact Hge]. exfalso.
    apply (Qlt_not_le _ _ Hneg).
    assert (0 < inject_Z j)%Q as Hjpos
      by (change 0%Q with (inject_Z 0); rewrite <- Zlt_Qlt; lia).
    apply (Qmult_le_r _ _ _ Hjpos). rewrite Qmult_0_l. exact Hpos.
  - destruct (j =? 0); split; (apply Qle_refl || reflexivity).
  - split; [apply Qle_refl | reflexivity].
Qed.

Section AnyCallable.
Context {T : Type} (func : Client -> Remote World T).

(** The loop of [_perform] from attempt [k + 1] on, for any callable: it
    returns, or it uses up the budget, or a backoff sleep is refused. *)
Lemma perform_loop_run m (Hok : pool_ok m) remaining :
  forall k st last_error,
    0 <= k ->
    k + Z.of_nat remaining = Z.of_nat (length (rpc_endpoints m)) * max_retries_per_endpoint m ->
    manager st = rotated m k ->
    exists attempts st',
      (clock st <= clock st')%Q
      /\ (clock st' <= clock st
            + seconds_of (retry_backoff_seconds m)
              * inject_Z (4 * Z.of_nat (length attempts)))%Q
      /\ ((exists v calls w,
             _perform_loop func (Z.of_nat (length (rpc_endpoints m)))
               (Z.of_nat (length (rpc_endpoints m)) * max_retries_per_endpoint m)
               remaining k last_error st = (inr v, st')
             /\ (length attempts < remaining)%nat
             /\ func (scheduled_client m (k + Z.of_nat (length attempts))) w
                = ((inr v, calls), world st')
             /\ manager st' = rotated m (k + Z.of_nat (length attempts))
             /\ trace st'
                = trace st ++ exhausting_trace m k attempts
                  ++ [EvAttempt (scheduled_client m (k + Z.of_nat (length attempts)))
                        calls None])
          \/ (_perform_loop func (Z.of_nat (length (rpc_endpoints m)))
                (Z.of_nat (length (rpc_endpoints m)) * max_retries_per_endpoint m)
                remaining k last_error st
              = (inl (Raise ClsRuntimeError
                        (MRetryExhausted
                           (Z.of_nat (length (rpc_endpoints m)) * max_retries_per_endpoint m)
                           (rpc_endpoints m)
                           (exn_message <$> last_raised attempts last_error))
                        (last_raised attempts last_error)), st')
              /\ length attempts = remaining
              /\ manager st' = m
              /\ trace st' = trace st ++ exhausting_trace m k attempts)
          \/ (exists calls e refusal w,
                _perform_loop func (Z.of_nat (length (rpc_endpoints m)))
                  (Z.of_nat (length (rpc_endpoints m)) * max_retries_per_endpoint m)
                  remaining k last_error st = (inl refusal, st')
                /\ (length attempts < remaining)%nat
                /\ func (scheduled_client m (k + Z.of_nat (length attempts))) w
                   = ((inl e, calls), world st')
                /\ time_sleep (float_mul_int (retry_backoff_seconds m)
                                 (Z.min (k + Z.of_nat (length attempts) + 1) 4)) st'
                   = (inl refusal, st')
                /\ manager st' = rotated m (k + Z.of_nat (length attempts))
                /\ trace st'
                   = trace st ++ exhausting_trace m k attempts
                     ++ [EvAttempt (scheduled_client m (k + Z.of_nat (length attempts)))
                           calls (Some e)])).
Proof.
  pose proof Hok as [Hne HR Hb Hi He Hc].
  induction remaining as [|remaining IH]; intros k st last_error Hk Hsum Hm.
  - exists [], st. split; [apply Qle_refl|]. split.
    { cbn. rewrite Qmult_0_r, Qplus_0_r. apply Qle_refl. }
    right. left. cbn [_perform_loop]. run.
    destruct (rotated_fields m k) as (Hp & _).
    rewrite Hm, Hp. repeat split.
    + replace k with (Z.of_nat (length (rpc_endpoints m)) * max_retries_per_endpoint m) by lia.
      apply rotated_full_cycle, Hok.
    + cbn. rewrite app_nil_r. reflexivity.
  - destruct (rotated_fields m k) as (Hp & HRk & Hbk & Ht & Hcl & Hidx).
    cbn [_perform_loop]. run. unfold invoke. run. rewrite Hm, Hcl.
    destruct (func (scheduled_client m k) (world st)) as [[[e|v] calls] w'] eqn:Hf.
    + run. rewrite Hbk.
      set (st0 := {| manager := rotated m k; world := w'; clock := clock st;
                     trace := trace st ++ [EvAttempt (scheduled_client m k) calls (Some e)] |}).
      destruct (time_sleep (float_mul_int (retry_backoff_seconds m) (Z.min (k + 1) 4)) st0)
        as [[refusal|[]] st1] eqn:Hsleep.
      * pose proof (time_sleep_refused _ _ _ _ Hsleep) as [-> _].
        exists [], st0. split; [apply Qle_refl|]. split.
        { cbn. rewrite Qmult_0_r, Qplus_0_r. apply Qle_refl. }
        right. right. exists calls, e, refusal, (world st).
        cbn [length Z.of_nat]. rewrite Z.add_0_r.
        repeat split; [lia | exact Hf | exact Hsleep].
      * apply backoff_sleep_returns in Hsleep as [Hpos ->]; [|lia].
        subst st0. run. rewrite HRk.
        match goal with
        | |- context [(if _ then _rotate_endpoint else _) ?s] => set (st1 := s)
        end.
        destruct (rotation_after_attempt st1 m k Hok Hk eq_refl)
          as (st2 & Hrot & Hm2 & Hw2 & Hc2 & Htr2).
        rewrite Hrot.
        destruct (IH (k + 1) st2 (Some e)) as (attempts & st' & Hc1 & Hc3 & Hrun);
          [lia | lia | exact Hm2 |].
        exists ((calls, e) :: attempts), st'.
        assert (clock st2
                = (clock st + seconds_of (retry_backoff_seconds m)
                              * inject_Z (Z.min (k + 1) 4))%Q)
          as Hclock by (rewrite Hc2; reflexivity).
        pose proof (backoff_sleep_bound (seconds_of (retry_backoff_seconds m)) (k + 1)
                      Hpos ltac:(lia)) as Hbound.
        assert (0 <= seconds_of (retry_backoff_seconds m) * inject_Z (Z.min (k + 1) 4))%Q
          as Hslept.
        { apply Qmult_le_0_compat; [exact Hpos|].
          change 0%Q with (inject_Z 0). rewrite <- Zle_Qle. lia. }
        split.
        { eapply Qle_trans; [|exact Hc1]. rewrite Hclock.
          rewrite <- (Qplus_0_r (clock st)) at 1. apply Qplus_le_r. exact Hslept. }
        split.
        { eapply Qle_trans; [exact Hc3|]. rewrite Hclock.
          replace (4 * Z.of_nat (length ((calls, e) :: attempts)))
            with (4 + 4 * Z.of_nat (length attempts)) by (simpl length; lia).
          rewrite inject_Z_plus.
          change (inject_Z 4) with 4%Q.
          set (x := (seconds_of (retry_backoff_seconds m) * inject_Z (Z.min (k + 1) 4))%Q) in *.
          set (y := inject_Z (4 * Z.of_nat (length attempts))).
          rewrite Qmult_plus_distr_r.
          set (z := (seconds_of (retry_backoff_seconds m) * y)%Q).
          set (u := (seconds_of (retry_backoff_seconds m) * 4)%Q) in *.
          lra. }
        replace (k + Z.of_nat (length ((calls, e) :: attempts)))
          with (k + 1 + Z.of_nat (length attempts)) by (simpl length; lia).
        destruct Hrun as [(v & calls' & w & Hloop & Hlen & Hfunc & Hm' & Htr')
                         |[(Hloop & Hlen & Hm' & Htr')
                          |(calls' & e' & refusal & w & Hloop & Hlen & Hfunc & Hrefused
                            & Hm' & Htr')]].
        -- left. exists v, calls', w. rewrite Hloop.
           repeat split; [simpl; lia | exact Hfunc | exact Hm' |].
           rewrite Htr', Htr2. subst st1. cbn. rewrite <- !app_assoc. reflexivity.
        -- right. left. rewrite Hloop.
           repeat split; [simpl; congruence | exact Hm' |].
           rewrite Htr', Htr2. subst st1. cbn. rewrite <- !app_assoc. reflexivity.
        -- right. right. exists calls', e', refusal, w. rewrite Hloop.
           repeat split; [simpl; lia | exact Hfunc | exact Hrefused | exact Hm' |].
           rewrite Htr', Htr2. subst st1. cbn. rewrite <- !app_assoc. reflexivity.
    + run.
      exists [], {| manager := rotated m k; world := w'; clock := clock st;
                    trace := trace st ++ [EvAttempt (scheduled_client m k) calls None] |}.
      split; [apply Qle_refl|]. split.
      { cbn. rewrite Qmult_0_r, Qplus_0_r. apply Qle_refl. }
      left. exists v, calls, (world st).
      cbn [length Z.of_nat]. rewrite Z.add_0_r.
      repeat split; [lia | exact Hf].
Qed.

(** X6. A call through [_perform] on a pool that is in order, with any
    callable, has one of three outcomes.  Either it returns the value of
    the first attempt that did not raise: fewer than N * R attempts failed
    before it, each on the scheduled endpoint and followed by its sleep, the
    value is what the callable answered on the scheduled client, and the
    manager stays on the endpoint that answered.  Or it raises the
    RuntimeError of the exhausted budget after exactly N * R failed
    attempts, with the last failure as its cause, and the manager is back on
    the endpoint it started from.  Or [time.sleep] refuses the backoff after
    a failed attempt, and its exception leaves [_perform] at once, in place
    of the failure of the attempt; this does not happen when the backoff is
    such that its longest sleep of the run is taken.  No other exception
    leaves [_perform], the pool stays in order, and the time slept is at
    most four backoffs per attempt that was followed by its sleep. *)
Theorem perform_outcomes st :
  pool_ok (manager st) ->
  let m := manager st in
  let N := Z.of_nat (length (rpc_endpoints m)) in
  let R := max_retries_per_endpoint m in
  exists attempts st',
    snd (_perform func st) = st'
    /\ pool_ok (manager st')
    /\ (clock st <= clock st')%Q
    /\ (clock st' <= clock st
          + seconds_of (retry_backoff_seconds m) * inject_Z (4 * Z.of_nat (length attempts)))%Q
    /\ Z.of_nat (length attempts) <= N * R
    /\ ((exists v calls w,
           fst (_perform func st) = inr v
           /\ Z.of_nat (length attempts) < N * R
           /\ func (scheduled_client m (Z.of_nat (length attempts))) w
              = ((inr v, calls), world st')
           /\ manager st' = rotated m (Z.of_nat (length attempts))
           /\ trace st' = trace st ++ perform_trace m attempts (Some calls))
        \/ (exists calls e,
              fst (_perform func st)
              = inl (Raise ClsRuntimeError
                       (MRetryExhausted (N * R) (rpc_endpoints m) (Some (exn_message e)))
                       (Some e))
              /\ Z.of_nat (length attempts) = N * R
              /\ last attempts = Some (calls, e)
              /\ manager st' = m
              /\ trace st' = trace st ++ perform_trace m attempts None)
        \/ (exists calls e refusal w,
              fst (_perform func st) = inl refusal
              /\ Z.of_nat (length attempts) < N * R
              /\ func (scheduled_client m (Z.of_nat (length attempts))) w
                 = ((inl e, calls), world st')
              /\ time_sleep (float_mul_int (retry_backoff_seconds m)
                               (Z.min (Z.of_nat (length attempts) + 1) 4)) st'
                 = (inl refusal, st')
              /\ ~ sleep_taken (float_mul_int (retry_backoff_seconds m) (Z.min (N * R) 4))
              /\ manager st' = rotated m (Z.of_nat (length attempts))
              /\ trace st'
                 = trace st ++ exhausting_trace m 0 attempts
                   ++ [EvAttempt (scheduled_client m (Z.of_nat (length attempts)))
                         calls (Some e)])).
Proof.
  intros Hok m N R. pose proof Hok as [Hne HR Hb Hi He Hc].
  assert (1 <= N) as HN by (subst N m; destruct (rpc_endpoints (manager st)); [done | simpl; lia]).
  assert (1 <= R) as HR' by exact HR.
  destruct (perform_loop_run m Hok (Z.to_nat (N * R)) 0 st None)
    as (attempts & st' & Hc1 & Hc2 & Hrun).
  { lia. }
  { fold N R. rewrite Z2Nat.id; nia. }
  { symmetry. apply rotated_0, Hok. }
  exists attempts, st'.
  assert (_perform func st
          = _perform_loop func N (N * R) (Z.to_nat (N * R)) 0 None st) as Hperform
    by (unfold _perform; run; reflexivity).
  rewrite Hperform. fold N R in Hrun. rewrite !Z.add_0_l in Hrun.
  destruct Hrun as [(v & calls & w & Hloop & Hlen & Hfunc & Hm' & Htr')
                   |[(Hloop & Hlen & Hm' & Htr')
                    |(calls & e & refusal & w & Hloop & Hlen & Hfunc & Hrefused & Hm' & Htr')]];
    rewrite Hloop; cbn [fst snd].
  - split; [reflexivity|]. split; [rewrite Hm'; apply rotated_ok, Hok|].
    split; [exact Hc1|]. split; [exact Hc2|].
    assert (Z.of_nat (length attempts) < N * R) as Hlt by lia.
    split; [lia|]. left. exists v, calls, w.
    repeat split; [exact Hlt | exact Hfunc | exact Hm' |].
    unfold perform_trace. exact Htr'.
  - assert (Z.of_nat (length attempts) = N * R) as Hlen' by (rewrite Hlen, Z2Nat.id; nia).
    destruct (last attempts) as [[calls e]|] eqn:Hlast.
    2:{ apply last_None in Hlast. subst attempts. simpl in Hlen'. nia. }
    split; [reflexivity|]. split; [rewrite Hm'; exact Hok|].
    split; [exact Hc1|]. split; [exact Hc2|].
    split; [lia|]. right. left. exists calls, e.
    rewrite last_raised_last, Hlast.
    repeat split; [exact Hlen' | exact Hm' |].
    unfold perform_trace. rewrite app_nil_r. exact Htr'.
  - assert (Z.of_nat (length attempts) < N * R) as Hlt by lia.
    split; [reflexivity|]. split; [rewrite Hm'; apply rotated_ok, Hok|].
    split; [exact Hc1|]. split; [exact Hc2|].
    split; [lia|]. right. right. exists calls, e, refusal, w.
    split; [reflexivity|]. split; [exact Hlt|]. split; [exact Hfunc|].
    split; [exact Hrefused|]. split; [|split; [exact Hm' | exact Htr']].
    intros Hlongest.
    destruct (backoff_sleep_taken (retry_backoff_seconds m)
                (Z.of_nat (length attempts) + 1) (N * R) Hlongest ltac:(lia)) as [Htaken _].
    apply time_sleep_refused in Hrefused as [_ Hnot]. exact (Hnot Htaken).
Qed.


End AnyCallable.

Lemma attempts_made_app evs1 evs2 :
  attempts_made (evs1 ++ evs2) = (attempts_made evs1 + attempts_made evs2)%nat.
Proof.
  induction evs1 as [|[c calls raised|d] evs1 IH]; cbn [app attempts_made];
    [reflexivity | by rewrite IH | exact IH].
Qed.

Lemma attempts_made_exhausting m attempts :
  forall k, attempts_made (exhausting_trace m k attempts) = length attempts.
Proof.
  induction attempts as [|[calls e] rest IH]; intros k; cbn [exhausting_trace attempts_made];
    [reflexivity|]. by rewrite IH.
Qed.

Lemma settings_rotated m k : settings (rotated m k) = settings m.
Proof. by destruct m. Qed.

(** One call through [_perform], as a step of a longer run.  What it
    raises is the error of the exhausted budget, or what [time.sleep] raised
    for a backoff. *)
Lemma perform_round {T} (func : Client -> Remote World T) st :
  pool_ok (manager st) ->
  let N := Z.of_nat (length (rpc_endpoints (manager st))) in
  let R := max_retries_per_endpoint (manager st) in
  exists evs,
    steps st (snd (_perform func st)) evs
    /\ pool_ok (manager (snd (_perform func st)))
    /\ Z.of_nat (attempts_made evs) <= N * R
    /\ match fst (_perform func st) with
       | inr v =>
           exists c w calls, func c w = ((inr v, calls), world (snd (_perform func st)))
       | inl e =>
           (exists cause,
              e = Raise ClsRuntimeError
                    (MRetryExhausted (N * R) (rpc_endpoints (manager st))
                       (Some (exn_message cause)))
                    (Some cause))
           \/ (exists j,
                 1 <= j <= 4
                 /\ time_sleep (float_mul_int (retry_backoff_seconds (manager st)) j)
                      (snd (_perform func st))
                    = (inl e, snd (_perform func st))
                 /\ ~ sleep_taken (float_mul_int (retry_backoff_seconds (manager st))
                                     (Z.min (N * R) 4)))
       end.
Proof.
  intros Hok N R. pose proof Hok as [Hne HR Hb Hi He Hc].
  assert (1 <= N) as HN
    by (subst N; destruct (rpc_endpoints (manager st)); [done | simpl; lia]).
  assert (1 <= R) as HR' by exact HR.
  destruct (perform_loop_run func (manager st) Hok (Z.to_nat (N * R)) 0 st None)
    as (attempts & st' & Hc1 & _ & Hrun).
  { lia. }
  { fold N R. rewrite Z2Nat.id; nia. }
  { symmetry. apply rotated_0, Hok. }
  assert (_perform func st
          = _perform_loop func N (N * R) (Z.to_nat (N * R)) 0 None st) as ->
    by (unfold _perform; run; reflexivity).
  fold N R in Hrun. rewrite !Z.add_0_l in Hrun.
  destruct Hrun as [(v & calls & w & Hloop & Hlen & Hfunc & Hm & Htr)
                   |[(Hloop & Hlen & Hm & Htr)
                    |(calls & e & refusal & w & Hloop & Hlen & Hfunc & Hrefused & Hm & Htr)]];
    rewrite Hloop; cbn [fst snd].
  - eexists. split; [split; [rewrite Hm; apply settings_rotated | split; [exact Hc1 | exact Htr]]|].
    split; [rewrite Hm; apply rotated_ok, Hok|].
    split; [rewrite attempts_made_app, attempts_made_exhausting; cbn [attempts_made]; lia|].
    eauto.
  - assert (Z.of_nat (length attempts) = N * R) as Hlen' by (rewrite Hlen, Z2Nat.id; nia).
    destruct (last attempts) as [[calls e]|] eqn:Hlast.
    2:{ apply last_None in Hlast. subst attempts. simpl in Hlen'. nia. }
    eexists. split; [split; [by rewrite Hm | split; [exact Hc1 | exact Htr]]|].
    split; [rewrite Hm; exact Hok|].
    split; [rewrite attempts_made_exhausting; lia|].
    rewrite last_raised_last, Hlast. eauto.
  - eexists. split; [split; [rewrite Hm; apply settings_rotated | split; [exact Hc1 | exact Htr]]|].
    split; [rewrite Hm; apply rotated_ok, Hok|].
    split; [rewrite attempts_made_app, attempts_made_exhausting; cbn [attempts_made]; lia|].
    right. exists (Z.min (Z.of_nat (length attempts) + 1) 4).
    split; [lia|]. split; [exact Hrefused|].
    intros Hlongest.
    destruct (backoff_sleep_taken (retry_backoff_seconds (manager st))
                (Z.of_nat (length attempts) + 1) (N * R) Hlongest ltac:(lia)) as [Htaken _].
    apply time_sleep_refused in Hrefused as [_ Hnot]. exact (Hnot Htaken).
Qed.

(** X7. [_rotate_endpoint] on a pool that is in order never raises: it
    moves the active index on by one, wrapping at the end of the pool,
    makes the endpoint at that index and a client on it the active ones,
    and touches nothing else; the pool stays in order. *)
Theorem rotate_endpoint_advances st :
  pool_ok (manager st) ->
  exists st',
    _rotate_endpoint st = (inr tt, st')
    /\ _current_endpoint_index (manager st')
       = (_current_endpoint_index (manager st) + 1)
         mod Z.of_nat (length (rpc_endpoints (manager st)))
    /\ pool_ok (manager st')
    /\ settings (manager st') = settings (manager st)
    /\ world st' = world st /\ clock st' = clock st /\ trace st' = trace st.
Proof.
  intros Hok. pose proof Hok as [Hne HR Hb Hi He Hc].
  unfold _rotate_endpoint. run.
  destruct (Z.of_nat (length (rpc_endpoints (manager st))) <=? 1) eqn:HN.
  - apply Z.leb_le in HN. exists st. split; [reflexivity|].
    assert (Z.of_nat (length (rpc_endpoints (manager st))) = 1) as -> by lia.
    rewrite Z.mod_1_r. repeat split; try apply Hok; lia.
  - apply Z.leb_gt in HN. run.
    set (i' := (_current_endpoint_index (manager st) + 1)
               mod Z.of_nat (length (rpc_endpoints (manager st)))).
    assert (0 <= i' < Z.of_nat (length (rpc_endpoints (manager st)))) as Hi'
      by (apply Z.mod_pos_bound; lia).
    replace (rpc_endpoints (manager st)
             !! Z.to_nat (_current_endpoint_index (set_current_endpoint_index i' (manager st))))
      with (Some (endpoint_at (rpc_endpoints (manager st)) i')).
    2:{ symmetry. rewrite <- (endpoint_at_lookup _ i' Hi'). destruct (manager st); reflexivity. }
    run. eexists. split; [reflexivity|]. cbn [manager world clock trace].
    destruct (manager st) eqn:Hm; cbn in *.
    repeat split; cbn; try assumption; try lia.
Qed.

End RetriesMore.

(** ** Chunks *)

Section ChunksMore.
Context {T : Type}.
Implicit Types items : list T.

Lemma pages_lookup n s items i :
  (i < n)%nat -> pages n s items !! i = Some (take s (drop (i * s) items)).
Proof.
  revert items i. induction n as [|n IH]; intros items i Hi; [lia|].
  destruct i as [|i]; cbn [pages]; [reflexivity|].
  change ((take s items :: pages n s (drop s items)) !! S i)
    with (pages n s (drop s items) !! i).
  rewrite IH by lia. rewrite drop_drop. reflexivity.
Qed.

(** X8. For a size of at least one, [_chunk] yields as many chunks as
    the items need, the length divided by the size rounded up; chunk
    number [i] is the slice [items[i * size : (i + 1) * size]]; and the
    chunks put together are the items. *)
Theorem chunk_count_and_slices items (size : Z) :
  1 <= size ->
  exists chunks,
    _chunk items size = inr chunks
    /\ Z.of_nat (length chunks) = (Z.of_nat (length items) + size - 1) / size
    /\ concat chunks = items
    /\ forall i,
         (i < length chunks)%nat ->
         chunks !! i = Some (take (Z.to_nat size) (drop (i * Z.to_nat size) items)).
Proof.
  intros Hsize. eexists. split; [apply chunk_pages, Hsize|].
  pose proof (page_count_bounds (Z.of_nat (length items)) size ltac:(lia) Hsize) as Hb.
  rewrite pages_length.
  split.
  { unfold page_count. apply Z2Nat.id, Z.div_pos; lia. }
  split.
  { apply pages_concat. nia. }
  intros i Hi. apply pages_lookup, Hi.
Qed.

(** X9. A size of zero makes [_chunk] raise the [ValueError] of [range];
    a negative size makes it yield no chunk at all, whatever the items. *)
Theorem chunk_degenerate_size items (size : Z) :
  size <= 0 ->
  (size = 0 /\ exists message, _chunk items size = inl (Raise ClsValueError message None))
  \/ (size < 0 /\ _chunk items size = inr []).
Proof.
  intros Hsize. unfold _chunk, py_range.
  destruct (size =? 0) eqn:H0.
  - apply Z.eqb_eq in H0. left. split; [exact H0 | eauto].
  - apply Z.eqb_neq in H0. right. split; [lia|].
    assert ((size <? 0) = true) as -> by (apply Z.ltb_lt; lia). reflexivity.
Qed.

End ChunksMore.

(** ** Confirmation *)

Tactic Notation "bind_case" hyp(H) "as" ident(x) ident(st1) ident(Hm) :=
  let Heq := fresh "Heq" in
  apply bind_inv in H as [(? & Hm & Heq)|(x & st1 & Hm & H)];
  [try discriminate Heq; try subst|].

Section ConfirmationMore.
Context {World : Type}.
Variable rpc : Client -> Request -> World -> (Exception + Response) * World.
Variable Signature_valid : string -> bool.
Implicit Types st : State World.

Lemma poll_succeeds_cases status :
  poll_succeeds status
  = (if match confirmation_status status with
        | Some level => named_level_accepted level
        | None => false
        end
     then true
     else match confirmations status with
          | Some n => 0 <? n
          | None => false
          end).
Proof.
  unfold poll_succeeds, positive_count.
  destruct (confirmation_status status) as [name|];
    [rewrite <- named_level_accepted_confirmed; destruct (named_level_accepted name)|];
    reflexivity.
Qed.

(** Where the loop of the wait can end. *)
Lemma await_loop_outcomes signature timeout_seconds deadline fuel :
  forall last_status st r st',
    (deadline - clock st <= poll_interval * inject_Z (Z.of_nat fuel))%Q ->
    _await_loop rpc fuel signature timeout_seconds deadline last_status st = (r, st') ->
    (clock st <= clock st')%Q
    /\ ((exists last, r = inl (Raise ClsTimeoutError
                                (MNotConfirmed signature timeout_seconds last) None)
                      /\ (deadline <= clock st')%Q)
        \/ (exists st0 e,
              r = inl e /\ (clock st <= clock st0)%Q /\ (clock st0 < deadline)%Q
              /\ _perform (fun c => client_call rpc c (GetSignatureStatuses [signature])) st0
                 = (inl e, st'))
        \/ (exists st0 response e,
              r = inl e /\ (clock st <= clock st0)%Q /\ (clock st0 < deadline)%Q
              /\ _perform (fun c => client_call rpc c (GetSignatureStatuses [signature])) st0
                 = (inr response, st')
              /\ extract_statuses response = inl e)
        \/ (exists st0 status more reason,
              r = inl (Raise ClsRuntimeError (MTxFailed signature reason) None)
              /\ (clock st <= clock st0)%Q /\ (clock st0 < deadline)%Q
              /\ _perform (fun c => client_call rpc c (GetSignatureStatuses [signature])) st0
                 = (inr (StatusesResp (Some status :: more)), st')
              /\ err status = Some reason)
        \/ (exists st0 status more,
              r = inr tt
              /\ (clock st <= clock st0)%Q /\ (clock st0 < deadline)%Q
              /\ _perform (fun c => client_call rpc c (GetSignatureStatuses [signature])) st0
                 = (inr (StatusesResp (Some status :: more)), st')
              /\ err status = None
              /\ poll_succeeds status = true)).
Proof.
  induction fuel as [|fuel IH]; intros last_status st r st' Hleft H; cbn [_await_loop] in H.
  - assert (deadline <= clock st)%Q as Hpast
      by (change (inject_Z (Z.of_nat 0)) with 0%Q in Hleft; lra).
    unfold bind, time_time, raise in H.
    destruct (Qlt_le_dec (clock st) deadline) as [Hlt|Hge];
      [exfalso; exact (Qlt_not_le _ _ Hlt Hpast)|].
    injection H as <- <-. split; [apply Qle_refl|]. left. eauto.
  - unfold bind at 1 in H. unfold time_time in H.
    destruct (Qlt_le_dec (clock st) deadline) as [Hlt|Hge].
    2:{ injection H as <- <-. split; [apply Qle_refl|]. left. eauto. }
    destruct (_perform (fun c => client_call rpc c (GetSignatureStatuses [signature])) st)
      as [[e|response] st1] eqn:Hcall.
    { unfold bind in H. rewrite Hcall in H. injection H as <- <-.
      pose proof Hcall as Hp.
      apply (perform_call rpc) in Hp as (evs & (_ & Hclock & _) & _).
      split; [exact Hclock|]. right. left. exists st, e.
      split; [reflexivity|]. split; [apply Qle_refl|]. split; [exact Hlt | exact Hcall]. }
    pose proof Hcall as Hp.
    apply (perform_call rpc) in Hp as (evs & (_ & Hclock & _) & _).
    unfold bind at 1 in H. rewrite Hcall in H.
    destruct (extract_statuses response) as [e|status] eqn:Hext.
    { unfold bind, lift, raise in H. injection H as <- <-.
      split; [exact Hclock|]. right. right. left. exists st, response, e.
      split; [reflexivity|]. split; [apply Qle_refl|]. split; [exact Hlt|].
      split; [exact Hcall | exact Hext]. }
    unfold bind at 1, lift, ret at 1 in H.
    assert (forall last,
              bind (time_sleep (FFinite poll_interval))
                (fun _ => _await_loop rpc fuel signature timeout_seconds deadline last) st1
              = (r, st') ->
              (clock st <= clock st')%Q
              /\ ((exists last0, r = inl (Raise ClsTimeoutError
                                           (MNotConfirmed signature timeout_seconds last0) None)
                                 /\ (deadline <= clock st')%Q)
                  \/ (exists st0 e,
                        r = inl e /\ (clock st <= clock st0)%Q /\ (clock st0 < deadline)%Q
                        /\ _perform (fun c => client_call rpc c
                                                (GetSignatureStatuses [signature])) st0
                           = (inl e, st'))
                  \/ (exists st0 response e,
                        r = inl e /\ (clock st <= clock st0)%Q /\ (clock st0 < deadline)%Q
                        /\ _perform (fun c => client_call rpc c
                                                (GetSignatureStatuses [signature])) st0
                           = (inr response, st')
                        /\ extract_statuses response = inl e)
                  \/ (exists st0 status more reason,
                        r = inl (Raise ClsRuntimeError (MTxFailed signature reason) None)
                        /\ (clock st <= clock st0)%Q /\ (clock st0 < deadline)%Q
                        /\ _perform (fun c => client_call rpc c
                                                (GetSignatureStatuses [signature])) st0
                           = (inr (StatusesResp (Some status :: more)), st')
                        /\ err status = Some reason)
                  \/ (exists st0 status more,
                        r = inr tt
                        /\ (clock st <= clock st0)%Q /\ (clock st0 < deadline)%Q
                        /\ _perform (fun c => client_call rpc c
                                                (GetSignatureStatuses [signature])) st0
                           = (inr (StatusesResp (Some status :: more)), st')
                        /\ err status = None
                        /\ poll_succeeds status = true))) as Hnext.
    { intros last Hs. unfold bind in Hs. rewrite poll_sleep in Hs.
      set (st2 := {| manager := manager st1; world := world st1;
                     clock := (clock st1 + poll_interval)%Q;
                     trace := trace st1 ++ [EvSleep poll_interval] |}) in *.
      assert (clock st <= clock st2)%Q as Hc2
        by (subst st2; cbn [clock]; unfold poll_interval; lra).
      apply IH in Hs.
      2:{ subst st2. cbn [clock].
          rewrite Nat2Z.inj_succ, <- Z.add_1_r, inject_Z_plus in Hleft.
          unfold poll_interval in *. change (inject_Z 1) with 1%Q in Hleft. lra. }
      destruct Hs as (Hc3 & Hs).
      split; [eapply Qle_trans; eassumption|].
      destruct Hs as [Hs|[(st0 & e & -> & Hc0 & Hs)
                         |[(st0 & resp & e & -> & Hc0 & Hs)
                          |[(st0 & status' & more & reason & -> & Hc0 & Hs)
                           |(st0 & status' & more & -> & Hc0 & Hs)]]]].
      - left. exact Hs.
      - right. left. exists st0, e. split; [reflexivity|].
        split; [eapply Qle_trans; eassumption | exact Hs].
      - right. right. left. exists st0, resp, e. split; [reflexivity|].
        split; [eapply Qle_trans; eassumption | exact Hs].
      - right. right. right. left. exists st0, status', more, reason. split; [reflexivity|].
        split; [eapply Qle_trans; eassumption | exact Hs].
      - right. right. right. right. exists st0, status', more. split; [reflexivity|].
        split; [eapply Qle_trans; eassumption | exact Hs]. }
    destruct status as [status|]; [|exact (Hnext _ H)].
    assert (exists more, response = StatusesResp (Some status :: more)) as (more & ->).
    { destruct response as [| | | |statuses|]; try discriminate Hext.
      destruct statuses as [|s more]; [discriminate Hext|].
      injection Hext as ->. eauto. }
    destruct (err status) as [reason|] eqn:Herr.
    { unfold raise in H. injection H as <- <-. split; [exact Hclock|].
      right. right. right. left. exists st, status, more, reason.
      split; [reflexivity|]. split; [apply Qle_refl|]. split; [exact Hlt|].
      split; [exact Hcall | exact Herr]. }
    pose proof (poll_succeeds_cases status) as Hpoll.
    destruct (match confirmation_status status with
              | Some level => named_level_accepted level
              | None => false
              end).
    { unfold ret in H. injection H as <- <-. split; [exact Hclock|].
      right. right. right. right. exists st, status, more.
      split; [reflexivity|]. split; [apply Qle_refl|]. split; [exact Hlt|].
      split; [exact Hcall|]. split; [exact Herr | exact Hpoll]. }
    destruct (match confirmations status with
              | Some n => 0 <? n
              | None => false
              end).
    { unfold ret in H. injection H as <- <-. split; [exact Hclock|].
      right. right. right. right. exists st, status, more.
      split; [reflexivity|]. split; [apply Qle_refl|]. split; [exact Hlt|].
      split; [exact Hcall|]. split; [exact Herr | exact Hpoll]. }
    exact (Hnext _ H).
Qed.

(** X10. A wait that returns has seen the transaction confirmed: the
    signature is well formed, and the last thing done was a poll, started
    before the deadline, whose answer reports no error and a level of
    "confirmed" or "finalized" or a positive confirmation count. *)
Theorem await_confirmation_returns_confirmed signature timeout_seconds commitment st st' :
  _await_confirmation rpc Signature_valid signature timeout_seconds commitment st
  = (inr tt, st') ->
  Signature_valid signature = true
  /\ exists st0 status more,
       (clock st <= clock st0)%Q
       /\ (clock st0 < clock st + timeout_seconds)%Q
       /\ _perform (fun c => client_call rpc c (GetSignatureStatuses [signature])) st0
          = (inr (StatusesResp (Some status :: more)), st')
       /\ err status = None
       /\ poll_succeeds status = true.
Proof.
  unfold _await_confirmation. unfold bind at 1. unfold time_time.
  destruct (Signature_valid signature); cbn [negb]; [|discriminate].
  intros H. split; [reflexivity|].
  apply await_loop_outcomes in H; [|apply await_fuel_covers].
  destruct H as (_ & [(last & Hr & _)|[(st0 & e & Hr & _)
                     |[(st0 & resp & e & Hr & _)
                      |[(st0 & status & more & reason & Hr & _)
                       |(st0 & status & more & _ & H)]]]]); try discriminate Hr.
  exists st0, status, more. exact H.
Qed.

(** X11. A wait that raises does so in one of five ways: with the
    [ValueError] of a malformed signature, before anything is done; with
    [TimeoutError], and then the deadline has passed; with the
    [RuntimeError] that carries the error reported for the transaction;
    with whatever [_perform] raised on a poll; or with the exception of
    reading an answer that holds no status list. *)
Theorem await_confirmation_raises signature timeout_seconds commitment st e st' :
  _await_confirmation rpc Signature_valid signature timeout_seconds commitment st
  = (inl e, st') ->
  (Signature_valid signature = false /\ exn_class e = ClsValueError /\ st' = st)
  \/ (Signature_valid signature = true
      /\ ((exists last,
             e = Raise ClsTimeoutError (MNotConfirmed signature timeout_seconds last) None
             /\ (clock st + timeout_seconds <= clock st')%Q)
          \/ (exists st0 status more reason,
                e = Raise ClsRuntimeError (MTxFailed signature reason) None
                /\ _perform (fun c => client_call rpc c (GetSignatureStatuses [signature])) st0
                   = (inr (StatusesResp (Some status :: more)), st')
                /\ err status = Some reason)
          \/ (exists st0,
                _perform (fun c => client_call rpc c (GetSignatureStatuses [signature])) st0
                = (inl e, st'))
          \/ (exists st0 response,
                _perform (fun c => client_call rpc c (GetSignatureStatuses [signature])) st0
                = (inr response, st')
                /\ extract_statuses response = inl e))).
Proof.
  unfold _await_confirmation. unfold bind at 1. unfold time_time.
  destruct (Signature_valid signature); cbn [negb].
  - intros H. right. split; [reflexivity|].
    apply await_loop_outcomes in H; [|apply await_fuel_covers].
    destruct H as (_ & [(last & Hr & Hd)|[(st0 & e0 & Hr & _ & _ & H)
                       |[(st0 & resp & e0 & Hr & _ & _ & H)
                        |[(st0 & status & more & reason & Hr & _ & _ & H)
                         |(st0 & status & more & Hr & _)]]]]); try discriminate Hr;
      injection Hr as ->.
    + left. eauto.
    + right. right. left. eauto.
    + right. right. right. eauto.
    + right. left. exists st0, status, more, reason. split; [reflexivity | exact H].
  - unfold raise. intros H. injection H as <- <-. left. auto.
Qed.

(** A call that the service answers goes through at the first attempt. *)
Lemma perform_first_attempt req st response w' :
  pool_ok (manager st) ->
  rpc (client (manager st)) req (world st) = (inr response, w') ->
  _perform (fun c => client_call rpc c req) st
  = (inr response,
     {| manager := manager st; world := w'; clock := clock st;
        trace := trace st ++ [EvAttempt (client (manager st))
                                [{| call_request := req; call_result := inr response |}]
                                None] |}).
Proof.
  intros [Hne HR Hb Hi He Hc] Hrpc. unfold _perform. run.
  destruct (Z.to_nat (Z.of_nat (length (rpc_endpoints (manager st)))
                      * max_retries_per_endpoint (manager st))) as [|remaining] eqn:Hrem.
  { exfalso. destruct (rpc_endpoints (manager st)) as [|x l]; [done|].
    cbn [length] in Hrem. nia. }
  cbn [_perform_loop]. run. unfold invoke, client_call. run. rewrite Hrpc. reflexivity.
Qed.

Section NeverConfirmed.
Variable signature : string.
Variable pending : TxStatus.
Hypothesis pending_no_error : err pending = None.
Hypothesis pending_not_accepted : poll_succeeds pending = false.
Hypothesis always_pending :
  forall c w, exists w',
    rpc c (GetSignatureStatuses [signature]) w = (inr (StatusesResp [Some pending]), w').

Lemma await_loop_pending timeout_seconds deadline fuel :
  forall last_status st,
    pool_ok (manager st) ->
    (deadline - clock st <= poll_interval * inject_Z (Z.of_nat fuel))%Q ->
    exists n st',
      _await_loop rpc fuel signature timeout_seconds deadline last_status st
      = (inl (Raise ClsTimeoutError
                (MNotConfirmed signature timeout_seconds
                   (match n with O => last_status | S _ => Some pending end)) None), st')
      /\ manager st' = manager st
      /\ trace st'
         = trace st
           ++ pending_polls (client (manager st))
                {| call_request := GetSignatureStatuses [signature];
                   call_result := inr (StatusesResp [Some pending]) |} n
      /\ (clock st' == clock st + poll_interval * inject_Z (Z.of_nat n))%Q
      /\ (deadline <= clock st')%Q
      /\ ((0 < n)%nat -> (clock st' - poll_interval < deadline)%Q).
Proof.
  induction fuel as [|fuel IH]; intros last_status st Hok Hleft; cbn [_await_loop].
  - assert (deadline <= clock st)%Q as Hpast
      by (change (inject_Z (Z.of_nat 0)) with 0%Q in Hleft; lra).
    unfold bind, time_time, raise.
    destruct (Qlt_le_dec (clock st) deadline) as [Hlt|Hge];
      [exfalso; exact (Qlt_not_le _ _ Hlt Hpast)|].
    exists 0%nat, st. split; [reflexivity|]. split; [reflexivity|].
    split; [cbn; by rewrite app_nil_r|].
    split; [change (inject_Z (Z.of_nat 0)) with 0%Q; ring|].
        split; [exact Hge | intros Hn; exfalso; lia].
  - unfold bind at 1. unfold time_time.
    destruct (Qlt_le_dec (clock st) deadline) as [Hlt|Hge].
    2:{ exists 0%nat, st. split; [reflexivity|]. split; [reflexivity|].
        split; [cbn; by rewrite app_nil_r|].
        split; [change (inject_Z (Z.of_nat 0)) with 0%Q; ring|].
        split; [exact Hge | intros Hn; exfalso; lia]. }
    destruct (always_pending (client (manager st)) (world st)) as (w' & Hrpc).
    unfold bind at 1. rewrite (perform_first_attempt _ _ _ _ Hok Hrpc).
    unfold bind at 1. cbn [extract_statuses lift ret].
    rewrite pending_no_error.
    pose proof (poll_succeeds_cases pending) as Hpoll.
    rewrite pending_not_accepted in Hpoll.
    destruct (match confirmation_status pending with
              | Some level => named_level_accepted level
              | None => false
              end); [discriminate Hpoll|].
    destruct (match confirmations pending with
              | Some n => 0 <? n
              | None => false
              end); [discriminate Hpoll|].
    unfold bind. rewrite poll_sleep. cbn [manager world clock trace].
    match goal with
    | |- context [_await_loop rpc fuel signature timeout_seconds deadline (Some pending) ?s] =>
        set (st2 := s)
    end.
    destruct (IH (Some pending) st2) as (n & st' & Hloop & Hm & Htr & Hc & Hd & Hn).
    { exact Hok. }
    { subst st2. cbn [clock].
      rewrite Nat2Z.inj_succ, <- Z.add_1_r, inject_Z_plus in Hleft.
      unfold poll_interval in *. change (inject_Z 1) with 1%Q in Hleft. lra. }
    exists (S n), st'. rewrite Hloop.
    split; [by destruct n|]. split; [exact Hm|].
    split; [rewrite Htr; subst st2; cbn; rewrite <- !app_assoc; reflexivity|].
    subst st2. cbn [clock] in *.
    rewrite Nat2Z.inj_succ, <- Z.add_1_r, inject_Z_plus.
    change (inject_Z 1) with 1%Q.
    split; [rewrite Hc; ring|]. split; [exact Hd|]. intros _.
    destruct n as [|n].
    + change (inject_Z (Z.of_nat 0)) with 0%Q in Hc. lra.
    + apply Hn. lia.
Qed.

(** X12. Against a service that keeps answering with a status that has
    no error and is not yet confirmed, the wait for a well-formed signature
    ends in [TimeoutError]: every poll goes through at the first attempt and
    is followed by the sleep of the watcher, the error names the signature
    and the timeout and carries that status once a poll was made, and the
    manager is left as it was.  The polls are bounded: there is at most one
    more than the timeout divided by the poll interval, rounded up (on the
    exact clock of the model, which counts the sleeps only, the quotient
    itself is a bound; the one poll more leaves room for the rounding of
    the floats in which the real clock is read). *)
Theorem await_confirmation_times_out timeout_seconds commitment st :
  pool_ok (manager st) ->
  Signature_valid signature = true ->
  exists n st',
    _await_confirmation rpc Signature_valid signature timeout_seconds commitment st
    = (inl (Raise ClsTimeoutError
              (MNotConfirmed signature timeout_seconds
                 (match n with O => None | S _ => Some pending end)) None), st')
    /\ manager st' = manager st
    /\ trace st'
       = trace st
         ++ pending_polls (client (manager st))
              {| call_request := GetSignatureStatuses [signature];
                 call_result := inr (StatusesResp [Some pending]) |} n
    /\ (n <= S (await_fuel timeout_seconds))%nat.
Proof.
  intros Hok Hvalid.
  unfold _await_confirmation. unfold bind at 1. unfold time_time.
  rewrite Hvalid. cbn [negb].
  pose proof (await_fuel_covers timeout_seconds (clock st)) as Hcover.
  destruct (await_loop_pending timeout_seconds (clock st + timeout_seconds)
              (await_fuel timeout_seconds) None st Hok Hcover)
    as (n & st' & Hloop & Hm & Htr & Hc & Hd & Hn).
  exists n, st'. rewrite Hloop.
  split; [reflexivity|]. split; [exact Hm|]. split; [exact Htr|].
  destruct n as [|n]; [lia|]. specialize (Hn ltac:(lia)).
  assert (inject_Z (Z.of_nat (S n)) - 1 < inject_Z (Z.of_nat (await_fuel timeout_seconds)))%Q
    as Hlt by (unfold poll_interval in *; lra).
  rewrite Nat2Z.inj_succ, <- Z.add_1_r, inject_Z_plus in Hlt.
  change (inject_Z 1) with 1%Q in Hlt.
  assert (inject_Z (Z.of_nat n) < inject_Z (Z.of_nat (await_fuel timeout_seconds)))%Q
    as Hlt' by lra.
  rewrite <- Zlt_Qlt in Hlt'. lia.
Qed.

End NeverConfirmed.

End ConfirmationMore.

(** ** Reading the recipients *)

Section RecipientsMore.
Context {World : Type}.
Variable Pubkey_valid : string -> bool.
Implicit Types st : State World.

Lemma sol_to_lamports_positive amount_sol l :
  _sol_to_lamports amount_sol = inr l -> 1 <= l.
Proof.
  unfold _sol_to_lamports. intros H.
  destruct (decimal_le_zero amount_sol) as [e|[|]]; try discriminate H.
  destruct (decimal_mul _ _) as [e|product]; [discriminate H|].
  destruct (int_of_decimal _) as [e|l']; [discriminate H|].
  destruct (l' <=? 0) eqn:Hl; [discriminate H|].
  injection H as <-. apply Z.leb_gt in Hl. lia.
Qed.

(** The exceptions of the conversion: the two [ValueError]s of the
    manager, or an arithmetic error of [decimal]. *)
Lemma sol_to_lamports_raises_classes amount_sol e :
  _sol_to_lamports amount_sol = inl e ->
  e = Raise ClsValueError MAmountNotPositive None
  \/ e = Raise ClsValueError MAmountTooSmall None
  \/ isinstance e ClsArithmeticError = true.
Proof.
  unfold _sol_to_lamports. intros H.
  destruct amount_sol as [negative c x|negative|]; cbn [decimal_le_zero] in H.
  - destruct ((c =? 0) || negative); [injection H as <-; auto|].
    unfold decimal_mul in H. destruct (round_to_prec _ _) as [c' x'].
    destruct ((0 <? c') && _); [injection H as <-; auto|].
    unfold to_integral_value_down, int_of_decimal in H.
    destruct (x' <? 0); cbn in H;
      match type of H with
      | context [if ?b then _ else _] => destruct b
      end; try discriminate H; injection H as <-; auto.
  - destruct negative; [injection H as <-; auto|].
    cbn in H. injection H as <-. auto.
  - injection H as <-. auto.
Qed.

Lemma parse_recipient_line_returns line line_number default_amount_sol recipient :
  _parse_recipient_line Pubkey_valid line line_number default_amount_sol = inr recipient ->
  Pubkey_valid (address recipient) = true /\ 1 <= lamports recipient.
Proof.
  unfold _parse_recipient_line. intros H.
  destruct (Text.tokenize line) as [|first more]; [discriminate H|].
  destruct (Pubkey_valid first) eqn:Hvalid; cbn [negb] in H; [|discriminate H].
  destruct (match more with
            | [] => _
            | amount_text :: _ => _
            end) as [e|amount_sol]; [discriminate H|].
  destruct (_sol_to_lamports amount_sol) as [e|l] eqn:Hl; [discriminate H|].
  injection H as <-. cbn. split; [exact Hvalid|]. eapply sol_to_lamports_positive, Hl.
Qed.

(** An exception of [_parse_recipient_line] that is not a
    [RecipientParseError] is one of the conversion to lamports. *)
Lemma parse_recipient_line_raises line line_number default_amount_sol exc :
  _parse_recipient_line Pubkey_valid line line_number default_amount_sol = inl exc ->
  (isinstance exc ClsRecipientParseError = true
   /\ exn_class exc = ClsRecipientParseError
   /\ warning_line (exn_message exc) = Some line_number)
  \/ (isinstance exc ClsRecipientParseError = false
      /\ exists amount_sol, _sol_to_lamports amount_sol = inl exc).
Proof.
  unfold _parse_recipient_line. intros H.
  destruct (Text.tokenize line) as [|first more]; [injection H as <-; auto|].
  destruct (negb (Pubkey_valid first)); [injection H as <-; auto|].
  destruct more as [|amount_text more].
  - destruct default_amount_sol as [d|]; [|injection H as <-; auto].
    destruct (_sol_to_lamports d) as [e|l] eqn:Hl; [|discriminate H].
    injection H as <-. right. split; [eapply sol_to_lamports_raises, Hl | eauto].
  - destruct (Decimal_of_string amount_text) as [d|]; [|injection H as <-; auto].
    destruct (_sol_to_lamports d) as [e|l] eqn:Hl; [|discriminate H].
    injection H as <-. right. split; [eapply sol_to_lamports_raises, Hl | eauto].
Qed.

(** The message of a malformed line names the number it is parsed under. *)
Lemma parse_recipient_line_renumber line n n' default_amount_sol exc :
  _parse_recipient_line Pubkey_valid line n default_amount_sol = inl exc ->
  isinstance exc ClsRecipientParseError = true ->
  exists exc',
    _parse_recipient_line Pubkey_valid line n' default_amount_sol = inl exc'
    /\ isinstance exc' ClsRecipientParseError = true
    /\ warning_line (exn_message exc') = Some n'.
Proof.
  unfold _parse_recipient_line. intros H Hcls.
  destruct (Text.tokenize line) as [|first more]; [eauto|].
  destruct (negb (Pubkey_valid first)); [eauto|].
  destruct more as [|amount_text more].
  - destruct default_amount_sol as [d|]; [|eauto].
    destruct (_sol_to_lamports d) as [e|l] eqn:Hl; [|discriminate H].
    injection H as <-. apply sol_to_lamports_raises in Hl. congruence.
  - destruct (Decimal_of_string amount_text) as [d|]; [|eauto].
    destruct (_sol_to_lamports d) as [e|l] eqn:Hl; [|discriminate H].
    injection H as <-. apply sol_to_lamports_raises in Hl. congruence.
Qed.

(** What the per-line loop adds: recipients with a valid address and at
    least one lamport, and warnings, after those it was given. *)
Lemma parse_lines_returns raw_lines default_amount_sol :
  forall line_number recipients_raw warnings recipients_raw' warnings',
    parse_lines Pubkey_valid raw_lines line_number default_amount_sol recipients_raw warnings
    = inr (recipients_raw', warnings') ->
    exists added_recipients added_warnings,
      recipients_raw' = recipients_raw ++ added_recipients
      /\ warnings' = warnings ++ added_warnings
      /\ Forall (fun r => Pubkey_valid (address r) = true /\ 1 <= lamports r) added_recipients.
Proof.
  induction raw_lines as [|raw_line rest IH];
    intros line_number recipients_raw warnings recipients_raw' warnings' H;
    cbn [parse_lines] in H.
  - injection H as <- <-. exists [], []. by rewrite !app_nil_r.
  - destruct (bool_decide _ || _); [eapply IH; eassumption|].
    destruct (_parse_recipient_line _ _ _ _) as [exc|recipient] eqn:Hline.
    + destruct (isinstance exc ClsRecipientParseError); [|discriminate H].
      apply IH in H as (rs & ws & -> & -> & Hall).
      exists rs, (exn_message exc :: ws). rewrite <- app_assoc. auto.
    + apply IH in H as (rs & ws & -> & -> & Hall).
      exists (recipient :: rs), ws. rewrite <- app_assoc.
      split; [reflexivity|]. split; [reflexivity|].
      constructor; [eapply parse_recipient_line_returns, Hline | exact Hall].
Qed.

Lemma parse_lines_raises raw_lines default_amount_sol :
  forall line_number recipients_raw warnings e,
    parse_lines Pubkey_valid raw_lines line_number default_amount_sol recipients_raw warnings
    = inl e ->
    isinstance e ClsRecipientParseError = false
    /\ exists amount_sol, _sol_to_lamports amount_sol = inl e.
Proof.
  induction raw_lines as [|raw_line rest IH];
    intros line_number recipients_raw warnings e H; cbn [parse_lines] in H; [discriminate H|].
  destruct (bool_decide _ || _); [eapply IH; eassumption|].
  destruct (_parse_recipient_line _ _ _ _) as [exc|recipient] eqn:Hline;
    [|eapply IH; eassumption].
  destruct (isinstance exc ClsRecipientParseError) eqn:Hcls; [eapply IH; eassumption|].
  injection H as <-.
  apply parse_recipient_line_raises in Hline as [(Hc & _)|H]; [congruence | exact H].
Qed.

(** An exception of the per-line loop ends it, whatever follows. *)
Lemma parse_lines_raises_prefix lines_before more default_amount_sol :
  forall line_number recipients_raw warnings e,
    parse_lines Pubkey_valid lines_before line_number default_amount_sol
      recipients_raw warnings = inl e ->
    parse_lines Pubkey_valid (lines_before ++ more) line_number default_amount_sol
      recipients_raw warnings = inl e.
Proof.
  induction lines_before as [|l rest IH]; intros line_number rr ws e H;
    cbn [app parse_lines] in *; [discriminate H|].
  destruct (bool_decide _ || _); [apply IH, H|].
  destruct (_parse_recipient_line _ _ _ _) as [exc|recipient]; [|apply IH, H].
  destruct (isinstance exc ClsRecipientParseError); [apply IH, H | exact H].
Qed.

Lemma parse_lines_skipped raw_lines default_amount_sol :
  forall line_number recipients_raw warnings,
    forallb skipped_line raw_lines = true ->
    parse_lines Pubkey_valid raw_lines line_number default_amount_sol recipients_raw warnings
    = inr (recipients_raw, warnings).
Proof.
  induction raw_lines as [|raw_line rest IH]; intros line_number recipients_raw warnings H;
    cbn [parse_lines]; [reflexivity|].
  cbn [forallb] in H. apply andb_true_iff in H as [Hskip Hrest].
  unfold skipped_line in Hskip. rewrite Hskip. apply IH, Hrest.
Qed.

(** Every outcome of [read_recipients_from_file] on a file that exists. *)
Lemma read_recipients_outcome st raw_lines default_amount_sol :
  match parse_lines Pubkey_valid raw_lines 1 default_amount_sol [] [] with
  | inl e =>
      read_recipients_from_file Pubkey_valid (FileText raw_lines) default_amount_sol st
      = (inl e, st)
  | inr (recipients_raw, warnings) =>
      let all_warnings :=
        warnings ++ duplicate_warnings (snd (aggregate recipients_raw [] [])) in
      read_recipients_from_file Pubkey_valid (FileText raw_lines) default_amount_sol st
      = (match dict_values (fst (aggregate recipients_raw [] [])) with
         | [] =>
             inl (Raise ClsRecipientParseError
                    (match all_warnings with
                     | [] => MFileEmptyOrComments
                     | _ :: _ => MNoValidRecipients
                     end) None)
         | r :: rest => inr (r :: rest)
         end,
         {| manager := set_last_recipient_warnings all_warnings (manager st);
            world := world st; clock := clock st; trace := trace st |})
  end.
Proof.
  unfold read_recipients_from_file.
  destruct (parse_lines _ _ _ _ _ _) as [e|[recipients_raw warnings]]; [reflexivity|].
  unfold bind at 1. unfold lift, ret at 1. cbv beta iota zeta.
  destruct (aggregate recipients_raw [] []) as [aggregated counter].
  unfold bind, assign. cbn [fst snd].
  destruct (dict_values aggregated) as [|r rest]; [|reflexivity].
  destruct (warnings ++ duplicate_warnings counter); reflexivity.
Qed.

Lemma aggregate_Forall (P : Recipient -> Prop) recipients_raw :
  (forall a r, P a -> P r ->
               P {| address := address a; lamports := lamports a + lamports r |}) ->
  forall aggregated duplicates_counter,
    Forall P recipients_raw ->
    Forall P (dict_values aggregated) ->
    Forall P (dict_values (fst (aggregate recipients_raw aggregated duplicates_counter))).
Proof.
  intros Hmerge.
  assert (forall k v (d : list (string * Recipient)),
            P v -> Forall P (dict_values d) -> Forall P (dict_values (dict_set k v d)))
    as Hset.
  { intros k v d Hv. unfold dict_values.
    induction d as [|[k' v'] d IH]; intros Hd; cbn.
    - by constructor.
    - apply Forall_cons in Hd as [Hhd Htl]. case_bool_decide; constructor; auto. }
  assert (forall k v (d : list (string * Recipient)),
            Forall P (dict_values d) -> dict_get k d = Some v -> P v) as Hget.
  { intros k v d. unfold dict_values.
    induction d as [|[k' v'] d IH]; intros Hd; cbn; [done|].
    apply Forall_cons in Hd as [Hhd Htl]. case_bool_decide as Hk.
    - intros Hv. by injection Hv as <-.
    - by apply IH. }
  induction recipients_raw as [|r rest IH]; intros aggregated duplicates_counter Hraw Hagg;
    cbn [aggregate]; [exact Hagg|].
  apply Forall_cons in Hraw as [Hr Hrest].
  destruct (dict_get (address r) aggregated) as [r0|] eqn:Hr0; apply IH; try assumption.
  - apply Hset; [|exact Hagg]. apply Hmerge; [eapply Hget; eassumption | exact Hr].
  - apply Hset; [|exact Hagg]. by destruct r.
Qed.

(** X13. What [read_recipients_from_file] returns is fit to be paid: the
    list is not empty, no address occurs twice, every address is a valid
    public key and every amount is at least one lamport.  The call stores
    its warnings and touches nothing else. *)
Theorem read_recipients_valid st raw_lines default_amount_sol recipients st' :
  read_recipients_from_file Pubkey_valid (FileText raw_lines) default_amount_sol st
  = (inr recipients, st') ->
  recipients <> []
  /\ NoDup (map address recipients)
  /\ Forall (fun r => Pubkey_valid (address r) = true /\ 1 <= lamports r) recipients
  /\ st' = {| manager := set_last_recipient_warnings
                           (last_recipient_warnings (manager st')) (manager st);
              world := world st; clock := clock st; trace := trace st |}.
Proof.
  intros H. pose proof (read_recipients_outcome st raw_lines default_amount_sol) as Hout.
  destruct (parse_lines Pubkey_valid raw_lines 1 default_amount_sol [] [])
    as [e|[recipients_raw warnings]] eqn:Hparse; [congruence|].
  cbv zeta in Hout. rewrite Hout in H.
  apply parse_lines_returns in Hparse as (rs & ws & Hrs & _ & Hall). cbn [app] in Hrs.
  subst rs.
  destruct (aggregate_invariants recipients_raw [] []) as (Hkeyed & Hnd & _);
    [constructor | constructor | constructor |].
  pose proof (aggregate_Forall
                (fun r => Pubkey_valid (address r) = true /\ 1 <= lamports r) recipients_raw
                ltac:(intros a r [Ha1 Ha2] [Hr1 Hr2]; cbn; split; [exact Ha1 | lia])
                [] [] Hall ltac:(constructor)) as Hvalues.
  destruct (dict_values (fst (aggregate recipients_raw [] []))) as [|r rest] eqn:Hvals;
    [discriminate H|].
  injection H as <- <-.
  split; [discriminate|].
  split.
  { rewrite <- Hvals, (keyed_addresses _ Hkeyed). exact Hnd. }
  split; [exact Hvalues|].
  cbn [manager world clock trace]. rewrite last_recipient_warnings_set. reflexivity.
Qed.

(** X14. A file that holds only blank lines and comments, or no line at
    all, makes [read_recipients_from_file] raise the
    [RecipientParseError] of an empty file, with no warning recorded; the
    warnings of an earlier call are cleared. *)
Theorem read_recipients_blank_file st raw_lines default_amount_sol :
  forallb skipped_line raw_lines = true ->
  read_recipients_from_file Pubkey_valid (FileText raw_lines) default_amount_sol st
  = (inl (Raise ClsRecipientParseError MFileEmptyOrComments None),
     {| manager := set_last_recipient_warnings [] (manager st);
        world := world st; clock := clock st; trace := trace st |}).
Proof.
  intros Hskipped.
  pose proof (read_recipients_outcome st raw_lines default_amount_sol) as Hout.
  rewrite (parse_lines_skipped _ _ _ _ _ Hskipped) in Hout. exact Hout.
Qed.

(** X15. A malformed line leaves a warning that names its place in the
    file: when a line that cannot be parsed stands after [n] other lines,
    blank lines and comments counted, and the call ends by returning or with
    a [RecipientParseError], the recorded warnings hold the message of that
    line with the line number [n + 1]. *)
Theorem read_recipients_warning_line
    st lines_before raw_line lines_after default_amount_sol exc n r st' :
  skipped_line raw_line = false ->
  _parse_recipient_line Pubkey_valid (Text.lstrip_bom (Text.strip raw_line)) n
    default_amount_sol = inl exc ->
  isinstance exc ClsRecipientParseError = true ->
  read_recipients_from_file Pubkey_valid (FileText (lines_before ++ raw_line :: lines_after))
    default_amount_sol st = (r, st') ->
  match r with
  | inr _ => True
  | inl e => isinstance e ClsRecipientParseError = true
  end ->
  exists exc',
    _parse_recipient_line Pubkey_valid (Text.lstrip_bom (Text.strip raw_line))
      (Z.of_nat (length lines_before) + 1) default_amount_sol = inl exc'
    /\ warning_line (exn_message exc') = Some (Z.of_nat (length lines_before) + 1)
    /\ exn_message exc' ∈ last_recipient_warnings (manager st').
Proof.
  intros Hskip Hline Hcls H Hr.
  destruct (parse_recipient_line_renumber _ _ (Z.of_nat (length lines_before) + 1) _ _
              Hline Hcls) as (exc' & Hline' & Hcls' & Hnum).
  exists exc'. split; [exact Hline'|]. split; [exact Hnum|].
  pose proof (read_recipients_outcome st (lines_before ++ raw_line :: lines_after)
                default_amount_sol) as Hout.
  destruct (parse_lines Pubkey_valid (lines_before ++ raw_line :: lines_after) 1
              default_amount_sol [] []) as [e|[recipients_raw warnings]] eqn:Hparse.
  { rewrite Hout in H. injection H as <- <-.
    apply parse_lines_raises in Hparse as [Hne _]. congruence. }
  cbv zeta in Hout. rewrite Hout in H.
  assert (st' = {| manager := set_last_recipient_warnings
                                (warnings ++ duplicate_warnings
                                               (snd (aggregate recipients_raw [] [])))
                                (manager st);
                   world := world st; clock := clock st; trace := trace st |}) as ->
    by (by injection H).
  cbn [manager]. rewrite last_recipient_warnings_set.
  apply elem_of_app. left.
  destruct (parse_lines Pubkey_valid lines_before 1 default_amount_sol [] [])
    as [e|[recipients_before warnings_before]] eqn:Hbefore.
  { rewrite (parse_lines_raises_prefix _ _ _ _ _ _ _ Hbefore) in Hparse.
    discriminate Hparse. }
  rewrite (parse_lines_app _ _ _ _ _ _ _ _ _ Hbefore) in Hparse.
  cbn [parse_lines] in Hparse. unfold skipped_line in Hskip. rewrite Hskip in Hparse.
  rewrite Z.add_comm in Hline'. rewrite Hline', Hcls' in Hparse.
  apply parse_lines_returns in Hparse as (rs & ws & _ & -> & _).
  apply elem_of_app. left. apply elem_of_app. right. apply list_elem_of_singleton. reflexivity.
Qed.

(** X16. Where an exception of [read_recipients_from_file] comes from.
    It is a [RecipientParseError] of the function itself (no file, no
    recipient); or it is the exception that reading the file raised, and
    nothing has changed; or it comes from converting the amount of some
    line to lamports, as the [ValueError] of an amount that is not positive
    or is below one lamport or as an arithmetic error of [decimal], and then
    nothing at all is recorded, not even the warnings of the lines before. *)
Theorem read_recipients_raises file default_amount_sol st e st' :
  read_recipients_from_file Pubkey_valid file default_amount_sol st = (inl e, st') ->
  (exn_class e = ClsRecipientParseError
   /\ (file = FileMissing \/ exists raw_lines, file = FileText raw_lines))
  \/ (file = FileUnreadable e /\ st' = st)
  \/ (st' = st
      /\ (exists raw_lines, file = FileText raw_lines)
      /\ (e = Raise ClsValueError MAmountNotPositive None
          \/ e = Raise ClsValueError MAmountTooSmall None
          \/ isinstance e ClsArithmeticError = true)
      /\ exists amount_sol, _sol_to_lamports amount_sol = inl e).
Proof.
  destruct file as [|unreadable|raw_lines].
  - intros H. injection H as <- <-. left. split; [reflexivity | left; reflexivity].
  - intros H. injection H as <- <-. right. left. split; reflexivity.
  - intros H. pose proof (read_recipients_outcome st raw_lines default_amount_sol) as Hout.
    destruct (parse_lines Pubkey_valid raw_lines 1 default_amount_sol [] [])
      as [e0|[recipients_raw warnings]] eqn:Hparse.
    + rewrite Hout in H. injection H as <- <-. right. right.
      apply parse_lines_raises in Hparse as (_ & amount_sol & Hamount).
      split; [reflexivity|]. split; [eauto|].
      split; [eapply sol_to_lamports_raises_classes, Hamount | eauto].
    + cbv zeta in Hout. rewrite Hout in H. left. split; [|eauto].
      destruct (dict_values (fst (aggregate recipients_raw [] []))); [|discriminate H].
      by injection H as <- _.
Qed.

End RecipientsMore.

(** ** Amounts *)

Section Amounts.

Lemma count_digits_ge_1 fuel c : 1 <= count_digits fuel c.
Proof.
  revert c. induction fuel as [|fuel IH]; intros c; cbn [count_digits]; [lia|].
  destruct (c <? 10); [lia|]. specialize (IH (c / 10)). lia.
Qed.

(** With fuel for the binary digits, [count_digits] counts the decimal
    digits. *)
Lemma count_digits_spec fuel :
  forall c,
    0 < c < 2 ^ (Z.of_nat fuel + 1) ->
    10 ^ (count_digits fuel c - 1) <= c < 10 ^ count_digits fuel c.
Proof.
  induction fuel as [|fuel IH]; intros c Hc; cbn [count_digits].
  - change (2 ^ (Z.of_nat 0 + 1)) with 2 in Hc. cbn. lia.
  - destruct (c <? 10) eqn:H10.
    + apply Z.ltb_lt in H10. cbn. lia.
    + apply Z.ltb_ge in H10.
      replace (Z.of_nat (S fuel) + 1) with (Z.succ (Z.of_nat fuel + 1)) in Hc by lia.
      rewrite Z.pow_succ_r in Hc by lia.
      pose proof (Z.div_mod c 10 ltac:(lia)) as Hdm.
      pose proof (Z.mod_pos_bound c 10 ltac:(lia)) as Hmod.
      destruct (IH (c / 10)) as [Hlow Hhigh]; [lia|].
      pose proof (count_digits_ge_1 fuel (c / 10)) as Hge.
      replace (1 + count_digits fuel (c / 10) - 1)
        with (Z.succ (count_digits fuel (c / 10) - 1)) by lia.
      replace (1 + count_digits fuel (c / 10)) with (Z.succ (count_digits fuel (c / 10)))
        by lia.
      rewrite !Z.pow_succ_r by lia. lia.
Qed.

Lemma ndigits_spec c : 0 < c -> 10 ^ (ndigits c - 1) <= c < 10 ^ ndigits c.
Proof.
  intros Hc. unfold ndigits. apply count_digits_spec.
  rewrite Z2Nat.id by apply Z.log2_nonneg.
  pose proof (Z.log2_spec c Hc) as [_ Hlt].
  replace (Z.log2 c + 1) with (Z.succ (Z.log2 c)) by lia. lia.
Qed.

Lemma ndigits_ge_1 c : 1 <= ndigits c.
Proof. apply count_digits_ge_1. Qed.

Lemma ndigits_le c n : 0 < c < 10 ^ n -> 0 <= n -> ndigits c <= n.
Proof.
  intros Hc Hn. destruct (Z_le_gt_dec (ndigits c) n) as [Hle|Hgt]; [exact Hle|].
  exfalso. pose proof (ndigits_spec c ltac:(lia)) as [Hlow _].
  assert (10 ^ n <= 10 ^ (ndigits c - 1)) by (apply Z.pow_le_mono_r; lia). lia.
Qed.

Lemma pow10_pos n : 0 < 10 ^ n \/ n < 0.
Proof. destruct (Z_lt_le_dec n 0); [by right | left; by apply Z.pow_pos_nonneg]. Qed.

Lemma pow10_split x y : 0 <= x -> 0 <= y -> 10 ^ (x + y) = 10 ^ x * 10 ^ y.
Proof. intros. apply Z.pow_add_r; assumption. Qed.

(** Dividing [a * 10^x] by [10^y]. *)
Lemma pow10_div_small a x y : 0 <= y <= x -> a * 10 ^ x / 10 ^ y = a * 10 ^ (x - y).
Proof.
  intros Hxy. replace x with ((x - y) + y) at 1 by lia.
  rewrite pow10_split by lia. rewrite Z.mul_assoc.
  apply Z.div_mul. assert (0 < 10 ^ y) by (apply Z.pow_pos_nonneg; lia). lia.
Qed.

Lemma pow10_div_large a x y : 0 <= x <= y -> a * 10 ^ x / 10 ^ y = a / 10 ^ (y - x).
Proof.
  intros Hxy. replace y with ((y - x) + x) at 1 by lia.
  rewrite pow10_split by lia.
  assert (0 < 10 ^ x) by (apply Z.pow_pos_nonneg; lia).
  assert (0 < 10 ^ (y - x)) by (apply Z.pow_pos_nonneg; lia).
  apply Z.div_mul_cancel_r; lia.
Qed.

(** The product with [10^9] of a coefficient of at most 28 digits is
    rounded without loss: only zeros are dropped. *)
Lemma round_product_exact c e :
  0 < c < 10 ^ 28 ->
  exists d,
    0 <= d <= 9
    /\ round_to_prec (c * LAMPORTS_PER_SOL) e = (c * 10 ^ (9 - d), e + d)
    /\ c * 10 ^ (9 - d) < 10 ^ 28.
Proof.
  intros Hc. unfold round_to_prec, context_prec.
  change LAMPORTS_PER_SOL with (10 ^ 9).
  assert (0 < c * 10 ^ 9) as Hpos by lia.
  pose proof (ndigits_spec (c * 10 ^ 9) Hpos) as [Hlow Hhigh].
  pose proof (ndigits_ge_1 (c * 10 ^ 9)) as Hge.
  set (n := ndigits (c * 10 ^ 9)) in *.
  destruct (n <=? 28) eqn:Hn.
  - apply Z.leb_le in Hn. exists 0. split; [lia|].
    rewrite Z.sub_0_r, Z.add_0_r. split; [reflexivity|].
    eapply Z.lt_le_trans; [exact Hhigh|]. apply Z.pow_le_mono_r; lia.
  - apply Z.leb_gt in Hn.
    assert (n <= 37) as Hn37.
    { destruct (Z_le_gt_dec n 37) as [Hle|Hgt]; [exact Hle|]. exfalso.
      assert (10 ^ 37 <= 10 ^ (n - 1)) by (apply Z.pow_le_mono_r; lia).
      assert (c * 10 ^ 9 < 10 ^ 37) by (change (10 ^ 37) with (10 ^ 28 * 10 ^ 9); lia).
      lia. }
    set (d := n - 28). assert (1 <= d <= 9) as Hd by (subst d; lia).
    exists d. split; [lia|].
    assert (0 < 10 ^ d) as Hpd by (apply Z.pow_pos_nonneg; lia).
    assert (c * 10 ^ 9 = c * 10 ^ (9 - d) * 10 ^ d) as Hsplit.
    { rewrite <- Z.mul_assoc, <- pow10_split by lia. do 2 f_equal. lia. }
    assert (c * 10 ^ 9 / 10 ^ d = c * 10 ^ (9 - d)) as Hq
      by (apply pow10_div_small; lia).
    assert ((c * 10 ^ 9) mod 10 ^ d = 0) as Hr
      by (rewrite Hsplit; apply Z.mod_mul; lia).
    rewrite Hq, Hr.
    assert (0 < 5 * 10 ^ (d - 1)) as Hhalf
      by (assert (0 < 10 ^ (d - 1)) by (apply Z.pow_pos_nonneg; lia); lia).
    assert ((5 * 10 ^ (d - 1) <? 0) = false) as -> by (apply Z.ltb_ge; lia).
    assert ((0 =? 5 * 10 ^ (d - 1)) = false) as -> by (apply Z.eqb_neq; lia).
    cbn [orb andb].
    assert (c * 10 ^ (9 - d) < 10 ^ 28) as Hlt.
    { assert (10 ^ n = 10 ^ 28 * 10 ^ d) as Hn'
        by (rewrite <- pow10_split by lia; f_equal; subst d; lia).
      rewrite Hsplit, Hn' in Hhigh. nia. }
    assert ((c * 10 ^ (9 - d) =? 10 ^ 28) = false) as -> by (apply Z.eqb_neq; lia).
    split; [reflexivity | exact Hlt].
Qed.

(** The conversion of a positive amount of at most 28 digits. *)
Lemma sol_to_lamports_finite c e :
  0 < c < 10 ^ 28 -> e <= 999963 ->
  _sol_to_lamports (DFinite false c e)
  = if whole_lamports c e <=? 0 then inl (Raise ClsValueError MAmountTooSmall None)
    else inr (whole_lamports c e).
Proof.
  intros Hc He. unfold _sol_to_lamports. cbn [decimal_le_zero].
  assert ((c =? 0) = false) as -> by (apply Z.eqb_neq; lia). cbn [orb].
  unfold decimal_mul. rewrite Z.add_0_r.
  destruct (round_product_exact c e Hc) as (d & Hd & -> & Hlt).
  assert (0 < 10 ^ (9 - d)) as Hp by (apply Z.pow_pos_nonneg; lia).
  assert (0 < c * 10 ^ (9 - d)) as Hpos by lia.
  pose proof (ndigits_le (c * 10 ^ (9 - d)) 28 ltac:(lia) ltac:(lia)) as Hn.
  assert ((context_Emax <? e + d + ndigits (c * 10 ^ (9 - d)) - 1) = false) as ->
    by (apply Z.ltb_ge; unfold context_Emax; lia).
  rewrite andb_false_r. cbn [xorb].
  assert (int_of_decimal (to_integral_value_down (DFinite false (c * 10 ^ (9 - d)) (e + d)))
          = inr (whole_lamports c e)) as ->; [|reflexivity].
  unfold to_integral_value_down, int_of_decimal, whole_lamports.
  destruct (e + d <? 0) eqn:Hneg; cbv iota; rewrite ?Hneg.
  - apply Z.ltb_lt in Hneg. change (0 <? 0) with false. cbv iota.
    rewrite Z.pow_0_r, Z.mul_1_r. f_equal.
    destruct (-9 <=? e) eqn:H9.
    + apply Z.leb_le in H9. rewrite pow10_div_small by lia. do 2 f_equal. lia.
    + apply Z.leb_gt in H9. rewrite pow10_div_large by lia. do 2 f_equal. lia.
  - apply Z.ltb_ge in Hneg. cbv iota. f_equal.
    assert ((-9 <=? e) = true) as -> by (apply Z.leb_le; lia).
    rewrite <- Z.mul_assoc, <- pow10_split by lia. do 2 f_equal. lia.
Qed.

(** X17. A positive amount whose coefficient has at most 28 digits, and
    whose exponent is at most 999963 so that the product with [10^9] stays
    within the exponents of the context, is converted without rounding
    error: [_sol_to_lamports] returns the whole
    lamports in the amount, the amount times [10^9] rounded towards zero,
    exactly the amount times [10^9] when it has at most nine decimals; and
    it raises the [ValueError] of an amount that is too small exactly when
    that number is zero. *)
Theorem sol_to_lamports_exact c e :
  0 < c < 10 ^ 28 -> e <= 999963 ->
  (whole_lamports c e = 0 ->
   _sol_to_lamports (DFinite false c e) = inl (Raise ClsValueError MAmountTooSmall None))
  /\ (0 < whole_lamports c e -> _sol_to_lamports (DFinite false c e) = inr (whole_lamports c e))
  /\ 0 <= whole_lamports c e
  /\ (-9 <= e -> whole_lamports c e = c * 10 ^ (e + 9))
  /\ (e < -9 ->
      whole_lamports c e * 10 ^ (- 9 - e) <= c < (whole_lamports c e + 1) * 10 ^ (- 9 - e)).
Proof.
  intros Hc He. rewrite (sol_to_lamports_finite c e Hc He).
  split; [intros ->; reflexivity|].
  split; [intros Hpos; apply Z.leb_gt in Hpos; by rewrite Hpos|].
  unfold whole_lamports. destruct (-9 <=? e) eqn:H9.
  - apply Z.leb_le in H9.
    assert (0 < 10 ^ (e + 9)) by (apply Z.pow_pos_nonneg; lia).
    split; [lia|]. split; [reflexivity | lia].
  - apply Z.leb_gt in H9.
    assert (0 < 10 ^ (- 9 - e)) as Hp by (apply Z.pow_pos_nonneg; lia).
    split; [apply Z.div_pos; lia|]. split; [lia|]. intros _.
    pose proof (Z.div_mod c (10 ^ (- 9 - e)) ltac:(lia)).
    pose proof (Z.mod_pos_bound c (10 ^ (- 9 - e)) Hp). lia.
Qed.

Lemma strip_trailing_zeros_spec fuel :
  forall c e,
    0 < c -> -9 <= e <= 0 ->
    let '(c', e') := strip_trailing_zeros fuel c e in
    0 < c' <= c /\ -9 <= e' <= 0 /\ c' * 10 ^ (e' + 9) = c * 10 ^ (e + 9).
Proof.
  induction fuel as [|fuel IH]; intros c e Hc He; cbn [strip_trailing_zeros]; [lia|].
  destruct ((e <? 0) && (c mod 10 =? 0)) eqn:Hcond; [|lia].
  apply andb_true_iff in Hcond as [Hneg Hmod].
  apply Z.ltb_lt in Hneg. apply Z.eqb_eq in Hmod.
  pose proof (Z.div_mod c 10 ltac:(lia)) as Hdm.
  specialize (IH (c / 10) (e + 1) ltac:(lia) ltac:(lia)).
  destruct (strip_trailing_zeros fuel (c / 10) (e + 1)) as [c' e'].
  destruct IH as (Hc' & He' & Hv).
  split; [lia|]. split; [lia|]. rewrite Hv.
  replace (e + 1 + 9) with (Z.succ (e + 9)) by lia.
  rewrite Z.pow_succ_r by lia. lia.
Qed.

(** The balance of a positive number of lamports, as [Decimal]. *)
Lemma lamports_to_sol_plain l :
  0 < l ->
  exists c e,
    lamports_to_sol l = DFinite false c e
    /\ 0 < c <= l /\ -9 <= e <= 0 /\ c * 10 ^ (e + 9) = l.
Proof.
  intros Hl. unfold lamports_to_sol.
  assert ((l =? 0) = false) as -> by (apply Z.eqb_neq; lia).
  pose proof (strip_trailing_zeros_spec 9 l (-9) ltac:(lia) ltac:(lia)) as Hstrip.
  destruct (strip_trailing_zeros 9 l (-9)) as [c e].
  destruct Hstrip as (Hc & He & Hv).
  change (10 ^ (-9 + 9)) with 1 in Hv. rewrite Z.mul_1_r in Hv.
  exists c, e. auto.
Qed.

(** X18. Balances and amounts agree: the balance that [fetch_balances]
    reports for an account of [l] lamports, [l] positive and within 64
    bits, converts back with [_sol_to_lamports] to [l] exactly. *)
Theorem lamports_round_trip l :
  0 < l < 2 ^ 64 ->
  _sol_to_lamports (lamports_to_sol l) = inr l.
Proof.
  intros Hl. destruct (lamports_to_sol_plain l ltac:(lia)) as (c & e & -> & Hc & He & Hv).
  assert (2 ^ 64 < 10 ^ 28) as Hbig by reflexivity.
  rewrite sol_to_lamports_finite by lia.
  unfold whole_lamports.
  assert ((-9 <=? e) = true) as -> by (apply Z.leb_le; lia).
  rewrite Hv.
  assert ((l <=? 0) = false) as -> by (apply Z.leb_gt; lia).
  reflexivity.
Qed.

End Amounts.

(** ** Mass payments *)

Section PaymentsMore.
Context {World : Type}.
Variable rpc : Client -> Request -> World -> (Exception + Response) * World.
Variable Pubkey_valid Signature_valid : string -> bool.
Implicit Types st : State World.

Lemma submitted_transfers_app calls1 calls2 :
  submitted_transfers (calls1 ++ calls2)
  = submitted_transfers calls1 ++ submitted_transfers calls2.
Proof.
  induction calls1 as [|c calls1 IH]; cbn [app submitted_transfers]; [reflexivity|].
  by rewrite IH, app_assoc.
Qed.

Lemma submitted_payment_calls evs :
  submitted_transfers (successful_calls evs) = submitted_transfers (payment_calls evs).
Proof.
  unfold payment_calls. induction (successful_calls evs) as [|c calls IH]; [reflexivity|].
  cbn [List.filter submitted_transfers].
  destruct (call_request c) eqn:Hreq; cbn [is_payment_request submitted_transfers app];
    rewrite ?Hreq; cbn [app]; by rewrite IH.
Qed.

Lemma transfers_payments wallet chunk instructions :
  transfers Pubkey_valid wallet chunk = inr instructions ->
  instructions = map (payment_to (pubkey wallet)) chunk.
Proof.
  revert instructions. induction chunk as [|r chunk IH]; intros instructions H;
    cbn [transfers] in H.
  - by injection H as <-.
  - destruct (negb (Pubkey_valid (address r))); [discriminate H|].
    destruct (negb (fits 64 (lamports r))); [discriminate H|].
    destruct (transfers Pubkey_valid wallet chunk) as [e|rest]; [discriminate H|].
    injection H as <-. cbn [map]. by rewrite (IH rest eq_refl).
Qed.

Lemma build_instructions_transfers wallet chunk limit_value price_value instructions :
  build_instructions Pubkey_valid wallet chunk limit_value price_value = inr instructions ->
  List.filter is_transfer instructions = map (payment_to (pubkey wallet)) chunk.
Proof.
  unfold build_instructions, overflow. intros H.
  assert (List.filter is_transfer (map (payment_to (pubkey wallet)) chunk)
          = map (payment_to (pubkey wallet)) chunk) as Hall.
  { clear H. induction chunk as [|r chunk IH]; [reflexivity|].
    cbn [map]. unfold payment_to at 1. cbn [List.filter is_transfer].
    rewrite IH. reflexivity. }
  destruct limit_value as [l|]; [destruct (fits 32 l); [|discriminate H]|];
    (destruct price_value as [p|]; [destruct (fits 64 p); [|discriminate H]|]);
    (destruct (transfers Pubkey_valid wallet chunk) as [e|ts] eqn:Hts; [discriminate H|]);
    injection H as <-; apply transfers_payments in Hts as ->; cbn; exact Hall.
Qed.

(** One iteration of the payment loop, however it ends: either no
    transaction was accepted by the service, and the iteration raised, or
    the one accepted transaction holds the transfers of the chunk. *)
Lemma send_chunk_outcome wallet chunk skip_preflight commitment limit price st r st' :
  send_chunk rpc Pubkey_valid Signature_valid wallet chunk skip_preflight commitment
    limit price st = (r, st') ->
  exists evs,
    steps st st' evs
    /\ ((submitted_transfers (successful_calls evs) = [] /\ exists e, r = inl e)
        \/ submitted_transfers (successful_calls evs)
           = map (payment_to (pubkey wallet)) chunk).
Proof.
  unfold send_chunk. intros H.
  unfold bind at 1 in H. unfold self at 1 in H.
  unfold bind at 1 in H. unfold self at 1 in H.
  bind_case H as instructions st1 Hm.
  { apply lift_inv in Hm as [_ ->]. exists []. split; [apply steps_refl|]. left. eauto. }
  apply lift_inv in Hm as [Hbuild ->]. symmetry in Hbuild.
  apply build_instructions_transfers in Hbuild.
  bind_case H as blockhash_resp st2 Hm.
  { apply (perform_call rpc) in Hm as (evs1 & Hst1 & Hc1).
    exists evs1. split; [exact Hst1|]. left. rewrite Hc1. eauto. }
  apply (perform_call rpc) in Hm as (evs1 & Hst1 & Hc1).
  bind_case H as blockhash st3 Hm.
  { apply lift_inv in Hm as [_ ->].
    exists evs1. split; [exact Hst1|]. left. rewrite Hc1. eauto. }
  apply lift_inv in Hm as [_ ->].
  bind_case H as response st4 Hm.
  { apply (perform_call rpc) in Hm as (evs2 & Hst2 & Hc2).
    exists (evs1 ++ evs2). split; [eapply steps_trans; eassumption|]. left.
    rewrite successful_calls_app, Hc1, Hc2. eauto. }
  apply (perform_call rpc) in Hm as (evs2 & Hst2 & Hc2).
  assert (submitted_transfers (successful_calls (evs1 ++ evs2))
          = map (payment_to (pubkey wallet)) chunk) as Hsent.
  { rewrite successful_calls_app, Hc1, Hc2. cbn. rewrite app_nil_r. exact Hbuild. }
  bind_case H as signature st5 Hm.
  { apply lift_inv in Hm as [_ ->].
    exists (evs1 ++ evs2). split; [eapply steps_trans; eassumption|]. right. exact Hsent. }
  apply lift_inv in Hm as [_ ->].
  assert (forall r0, _await_confirmation rpc Signature_valid signature default_timeout_seconds
                       commitment st4 = (r0, st') ->
          exists evs, steps st st' evs
                      /\ submitted_transfers (successful_calls evs)
                         = map (payment_to (pubkey wallet)) chunk) as Hwait.
  { intros r0 Hr0.
    apply (await_confirmation_steps rpc Signature_valid) in Hr0 as (evs3 & Hst3 & Hc3).
    exists ((evs1 ++ evs2) ++ evs3).
    split; [eapply steps_trans; [eapply steps_trans|]; eassumption|].
    rewrite successful_calls_app, submitted_transfers_app, Hsent.
    rewrite (submitted_payment_calls evs3), Hc3. cbn. by rewrite app_nil_r. }
  bind_case H as u st6 Hm.
  { destruct (Hwait _ Hm) as (evs & Hst & Hsub). exists evs. auto. }
  unfold ret in H. injection H as <- <-.
  destruct (Hwait _ Hm) as (evs & Hst & Hsub). exists evs. auto.
Qed.

(** The loop over the chunks, however it ends: the transfers accepted by
    the service are those of the first chunks, as many as were reached. *)
Lemma send_chunks_outcome wallet skip_preflight commitment limit price chunks :
  forall signatures st r st',
    send_chunks rpc Pubkey_valid Signature_valid wallet chunks skip_preflight commitment
      limit price signatures st = (r, st') ->
    exists evs chunks_done chunks_left,
      chunks = chunks_done ++ chunks_left
      /\ steps st st' evs
      /\ submitted_transfers (successful_calls evs)
         = map (payment_to (pubkey wallet)) (concat chunks_done)
      /\ match r with
         | inr result =>
             chunks_left = [] /\ length result = (length signatures + length chunks)%nat
         | inl _ => True
         end.
Proof.
  induction chunks as [|chunk rest IH]; intros signatures st r st' H; cbn [send_chunks] in H.
  - unfold ret in H. injection H as <- <-.
    exists [], [], []. split; [reflexivity|]. split; [apply steps_refl|].
    split; [reflexivity|]. split; [reflexivity | cbn; lia].
  - unfold bind in H.
    destruct (send_chunk rpc Pubkey_valid Signature_valid wallet chunk skip_preflight
                commitment limit price st) as [[e|signature] st1] eqn:Hchunk.
    + injection H as <- <-.
      apply send_chunk_outcome in Hchunk as (evs & Hst & [[Hnone _]|Hsent]).
      * exists evs, [], (chunk :: rest). rewrite Hnone. auto.
      * exists evs, [chunk], rest. cbn [concat]. rewrite app_nil_r. auto.
    + apply send_chunk_outcome in Hchunk as (evs1 & Hst1 & [[_ [e He]]|Hsent]);
        [discriminate He|].
      apply IH in H as (evs2 & chunks_done & chunks_left & -> & Hst2 & Hsub & Hr).
      exists (evs1 ++ evs2), (chunk :: chunks_done), chunks_left.
      split; [reflexivity|].
      split; [eapply steps_trans; eassumption|].
      split.
      { rewrite successful_calls_app, submitted_transfers_app, Hsent, Hsub.
        cbn [concat]. by rewrite map_app. }
      destruct r as [e|result]; [exact I|].
      destruct Hr as [-> Hlen]. split; [reflexivity|].
      rewrite Hlen, length_app. cbn [length]. lia.
Qed.

(** X19. Whatever happens during [send_mass_payments], nobody is paid
    twice, out of turn or another amount, and nobody who is not on the list
    is paid: the transfers of the transactions that the service accepted
    are, in order, the payments of a prefix of the recipients, each
    recipient with the lamports given; and when the call returns, these are
    all the recipients and there is one signature for each chunk. *)
Theorem send_mass_payments_pays_prefix
    recipients max_per_transaction skip_preflight commitment limit price st r st' :
  send_mass_payments rpc Pubkey_valid Signature_valid recipients max_per_transaction
    skip_preflight commitment limit price st = (r, st') ->
  exists evs paid unpaid,
    recipients = paid ++ unpaid
    /\ steps st st' evs
    /\ (forall wallet',
          wallet (manager st) = Some wallet' ->
          submitted_transfers (successful_calls evs)
          = map (payment_to (pubkey wallet')) paid)
    /\ (wallet (manager st) = None -> successful_calls evs = [])
    /\ match r with
       | inr signatures =>
           unpaid = []
           /\ exists chunks,
                _chunk recipients
                  (effective_batch_size max_per_transaction
                     (default_max_recipients_per_tx (manager st))) = inr chunks
                /\ length signatures = length chunks
       | inl _ => True
       end.
Proof.
  unfold send_mass_payments. unfold bind at 1. unfold self at 1.
  set (batch_size := effective_batch_size max_per_transaction
                       (default_max_recipients_per_tx (manager st))).
  destruct (batch_size <? 1) eqn:Hbatch.
  { intros H. injection H as <- <-. exists [], [], recipients.
    split; [reflexivity|]. split; [apply steps_refl|]. auto. }
  apply Z.ltb_ge in Hbatch.
  unfold bind at 1, _require_wallet. unfold bind at 1. unfold self at 1.
  destruct (wallet (manager st)) as [wallet'|] eqn:Hwallet.
  2:{ intros H. injection H as <- <-. exists [], [], recipients.
      split; [reflexivity|]. split; [apply steps_refl|]. split; [discriminate | auto]. }
  unfold ret at 1.
  destruct (chunk_partition recipients batch_size Hbatch) as (chunks & Hchunk & Hcat & _).
  rewrite Hchunk. unfold bind at 1, lift, ret at 1. intros H.
  apply send_chunks_outcome in H as (evs & chunks_done & chunks_left & -> & Hst & Hsub & Hr).
  exists evs, (concat chunks_done), (concat chunks_left).
  split; [by rewrite <- Hcat, concat_app|]. split; [exact Hst|].
  split; [intros w Hw; injection Hw as <-; exact Hsub|].
  split; [discriminate|].
  destruct r as [e|signatures]; [exact I|].
  destruct Hr as [-> Hlen]. split; [reflexivity|].
  eexists. split; [reflexivity|]. exact Hlen.
Qed.

(** X20. Without a wallet [send_mass_payments] raises
    [WalletNotLoadedError] and does nothing, whatever the recipients; with
    a wallet and no recipient it returns no signature and does nothing: in
    both cases the service is not contacted and the state is left as it
    was. *)
Theorem send_mass_payments_nothing_to_do
    recipients max_per_transaction skip_preflight commitment limit price st :
  1 <= effective_batch_size max_per_transaction (default_max_recipients_per_tx (manager st)) ->
  wallet (manager st) = None \/ recipients = [] ->
  send_mass_payments rpc Pubkey_valid Signature_valid recipients max_per_transaction
    skip_preflight commitment limit price st
  = (match wallet (manager st) with
     | None => inl (Raise ClsWalletNotLoadedError MWalletNotLoaded None)
     | Some _ => inr []
     end, st).
Proof.
  intros Hbatch Hcase.
  unfold send_mass_payments. unfold bind at 1. unfold self at 1.
  assert ((effective_batch_size max_per_transaction
             (default_max_recipients_per_tx (manager st)) <? 1) = false) as ->
    by (apply Z.ltb_ge; lia).
  unfold bind at 1, _require_wallet. unfold bind at 1. unfold self at 1.
  destruct (wallet (manager st)) as [wallet'|]; [|reflexivity].
  destruct Hcase as [Hnone| ->]; [discriminate Hnone|].
  unfold ret at 1. rewrite (chunk_pages [] _ Hbatch).
  unfold page_count. cbn [length]. rewrite Z.add_0_l.
  rewrite Z.div_small by lia. reflexivity.
Qed.

End PaymentsMore.

(** ** The wallet *)

Section WalletMore.
Context {World : Type}.
Variable Keypair_from_bytes Keypair_from_seed : list Byte.byte -> option Keypair.
Variable json_loads : string -> Exception + Json.
Variable b58decode : string -> option (list Byte.byte).
Implicit Types st : State World.

(** What the [try] around [json.loads] lets through. *)
Lemma try_json_loads_cases raw :
  match try_json_loads json_loads raw with
  | inl e => json_loads raw = inl e /\ isinstance e ClsJSONDecodeError = false
  | inr (Some data) => json_loads raw = inr data
  | inr None => exists e, json_loads raw = inl e /\ isinstance e ClsJSONDecodeError = true
  end.
Proof.
  unfold try_json_loads. destruct (json_loads raw) as [e|data]; [|reflexivity].
  destruct (isinstance e ClsJSONDecodeError) eqn:Hcls; eauto.
Qed.

(** The exceptions of [bytes(int(value) for value in data)]. *)
Lemma bytes_of_json_raises data e :
  bytes_of_json data = inl e ->
  exn_class e = ClsValueError \/ exn_class e = ClsTypeError \/ exn_class e = ClsOverflowError.
Proof.
  induction data as [|value rest IH]; cbn [bytes_of_json]; [discriminate|].
  destruct (py_int value) as [e0|n] eqn:Hint.
  - intros H. injection H as <-.
    destruct value as [|b|n|q| |negative|s|items|members]; cbn in Hint;
      try discriminate Hint; try (injection Hint as <-; auto).
    destruct (int_of_text s); [discriminate Hint | injection Hint as <-; auto].
  - destruct (if (0 <=? n) && (n <? 256) then Byte.of_N (Z.to_N n) else None);
      [|intros H; injection H as <-; auto].
    destruct (bytes_of_json rest) as [e1|bs]; [|discriminate].
    intros H. injection H as <-. by apply IH.
Qed.

(** The end of [load_wallet_from_file], once the secret is decoded. *)
Lemma load_decoded_state secret_bytes st r st' :
  bind (_keypair_from_bytes Keypair_from_bytes Keypair_from_seed secret_bytes)
    (fun kp => bind (assign (set_wallet (Some kp))) (fun _ => ret (pubkey kp))) st = (r, st') ->
  match r with
  | inr public_key =>
      exists kp,
        public_key = pubkey kp
        /\ st' = {| manager := set_wallet (Some kp) (manager st);
                    world := world st; clock := clock st; trace := trace st |}
  | inl e =>
      st' = st
      /\ (e = Raise ClsWalletLoadError MSecretLength None
          \/ e = Raise ClsValueError (MLibrary "invalid keypair bytes") None)
  end.
Proof.
  unfold bind at 1. rewrite keypair_from_bytes_cases.
  case_bool_decide as H64; [|case_bool_decide as H32].
  - destruct (Keypair_from_bytes secret_bytes) as [kp|]; cbn;
      intros H; injection H as <- <-; eauto.
  - destruct (Keypair_from_seed secret_bytes) as [kp|]; cbn;
      intros H; injection H as <- <-; eauto.
  - intros H. injection H as <- <-. auto.
Qed.

(** X21. [load_wallet_from_file] changes nothing but the wallet, and
    that only when it returns: a call that raises leaves the whole state as
    it was, so that a wallet loaded before stays loaded; a call that
    returns has stored a key pair and returns its public key. *)
Theorem load_wallet_changes_only_wallet file st r st' :
  load_wallet_from_file Keypair_from_bytes Keypair_from_seed json_loads b58decode file st
  = (r, st') ->
  match r with
  | inr public_key =>
      exists kp,
        public_key = pubkey kp
        /\ st' = {| manager := set_wallet (Some kp) (manager st);
                    world := world st; clock := clock st; trace := trace st |}
  | inl _ => st' = st
  end.
Proof.
  unfold load_wallet_from_file.
  destruct file as [|unreadable|text]; [intros H; by injection H as <- <-..|].
  case_bool_decide as Hraw; [intros H; by injection H as <- <-|].
  assert (forall secret_bytes,
            bind (_keypair_from_bytes Keypair_from_bytes Keypair_from_seed secret_bytes)
              (fun kp => bind (assign (set_wallet (Some kp))) (fun _ => ret (pubkey kp))) st
            = (r, st') ->
            match r with
            | inr public_key =>
                exists kp,
                  public_key = pubkey kp
                  /\ st' = {| manager := set_wallet (Some kp) (manager st);
                              world := world st; clock := clock st; trace := trace st |}
            | inl _ => st' = st
            end) as Hdecoded.
  { intros secret_bytes Hload. apply load_decoded_state in Hload.
    destruct r; [exact (proj1 Hload) | exact Hload]. }
  destruct (try_json_loads json_loads (Text.strip text)) as [e|[[| | | | | | |data|]|]];
    [intros H; by injection H as <- <-|..];
    try (destruct (b58decode (Text.strip text)) as [secret_bytes|];
         [apply Hdecoded | intros H; by injection H as <- <-]).
  destruct (bytes_of_json data) as [e|secret_bytes];
    [intros H; by injection H as <- <- | apply Hdecoded].
Qed.


(** X22. Once [load_wallet_from_file] has returned a public key,
    [get_wallet_address] returns that key, and changes nothing. *)
Theorem get_wallet_address_after_load file st public_key st' :
  load_wallet_from_file Keypair_from_bytes Keypair_from_seed json_loads b58decode file st
  = (inr public_key, st') ->
  get_wallet_address st' = (inr public_key, st').
Proof.
  unfold load_wallet_from_file.
  destruct file as [|unreadable|text]; [discriminate..|].
  case_bool_decide as Hraw; [discriminate|].
  assert (forall secret_bytes,
            bind (_keypair_from_bytes Keypair_from_bytes Keypair_from_seed secret_bytes)
              (fun kp => bind (assign (set_wallet (Some kp))) (fun _ => ret (pubkey kp))) st
            = (inr public_key, st') ->
            get_wallet_address st' = (inr public_key, st')) as Hdecoded.
  { intros secret_bytes Hload. apply load_decoded_state in Hload as (kp & -> & ->).
    unfold get_wallet_address, _require_wallet. run. rewrite wallet_set. reflexivity. }
  destruct (try_json_loads json_loads (Text.strip text)) as [e|[[| | | | | | |data|]|]];
    [discriminate|..];
    try (destruct (b58decode (Text.strip text)) as [secret_bytes|];
         [apply Hdecoded | discriminate]).
  destruct (bytes_of_json data) as [e|secret_bytes]; [discriminate | apply Hdecoded].
Qed.

(** X23. The exceptions of [load_wallet_from_file]: a [WalletLoadError]
    of the manager; or the exception that reading the file raised; or an
    exception of [json.loads] that is no [JSONDecodeError]; or, for a file
    that holds a JSON array, the exception of turning an entry into a byte,
    which is a [ValueError], a [TypeError] or an [OverflowError] and not a
    [WalletLoadError]; or the [ValueError] of the library for bytes that
    make no key pair.  A JSON array is never read as base-58 text. *)
Theorem load_wallet_raises file st e st' :
  load_wallet_from_file Keypair_from_bytes Keypair_from_seed json_loads b58decode file st
  = (inl e, st') ->
  exn_class e = ClsWalletLoadError
  \/ file = FileUnreadable e
  \/ (exists text,
        file = FileText text
        /\ json_loads (Text.strip text) = inl e
        /\ isinstance e ClsJSONDecodeError = false)
  \/ (exists text data,
        file = FileText text
        /\ json_loads (Text.strip text) = inr (JList data)
        /\ bytes_of_json data = inl e
        /\ isinstance e ClsWalletLoadError = false)
  \/ e = Raise ClsValueError (MLibrary "invalid keypair bytes") None.
Proof.
  unfold load_wallet_from_file.
  destruct file as [|unreadable|text];
    [intros H; injection H as <- <-; auto | intros H; injection H as <- <-; auto|].
  case_bool_decide as Hraw; [intros H; injection H as <- <-; auto|].
  assert (forall secret_bytes,
            bind (_keypair_from_bytes Keypair_from_bytes Keypair_from_seed secret_bytes)
              (fun kp => bind (assign (set_wallet (Some kp))) (fun _ => ret (pubkey kp))) st
            = (inl e, st') ->
            exn_class e = ClsWalletLoadError
            \/ FileText text = FileUnreadable e
            \/ (exists text0,
                  FileText text = FileText text0
                  /\ json_loads (Text.strip text0) = inl e
                  /\ isinstance e ClsJSONDecodeError = false)
            \/ (exists text0 data,
                  FileText text = FileText text0
                  /\ json_loads (Text.strip text0) = inr (JList data)
                  /\ bytes_of_json data = inl e
                  /\ isinstance e ClsWalletLoadError = false)
            \/ e = Raise ClsValueError (MLibrary "invalid keypair bytes") None) as Hdecoded.
  { intros secret_bytes Hload. apply load_decoded_state in Hload as (_ & [-> | ->]); auto 6. }
  pose proof (try_json_loads_cases (Text.strip text)) as Hjson.
  destruct (try_json_loads json_loads (Text.strip text)) as [e0|[[| | | | | | |data|]|]];
    [|try (destruct (b58decode (Text.strip text)) as [secret_bytes|];
           [apply Hdecoded | intros H; injection H as <- <-; auto])..].
  - intros H. injection H as <- <-. destruct Hjson as [Hloads Hcls].
    right. right. left. exists text. auto.
  - destruct (bytes_of_json data) as [e0|secret_bytes] eqn:Hbytes; [|apply Hdecoded].
    intros H. injection H as <- <-. right. right. right. left. exists text, data.
    split; [reflexivity|]. split; [exact Hjson|]. split; [exact Hbytes|].
    apply bytes_of_json_raises in Hbytes as [Hc|[Hc|Hc]];
      unfold isinstance; rewrite Hc; reflexivity.
Qed.

End WalletMore.

(** ** Balances *)

Section BalancesMore.
Context {World : Type}.
Variable rpc : Client -> Request -> World -> (Exception + Response) * World.
Variable Pubkey_valid : string -> bool.
Implicit Types st : State World.

Lemma chunk_elements {T} (items : list T) size chunks chunk a :
  _chunk items size = inr chunks -> chunk ∈ chunks -> a ∈ chunk -> a ∈ items.
Proof.
  unfold _chunk. destruct (py_range _ size) as [e|indices]; [discriminate|].
  intros H Hchunk Ha. injection H as <-.
  apply list_elem_of_fmap in Hchunk as (index & -> & _).
  unfold slice in Ha. apply subseteq_take in Ha. by apply subseteq_drop in Ha.
Qed.

(** The loop over the pages, however it ends, only asks for accounts: one
    answered query for each page it got through, for the addresses of
    that page, all of them valid. *)
Lemma fetch_pages_outcome commitment chunks :
  forall (balances_unique : gmap string Decimal) st r st',
    fetch_pages rpc Pubkey_valid chunks commitment balances_unique st = (r, st') ->
    exists evs,
      steps st st' evs
      /\ Forall (fun call =>
                   exists chunk,
                     chunk ∈ chunks
                     /\ forallb Pubkey_valid chunk = true
                     /\ call_request call = GetMultipleAccounts chunk commitment)
                (successful_calls evs).
Proof.
  induction chunks as [|chunk chunks IH]; intros balances_unique st r st' H;
    cbn [fetch_pages] in H.
  - unfold ret in H. injection H as <- <-. exists []. split; [apply steps_refl | constructor].
  - bind_case H as pubkeys st1 Hkeys.
    { apply lift_inv in Hkeys as [_ ->]. exists []. split; [apply steps_refl | constructor]. }
    apply lift_inv in Hkeys as [Hkeys ->].
    unfold pubkeys_of in Hkeys.
    destruct (forallb Pubkey_valid chunk) eqn:Hvalid; [|discriminate Hkeys].
    injection Hkeys as ->.
    assert (forall r0 st0 evs,
              _perform (fun client => client_call rpc client
                                        (GetMultipleAccounts chunk commitment)) st
              = (r0, st0) ->
              successful_calls evs
              = match r0 with
                | inr resp => [{| call_request := GetMultipleAccounts chunk commitment;
                                  call_result := inr resp |}]
                | inl _ => []
                end ->
              Forall (fun call =>
                        exists chunk0,
                          chunk0 ∈ chunk :: chunks
                          /\ forallb Pubkey_valid chunk0 = true
                          /\ call_request call = GetMultipleAccounts chunk0 commitment)
                     (successful_calls evs)) as Hcall.
    { intros r0 st0 evs _ ->. destruct r0; constructor; [|constructor].
      exists chunk. split; [apply elem_of_cons; by left|]. split; [exact Hvalid | reflexivity]. }
    bind_case H as response st2 Hperform.
    { pose proof Hperform as Hp.
      apply (perform_call rpc) in Hp as (evs & Hst & Hc). exists evs.
      split; [exact Hst | eapply Hcall; eassumption]. }
    pose proof Hperform as Hp.
    apply (perform_call rpc) in Hp as (evs1 & Hst1 & Hc1).
    pose proof (Hcall _ _ _ Hperform Hc1) as Hfirst.
    bind_case H as accounts st3 Hacc.
    { apply lift_inv in Hacc as [_ ->]. exists evs1. split; [exact Hst1 | exact Hfirst]. }
    apply lift_inv in Hacc as [_ ->].
    apply IH in H as (evs2 & Hst2 & Hrest).
    exists (evs1 ++ evs2). split; [eapply steps_trans; eassumption|].
    rewrite successful_calls_app. apply Forall_app. split; [exact Hfirst|].
    eapply Forall_impl; [exact Hrest|].
    intros call (chunk0 & Hin & Hv & Hreq). exists chunk0.
    split; [apply elem_of_cons; by right | auto].
Qed.

(** X24. [fetch_balances] only reads: however it ends, every call that
    the service answered is a query for accounts, at the commitment asked
    for, of valid addresses that are all among those given; no transaction
    is submitted; the settings and the wallet are kept; and for no address
    the service is not contacted at all. *)
Theorem fetch_balances_only_reads addresses commitment st r st' :
  fetch_balances rpc Pubkey_valid addresses commitment st = (r, st') ->
  exists evs,
    steps st st' evs
    /\ Forall (fun call =>
                 exists pubkeys,
                   call_request call = GetMultipleAccounts pubkeys commitment
                   /\ forallb Pubkey_valid pubkeys = true
                   /\ pubkeys ⊆ addresses)
              (successful_calls evs)
    /\ payment_calls evs = []
    /\ (addresses = [] -> evs = [] /\ r = inr [] /\ st' = st).
Proof.
  intros H.
  assert (exists evs,
            steps st st' evs
            /\ Forall (fun call =>
                         exists pubkeys,
                           call_request call = GetMultipleAccounts pubkeys commitment
                           /\ forallb Pubkey_valid pubkeys = true
                           /\ pubkeys ⊆ addresses)
                      (successful_calls evs)
            /\ (addresses = [] -> evs = [] /\ r = inr [] /\ st' = st))
    as (evs & Hst & Hcalls & Hempty).
  { destruct addresses as [|first rest].
    { cbn in H. unfold ret in H. injection H as <- <-.
      exists []. split; [apply steps_refl|]. split; [constructor | auto]. }
    unfold fetch_balances in H. cbv beta iota in H.
    set (addresses := first :: rest) in *.
    rewrite (dedupe_spec addresses [] [] ∅) in H
      by (intros a; split; intros Ha;
          [by apply elem_of_empty in Ha | by apply elem_of_nil in Ha]).
    cbn [app] in H. unfold bind at 1 in H. unfold self at 1 in H.
    bind_case H as chunks st1 Hchunk.
    { apply lift_inv in Hchunk as [_ ->].
      exists []. split; [apply steps_refl|]. split; [constructor | discriminate]. }
    apply lift_inv in Hchunk as [Hchunk ->]. symmetry in Hchunk.
    assert (exists evs,
              steps st st' evs
              /\ Forall (fun call =>
                           exists chunk,
                             chunk ∈ chunks
                             /\ forallb Pubkey_valid chunk = true
                             /\ call_request call = GetMultipleAccounts chunk commitment)
                        (successful_calls evs)) as (evs & Hst & Hcalls).
    { bind_case H as balances st2 Hpages.
      - eapply fetch_pages_outcome, Hpages.
      - unfold ret in H. injection H as <- <-. eapply fetch_pages_outcome, Hpages. }
    exists evs. split; [exact Hst|]. split; [|discriminate].
    eapply Forall_impl; [exact Hcalls|].
    intros call (chunk & Hin & Hv & Hreq). exists chunk.
    split; [exact Hreq|]. split; [exact Hv|].
    intros a Ha. apply (first_occurrences_subset addresses []).
    eapply chunk_elements; eassumption. }
  exists evs. split; [exact Hst|]. split; [exact Hcalls|]. split; [|exact Hempty].
  unfold payment_calls.
  induction Hcalls as [|call calls (pubkeys & Hreq & _) _ IH]; [reflexivity|].
  cbn [List.filter]. rewrite Hreq. exact IH.
Qed.

(** X25. [get_balance_sol] needs the wallet: without one it raises
    [WalletNotLoadedError] and the service is not asked.  With a wallet and
    a pool that is in order, the balance it returns is the lamports that
    the service answered for the public key of the wallet, divided by
    [10^9]; so for a positive answer within 64 bits [_sol_to_lamports] of
    the balance gives the answered lamports back.  The wallet is kept and
    the pool stays in order. *)
Theorem get_balance_sol_reports_answer
    (client_get_balance : Client -> string -> Commitment -> Remote World Z) commitment st :
  pool_ok (manager st) ->
  match wallet (manager st) with
  | None =>
      get_balance_sol client_get_balance commitment st
      = (inl (Raise ClsWalletNotLoadedError MWalletNotLoaded None), st)
  | Some kp =>
      forall balance st',
        get_balance_sol client_get_balance commitment st = (inr balance, st') ->
        exists lamports c calls w,
          client_get_balance c (pubkey kp) commitment w = ((inr lamports, calls), world st')
          /\ balance = lamports_to_sol lamports
          /\ (0 < lamports < 2 ^ 64 -> _sol_to_lamports balance = inr lamports)
          /\ wallet (manager st') = Some kp
          /\ pool_ok (manager st')
  end.
Proof.
  intros Hok.
  destruct (wallet (manager st)) as [kp|] eqn:Hwallet.
  2:{ unfold get_balance_sol, _require_wallet.
      unfold bind at 1. unfold bind at 1. unfold self at 1. rewrite Hwallet. reflexivity. }
  intros balance st' H. unfold get_balance_sol, _require_wallet in H.
  unfold bind at 1 in H. unfold bind at 1 in H. unfold self at 1 in H.
  rewrite Hwallet in H. unfold ret at 1 in H.
  pose proof (perform_round (fun client => client_get_balance client (pubkey kp) commitment)
                st Hok) as Hround. cbv zeta in Hround.
  destruct Hround as (evs & Hsteps & Hok' & _ & Hres).
  unfold bind in H.
  destruct (_perform (fun client => client_get_balance client (pubkey kp) commitment) st)
    as [[e|lamports] st2] eqn:Hperform; [discriminate H|].
  unfold ret in H. injection H as <- <-. cbn [fst snd] in *.
  destruct Hres as (c & w & calls & Hfunc).
  exists lamports, c, calls, w.
  split; [exact Hfunc|]. split; [reflexivity|].
  split.
  { intros Hl. destruct (lamports_to_sol_plain lamports ltac:(lia))
      as (c0 & e0 & -> & Hc0 & He0 & Hv).
    assert (2 ^ 64 < 10 ^ 28) as Hbig by reflexivity.
    rewrite sol_to_lamports_finite by lia.
    unfold whole_lamports.
    assert ((-9 <=? e0) = true) as -> by (apply Z.leb_le; lia).
    rewrite Hv.
    assert ((lamports <=? 0) = false) as -> by (apply Z.leb_gt; lia).
    reflexivity. }
  split; [|exact Hok'].
  destruct Hsteps as (Hset & _). unfold settings in Hset.
  injection Hset as _ _ _ _ _ _ _ _ _ Hw. congruence.
Qed.

End BalancesMore.

(** ** The window: transaction tuning *)

Section TuningMore.
Context {World : Type}.
Implicit Types st : State World.

(** X26. What [_get_transaction_tuning] returns is within the bounds of
    the window: a batch size of at least 1, a compute unit limit of at
    least 25000 and a priority fee that is not negative, each only when its
    field is filled in.  So the batch size that [send_mass_payments] works
    with, when it is called with these values as the window does on a
    manager built by the constructor, is at least 1, and the call is not
    refused for its batch size. *)
Theorem tuning_within_bounds
    max_per_tx_var compute_unit_limit_var priority_fee_var tuning st :
  _get_transaction_tuning max_per_tx_var compute_unit_limit_var priority_fee_var
  = inr tuning ->
  1 <= default_max_recipients_per_tx (manager st) ->
  (forall v, tuning_max_per_tx tuning = Some v -> 1 <= v)
  /\ (forall v, tuning_compute_unit_limit tuning = Some v -> 25000 <= v)
  /\ (forall v, tuning_priority_fee tuning = Some v -> 0 <= v)
  /\ (tuning_max_per_tx tuning = None <-> Text.strip max_per_tx_var = EmptyString)
  /\ (tuning_compute_unit_limit tuning = None
      <-> Text.strip compute_unit_limit_var = EmptyString)
  /\ (tuning_priority_fee tuning = None <-> Text.strip priority_fee_var = EmptyString)
  /\ 1 <= effective_batch_size (tuning_max_per_tx tuning)
            (default_max_recipients_per_tx (manager st)).
Proof.
  unfold _get_transaction_tuning. intros H Hdefault.
  assert ((forall v, tuning_max_per_tx tuning = Some v -> 1 <= v)
          /\ (forall v, tuning_compute_unit_limit tuning = Some v -> 25000 <= v)
          /\ (forall v, tuning_priority_fee tuning = Some v -> 0 <= v)
          /\ (tuning_max_per_tx tuning = None <-> Text.strip max_per_tx_var = EmptyString)
          /\ (tuning_compute_unit_limit tuning = None
              <-> Text.strip compute_unit_limit_var = EmptyString)
          /\ (tuning_priority_fee tuning = None
              <-> Text.strip priority_fee_var = EmptyString))
    as (Hmax & Hlimit & Hfee & Hblank).
  { (case_bool_decide as Hm; [|destruct (int_of_text (Text.strip max_per_tx_var)) as [m|];
                               [|discriminate H];
                               destruct (m <? 1) eqn:Hm'; [discriminate H|]]);
      (case_bool_decide as Hc; [|destruct (int_of_text (Text.strip compute_unit_limit_var))
                                  as [c|]; [|discriminate H];
                                destruct (c <? 25000) eqn:Hc'; [discriminate H|]]);
      (case_bool_decide as Hp; [|destruct (int_of_text (Text.strip priority_fee_var))
                                  as [p|]; [|discriminate H];
                                destruct (p <? 0) eqn:Hp'; [discriminate H|]]);
      injection H as <-; cbn;
      repeat match goal with
             | |- _ /\ _ => split
             | |- _ <-> _ => split; intros ?; try done
             | |- forall v, None = Some v -> _ => discriminate
             | |- forall v, Some _ = Some v -> _ =>
                 let Hv := fresh "Hv" in intros ? Hv; injection Hv as <-
             end;
      try (apply Z.ltb_ge in Hm'; lia);
      try (apply Z.ltb_ge in Hc'; lia);
      try (apply Z.ltb_ge in Hp'; lia). }
  split; [exact Hmax|]. split; [exact Hlimit|]. split; [exact Hfee|].
  split; [exact (proj1 Hblank)|]. split; [exact (proj1 (proj2 Hblank))|].
  split; [exact (proj2 (proj2 Hblank))|].
  unfold effective_batch_size. destruct (tuning_max_per_tx tuning) as [v|]; [|exact Hdefault].
  specialize (Hmax v eq_refl). destruct (v =? 0) eqn:Hv; [exact Hdefault | exact Hmax].
Qed.

End TuningMore.

(** ** Airdrops *)

Section AirdropMore.
Context {World : Type}.
Implicit Types st : State World.

Variable client_request_airdrop : Client -> string -> Z -> Commitment -> Remote World Response.

Lemma request_airdrop_loop_outcomes public_key lamports commitment max_attempts pause_seconds
    (N R : Z) (pool : list string) (backoff : Float) remaining :
  0 <= N * R ->
  forall attempt last_error st r st',
    pool_ok (manager st) ->
    Z.of_nat (length (rpc_endpoints (manager st))) = N ->
    max_retries_per_endpoint (manager st) = R ->
    rpc_endpoints (manager st) = pool ->
    retry_backoff_seconds (manager st) = backoff ->
    0 <= attempt ->
    _request_airdrop_loop client_request_airdrop remaining public_key lamports commitment
      max_attempts pause_seconds attempt last_error st = (r, st') ->
    exists evs,
      steps st st' evs
      /\ pool_ok (manager st')
      /\ Z.of_nat (attempts_made evs) <= Z.of_nat remaining * (N * R)
      /\ match r with
         | inr signature =>
             (0 < remaining)%nat
             /\ exists c w response calls w',
                  client_request_airdrop c public_key lamports commitment w
                  = ((inr response, calls), w')
                  /\ _extract_signature response = inr signature
         | inl (Propagated e) =>
             (0 < remaining)%nat
             /\ (e = Raise ClsRuntimeError MNoSignature None
                 \/ exists number,
                      attempt < number <= attempt + Z.of_nat remaining
                      /\ time_sleep (float_mul_int pause_seconds number) st' = (inl e, st'))
         | inl (AirdropExhausted n last) =>
             n = max_attempts
             /\ (remaining = O -> last = last_error /\ st' = st)
             /\ ((0 < remaining)%nat ->
                 exists round_error,
                   last = Some round_error
                   /\ ((exists cause,
                          round_error
                          = Raise ClsRuntimeError
                              (MRetryExhausted (N * R) pool (Some (exn_message cause)))
                              (Some cause))
                       \/ (exists j st0,
                             1 <= j <= 4
                             /\ time_sleep (float_mul_int backoff j) st0
                                = (inl round_error, st0))))
         | inl ChunkLimitNotPositive => False
         end.
Proof.
  intros HNR.
  induction remaining as [|remaining IH];
    intros attempt last_error st r st' Hok HN HR Hpool Hbackoff Hattempt H;
    cbn [_request_airdrop_loop] in H.
  - injection H as <- <-. exists []. split; [apply steps_refl|]. split; [exact Hok|].
    split; [cbn; lia|]. split; [reflexivity|]. split; [auto | lia].
  - pose proof (perform_round
                  (fun client => client_request_airdrop client public_key lamports commitment)
                  st Hok) as Hround. cbv zeta in Hround.
    destruct Hround as (evs1 & Hst1 & Hok1 & Hcount1 & Hres).
    rewrite HN, HR in Hcount1. rewrite HN, HR, Hpool, Hbackoff in Hres.
    destruct (_perform _ st) as [[exc|response] st1] eqn:Hperform; cbn [fst snd] in *.
    + assert ((exists cause,
                 exc = Raise ClsRuntimeError
                         (MRetryExhausted (N * R) pool (Some (exn_message cause)))
                         (Some cause))
              \/ (exists j st0,
                    1 <= j <= 4
                    /\ time_sleep (float_mul_int backoff j) st0 = (inl exc, st0))) as Hexc.
      { destruct Hres as [Hexhausted|(j & Hj & Hrefused & _)]; [left; exact Hexhausted|].
        right. eauto. }
      pose proof Hst1 as (Hset1 & _).
      assert (rpc_endpoints (manager st1) = rpc_endpoints (manager st)
              /\ max_retries_per_endpoint (manager st1) = max_retries_per_endpoint (manager st)
              /\ retry_backoff_seconds (manager st1) = retry_backoff_seconds (manager st))
        as (Hp1 & HR1 & Hb1).
      { unfold settings in Hset1. injection Hset1 as _ HR1 Hb1 _ _ _ _ Hp1 _ _. by repeat split. }
      destruct (time_sleep (float_mul_int pause_seconds (attempt + 1)) st1)
        as [[refusal|[]] st2] eqn:Hsleep.
      * injection H as <- <-.
        pose proof (time_sleep_refused _ _ _ _ Hsleep) as [-> _].
        exists evs1. split; [exact Hst1|]. split; [exact Hok1|].
        split; [nia|]. split; [lia|]. right. exists (attempt + 1). split; [lia | exact Hsleep].
      * pose proof (time_sleep_steps _ _ _ _ Hsleep) as [[_ Hst2]|(e & He & _)];
          [|discriminate He].
        assert (manager st2 = manager st1) as Hm2
          by (apply time_sleep_returns in Hsleep as [_ ->]; reflexivity).
        apply IH in H; [|rewrite Hm2; exact Hok1 | rewrite Hm2; congruence
                        | rewrite Hm2; congruence | rewrite Hm2; congruence
                        | rewrite Hm2; congruence | lia].
        destruct H as (evs2 & Hst3 & Hok3 & Hcount3 & Hr).
        exists (evs1 ++ [EvSleep (seconds_of (float_mul_int pause_seconds (attempt + 1)))]
                ++ evs2).
        split; [eapply steps_trans; [exact Hst1|]; eapply steps_trans; eassumption|].
        split; [exact Hok3|].
        split.
        { rewrite !attempts_made_app. cbn [attempts_made]. lia. }
        destruct r as [[e|n last|]|signature].
        -- destruct Hr as [_ [-> | (number & Hnumber & Hrefused)]];
             (split; [lia|]); [left; reflexivity|].
           right. exists number. split; [lia | exact Hrefused].
        -- destruct Hr as (-> & Hzero & Hmore). split; [reflexivity|].
           split; [discriminate|]. intros _.
           destruct remaining as [|remaining'].
           ++ destruct (Hzero eq_refl) as [-> _]. eauto.
           ++ apply Hmore. lia.
        -- exact Hr.
        -- destruct Hr as [_ Hr]. split; [lia | exact Hr].
    + destruct Hres as (c & w & calls & Hfunc).
      exists evs1. split.
      { destruct (_extract_signature response); injection H as <- <-; exact Hst1. }
      split.
      { destruct (_extract_signature response); injection H as <- <-; exact Hok1. }
      split; [lia|].
      destruct (_extract_signature response) as [e|signature] eqn:Hsig; injection H as <- <-.
      * split; [lia|]. left.
        destruct response; try discriminate Hsig; by injection Hsig as <-.
      * split; [lia|]. eauto 10.
Qed.

(** X27. [_request_airdrop_lamports] on a pool that is in order: it goes
    through [_perform] at most [max_attempts] times, so that the service is
    tried at most [max_attempts * N * R] times; it returns the signature in
    the first answer that it gets; an answer without a signature is not
    retried but ends the call with the [RuntimeError] of
    [_extract_signature]; the only other exception that passes through is
    one that [time.sleep] raises for the pause after a failed round, which
    does not happen when the longest pause, [pause_seconds * max_attempts],
    is a length that is taken; and when every round fails it raises its own
    [RuntimeError], which names [max_attempts] and carries the error of the
    last round: the exhausted pool, or what [time.sleep] raised for a backoff
    of the pool.  With a [max_attempts] below one nothing is asked at all. *)
Theorem request_airdrop_lamports_outcomes
    public_key lamports commitment max_attempts pause_seconds st r st' :
  pool_ok (manager st) ->
  _request_airdrop_lamports client_request_airdrop public_key lamports commitment
    max_attempts pause_seconds st = (r, st') ->
  let N := Z.of_nat (length (rpc_endpoints (manager st))) in
  let R := max_retries_per_endpoint (manager st) in
  exists evs,
    steps st st' evs
    /\ pool_ok (manager st')
    /\ Z.of_nat (attempts_made evs) <= Z.max 0 max_attempts * (N * R)
    /\ match r with
       | inr signature =>
           0 < max_attempts
           /\ exists c w response calls w',
                client_request_airdrop c public_key lamports commitment w
                = ((inr response, calls), w')
                /\ _extract_signature response = inr signature
       | inl (Propagated e) =>
           0 < max_attempts
           /\ (e = Raise ClsRuntimeError MNoSignature None
               \/ (exists number,
                     1 <= number <= max_attempts
                     /\ time_sleep (float_mul_int pause_seconds number) st' = (inl e, st')
                     /\ ~ sleep_taken (float_mul_int pause_seconds max_attempts)))
       | inl (AirdropExhausted n last) =>
           n = max_attempts
           /\ (max_attempts <= 0 -> last = None /\ st' = st)
           /\ (0 < max_attempts ->
               exists round_error,
                 last = Some round_error
                 /\ ((exists cause,
                        round_error
                        = Raise ClsRuntimeError
                            (MRetryExhausted (N * R) (rpc_endpoints (manager st))
                               (Some (exn_message cause)))
                            (Some cause))
                     \/ (exists j st0,
                           1 <= j <= 4
                           /\ time_sleep (float_mul_int (retry_backoff_seconds (manager st)) j)
                                st0
                              = (inl round_error, st0))))
       | inl ChunkLimitNotPositive => False
       end.
Proof.
  intros Hok H N R. pose proof Hok as [Hne HR _ _ _ _].
  assert (1 <= N) as HN
    by (subst N; destruct (rpc_endpoints (manager st)); [done | simpl; lia]).
  assert (1 <= R) as HR' by exact HR.
  unfold _request_airdrop_lamports in H.
  apply (request_airdrop_loop_outcomes _ _ _ _ _ N R (rpc_endpoints (manager st))
           (retry_backoff_seconds (manager st)))
    in H; try done; try nia.
  destruct H as (evs & Hst & Hok' & Hcount & Hr).
  exists evs. split; [exact Hst|]. split; [exact Hok'|].
  split; [replace (Z.max 0 max_attempts) with (Z.of_nat (Z.to_nat max_attempts)) by lia;
          exact Hcount|].
  destruct r as [[e|n last|]|signature].
  - destruct Hr as [Hpos [-> | (number & Hnumber & Hrefused)]];
      (split; [lia|]); [left; reflexivity|].
    right. exists number. split; [lia|]. split; [exact Hrefused|].
    intros Hlongest.
    destruct (scaled_sleep_taken pause_seconds number max_attempts Hlongest ltac:(lia))
      as [Htaken _].
    apply time_sleep_refused in Hrefused as [_ Hnot]. exact (Hnot Htaken).
  - destruct Hr as (-> & Hzero & Hmore). split; [reflexivity|].
    split; [intros Hle; apply Hzero; lia | intros Hpos; apply Hmore; lia].
  - exact Hr.
  - destruct Hr as [Hpos Hr]. split; [lia | exact Hr].
Qed.

End AirdropMore.

(** ** [request_airdrop] *)

Section PlainAmounts.

Lemma plain_amount_bounds d l :
  plain_amount d l ->
  exists c e, d = DFinite false c e /\ -9 <= e <= 18 /\ l = c * 10 ^ (e + 9)
              /\ 0 < c < 10 ^ 28 /\ 0 < l < 10 ^ 28.
Proof.
  intros (c & e & -> & He & Hl & Hrange). exists c, e.
  assert (0 < 10 ^ (e + 9)) as Hp by (apply Z.pow_pos_nonneg; lia).
  assert (0 < c) as Hc by nia.
  assert (e + 9 < 28) as He'.
  { apply (Z.pow_lt_mono_r_iff 10); [lia | lia |]. nia. }
  repeat split; try lia; nia.
Qed.

Lemma decimal_gt_zero_plain d l : plain_amount d l -> decimal_gt_zero d = inr true.
Proof.
  intros H. apply plain_amount_bounds in H as (c & e & -> & _ & _ & Hc & _).
  unfold decimal_gt_zero, decimal_le_zero.
  assert ((c =? 0) = false) as -> by (apply Z.eqb_neq; lia). reflexivity.
Qed.

Lemma decimal_le_zero_plain d l : plain_amount d l -> decimal_le_zero d = inr false.
Proof.
  intros H. apply plain_amount_bounds in H as (c & e & -> & _ & _ & Hc & _).
  unfold decimal_le_zero.
  assert ((c =? 0) = false) as -> by (apply Z.eqb_neq; lia). reflexivity.
Qed.

(** Two plain amounts brought to their common exponent. *)
Lemma plain_aligned c1 e1 c2 e2 :
  -9 <= e1 -> -9 <= e2 ->
  let exp := Z.min e1 e2 in
  0 < 10 ^ (exp + 9)
  /\ c1 * 10 ^ (e1 + 9) = c1 * 10 ^ (e1 - exp) * 10 ^ (exp + 9)
  /\ c2 * 10 ^ (e2 + 9) = c2 * 10 ^ (e2 - exp) * 10 ^ (exp + 9).
Proof.
  intros He1 He2 exp.
  split; [apply Z.pow_pos_nonneg; lia|].
  split; rewrite <- Z.mul_assoc, <- Z.pow_add_r by lia; do 2 f_equal; lia.
Qed.

Lemma decimal_le_plain d1 l1 d2 l2 :
  plain_amount d1 l1 -> plain_amount d2 l2 -> decimal_le d1 d2 = inr (l1 <=? l2).
Proof.
  intros H1 H2.
  apply plain_amount_bounds in H1 as (c1 & e1 & -> & He1 & -> & _).
  apply plain_amount_bounds in H2 as (c2 & e2 & -> & He2 & -> & _).
  unfold decimal_le, signed.
  destruct (plain_aligned c1 e1 c2 e2 ltac:(lia) ltac:(lia)) as (Hp & -> & ->).
  f_equal.
  destruct (c1 * 10 ^ (e1 - Z.min e1 e2) <=? c2 * 10 ^ (e2 - Z.min e1 e2)) eqn:Hle;
    symmetry; [apply Z.leb_le; apply Z.leb_le in Hle | apply Z.leb_gt; apply Z.leb_gt in Hle];
    nia.
Qed.

Lemma sol_to_lamports_plain d l : plain_amount d l -> _sol_to_lamports d = inr l.
Proof.
  intros H. apply plain_amount_bounds in H as (c & e & -> & He & -> & Hc & Hl).
  rewrite sol_to_lamports_finite by lia.
  unfold whole_lamports.
  assert ((-9 <=? e) = true) as -> by (apply Z.leb_le; lia).
  assert ((c * 10 ^ (e + 9) <=? 0) = false) as -> by (apply Z.leb_gt; lia).
  reflexivity.
Qed.

(** A result within the precision and the normal range is left alone. *)
Lemma decimal_fix_plain v exp :
  0 < v < 10 ^ 28 -> -9 <= exp <= 18 -> decimal_fix false v exp = inr (DFinite false v exp).
Proof.
  intros Hv Hexp. unfold decimal_fix.
  assert ((v =? 0) = false) as -> by (apply Z.eqb_neq; lia).
  pose proof (ndigits_le v 28 ltac:(lia) ltac:(lia)) as Hn.
  pose proof (ndigits_ge_1 v) as Hn1.
  unfold Etop, Etiny, context_Emax, context_Emin, context_prec.
  assert ((999999 - 28 + 1 <? ndigits v + exp - 28) = false) as -> by (apply Z.ltb_ge; lia).
  assert ((exp <? Z.max (ndigits v + exp - 28) (-999999 - 28 + 1)) = false) as ->
    by (apply Z.ltb_ge; lia).
  reflexivity.
Qed.

Lemma decimal_sub_plain d1 l1 d2 l2 :
  plain_amount d1 l1 -> plain_amount d2 l2 -> l2 < l1 ->
  exists d3, decimal_sub d1 d2 = inr d3 /\ plain_amount d3 (l1 - l2).
Proof.
  intros H1 H2 Hlt.
  apply plain_amount_bounds in H1 as (c1 & e1 & -> & He1 & -> & Hc1 & Hl1).
  apply plain_amount_bounds in H2 as (c2 & e2 & -> & He2 & -> & Hc2 & Hl2).
  unfold decimal_sub, decimal_negate, decimal_add, signed. cbn [negb].
  assert ((c1 =? 0) = false) as -> by (apply Z.eqb_neq; lia).
  assert ((c2 =? 0) = false) as -> by (apply Z.eqb_neq; lia).
  cbn [andb].
  destruct (plain_aligned c1 e1 c2 e2 ltac:(lia) ltac:(lia)) as (Hp & Ha & Hb).
  set (exp := Z.min e1 e2) in *. set (A := c1 * 10 ^ (e1 - exp)) in *.
  set (B := c2 * 10 ^ (e2 - exp)) in *.
  replace (A + - c2 * 10 ^ (e2 - exp)) with (A - B) by (subst B; lia).
  assert (0 < A - B) as Hv by nia.
  assert ((A - B =? 0) = false) as -> by (apply Z.eqb_neq; lia).
  assert ((A - B <? 0) = false) as -> by (apply Z.ltb_ge; lia).
  rewrite Z.abs_eq by lia.
  assert ((A - B) * 10 ^ (exp + 9) = c1 * 10 ^ (e1 + 9) - c2 * 10 ^ (e2 + 9)) as Hval
    by (rewrite Ha, Hb; lia).
  assert (A - B < 10 ^ 28) as Hsmall by nia.
  rewrite decimal_fix_plain by (subst exp; lia).
  eexists. split; [reflexivity|].
  exists (A - B), exp. split; [reflexivity|]. split; [subst exp; lia|].
  split; [symmetry; exact Hval | lia].
Qed.

Lemma decimal_sub_self d l :
  plain_amount d l ->
  exists d0, decimal_sub d d = inr d0 /\ decimal_gt_zero d0 = inr false.
Proof.
  intros H. apply plain_amount_bounds in H as (c & e & -> & He & _ & Hc & _).
  unfold decimal_sub, decimal_negate, decimal_add, signed. cbn [negb].
  assert ((c =? 0) = false) as -> by (apply Z.eqb_neq; lia). cbn [andb].
  rewrite Z.min_id, Z.sub_diag, Z.pow_0_r.
  assert ((c * 1 + - c * 1 =? 0) = true) as -> by (apply Z.eqb_eq; lia).
  unfold decimal_fix. cbn [Z.eqb]. eexists. split; reflexivity.
Qed.

Lemma airdrop_amounts_last total limit :
  0 < total <= limit -> airdrop_amounts total limit = [total].
Proof.
  intros H. unfold airdrop_amounts. rewrite Z.div_small by lia.
  change (Z.to_nat 0) with 0%nat. cbn [replicate app]. f_equal. lia.
Qed.

Lemma airdrop_amounts_next total limit :
  0 < limit < total ->
  airdrop_amounts total limit = limit :: airdrop_amounts (total - limit) limit.
Proof.
  intros H. unfold airdrop_amounts.
  assert ((total - 1) / limit = (total - limit - 1) / limit + 1) as ->.
  { replace (total - 1) with (total - limit - 1 + 1 * limit) by lia.
    apply Z.div_add. lia. }
  assert (0 <= (total - limit - 1) / limit) by (apply Z.div_pos; lia).
  rewrite Z2Nat.inj_add by lia. rewrite Nat.add_comm.
  change (Z.to_nat 1) with 1%nat. cbn [Nat.add replicate app].
  set (q := (total - limit - 1) / limit).
  replace (total - (q + 1) * limit) with (total - limit - q * limit) by lia.
  reflexivity.
Qed.

Lemma airdrop_amounts_cons total limit :
  exists x rest, airdrop_amounts total limit = x :: rest.
Proof.
  unfold airdrop_amounts. destruct (replicate _ limit) as [|x rest]; cbn; eauto.
Qed.

(** The parts are as many as the amount needs, none is empty or above the
    limit, and together they are the amount. *)
Lemma airdrop_amounts_spec total limit :
  0 < total -> 0 < limit ->
  Z.of_nat (length (airdrop_amounts total limit)) = (total + limit - 1) / limit
  /\ Forall (fun x => 1 <= x <= limit) (airdrop_amounts total limit)
  /\ foldr Z.add 0 (airdrop_amounts total limit) = total.
Proof.
  intros Ht Hl. unfold airdrop_amounts.
  pose proof (Z.div_mod (total - 1) limit ltac:(lia)) as Hdm.
  pose proof (Z.mod_pos_bound (total - 1) limit ltac:(lia)) as Hmod.
  assert (0 <= (total - 1) / limit) as Hq by (apply Z.div_pos; lia).
  set (q := (total - 1) / limit) in *.
  split.
  { rewrite length_app, length_replicate. cbn [length].
    replace (total + limit - 1) with (total - 1 + 1 * limit) by lia.
    rewrite Z.div_add by lia. fold q. lia. }
  split.
  { apply Forall_app. split; [apply Forall_replicate; lia|].
    constructor; [nia | constructor]. }
  rewrite foldr_app. cbn [foldr].
  assert (forall n acc, foldr Z.add acc (replicate n limit) = Z.of_nat n * limit + acc) as Hsum.
  { induction n as [|n IH]; intros acc; cbn [replicate foldr]; [lia|]. rewrite IH. lia. }
  rewrite Hsum. lia.
Qed.

End PlainAmounts.

Section RequestAirdropMore.
Context {World : Type}.
Variable rpc : Client -> Request -> World -> (Exception + Response) * World.
Variable Signature_valid : string -> bool.
Variable client_request_airdrop : Client -> string -> Z -> Commitment -> Remote World Response.
Implicit Types st : State World.

Lemma request_airdrop_loop_done fuel wallet commitment chunk_limit max_attempts pause_seconds
    remaining signatures st :
  decimal_gt_zero remaining = inr false ->
  request_airdrop_loop rpc Signature_valid client_request_airdrop fuel wallet commitment
    chunk_limit max_attempts pause_seconds remaining signatures st
  = Some (inr signatures, st).
Proof. intros H. destruct fuel; cbn [request_airdrop_loop]; rewrite H; reflexivity. Qed.

Lemma request_airdrop_loop_plain wallet commitment chunk_limit l max_attempts pause_seconds :
  plain_amount chunk_limit l ->
  forall fuel remaining r signatures st,
    plain_amount remaining r ->
    (Z.to_nat ((r - 1) / l) < fuel)%nat ->
    request_airdrop_loop rpc Signature_valid client_request_airdrop fuel wallet commitment
      chunk_limit max_attempts pause_seconds remaining signatures st
    = Some (airdrop_rounds rpc Signature_valid client_request_airdrop wallet commitment
              max_attempts pause_seconds (airdrop_amounts r l) signatures st).
Proof.
  intros Hlimit. pose proof (plain_amount_bounds _ _ Hlimit) as (_ & _ & _ & _ & _ & _ & Hl).
  induction fuel as [|fuel IH]; intros remaining r signatures st Hrem Hfuel; [lia|].
  pose proof (plain_amount_bounds _ _ Hrem) as (_ & _ & _ & _ & _ & _ & Hr).
  cbn [request_airdrop_loop].
  rewrite (decimal_gt_zero_plain _ _ Hrem), (decimal_le_plain _ _ _ _ Hrem Hlimit).
  destruct (r <=? l) eqn:Hle.
  - apply Z.leb_le in Hle.
    rewrite (sol_to_lamports_plain _ _ Hrem), airdrop_amounts_last by lia.
    cbn [airdrop_rounds].
    destruct (_request_airdrop_lamports _ _ _ _ _ _ st) as [[e|signature] st1]; [reflexivity|].
    destruct (_await_confirmation _ _ _ _ _ st1) as [[e|[]] st2]; [reflexivity|].
    destruct (decimal_sub_self _ _ Hrem) as (d0 & -> & Hzero).
    rewrite Hzero. apply request_airdrop_loop_done, Hzero.
  - apply Z.leb_gt in Hle.
    rewrite (sol_to_lamports_plain _ _ Hlimit), airdrop_amounts_next by lia.
    cbn [airdrop_rounds].
    destruct (_request_airdrop_lamports _ _ _ _ _ _ st) as [[e|signature] st1]; [reflexivity|].
    destruct (_await_confirmation _ _ _ _ _ st1) as [[e|[]] st2]; [reflexivity|].
    destruct (decimal_sub_plain _ _ _ _ Hrem Hlimit Hle) as (d3 & -> & Hd3).
    rewrite (decimal_gt_zero_plain _ _ Hd3).
    assert (Z.to_nat ((r - l - 1) / l) < fuel)%nat as Hfuel'.
    { assert ((r - 1) / l = (r - l - 1) / l + 1) as Hdiv.
      { replace (r - 1) with (r - l - 1 + 1 * l) by lia. apply Z.div_add. lia. }
      assert (0 <= (r - l - 1) / l) by (apply Z.div_pos; lia). lia. }
    destruct (airdrop_amounts_cons (r - l) l) as (x & rest & Hcons).
    destruct (time_sleep pause_seconds st2) as [[e|[]] st3]; rewrite Hcons; [reflexivity|].
    rewrite <- Hcons. apply IH; assumption.
Qed.

(** X28. The amount is requested exactly, in parts.  For an amount of
    [a] whole lamports and a limit of [l] whole lamports per request,
    both positive and below [10^28], [request_airdrop] with a wallet does
    what one request, one confirmation and one pause do for each of the
    parts in turn: [l] lamports as often as that leaves something, then the
    rest; there are [ceil(a / l)] parts, none above the limit, and they add
    up to [a]; there is no pause after the last part.  The loop ends within
    that many iterations, whatever the service does. *)
Theorem request_airdrop_in_parts
    fuel amount_sol a max_per_request_sol l commitment max_attempts pause_seconds st wallet' :
  plain_amount amount_sol a ->
  plain_amount max_per_request_sol l ->
  wallet (manager st) = Some wallet' ->
  (Z.to_nat ((a - 1) / l) < fuel)%nat ->
  request_airdrop rpc Signature_valid client_request_airdrop fuel amount_sol commitment
    max_per_request_sol max_attempts pause_seconds st
  = Some (airdrop_rounds rpc Signature_valid client_request_airdrop wallet' commitment
            max_attempts pause_seconds (airdrop_amounts a l) [] st)
  /\ Z.of_nat (length (airdrop_amounts a l)) = (a + l - 1) / l
  /\ Forall (fun x => 1 <= x <= l) (airdrop_amounts a l)
  /\ foldr Z.add 0 (airdrop_amounts a l) = a.
Proof.
  intros Hamount Hlimit Hwallet Hfuel.
  pose proof (plain_amount_bounds _ _ Hamount) as (_ & _ & _ & _ & _ & _ & Ha).
  pose proof (plain_amount_bounds _ _ Hlimit) as (_ & _ & _ & _ & _ & _ & Hl).
  split; [|apply airdrop_amounts_spec; lia].
  unfold request_airdrop, _require_wallet. run. rewrite Hwallet.
  rewrite (decimal_le_zero_plain _ _ Hamount), (decimal_le_zero_plain _ _ Hlimit).
  apply (request_airdrop_loop_plain _ _ _ l); assumption.
Qed.

(** X29. [request_airdrop] checks before it asks: without a wallet it
    raises [WalletNotLoadedError]; with one, an amount that is not positive
    raises the [ValueError] of the amount, and after that a limit per
    request that is not positive raises the [ValueError] of the limit.  In
    each case nothing is requested and the state is left as it was. *)
Theorem request_airdrop_refuses
    fuel amount_sol commitment max_per_request_sol max_attempts pause_seconds st :
  wallet (manager st) = None
  \/ decimal_le_zero amount_sol = inr true
  \/ (decimal_le_zero amount_sol = inr false
      /\ decimal_le_zero max_per_request_sol = inr true) ->
  request_airdrop rpc Signature_valid client_request_airdrop fuel amount_sol commitment
    max_per_request_sol max_attempts pause_seconds st
  = Some (inl (match wallet (manager st) with
               | None => Propagated (Raise ClsWalletNotLoadedError MWalletNotLoaded None)
               | Some _ =>
                   match decimal_le_zero amount_sol with
                   | inr false => ChunkLimitNotPositive
                   | _ => Propagated (Raise ClsValueError MAmountNotPositive None)
                   end
               end), st).
Proof.
  intros Hcase. unfold request_airdrop, _require_wallet. run.
  destruct (wallet (manager st)) as [wallet'|]; [|reflexivity].
  destruct Hcase as [Hnone|[Hamount|[Hamount Hlimit]]]; [discriminate Hnone| |].
  - rewrite Hamount. reflexivity.
  - rewrite Hamount, Hlimit. reflexivity.
Qed.

(** With an infinite amount left the loop cannot return: what it
    subtracts leaves the amount infinite. *)
Lemma request_airdrop_loop_infinite wallet commitment chunk_limit max_attempts pause_seconds :
  forall fuel signatures st result st',
    request_airdrop_loop rpc Signature_valid client_request_airdrop fuel wallet commitment
      chunk_limit max_attempts pause_seconds (DInfinity false) signatures st
    = Some (result, st') ->
    exists e, result = inl e.
Proof.
  induction fuel as [|fuel IH]; intros signatures st result st'; cbn [request_airdrop_loop];
    change (decimal_gt_zero (DInfinity false)) with (@inr Exception bool true);
    cbv iota; [discriminate|].
  destruct chunk_limit as [negative c e| [|] |]; cbn [decimal_le orb negb].
  - destruct (_sol_to_lamports (DFinite negative c e)) as [exc|lamports];
      [intros [= <- <-]; eauto|].
    destruct (_request_airdrop_lamports _ _ _ _ _ _ st) as [[exc|signature] st1];
      [intros [= <- <-]; eauto|].
    destruct (_await_confirmation _ _ _ _ _ st1) as [[exc|[]] st2];
      [intros [= <- <-]; eauto|].
    change (decimal_sub (DInfinity false) (DFinite negative c e))
      with (@inr Exception Decimal (DInfinity false)).
    change (decimal_gt_zero (DInfinity false)) with (@inr Exception bool true). cbv iota.
    destruct (time_sleep pause_seconds st2) as [[exc|[]] st3];
      [intros [= <- <-]; eauto|].
    apply IH.
  - intros [= <- <-]; eauto.
  - intros [= <- <-]; eauto.
  - intros [= <- <-]; eauto.
Qed.

(** A callable that returns on the current client goes through at the
    first attempt. *)
Lemma perform_first_attempt_any {T} (func : Client -> Remote World T) st v calls w' :
  pool_ok (manager st) ->
  func (client (manager st)) (world st) = ((inr v, calls), w') ->
  _perform func st
  = (inr v,
     {| manager := manager st; world := w'; clock := clock st;
        trace := trace st ++ [EvAttempt (client (manager st)) calls None] |}).
Proof.
  intros [Hne HR Hb Hi He Hc] Hfunc. unfold _perform. run.
  destruct (Z.to_nat (Z.of_nat (length (rpc_endpoints (manager st)))
                      * max_retries_per_endpoint (manager st))) as [|remaining] eqn:Hrem.
  { exfalso. destruct (rpc_endpoints (manager st)) as [|x l]; [done|].
    cbn [length] in Hrem. nia. }
  cbn [_perform_loop]. run. unfold invoke. run. rewrite Hfunc. reflexivity.
Qed.

(** A faucet that grants every request with [signature], and a service
    that reports [signature] with a status that ends the wait. *)
Section AlwaysGranted.
Variable signature : string.
Variable status : TxStatus.
Hypothesis signature_valid : Signature_valid signature = true.
Hypothesis status_no_error : err status = None.
Hypothesis status_accepted : poll_succeeds status = true.
Hypothesis always_granted :
  forall c public_key lamports commitment w, exists calls w',
    client_request_airdrop c public_key lamports commitment w
    = ((inr (SignatureResp signature), calls), w').
Hypothesis always_confirmed :
  forall c w, exists more w',
    rpc c (GetSignatureStatuses [signature]) w = (inr (StatusesResp (Some status :: more)), w').

Lemma request_airdrop_lamports_granted public_key lamports commitment max_attempts
    pause_seconds st :
  pool_ok (manager st) -> 0 < max_attempts ->
  exists st1,
    _request_airdrop_lamports client_request_airdrop public_key lamports commitment
      max_attempts pause_seconds st = (inr signature, st1)
    /\ manager st1 = manager st.
Proof.
  intros Hok Hpos. unfold _request_airdrop_lamports.
  destruct (Z.to_nat max_attempts) as [|remaining] eqn:Hrem; [lia|].
  cbn [_request_airdrop_loop].
  destruct (always_granted (client (manager st)) public_key lamports commitment (world st))
    as (calls & w' & Hcall).
  rewrite (perform_first_attempt_any _ st _ calls w' Hok Hcall). cbn [_extract_signature].
  eexists. split; reflexivity.
Qed.

Lemma await_confirmation_granted commitment st :
  pool_ok (manager st) ->
  exists st2,
    _await_confirmation rpc Signature_valid signature default_timeout_seconds commitment st
    = (inr tt, st2)
    /\ manager st2 = manager st.
Proof.
  intros Hok. unfold _await_confirmation. unfold bind at 1. unfold time_time.
  rewrite signature_valid. cbn [negb].
  destruct (await_fuel default_timeout_seconds) as [|fuel] eqn:Hfuel;
    [vm_compute in Hfuel; discriminate Hfuel|].
  cbn [_await_loop]. unfold bind at 1. unfold time_time. cbn [clock].
  destruct (Qlt_le_dec (clock st) (clock st + default_timeout_seconds)) as [_|Hle].
  2:{ exfalso. unfold default_timeout_seconds in Hle. lra. }
  destruct (always_confirmed (client (manager st)) (world st)) as (more & w' & Hcall).
  unfold bind at 1. rewrite (perform_first_attempt _ _ _ _ w' Hok Hcall).
  unfold bind at 1. cbn [extract_statuses lift ret]. rewrite status_no_error.
  rewrite poll_succeeds_cases in status_accepted.
  destruct (match confirmation_status status with
            | Some level => named_level_accepted level
            | None => false
            end).
  - eexists. split; reflexivity.
  - rewrite status_accepted. eexists. split; reflexivity.
Qed.

Lemma request_airdrop_loop_never_ends wallet commitment chunk_limit l max_attempts
    pause_seconds :
  plain_amount chunk_limit l -> 0 < max_attempts -> sleep_taken pause_seconds ->
  forall fuel signatures st,
    pool_ok (manager st) ->
    request_airdrop_loop rpc Signature_valid client_request_airdrop fuel wallet commitment
      chunk_limit max_attempts pause_seconds (DInfinity false) signatures st
    = None.
Proof.
  intros Hlimit Hpos Hpause.
  pose proof (plain_amount_bounds _ _ Hlimit) as (c & e & Hc & _).
  induction fuel as [|fuel IH]; intros signatures st Hok; cbn [request_airdrop_loop];
    change (decimal_gt_zero (DInfinity false)) with (@inr Exception bool true);
    cbv iota; [reflexivity|].
  rewrite Hc. cbn [decimal_le]. rewrite <- Hc.
  rewrite (sol_to_lamports_plain _ _ Hlimit).
  destruct (request_airdrop_lamports_granted (pubkey wallet) l commitment max_attempts
              pause_seconds st Hok Hpos) as (st1 & -> & Hm1).
  destruct (await_confirmation_granted commitment st1) as (st2 & -> & Hm2);
    [rewrite Hm1; exact Hok|].
  rewrite Hc.
  change (decimal_sub (DInfinity false) (DFinite false c e))
    with (@inr Exception Decimal (DInfinity false)).
  change (decimal_gt_zero (DInfinity false)) with (@inr Exception bool true). cbv iota.
  rewrite (sleep_taken_runs _ _ Hpause).
  rewrite <- Hc. apply IH. unfold log. cbn [manager]. rewrite Hm2, Hm1. exact Hok.
Qed.

End AlwaysGranted.

(** X30. An infinite amount is never served.  [request_airdrop] with
    [Decimal("Infinity")] as the amount returns no list of signatures,
    whatever the limit per request, the pause and whatever the service
    does: it raises, or it goes on.  And it does go on for ever when nothing
    stops it: with a wallet, a pool that is in order, a limit of [l] whole
    lamports, at least one attempt per request, a pause that [time.sleep]
    takes, a faucet that grants every request and a service that reports
    the signature as confirmed, no number of iterations ends the loop. *)
Theorem request_airdrop_infinite_amount
    commitment max_per_request_sol max_attempts pause_seconds st :
  (forall fuel result st',
     request_airdrop rpc Signature_valid client_request_airdrop fuel (DInfinity false)
       commitment max_per_request_sol max_attempts pause_seconds st
     = Some (result, st') ->
     exists e, result = inl e)
  /\ (forall wallet' l signature status,
        wallet (manager st) = Some wallet' ->
        pool_ok (manager st) ->
        plain_amount max_per_request_sol l ->
        0 < max_attempts ->
        sleep_taken pause_seconds ->
        Signature_valid signature = true ->
        err status = None ->
        poll_succeeds status = true ->
        (forall c public_key lamports cm w, exists calls w',
           client_request_airdrop c public_key lamports cm w
           = ((inr (SignatureResp signature), calls), w')) ->
        (forall c w, exists more w',
           rpc c (GetSignatureStatuses [signature]) w
           = (inr (StatusesResp (Some status :: more)), w')) ->
        forall fuel,
          request_airdrop rpc Signature_valid client_request_airdrop fuel (DInfinity false)
            commitment max_per_request_sol max_attempts pause_seconds st
          = None).
Proof.
  split.
  - intros fuel result st'. unfold request_airdrop, _require_wallet. run.
    destruct (wallet (manager st)) as [wallet'|]; [|intros [= <- <-]; eauto].
    cbn [decimal_le_zero].
    destruct (decimal_le_zero max_per_request_sol) as [e|[|]];
      [intros [= <- <-]; eauto | intros [= <- <-]; eauto |].
    apply request_airdrop_loop_infinite.
  - intros wallet' l signature status Hwallet Hok Hlimit Hpos Hpause Hvalid Herr Hacc
      Hgrant Hconf fuel.
    unfold request_airdrop, _require_wallet. run. rewrite Hwallet.
    cbn [decimal_le_zero]. rewrite (decimal_le_zero_plain _ _ Hlimit).
    apply (request_airdrop_loop_never_ends signature status Hvalid Herr Hacc Hgrant Hconf
             _ _ _ l); assumption.
Qed.

End RequestAirdropMore.

(** * The theorems at concrete inputs *)

Lemma two_endpoint_state_refusing_ok : pool_ok (manager two_endpoint_state_refusing).
Proof.
  split; vm_compute; (reflexivity || discriminate || (split; (reflexivity || discriminate))).
Defined.

Lemma set_rpc_pool_stores_retries_before_refusing_backoff_witness :
  clean_endpoints ["https://a.example"] [] ∅ <> []
  /\ 1 <= 5
  /\ float_lt_zero (FFinite (-1)) = true
  /\ set_rpc_pool ["https://a.example"] (Some 5) (Some (FFinite (-1))) None
       two_endpoint_state_refusing
     = (inl (Raise ClsValueError MBackoffNegative None),
        {| manager := set_max_retries_per_endpoint 5 (manager two_endpoint_state_refusing);
           world := world two_endpoint_state_refusing;
           clock := clock two_endpoint_state_refusing;
           trace := trace two_endpoint_state_refusing |})
  /\ max_retries_per_endpoint (manager two_endpoint_state_refusing) = 2
  /\ max_retries_per_endpoint
       (manager (snd (set_rpc_pool ["https://a.example"] (Some 5) (Some (FFinite (-1))) None
                        two_endpoint_state_refusing))) = 5.
Proof.
  assert (clean_endpoints ["https://a.example"] [] ∅ <> []) as H1 by (vm_compute; discriminate).
  assert (1 <= 5) as H2 by lia.
  assert (float_lt_zero (FFinite (-1)) = true) as H3 by reflexivity.
  pose proof (set_rpc_pool_stores_retries_before_refusing_backoff
                two_endpoint_state_refusing ["https://a.example"] 5 (FFinite (-1)) None
                H1 H2 H3) as Hrun.
  split; [exact H1|]. split; [exact H2|]. split; [exact H3|]. split; [exact Hrun|].
  split; [reflexivity|]. rewrite Hrun. reflexivity.
Defined.

Lemma refusing_always_fails :
  forall (c : Client) (w : unit),
    exists e calls w',
      client_call refusing c (GetLatestBlockhash Confirmed) w = ((inl e, calls), w').
Proof. intros c w. eexists _, _, _. reflexivity. Defined.

Lemma perform_exhausts_pool_witness :
  pool_ok (manager two_endpoint_state_refusing)
  /\ sleep_taken (float_mul_int (retry_backoff_seconds (manager two_endpoint_state_refusing))
                    (Z.min (2 * 2) 4))
  /\ exists attempts calls e st',
       _perform (fun c => client_call refusing c (GetLatestBlockhash Confirmed))
         two_endpoint_state_refusing
       = (inl (Raise ClsRuntimeError
                 (MRetryExhausted (2 * 2) ["https://a.example"; "https://b.example"]
                    (Some (exn_message e)))
                 (Some e)), st')
       /\ Z.of_nat (length attempts) = 2 * 2
       /\ last attempts = Some (calls, e)
       /\ trace st' = trace two_endpoint_state_refusing
                      ++ exhausting_trace (manager two_endpoint_state_refusing) 0 attempts
       /\ manager st' = manager two_endpoint_state_refusing.
Proof.
  assert (sleep_taken (float_mul_int
                         (retry_backoff_seconds (manager two_endpoint_state_refusing))
                         (Z.min (2 * 2) 4))) as Hsleep
    by (split; vm_compute; discriminate).
  split; [exact two_endpoint_state_refusing_ok|]. split; [exact Hsleep|].
  exact (perform_exhausts_pool
           (fun c => client_call refusing c (GetLatestBlockhash Confirmed))
           refusing_always_fails two_endpoint_state_refusing
           two_endpoint_state_refusing_ok Hsleep).
Defined.

(** The run of the theorem above, evaluated: four attempts, two on each
    endpoint, with sleeps of 1/2, 1, 3/2 and 2 seconds. *)
Example exhausted_pool_trace :
  map (fun ev => match ev with
                 | EvAttempt c _ _ => inl (client_endpoint c)
                 | EvSleep d => inr (Qred d)
                 end)
      (trace (snd (_perform (fun c => client_call refusing c (GetLatestBlockhash Confirmed))
                     two_endpoint_state_refusing)))
  = [inl "https://a.example"; inr (1 # 2)%Q; inl "https://a.example"; inr 1%Q;
     inl "https://b.example"; inr (3 # 2)%Q; inl "https://b.example"; inr 2%Q].
Proof. vm_compute. reflexivity. Qed.

Lemma long_backoff_state_ok : pool_ok (manager long_backoff_state).
Proof.
  split; vm_compute; (reflexivity || discriminate || (split; (reflexivity || discriminate))).
Qed.

(** C5, refuted as stated: [set_rpc_pool] takes a backoff of [1e10]
    seconds, and with it the first failed attempt ends the call, with the
    [OverflowError] of [time.sleep]: one attempt is made where the budget
    is four, and the error is not that of the exhausted budget. *)
Lemma long_backoff_ends_after_one_attempt : ~ retries_always_exhaust_pool.
Proof.
  intros H.
  destruct (H unit Response (fun c => client_call refusing c (GetLatestBlockhash Confirmed))
              long_backoff_state long_backoff_state_ok refusing_always_fails)
    as (attempts & e & st' & Hrun & _).
  vm_compute in Hrun. discriminate Hrun.
Qed.

(** That run, evaluated: the one attempt, and the exception that leaves
    [_perform]. *)
Example long_backoff_run :
  let run := _perform (fun c => client_call refusing c (GetLatestBlockhash Confirmed))
               long_backoff_state in
  fst run = inl (Raise ClsOverflowError
                   (MLibrary "timestamp too large to convert to C _PyTime_t") None)
  /\ map (fun ev => match ev with
                     | EvAttempt c _ _ => inl (client_endpoint c)
                     | EvSleep d => inr (Qred d)
                     end)
         (trace (snd run))
     = [inl "https://a.example"].
Proof. vm_compute. split; reflexivity. Qed.

(** ** Mass payments *)

(** C1, refuted as stated: two runs that differ only in the signature of
    the first, confirmed, chunk fail on the second chunk with the very same
    exception, so the exception does not tell the confirmed signatures. *)
Lemma signatures_not_delivered_with_error : ~ signatures_delivered_with_error.
Proof.
  intros [recover H].
  assert (recover exhausted = ["sigA"]) as HA.
  { apply (H Script scripted any_address any_address (failing_state "sigA")
             three_recipients (Some 1) false Confirmed None None example_wallet
             [[recipient_number 0]] [recipient_number 1] [[recipient_number 2]]
             ["sigA"] (first_chunk_done "sigA") exhausted (second_chunk_failed "sigA"));
      vm_compute; reflexivity. }
  assert (recover exhausted = ["sigB"]) as HB.
  { apply (H Script scripted any_address any_address (failing_state "sigB")
             three_recipients (Some 1) false Confirmed None None example_wallet
             [[recipient_number 0]] [recipient_number 1] [[recipient_number 2]]
             ["sigB"] (first_chunk_done "sigB") exhausted (second_chunk_failed "sigB"));
      vm_compute; reflexivity. }
  rewrite HA in HB. discriminate HB.
Qed.

Lemma send_mass_payments_aborts_at_failure_witness :
  1 <= effective_batch_size (Some 1)
         (default_max_recipients_per_tx (manager (failing_state "sigA")))
  /\ wallet (manager (failing_state "sigA")) = Some example_wallet
  /\ _chunk three_recipients
       (effective_batch_size (Some 1)
          (default_max_recipients_per_tx (manager (failing_state "sigA"))))
     = inr ([[recipient_number 0]] ++ [recipient_number 1] :: [[recipient_number 2]])
  /\ send_chunks scripted any_address any_address example_wallet [[recipient_number 0]]
       false Confirmed None None [] (failing_state "sigA")
     = (inr ["sigA"], first_chunk_done "sigA")
  /\ send_chunk scripted any_address any_address example_wallet [recipient_number 1]
       false Confirmed None None (first_chunk_done "sigA")
     = (inl exhausted, second_chunk_failed "sigA")
  /\ send_mass_payments scripted any_address any_address three_recipients (Some 1)
       false Confirmed None None (failing_state "sigA")
     = (inl exhausted, second_chunk_failed "sigA").
Proof.
  assert (1 <= effective_batch_size (Some 1)
                 (default_max_recipients_per_tx (manager (failing_state "sigA")))) as H1
    by (vm_compute; discriminate).
  assert (wallet (manager (failing_state "sigA")) = Some example_wallet) as H2
    by (vm_compute; reflexivity).
  assert (_chunk three_recipients
            (effective_batch_size (Some 1)
               (default_max_recipients_per_tx (manager (failing_state "sigA"))))
          = inr ([[recipient_number 0]] ++ [recipient_number 1] :: [[recipient_number 2]])) as H3
    by (vm_compute; reflexivity).
  assert (send_chunks scripted any_address any_address example_wallet [[recipient_number 0]]
            false Confirmed None None [] (failing_state "sigA")
          = (inr ["sigA"], first_chunk_done "sigA")) as H4
    by (vm_compute; reflexivity).
  assert (send_chunk scripted any_address any_address example_wallet [recipient_number 1]
            false Confirmed None None (first_chunk_done "sigA")
          = (inl exhausted, second_chunk_failed "sigA")) as H5
    by (vm_compute; reflexivity).
  split; [exact H1|]. split; [exact H2|]. split; [exact H3|]. split; [exact H4|].
  split; [exact H5|].
  exact (send_mass_payments_aborts_at_failure scripted any_address any_address
           three_recipients (Some 1) false Confirmed None None (failing_state "sigA")
           example_wallet [[recipient_number 0]] [recipient_number 1] [[recipient_number 2]]
           ["sigA"] (first_chunk_done "sigA") exhausted (second_chunk_failed "sigA")
           H1 H2 H3 H4 H5).
Defined.

(** Twenty-five recipients in batches of ten: chunks of 10, 10 and 5, each
    with its own blockhash. *)
Lemma send_mass_payments_batches_witness :
  1 <= effective_batch_size (Some 10) 10
  /\ exists chunks,
       _chunk twenty_five_recipients 10 = inr chunks
       /\ map length chunks = [10; 10; 5]%nat
       /\ concat chunks = twenty_five_recipients
       /\ exists evs,
            chunk_rounds any_address example_wallet false Confirmed (Some 200000) None
              chunks (payment_calls evs) ["s1"; "s2"; "s3"].
Proof.
  assert (1 <= effective_batch_size (Some 10) 10) as H1 by (vm_compute; discriminate).
  split; [exact H1|].
  destruct (send_mass_payments_batches scripted any_address any_address
              twenty_five_recipients (Some 10) false Confirmed None None
              (paying_state (round_answers "h1" "s1" ++ round_answers "h2" "s2"
                             ++ round_answers "h3" "s3")))
    as [_ Hbatches].
  destruct (Hbatches H1) as (chunks & Hchunk & Hcat & _ & Hrun).
  exists chunks. split; [exact Hchunk|].
  split; [vm_compute in Hchunk; injection Hchunk as <-; reflexivity|].
  split; [exact Hcat|].
  destruct (Hrun ["s1"; "s2"; "s3"]
              (snd (send_mass_payments scripted any_address any_address
                      twenty_five_recipients (Some 10) false Confirmed None None
                      (paying_state (round_answers "h1" "s1" ++ round_answers "h2" "s2"
                                     ++ round_answers "h3" "s3")))))
    as (wallet' & evs & Hw & _ & Hrounds); [vm_compute; reflexivity|].
  exists evs. vm_compute in Hw. injection Hw as <-. exact Hrounds.
Defined.

(** ** Confirmation *)

(** The rule of the specification does not hold of the code: a wait for
    "finalized" returns on a status that only reports "confirmed". *)
Lemma wait_ignores_requested_commitment : ~ wait_honours_requested_commitment.
Proof.
  intros H.
  specialize (H Script scripted any_address watching_state "sig" 60%Q Finalized
                only_confirmed []
                (snd (_perform (fun c => client_call scripted c (GetSignatureStatuses ["sig"]))
                        watching_state))).
  assert (spec_poll_succeeds Finalized only_confirmed = true) as Hspec.
  { apply H; vm_compute; reflexivity. }
  vm_compute in Hspec. discriminate Hspec.
Qed.

Lemma wait_for_finalized_returns_on_confirmed_witness :
  any_address "sig" = true
  /\ (0 < 60)%Q
  /\ err only_confirmed = None
  /\ confirmation_status only_confirmed = Some "confirmed"
  /\ _await_confirmation scripted any_address "sig" 60 Finalized watching_state
     = (inr tt,
        snd (_perform (fun c => client_call scripted c (GetSignatureStatuses ["sig"]))
               watching_state))
  /\ spec_poll_succeeds Finalized only_confirmed = false.
Proof.
  assert (any_address "sig" = true) as H1 by reflexivity.
  assert (0 < 60)%Q as H2 by reflexivity.
  assert (_perform (fun c => client_call scripted c (GetSignatureStatuses ["sig"]))
            watching_state
          = (inr (StatusesResp (Some only_confirmed :: [])),
             snd (_perform (fun c => client_call scripted c (GetSignatureStatuses ["sig"]))
                    watching_state))) as H3 by (vm_compute; reflexivity).
  assert (err only_confirmed = None) as H4 by reflexivity.
  assert (confirmation_status only_confirmed = Some "confirmed") as H5 by reflexivity.
  assert (Text.lower "confirmed" = "confirmed") as H6 by reflexivity.
  split; [exact H1|]. split; [exact H2|]. split; [exact H4|]. split; [exact H5|].
  exact (wait_for_finalized_returns_on_confirmed scripted any_address "sig" 60 Finalized
           watching_state only_confirmed [] _ "confirmed" H1 H2 H3 H4 H5 H6).
Defined.

Lemma await_poll_decision_witness :
  (clock watching_state < 60)%Q
  /\ err only_confirmed = None
  /\ _await_loop scripted 75 "sig" 60 60 None watching_state
     = (inr tt,
        snd (_perform (fun c => client_call scripted c (GetSignatureStatuses ["sig"]))
               watching_state)).
Proof.
  assert (clock watching_state < 60)%Q as H1 by reflexivity.
  assert (_perform (fun c => client_call scripted c (GetSignatureStatuses ["sig"]))
            watching_state
          = (inr (StatusesResp (Some only_confirmed :: [])),
             snd (_perform (fun c => client_call scripted c (GetSignatureStatuses ["sig"]))
                    watching_state))) as H2 by (vm_compute; reflexivity).
  assert (err only_confirmed = None) as H3 by reflexivity.
  split; [exact H1|]. split; [exact H3|].
  exact (await_poll_decision scripted 74 "sig" 60 60 None watching_state only_confirmed []
           _ H1 H2 H3).
Defined.

(** ** Reading the recipients *)

Lemma small_amount_aborts_parse_witness :
  parse_lines any_address ["A 1"] 1 None [] []
  = inr ([{| address := "A"; lamports := 1000000000 |}], [])
  /\ Text.starts_with_hash (Text.lstrip_bom (Text.strip "B 0.0000000001")) = false
  /\ Text.tokenize (Text.lstrip_bom (Text.strip "B 0.0000000001")) = ["B"; "0.0000000001"]
  /\ any_address "B" = true
  /\ Decimal_of_string "0.0000000001" = Some (DFinite false 1 (-10))
  /\ _sol_to_lamports (DFinite false 1 (-10)) = inl (Raise ClsValueError MAmountTooSmall None)
  /\ read_recipients_from_file any_address (FileText file_with_small_amount) None (paying_state [])
     = (inl (Raise ClsValueError MAmountTooSmall None), paying_state []).
Proof.
  assert (parse_lines any_address ["A 1"] 1 None [] []
          = inr ([{| address := "A"; lamports := 1000000000 |}], [])) as H1
    by (vm_compute; reflexivity).
  assert (Text.starts_with_hash (Text.lstrip_bom (Text.strip "B 0.0000000001")) = false) as H2
    by (vm_compute; reflexivity).
  assert (Text.tokenize (Text.lstrip_bom (Text.strip "B 0.0000000001"))
          = ["B"; "0.0000000001"]) as H3 by (vm_compute; reflexivity).
  assert (any_address "B" = true) as H4 by reflexivity.
  assert (Decimal_of_string "0.0000000001" = Some (DFinite false 1 (-10))) as H5
    by (vm_compute; reflexivity).
  assert (_sol_to_lamports (DFinite false 1 (-10))
          = inl (Raise ClsValueError MAmountTooSmall None)) as H6 by (vm_compute; reflexivity).
  split; [exact H1|]. split; [exact H2|]. split; [exact H3|]. split; [exact H4|].
  split; [exact H5|]. split; [exact H6|].
  exact (small_amount_aborts_parse any_address (paying_state []) ["A 1"] "B 0.0000000001"
           ["C 2"] None _ _ "B" "0.0000000001" [] _ H1 H2 H3 H4 H5 H6).
Defined.

Lemma read_recipients_merges_duplicates_witness :
  read_recipients_from_file any_address (FileText file_with_duplicates) None (paying_state [])
  = (inr [{| address := "A"; lamports := 3500000000 |};
          {| address := "B"; lamports := 5000000000 |}],
     snd (read_recipients_from_file any_address (FileText file_with_duplicates) None
            (paying_state [])))
  /\ exists recipients_raw warnings,
       parse_lines any_address file_with_duplicates 1 None [] [] = inr (recipients_raw, warnings)
       /\ forall a,
            1 <= occurrences a recipients_raw ->
            List.filter (has_address a)
              [{| address := "A"; lamports := 3500000000 |};
               {| address := "B"; lamports := 5000000000 |}]
            = [{| address := a; lamports := total_for a recipients_raw |}]
            /\ List.filter (is_duplicate_warning_for a)
                 (last_recipient_warnings
                    (manager (snd (read_recipients_from_file any_address
                                     (FileText file_with_duplicates) None (paying_state [])))))
               = if 2 <=? occurrences a recipients_raw
                 then [MDuplicate a (occurrences a recipients_raw)]
                 else [].
Proof.
  assert (read_recipients_from_file any_address (FileText file_with_duplicates) None
            (paying_state [])
          = (inr [{| address := "A"; lamports := 3500000000 |};
                  {| address := "B"; lamports := 5000000000 |}],
             snd (read_recipients_from_file any_address (FileText file_with_duplicates) None
                    (paying_state [])))) as H1 by (vm_compute; reflexivity).
  split; [exact H1|].
  exact (read_recipients_merges_duplicates any_address (paying_state []) file_with_duplicates
           None _ _ H1).
Defined.

Lemma read_recipients_preserves_total_witness :
  read_recipients_from_file any_address (FileText file_with_duplicates) None (paying_state [])
  = (inr [{| address := "A"; lamports := 3500000000 |};
          {| address := "B"; lamports := 5000000000 |}],
     snd (read_recipients_from_file any_address (FileText file_with_duplicates) None
            (paying_state [])))
  /\ sum_lamports [{| address := "A"; lamports := 3500000000 |};
                    {| address := "B"; lamports := 5000000000 |}]
     = 1000000000 + 5000000000 + 2000000000 + 500000000
  /\ exists recipients_raw warnings,
       parse_lines any_address file_with_duplicates 1 None [] [] = inr (recipients_raw, warnings)
       /\ map lamports recipients_raw = [1000000000; 5000000000; 2000000000; 500000000]
       /\ sum_lamports [{| address := "A"; lamports := 3500000000 |};
                        {| address := "B"; lamports := 5000000000 |}]
          = base_units recipients_raw
       /\ map address [{| address := "A"; lamports := 3500000000 |};
                       {| address := "B"; lamports := 5000000000 |}]
          = first_occurrences [] (map address recipients_raw).
Proof.
  assert (read_recipients_from_file any_address (FileText file_with_duplicates) None
            (paying_state [])
          = (inr [{| address := "A"; lamports := 3500000000 |};
                  {| address := "B"; lamports := 5000000000 |}],
             snd (read_recipients_from_file any_address (FileText file_with_duplicates) None
                    (paying_state [])))) as H1 by (vm_compute; reflexivity).
  split; [exact H1|].
  destruct (read_recipients_preserves_total any_address (paying_state []) file_with_duplicates
              None _ _ H1) as (recipients_raw & warnings & Hparse & Hsum & _ & Horder).
  assert (map lamports recipients_raw = [1000000000; 5000000000; 2000000000; 500000000])
    as Hlines by (vm_compute in Hparse; injection Hparse as <- _; reflexivity).
  split.
  - rewrite Hsum. unfold base_units. rewrite Hlines. reflexivity.
  - exists recipients_raw, warnings.
    split; [exact Hparse|]. split; [exact Hlines|]. split; [exact Hsum | exact Horder].
Defined.

(** The example of the specification: amounts 1 and 2 on one address give
    one recipient with three times the lamports of a whole token, and one
    duplicate warning. *)
Example one_and_two_make_three :
  let result := read_recipients_from_file any_address (FileText ["A 1"; "A 2"]) None
                  (paying_state []) in
  fst result = inr [{| address := "A"; lamports := 3 * LAMPORTS_PER_SOL |}]
  /\ last_recipient_warnings (manager (snd result)) = [MDuplicate "A" 2].
Proof. vm_compute. split; reflexivity. Qed.

(** A sum just below one lamport is rounded up to one lamport by the
    28-digit product. *)
Example almost_one_lamport_is_rounded_up :
  Decimal_of_string "0.00000000099999999999999999999999999999"
  = Some (DFinite false 99999999999999999999999999999 (-38))
  /\ _sol_to_lamports (DFinite false 99999999999999999999999999999 (-38)) = inr 1.
Proof. vm_compute. split; reflexivity. Qed.

(** ** Loading the wallet *)

Lemma load_wallet_secret_length_witness :
  (load_wallet_from_file example_keypair example_keypair example_json_loads example_b58decode
     (FileText " [seed] ") (paying_state [])
   = (inr "PAYER",
      snd (load_wallet_from_file example_keypair example_keypair example_json_loads
             example_b58decode (FileText " [seed] ") (paying_state [])))
   /\ exists secret_bytes kp,
        decoded_secret example_json_loads example_b58decode (FileText " [seed] ")
        = Some secret_bytes
        /\ (length secret_bytes = 32%nat /\ example_keypair secret_bytes = Some kp
            \/ length secret_bytes = 64%nat /\ example_keypair secret_bytes = Some kp)
        /\ wallet (manager (snd (load_wallet_from_file example_keypair example_keypair
                                   example_json_loads example_b58decode (FileText " [seed] ")
                                   (paying_state [])))) = Some kp
        /\ "PAYER" = pubkey kp)
  /\ (decoded_secret example_json_loads example_b58decode (FileText "[1, 2, 3]")
      = Some [Byte.x01; Byte.x02; Byte.x03]
      /\ length [Byte.x01; Byte.x02; Byte.x03] <> 32%nat
      /\ length [Byte.x01; Byte.x02; Byte.x03] <> 64%nat
      /\ load_wallet_from_file example_keypair example_keypair example_json_loads
           example_b58decode (FileText "[1, 2, 3]") (paying_state [])
         = (inl (Raise ClsWalletLoadError MSecretLength None), paying_state [])).
Proof.
  split.
  - assert (load_wallet_from_file example_keypair example_keypair example_json_loads
              example_b58decode (FileText " [seed] ") (paying_state [])
            = (inr "PAYER",
               snd (load_wallet_from_file example_keypair example_keypair example_json_loads
                      example_b58decode (FileText " [seed] ") (paying_state [])))) as H1
      by (vm_compute; reflexivity).
    split; [exact H1|].
    exact (proj1 (load_wallet_secret_length example_keypair example_keypair
                    example_json_loads example_b58decode (FileText " [seed] ") (paying_state []))
             _ _ H1).
  - assert (decoded_secret example_json_loads example_b58decode (FileText "[1, 2, 3]")
            = Some [Byte.x01; Byte.x02; Byte.x03]) as H1 by (vm_compute; reflexivity).
    assert (length [Byte.x01; Byte.x02; Byte.x03] <> 32%nat) as H2 by (simpl; lia).
    assert (length [Byte.x01; Byte.x02; Byte.x03] <> 64%nat) as H3 by (simpl; lia).
    split; [exact H1|]. split; [exact H2|]. split; [exact H3|].
    exact (proj2 (load_wallet_secret_length example_keypair example_keypair
                    example_json_loads example_b58decode (FileText "[1, 2, 3]") (paying_state []))
             _ H1 H2 H3).
Defined.

(** ** Balances *)

(** [A, B, A, C] with pages of two addresses: the queries are for [A, B]
    and for [C]; [A] and [C] are unknown to the ledger and get zero. *)
Lemma fetch_balances_complete_witness :
  1 <= accounts_query_chunk (manager balances_state)
  /\ fetch_balances scripted any_address ["A"; "B"; "A"; "C"] Confirmed balances_state
     = (inr [("A", zero_balance); ("B", DFinite false 15 (-1)); ("C", zero_balance)],
        snd (fetch_balances scripted any_address ["A"; "B"; "A"; "C"] Confirmed
               balances_state))
  /\ (forall a, a ∈ ["A"; "B"; "A"; "C"] ->
        is_Some (dict_get a [("A", zero_balance); ("B", DFinite false 15 (-1));
                             ("C", zero_balance)]))
  /\ NoDup (dict_keys [("A", zero_balance); ("B", DFinite false 15 (-1));
                       ("C", zero_balance)])
  /\ dict_keys [("A", zero_balance); ("B", DFinite false 15 (-1)); ("C", zero_balance)]
     = first_occurrences [] ["A"; "B"; "A"; "C"]
  /\ _chunk (first_occurrences [] ["A"; "B"; "A"; "C"])
       (accounts_query_chunk (manager balances_state))
     = inr [["A"; "B"]; ["C"]].
Proof.
  assert (1 <= accounts_query_chunk (manager balances_state)) as H1
    by (vm_compute; discriminate).
  assert (fetch_balances scripted any_address ["A"; "B"; "A"; "C"] Confirmed balances_state
          = (inr [("A", zero_balance); ("B", DFinite false 15 (-1)); ("C", zero_balance)],
             snd (fetch_balances scripted any_address ["A"; "B"; "A"; "C"] Confirmed
                    balances_state))) as H2 by (vm_compute; reflexivity).
  destruct (fetch_balances_complete scripted any_address ["A"; "B"; "A"; "C"] Confirmed
              balances_state _ _ H1 H2)
    as (Hkeys & Hnodup & Horder & chunks & answers & evs & Hchunk & _).
  split; [exact H1|]. split; [exact H2|]. split; [exact Hkeys|].
  split; [exact Hnodup|]. split; [exact Horder|].
  vm_compute. reflexivity.
Defined.

(** ** The text helpers against Python *)

Example line_with_byte_order_mark :
  Text.tokenize (Text.lstrip_bom (Text.strip (Text.bom +:+ "A, 1.5 ; note  ")))
  = ["A"; "1.5"; "note"].
Proof. vm_compute. reflexivity. Qed.

Example decimal_constructor :
  Decimal_of_string "1_0" = Some (DFinite false 10 0)
  /\ Decimal_of_string "+.5" = Some (DFinite false 5 (-1))
  /\ Decimal_of_string "5." = Some (DFinite false 5 0)
  /\ Decimal_of_string "1.5e-9" = Some (DFinite false 15 (-10))
  /\ Decimal_of_string "-0" = Some (DFinite true 0 0)
  /\ Decimal_of_string "-Inf" = Some (DInfinity true)
  /\ Decimal_of_string "nan123" = Some DNaN
  /\ Decimal_of_string "." = None
  /\ Decimal_of_string "1e" = None
  /\ Decimal_of_string "0x10" = None.
Proof. vm_compute. repeat split. Qed.

Example lamports_of_amounts :
  _sol_to_lamports (DFinite false 15 (-1)) = inr 1500000000
  /\ _sol_to_lamports (DFinite false 15 (-10)) = inr 1
  /\ _sol_to_lamports (DFinite true 1 0) = inl (Raise ClsValueError MAmountNotPositive None)
  /\ _sol_to_lamports (DFinite false 1234567890123456789012345678905 (-1))
     = inr 123456789012345678901234567900000000000.
Proof. vm_compute. repeat split. Qed.

(** * The further properties at concrete inputs *)

Lemma set_rpc_pool_installs_pool_witness :
  set_rpc_pool [" https://a.example "; ""; "https://b.example"; "https://a.example"]
    (Some 5) None None two_endpoint_state_refusing
  = (inr tt,
     snd (set_rpc_pool [" https://a.example "; ""; "https://b.example"; "https://a.example"]
            (Some 5) None None two_endpoint_state_refusing))
  /\ rpc_endpoints
       (manager (snd (set_rpc_pool
                        [" https://a.example "; ""; "https://b.example"; "https://a.example"]
                        (Some 5) None None two_endpoint_state_refusing)))
     = first_occurrences []
         (stripped_endpoints
            [" https://a.example "; ""; "https://b.example"; "https://a.example"]).
Proof.
  assert (set_rpc_pool [" https://a.example "; ""; "https://b.example"; "https://a.example"]
            (Some 5) None None two_endpoint_state_refusing
          = (inr tt,
             snd (set_rpc_pool
                    [" https://a.example "; ""; "https://b.example"; "https://a.example"]
                    (Some 5) None None two_endpoint_state_refusing))) as H1
    by (vm_compute; reflexivity).
  pose proof (set_rpc_pool_installs_pool _ _ _ _ _ _ H1) as Hrun.
  split; [exact H1 | exact (proj1 Hrun)].
Defined.

(** The pool of the example above: two endpoints, stripped, the repeated
    one kept once. *)
Example installed_pool :
  rpc_endpoints
    (manager (snd (set_rpc_pool
                     [" https://a.example "; ""; "https://b.example"; "https://a.example"]
                     (Some 5) None None two_endpoint_state_refusing)))
  = ["https://a.example"; "https://b.example"].
Proof. vm_compute. reflexivity. Qed.

Lemma set_rpc_pool_rejects_unchanged_witness :
  (stripped_endpoints ["  "; ""] = []
   \/ exists r, Some 3 = Some r /\ r < 1)
  /\ exists e,
       set_rpc_pool ["  "; ""] (Some 3) None None two_endpoint_state_refusing
       = (inl e, two_endpoint_state_refusing)
       /\ exn_class e = ClsValueError.
Proof.
  assert (stripped_endpoints ["  "; ""] = []
          \/ exists r, Some 3 = Some r /\ r < 1) as H1
    by (left; vm_compute; reflexivity).
  split; [exact H1|].
  exact (set_rpc_pool_rejects_unchanged two_endpoint_state_refusing ["  "; ""] (Some 3)
           None None H1).
Defined.

Lemma set_endpoint_single_pool_witness :
  Text.strip " https://c.example" <> EmptyString
  /\ exists st',
       set_endpoint " https://c.example" (Some 3%Q) two_endpoint_state_refusing = (inr tt, st')
       /\ rpc_endpoints (manager st') = ["https://c.example"]
       /\ max_retries_per_endpoint (manager st') = 2.
Proof.
  assert (Text.strip " https://c.example" <> EmptyString) as H1
    by (vm_compute; discriminate).
  split; [exact H1|].
  destruct (set_endpoint_single_pool two_endpoint_state_refusing " https://c.example"
              (Some 3%Q) H1) as (st' & Hrun & Hpool & _ & _ & _ & _ & HR & _).
  exists st'. split; [exact Hrun|]. split; [exact Hpool|]. rewrite HR. reflexivity.
Defined.

Lemma third_time_lucky_ok : pool_ok (manager third_time_lucky).
Proof.
  split; vm_compute; (reflexivity || discriminate || (split; (reflexivity || discriminate))).
Defined.

Lemma perform_outcomes_witness :
  pool_ok (manager third_time_lucky)
  /\ exists (attempts : list (list RpcCall * Exception)) st',
       snd (_perform (fun c => client_call scripted c (GetLatestBlockhash Confirmed))
              third_time_lucky) = st'
       /\ pool_ok (manager st')
       /\ Z.of_nat (length attempts) <= 2 * 2.
Proof.
  split; [exact third_time_lucky_ok|].
  destruct (perform_outcomes (fun c => client_call scripted c (GetLatestBlockhash Confirmed))
              third_time_lucky third_time_lucky_ok)
    as (attempts & st' & Hsnd & Hok & _ & _ & Hlen & _).
  exists attempts, st'. split; [exact Hsnd|]. split; [exact Hok | exact Hlen].
Defined.

(** The run of the example above: two refused attempts on the first
    endpoint, each followed by its sleep, then the answer from the second
    endpoint, which stays the active one. *)
Example third_time_lucky_run :
  let run := _perform (fun c => client_call scripted c (GetLatestBlockhash Confirmed))
               third_time_lucky in
  fst run = inr (BlockhashResp "h")
  /\ map (fun ev => match ev with
                    | EvAttempt c _ raised =>
                        inl (client_endpoint c, bool_decide (raised = None))
                    | EvSleep d => inr (Qred d)
                    end)
         (trace (snd run))
     = [inl ("https://a.example", false); inr (1 # 2)%Q;
        inl ("https://a.example", false); inr 1%Q;
        inl ("https://b.example", true)]
  /\ endpoint (manager (snd run)) = "https://b.example".
Proof. vm_compute. repeat split. Qed.

Lemma rotate_endpoint_advances_witness :
  pool_ok (manager third_time_lucky)
  /\ exists st',
       _rotate_endpoint third_time_lucky = (inr tt, st')
       /\ _current_endpoint_index (manager st') = (0 + 1) mod 2
       /\ pool_ok (manager st').
Proof.
  split; [exact third_time_lucky_ok|].
  destruct (rotate_endpoint_advances third_time_lucky third_time_lucky_ok)
    as (st' & Hrun & Hidx & Hok & _).
  exists st'. split; [exact Hrun|]. split; [exact Hidx | exact Hok].
Defined.

Lemma init_establishes_pool_witness :
  Text.strip "https://api.devnet.solana.com" <> EmptyString
  /\ exists st : State unit,
       __init__ "https://api.devnet.solana.com" 10 0 (FFinite (-1)) 0 (-5) None None tt 0
       = (inr tt, st)
       /\ pool_ok (manager st)
       /\ max_retries_per_endpoint (manager st) = 1
       /\ retry_backoff_seconds (manager st) <> FNaN.
Proof.
  assert (Text.strip "https://api.devnet.solana.com" <> EmptyString) as H1
    by (vm_compute; discriminate).
  split; [exact H1|].
  destruct (init_establishes_pool "https://api.devnet.solana.com" 10 0 (FFinite (-1)) 0 (-5)
              None None tt 0 H1) as (st & Hrun & Hok & _ & _ & HR & Hnan & _).
  exists st. split; [exact Hrun|]. split; [exact Hok|]. split; [exact HR | exact Hnan].
Defined.

(** The constructor given NaN as backoff: [max(0.0, nan)] is [0.0]. *)
Example init_replaces_nan_backoff :
  retry_backoff_seconds
    (manager (snd (__init__ "https://api.devnet.solana.com" 10 3 FNaN 95 10 None None tt 0)))
  = FFinite 0.
Proof. reflexivity. Qed.

Lemma set_rpc_pool_keeps_pool_in_order_witness :
  pool_ok (manager two_endpoint_state_refusing)
  /\ pool_ok (manager (snd (set_rpc_pool ["https://c.example"] (Some 5) (Some FNaN) None
                              two_endpoint_state_refusing))).
Proof.
  split; [exact two_endpoint_state_refusing_ok|].
  exact (proj1 (set_rpc_pool_keeps_pool_in_order two_endpoint_state_refusing
                  ["https://c.example"] (Some 5) (Some FNaN) None
                  two_endpoint_state_refusing_ok)).
Defined.

(** [set_rpc_pool] given NaN as backoff: the call returns and NaN is
    stored, since [nan < 0] is false; the first failed attempt of a call
    then ends it, with the [ValueError] of [time.sleep]. *)
Example nan_backoff_is_stored :
  let st := snd (set_rpc_pool ["https://c.example"] (Some 5) (Some FNaN) None
                   two_endpoint_state_refusing) in
  fst (set_rpc_pool ["https://c.example"] (Some 5) (Some FNaN) None
         two_endpoint_state_refusing) = inr tt
  /\ retry_backoff_seconds (manager st) = FNaN
  /\ fst (_perform (fun c => client_call refusing c (GetLatestBlockhash Confirmed)) st)
     = inl (Raise ClsValueError (MLibrary "Invalid value NaN (not a number)") None).
Proof. vm_compute. repeat split. Qed.

Lemma chunk_count_and_slices_witness :
  1 <= 10
  /\ exists chunks,
       _chunk twenty_five_recipients 10 = inr chunks
       /\ Z.of_nat (length chunks) = (Z.of_nat (length twenty_five_recipients) + 10 - 1) / 10
       /\ concat chunks = twenty_five_recipients.
Proof.
  assert (1 <= 10) as H1 by lia.
  split; [exact H1|].
  destruct (chunk_count_and_slices twenty_five_recipients 10 H1)
    as (chunks & Hrun & Hlen & Hcat & _).
  exists chunks. split; [exact Hrun|]. split; [exact Hlen | exact Hcat].
Defined.

Lemma chunk_degenerate_size_witness :
  -3 <= 0
  /\ ((-3 = 0 /\ exists message,
         _chunk three_recipients (-3) = inl (Raise ClsValueError message None))
      \/ (-3 < 0 /\ _chunk three_recipients (-3) = inr [])).
Proof.
  assert (-3 <= 0) as H1 by lia.
  split; [exact H1|].
  exact (chunk_degenerate_size three_recipients (-3) H1).
Defined.

(** ** Confirmation *)

Lemma await_confirmation_returns_confirmed_witness :
  _await_confirmation scripted any_address "sig" 60 Confirmed watching_state
  = (inr tt, snd (_await_confirmation scripted any_address "sig" 60 Confirmed watching_state))
  /\ any_address "sig" = true
  /\ exists st0 status more,
       (clock watching_state <= clock st0)%Q
       /\ (clock st0 < clock watching_state + 60)%Q
       /\ _perform (fun c => client_call scripted c (GetSignatureStatuses ["sig"])) st0
          = (inr (StatusesResp (Some status :: more)),
             snd (_await_confirmation scripted any_address "sig" 60 Confirmed watching_state))
       /\ err status = None
       /\ poll_succeeds status = true.
Proof.
  assert (_await_confirmation scripted any_address "sig" 60 Confirmed watching_state
          = (inr tt,
             snd (_await_confirmation scripted any_address "sig" 60 Confirmed watching_state)))
    as H1 by (vm_compute; reflexivity).
  split; [exact H1|].
  exact (await_confirmation_returns_confirmed scripted any_address "sig" 60 Confirmed
           watching_state _ H1).
Defined.

(** A service that reports the transaction as failed. *)
Example failed_transaction_raises :
  fst (_await_confirmation scripted any_address "sig" 60 Confirmed
         (paying_state [inr (StatusesResp [Some {| err := Some "InsufficientFunds";
                                                   confirmation_status := None;
                                                   confirmations := None |}])]))
  = inl (Raise ClsRuntimeError (MTxFailed "sig" "InsufficientFunds") None).
Proof. vm_compute. reflexivity. Qed.

Lemma await_confirmation_raises_witness :
  _await_confirmation scripted any_address "sig" 60 Confirmed
    (paying_state [inr (StatusesResp [Some {| err := Some "InsufficientFunds";
                                              confirmation_status := None;
                                              confirmations := None |}])])
  = (inl (Raise ClsRuntimeError (MTxFailed "sig" "InsufficientFunds") None),
     snd (_await_confirmation scripted any_address "sig" 60 Confirmed
            (paying_state [inr (StatusesResp [Some {| err := Some "InsufficientFunds";
                                                      confirmation_status := None;
                                                      confirmations := None |}])])))
  /\ any_address "sig" = true.
Proof.
  assert (_await_confirmation scripted any_address "sig" 60 Confirmed
            (paying_state [inr (StatusesResp [Some {| err := Some "InsufficientFunds";
                                                      confirmation_status := None;
                                                      confirmations := None |}])])
          = (inl (Raise ClsRuntimeError (MTxFailed "sig" "InsufficientFunds") None),
             snd (_await_confirmation scripted any_address "sig" 60 Confirmed
                    (paying_state [inr (StatusesResp
                                          [Some {| err := Some "InsufficientFunds";
                                                   confirmation_status := None;
                                                   confirmations := None |}])]))))
    as H1 by (vm_compute; reflexivity).
  split; [exact H1|].
  destruct (await_confirmation_raises scripted any_address "sig" 60 Confirmed _ _ _ H1)
    as [(Hinvalid & _)|(Hvalid & _)]; [discriminate Hinvalid | exact Hvalid].
Defined.

Lemma always_pending_answers :
  forall (c : Client) (w : unit),
    exists w', always_pending c (GetSignatureStatuses ["sig"]) w
               = (inr (StatusesResp [Some pending_status]), w').
Proof. intros c w. exists w. reflexivity. Defined.

Lemma await_confirmation_times_out_witness :
  err pending_status = None
  /\ poll_succeeds pending_status = false
  /\ pool_ok (manager two_endpoint_state_refusing)
  /\ any_address "sig" = true
  /\ exists n st',
       _await_confirmation always_pending any_address "sig" 2 Confirmed
         two_endpoint_state_refusing
       = (inl (Raise ClsTimeoutError
                 (MNotConfirmed "sig" 2 (match n with O => None | S _ => Some pending_status end))
                 None), st')
       /\ (n <= 4)%nat.
Proof.
  assert (err pending_status = None) as H1 by reflexivity.
  assert (poll_succeeds pending_status = false) as H2 by (vm_compute; reflexivity).
  split; [exact H1|]. split; [exact H2|]. split; [exact two_endpoint_state_refusing_ok|].
  split; [reflexivity|].
  destruct (await_confirmation_times_out always_pending any_address "sig" pending_status
              H1 H2 always_pending_answers 2 Confirmed two_endpoint_state_refusing
              two_endpoint_state_refusing_ok eq_refl)
    as (n & st' & Hrun & _ & _ & Hbound).
  exists n, st'. split; [exact Hrun|].
  change (await_fuel 2) with 3%nat in Hbound. exact Hbound.
Defined.

(** The run of the example above: three polls, 0.8 seconds apart, for a
    timeout of two seconds. *)
Example never_confirmed_run :
  map (fun ev => match ev with
                 | EvAttempt c _ _ => inl (client_endpoint c)
                 | EvSleep d => inr (Qred d)
                 end)
      (trace (snd (_await_confirmation always_pending any_address "sig" 2 Confirmed
                     two_endpoint_state_refusing)))
  = [inl "https://a.example"; inr (4 # 5)%Q;
     inl "https://a.example"; inr (4 # 5)%Q;
     inl "https://a.example"; inr (4 # 5)%Q].
Proof. vm_compute. reflexivity. Qed.

(** ** Recipients *)

Lemma read_recipients_valid_witness :
  read_recipients_from_file any_address (FileText file_with_duplicates) None (paying_state [])
  = (inr [{| address := "A"; lamports := 3500000000 |};
          {| address := "B"; lamports := 5000000000 |}],
     snd (read_recipients_from_file any_address (FileText file_with_duplicates) None
            (paying_state [])))
  /\ NoDup (map address [{| address := "A"; lamports := 3500000000 |};
                         {| address := "B"; lamports := 5000000000 |}])
  /\ Forall (fun r => any_address (address r) = true /\ 1 <= lamports r)
            [{| address := "A"; lamports := 3500000000 |};
             {| address := "B"; lamports := 5000000000 |}].
Proof.
  assert (read_recipients_from_file any_address (FileText file_with_duplicates) None
            (paying_state [])
          = (inr [{| address := "A"; lamports := 3500000000 |};
                  {| address := "B"; lamports := 5000000000 |}],
             snd (read_recipients_from_file any_address (FileText file_with_duplicates) None
                    (paying_state [])))) as H1 by (vm_compute; reflexivity).
  split; [exact H1|].
  destruct (read_recipients_valid any_address (paying_state []) file_with_duplicates
              None _ _ H1) as (_ & Hnd & Hall & _).
  split; [exact Hnd | exact Hall].
Defined.

Lemma read_recipients_blank_file_witness :
  forallb skipped_line ["# payouts"; "   "; ""] = true
  /\ read_recipients_from_file any_address (FileText ["# payouts"; "   "; ""]) None
       (paying_state [])
     = (inl (Raise ClsRecipientParseError MFileEmptyOrComments None),
        {| manager := set_last_recipient_warnings [] (manager (paying_state []));
           world := world (paying_state []); clock := clock (paying_state []);
           trace := trace (paying_state []) |}).
Proof.
  assert (forallb skipped_line ["# payouts"; "   "; ""] = true) as H1
    by (vm_compute; reflexivity).
  split; [exact H1|].
  exact (read_recipients_blank_file any_address (paying_state []) ["# payouts"; "   "; ""]
           None H1).
Defined.

Lemma read_recipients_warning_line_witness :
  skipped_line "B abc" = false
  /\ _parse_recipient_line any_address (Text.lstrip_bom (Text.strip "B abc")) 0 None
     = inl (Raise ClsRecipientParseError (MAmountInvalid 0 "abc")
              (Some (Raise ClsInvalidOperation (MLibrary "ConversionSyntax") None)))
  /\ exists exc',
       _parse_recipient_line any_address (Text.lstrip_bom (Text.strip "B abc"))
         (Z.of_nat (length ["# payouts"; "A 1"]) + 1) None = inl exc'
       /\ warning_line (exn_message exc') = Some (Z.of_nat (length ["# payouts"; "A 1"]) + 1)
       /\ exn_message exc'
          ∈ last_recipient_warnings
              (manager (snd (read_recipients_from_file any_address
                               (FileText (["# payouts"; "A 1"] ++ "B abc" :: ["C 2"])) None
                               (paying_state [])))).
Proof.
  assert (skipped_line "B abc" = false) as H1 by (vm_compute; reflexivity).
  assert (_parse_recipient_line any_address (Text.lstrip_bom (Text.strip "B abc")) 0 None
          = inl (Raise ClsRecipientParseError (MAmountInvalid 0 "abc")
                   (Some (Raise ClsInvalidOperation (MLibrary "ConversionSyntax") None))))
    as H2 by (vm_compute; reflexivity).
  assert (isinstance (Raise ClsRecipientParseError (MAmountInvalid 0 "abc")
                        (Some (Raise ClsInvalidOperation (MLibrary "ConversionSyntax") None)))
            ClsRecipientParseError = true) as H3 by reflexivity.
  assert (read_recipients_from_file any_address
            (FileText (["# payouts"; "A 1"] ++ "B abc" :: ["C 2"])) None (paying_state [])
          = (inr [{| address := "A"; lamports := 1000000000 |};
                  {| address := "C"; lamports := 2000000000 |}],
             snd (read_recipients_from_file any_address
                    (FileText (["# payouts"; "A 1"] ++ "B abc" :: ["C 2"])) None
                    (paying_state [])))) as H4 by (vm_compute; reflexivity).
  split; [exact H1|]. split; [exact H2|].
  exact (read_recipients_warning_line any_address (paying_state []) ["# payouts"; "A 1"]
           "B abc" ["C 2"] None _ 0 _ _ H1 H2 H3 H4 I).
Defined.

(** The warning of the example above. *)
Example bad_amount_warning :
  last_recipient_warnings
    (manager (snd (read_recipients_from_file any_address (FileText file_with_bad_amount) None
                     (paying_state []))))
  = [MAmountInvalid 3 "abc"].
Proof. vm_compute. reflexivity. Qed.

Lemma read_recipients_raises_witness :
  read_recipients_from_file any_address (FileText file_with_small_amount) None (paying_state [])
  = (inl (Raise ClsValueError MAmountTooSmall None), paying_state [])
  /\ exists amount_sol,
       _sol_to_lamports amount_sol = inl (Raise ClsValueError MAmountTooSmall None).
Proof.
  assert (read_recipients_from_file any_address (FileText file_with_small_amount) None
            (paying_state [])
          = (inl (Raise ClsValueError MAmountTooSmall None), paying_state [])) as H1
    by (vm_compute; reflexivity).
  split; [exact H1|].
  destruct (read_recipients_raises any_address (FileText file_with_small_amount) None
              (paying_state []) _ _ H1)
    as [[Hclass _]|[[Hfile _]|(_ & _ & _ & Hamount)]];
    [discriminate Hclass | discriminate Hfile | exact Hamount].
Defined.

(** A recipients file that turns out to be a directory: the exception of
    [read_text] leaves the function as it is. *)
Example unreadable_recipients_file :
  read_recipients_from_file any_address (FileUnreadable is_a_directory) None (paying_state [])
  = (inl is_a_directory, paying_state []).
Proof. reflexivity. Qed.

(** ** Amounts *)

Lemma sol_to_lamports_exact_witness :
  0 < 15 < 10 ^ 28
  /\ -1 <= 999963
  /\ _sol_to_lamports (DFinite false 15 (-1)) = inr (whole_lamports 15 (-1))
  /\ whole_lamports 15 (-1) = 15 * 10 ^ (-1 + 9).
Proof.
  assert (0 < 15 < 10 ^ 28) as H1 by (split; reflexivity).
  assert (-1 <= 999963) as H2 by discriminate.
  split; [exact H1|]. split; [exact H2|].
  destruct (sol_to_lamports_exact 15 (-1) H1 H2) as (_ & Hpos & _ & Hexact & _).
  split; [apply Hpos; reflexivity | apply Hexact; discriminate].
Defined.

Lemma lamports_round_trip_witness :
  0 < 18446744073709551615 < 2 ^ 64
  /\ _sol_to_lamports (lamports_to_sol 18446744073709551615) = inr 18446744073709551615.
Proof.
  assert (0 < 18446744073709551615 < 2 ^ 64) as H1 by (split; reflexivity).
  split; [exact H1|].
  exact (lamports_round_trip 18446744073709551615 H1).
Defined.

(** ** Mass payments *)

Lemma send_mass_payments_pays_prefix_witness :
  send_mass_payments scripted any_address any_address three_recipients (Some 1)
    false Confirmed None None (failing_state "sigA")
  = (inl exhausted, second_chunk_failed "sigA")
  /\ exists evs paid unpaid,
       three_recipients = paid ++ unpaid
       /\ steps (failing_state "sigA") (second_chunk_failed "sigA") evs
       /\ forall wallet',
            wallet (manager (failing_state "sigA")) = Some wallet' ->
            submitted_transfers (successful_calls evs)
            = map (payment_to (pubkey wallet')) paid.
Proof.
  assert (send_mass_payments scripted any_address any_address three_recipients (Some 1)
            false Confirmed None None (failing_state "sigA")
          = (inl exhausted, second_chunk_failed "sigA")) as H1 by (vm_compute; reflexivity).
  split; [exact H1|].
  destruct (send_mass_payments_pays_prefix scripted any_address any_address three_recipients
              (Some 1) false Confirmed None None (failing_state "sigA") _ _ H1)
    as (evs & paid & unpaid & Hsplit & Hsteps & Hpaid & _).
  exists evs, paid, unpaid. split; [exact Hsplit|]. split; [exact Hsteps | exact Hpaid].
Defined.

(** The run of the example above: the first recipient was paid, the
    second chunk failed, the third was never reached. *)
Example paid_before_failure :
  submitted_transfers
    (successful_calls
       (trace (snd (send_mass_payments scripted any_address any_address three_recipients
                      (Some 1) false Confirmed None None (failing_state "sigA")))))
  = [payment_to "PAYER" (recipient_number 0)].
Proof. vm_compute. reflexivity. Qed.

(** A run that returns: every recipient is paid once, in order. *)
Example all_paid :
  let run := send_mass_payments scripted any_address any_address three_recipients (Some 2)
               false Confirmed None None two_rounds_state in
  fst run = inr ["s1"; "s2"]
  /\ submitted_transfers (successful_calls (trace (snd run)))
     = map (payment_to "PAYER") three_recipients.
Proof. vm_compute. split; reflexivity. Qed.

Lemma send_mass_payments_nothing_to_do_witness :
  1 <= effective_batch_size None
         (default_max_recipients_per_tx (manager two_endpoint_state_refusing))
  /\ (wallet (manager two_endpoint_state_refusing) = None \/ three_recipients = [])
  /\ send_mass_payments refusing any_address any_address three_recipients None
       false Confirmed None None two_endpoint_state_refusing
     = (inl (Raise ClsWalletNotLoadedError MWalletNotLoaded None), two_endpoint_state_refusing).
Proof.
  assert (1 <= effective_batch_size None
                 (default_max_recipients_per_tx (manager two_endpoint_state_refusing))) as H1
    by (vm_compute; discriminate).
  assert (wallet (manager two_endpoint_state_refusing) = None \/ three_recipients = []) as H2
    by (left; vm_compute; reflexivity).
  split; [exact H1|]. split; [exact H2|].
  exact (send_mass_payments_nothing_to_do refusing any_address any_address three_recipients
           None false Confirmed None None two_endpoint_state_refusing H1 H2).
Defined.

(** ** The wallet *)

Lemma load_wallet_changes_only_wallet_witness :
  load_wallet_from_file example_keypair example_keypair example_json_loads example_b58decode
    (FileText "key") two_endpoint_state_refusing
  = (inr "PAYER",
     snd (load_wallet_from_file example_keypair example_keypair example_json_loads
            example_b58decode (FileText "key") two_endpoint_state_refusing))
  /\ exists kp,
       "PAYER" = pubkey kp
       /\ snd (load_wallet_from_file example_keypair example_keypair example_json_loads
                 example_b58decode (FileText "key") two_endpoint_state_refusing)
          = {| manager := set_wallet (Some kp) (manager two_endpoint_state_refusing);
               world := world two_endpoint_state_refusing;
               clock := clock two_endpoint_state_refusing;
               trace := trace two_endpoint_state_refusing |}.
Proof.
  assert (load_wallet_from_file example_keypair example_keypair example_json_loads
            example_b58decode (FileText "key") two_endpoint_state_refusing
          = (inr "PAYER",
             snd (load_wallet_from_file example_keypair example_keypair example_json_loads
                    example_b58decode (FileText "key") two_endpoint_state_refusing))) as H1
    by (vm_compute; reflexivity).
  split; [exact H1|].
  exact (load_wallet_changes_only_wallet example_keypair example_keypair example_json_loads
           example_b58decode (FileText "key") two_endpoint_state_refusing _ _ H1).
Defined.

Lemma get_wallet_address_after_load_witness :
  load_wallet_from_file example_keypair example_keypair example_json_loads example_b58decode
    (FileText "key") two_endpoint_state_refusing
  = (inr "PAYER",
     snd (load_wallet_from_file example_keypair example_keypair example_json_loads
            example_b58decode (FileText "key") two_endpoint_state_refusing))
  /\ get_wallet_address
       (snd (load_wallet_from_file example_keypair example_keypair example_json_loads
               example_b58decode (FileText "key") two_endpoint_state_refusing))
     = (inr "PAYER",
        snd (load_wallet_from_file example_keypair example_keypair example_json_loads
               example_b58decode (FileText "key") two_endpoint_state_refusing)).
Proof.
  assert (load_wallet_from_file example_keypair example_keypair example_json_loads
            example_b58decode (FileText "key") two_endpoint_state_refusing
          = (inr "PAYER",
             snd (load_wallet_from_file example_keypair example_keypair example_json_loads
                    example_b58decode (FileText "key") two_endpoint_state_refusing))) as H1
    by (vm_compute; reflexivity).
  split; [exact H1|].
  exact (get_wallet_address_after_load example_keypair example_keypair example_json_loads
           example_b58decode (FileText "key") two_endpoint_state_refusing _ _ H1).
Defined.

Lemma load_wallet_raises_witness :
  load_wallet_from_file example_keypair example_keypair json_with_bad_entry example_b58decode
    (FileText "[1, 300]") (paying_state [])
  = (inl (Raise ClsValueError (MLibrary "bytes must be in range(0, 256)") None),
     paying_state [])
  /\ exists data,
       json_with_bad_entry (Text.strip "[1, 300]") = inr (JList data)
       /\ bytes_of_json data
          = inl (Raise ClsValueError (MLibrary "bytes must be in range(0, 256)") None).
Proof.
  assert (load_wallet_from_file example_keypair example_keypair json_with_bad_entry
            example_b58decode (FileText "[1, 300]") (paying_state [])
          = (inl (Raise ClsValueError (MLibrary "bytes must be in range(0, 256)") None),
             paying_state [])) as H1 by (vm_compute; reflexivity).
  split; [exact H1|].
  destruct (load_wallet_raises example_keypair example_keypair json_with_bad_entry
              example_b58decode (FileText "[1, 300]") (paying_state []) _ _ H1)
    as [Hclass|[Hfile|[(text & Hfile & Hjson & _)
                       |[(text & data & Hfile & Hjson & Hbytes & _)|He]]]].
  - discriminate Hclass.
  - discriminate Hfile.
  - injection Hfile as <-. vm_compute in Hjson. discriminate Hjson.
  - injection Hfile as <-. exists data. split; [exact Hjson | exact Hbytes].
  - discriminate He.
Defined.

(** A wallet file that is a directory, and a wallet file whose JSON holds
    an integer beyond the limit of the interpreter: neither exception is a
    [WalletLoadError], and neither is caught. *)
Example unreadable_wallet_file :
  load_wallet_from_file example_keypair example_keypair example_json_loads example_b58decode
    (FileUnreadable is_a_directory) (paying_state [])
  = (inl is_a_directory, paying_state [])
  /\ load_wallet_from_file example_keypair example_keypair json_over_the_limit
       example_b58decode (FileText "[1]") (paying_state [])
     = (inl too_many_digits, paying_state [])
  /\ isinstance too_many_digits ClsJSONDecodeError = false
  /\ isinstance is_a_directory ClsWalletLoadError = false.
Proof. vm_compute. repeat split. Qed.

(** ** Balances *)

Lemma fetch_balances_only_reads_witness :
  fetch_balances scripted any_address ["A"; "B"; "A"; "C"] Confirmed balances_state
  = (inr [("A", zero_balance); ("B", DFinite false 15 (-1)); ("C", zero_balance)],
     snd (fetch_balances scripted any_address ["A"; "B"; "A"; "C"] Confirmed balances_state))
  /\ exists evs,
       steps balances_state
         (snd (fetch_balances scripted any_address ["A"; "B"; "A"; "C"] Confirmed
                 balances_state)) evs
       /\ payment_calls evs = [].
Proof.
  assert (fetch_balances scripted any_address ["A"; "B"; "A"; "C"] Confirmed balances_state
          = (inr [("A", zero_balance); ("B", DFinite false 15 (-1)); ("C", zero_balance)],
             snd (fetch_balances scripted any_address ["A"; "B"; "A"; "C"] Confirmed
                    balances_state))) as H1 by (vm_compute; reflexivity).
  split; [exact H1|].
  destruct (fetch_balances_only_reads scripted any_address ["A"; "B"; "A"; "C"] Confirmed
              balances_state _ _ H1) as (evs & Hsteps & _ & Hnone & _).
  exists evs. split; [exact Hsteps | exact Hnone].
Defined.

Lemma paying_state_ok : pool_ok (manager (paying_state [])).
Proof.
  split; vm_compute; (reflexivity || discriminate || (split; (reflexivity || discriminate))).
Defined.

Lemma get_balance_sol_reports_answer_witness :
  pool_ok (manager (paying_state []))
  /\ get_balance_sol answering_balance Confirmed (paying_state [])
     = (inr (DFinite false 15 (-1)),
        snd (get_balance_sol answering_balance Confirmed (paying_state [])))
  /\ exists lamports c calls w,
       answering_balance c (pubkey example_wallet) Confirmed w
       = ((inr lamports, calls),
          world (snd (get_balance_sol answering_balance Confirmed (paying_state []))))
       /\ DFinite false 15 (-1) = lamports_to_sol lamports
       /\ (0 < lamports < 2 ^ 64 -> _sol_to_lamports (DFinite false 15 (-1)) = inr lamports).
Proof.
  assert (get_balance_sol answering_balance Confirmed (paying_state [])
          = (inr (DFinite false 15 (-1)),
             snd (get_balance_sol answering_balance Confirmed (paying_state [])))) as H1
    by (vm_compute; reflexivity).
  split; [exact paying_state_ok|]. split; [exact H1|].
  destruct (get_balance_sol_reports_answer answering_balance Confirmed (paying_state [])
              paying_state_ok _ _ H1) as (lamports & c & calls & w & Hcall & Hbal & Hback & _).
  exists lamports, c, calls, w. split; [exact Hcall|]. split; [exact Hbal | exact Hback].
Defined.

(** ** The window *)

Lemma tuning_within_bounds_witness :
  _get_transaction_tuning " 12 " "" "5_000" 
  = inr {| tuning_max_per_tx := Some 12; tuning_compute_unit_limit := None;
           tuning_priority_fee := Some 5000 |}
  /\ 1 <= default_max_recipients_per_tx (manager (paying_state []))
  /\ 1 <= effective_batch_size (Some 12)
            (default_max_recipients_per_tx (manager (paying_state []))).
Proof.
  assert (_get_transaction_tuning " 12 " "" "5_000"
          = inr {| tuning_max_per_tx := Some 12; tuning_compute_unit_limit := None;
                   tuning_priority_fee := Some 5000 |}) as H1 by (vm_compute; reflexivity).
  assert (1 <= default_max_recipients_per_tx (manager (paying_state []))) as H2
    by (vm_compute; discriminate).
  split; [exact H1|]. split; [exact H2|].
  destruct (tuning_within_bounds " 12 " "" "5_000" _ (paying_state []) H1 H2)
    as (_ & _ & _ & _ & _ & _ & Hbatch).
  exact Hbatch.
Defined.

(** A field that is filled in with a value below its minimum. *)
Example tuning_refuses_small_limit :
  _get_transaction_tuning "" "24999" "" = inl MComputeUnitsBelowMinimum.
Proof. vm_compute. reflexivity. Qed.

(** ** Airdrops *)

Lemma request_airdrop_lamports_outcomes_witness :
  pool_ok (manager (paying_state [inl refused]))
  /\ _request_airdrop_lamports airdrop_client "PAYER" 1000000000 Confirmed 3 (FFinite 2)
       (paying_state [inl refused])
     = (inr "airdrop",
        snd (_request_airdrop_lamports airdrop_client "PAYER" 1000000000 Confirmed 3 (FFinite 2)
               (paying_state [inl refused])))
  /\ exists evs,
       steps (paying_state [inl refused])
         (snd (_request_airdrop_lamports airdrop_client "PAYER" 1000000000 Confirmed 3 (FFinite 2)
                 (paying_state [inl refused]))) evs
       /\ Z.of_nat (attempts_made evs) <= Z.max 0 3 * (1 * 1).
Proof.
  assert (pool_ok (manager (paying_state [inl refused]))) as H1
    by (split; vm_compute;
        (reflexivity || discriminate || (split; (reflexivity || discriminate)))).
  assert (_request_airdrop_lamports airdrop_client "PAYER" 1000000000 Confirmed 3 (FFinite 2)
            (paying_state [inl refused])
          = (inr "airdrop",
             snd (_request_airdrop_lamports airdrop_client "PAYER" 1000000000 Confirmed 3
                    (FFinite 2)
                    (paying_state [inl refused])))) as H3 by (vm_compute; reflexivity).
  split; [exact H1|]. split; [exact H3|].
  destruct (request_airdrop_lamports_outcomes airdrop_client "PAYER" 1000000000 Confirmed 3
              (FFinite 2) (paying_state [inl refused]) _ _ H1 H3)
    as (evs & Hsteps & _ & Hcount & _).
  exists evs. split; [exact Hsteps | exact Hcount].
Defined.

(** The run of the example above: one refused round, a pause of two
    seconds after the backoff of the pool, then the answer. *)
Example airdrop_second_round :
  map (fun ev => match ev with
                 | EvAttempt _ _ raised => inl (bool_decide (raised = None))
                 | EvSleep d => inr (Qred d)
                 end)
      (trace (snd (_request_airdrop_lamports airdrop_client "PAYER" 1000000000 Confirmed 3
                     (FFinite 2)
                     (paying_state [inl refused]))))
  = [inl false; inr (1 # 2)%Q; inr 2%Q; inl true].
Proof. vm_compute. reflexivity. Qed.

(** The same request with a pause that is not a number, and with one of
    ten thousand million seconds: what [time.sleep] raises for the pause
    after the refused round ends the call, and the second round is never
    made. *)
Example airdrop_pause_refused :
  fst (_request_airdrop_lamports airdrop_client "PAYER" 1000000000 Confirmed 3 FNaN
         (paying_state [inl refused]))
  = inl (Propagated (Raise ClsValueError (MLibrary "Invalid value NaN (not a number)") None))
  /\ fst (_request_airdrop_lamports airdrop_client "PAYER" 1000000000 Confirmed 3
            (FFinite 10000000000) (paying_state [inl refused]))
     = inl (Propagated
              (Raise ClsOverflowError
                 (MLibrary "timestamp too large to convert to C _PyTime_t") None))
  /\ attempts_made
       (trace (snd (_request_airdrop_lamports airdrop_client "PAYER" 1000000000 Confirmed 3
                      FNaN (paying_state [inl refused]))))
     = 1%nat.
Proof. vm_compute. repeat split. Qed.

(** ** Airdrops in parts *)

Lemma request_airdrop_in_parts_witness :
  plain_amount five_sol 5000000000
  /\ plain_amount two_sol 2000000000
  /\ wallet (manager granted_state) = Some example_wallet
  /\ (Z.to_nat ((5000000000 - 1) / 2000000000) < 3)%nat
  /\ request_airdrop confirming any_address granting_faucet 3 five_sol Confirmed two_sol 3
       (FFinite 2) granted_state
     = Some (airdrop_rounds confirming any_address granting_faucet example_wallet Confirmed
               3 (FFinite 2) (airdrop_amounts 5000000000 2000000000) [] granted_state)
  /\ foldr Z.add 0 (airdrop_amounts 5000000000 2000000000) = 5000000000.
Proof.
  assert (plain_amount five_sol 5000000000) as H1
    by (exists 5, 0; repeat split; (reflexivity || discriminate)).
  assert (plain_amount two_sol 2000000000) as H2
    by (exists 20, (-1); repeat split; (reflexivity || discriminate)).
  assert (wallet (manager granted_state) = Some example_wallet) as H3 by reflexivity.
  assert (Z.to_nat ((5000000000 - 1) / 2000000000) < 3)%nat as H4 by (vm_compute; lia).
  split; [exact H1|]. split; [exact H2|]. split; [exact H3|]. split; [exact H4|].
  destruct (request_airdrop_in_parts confirming any_address granting_faucet 3 five_sol
              5000000000 two_sol 2000000000 Confirmed 3 (FFinite 2) granted_state example_wallet
              H1 H2 H3 H4) as (Hrun & _ & _ & Hsum).
  split; [exact Hrun | exact Hsum].
Defined.

(** The run of the example above: three requests, of two, two and one
    SOL, with a pause of two seconds between them and none at the end. *)
Example five_sol_in_three_requests :
  airdrop_amounts 5000000000 2000000000 = [2000000000; 2000000000; 1000000000]
  /\ match request_airdrop confirming any_address granting_faucet 3 five_sol Confirmed
             two_sol 3 (FFinite 2) granted_state with
     | Some (inr signatures, st') =>
         signatures = ["airdrop"; "airdrop"; "airdrop"]
         /\ omap (fun ev => match ev with
                            | EvSleep d => Some (Qred d)
                            | EvAttempt _ _ _ => None
                            end) (trace st')
            = [2%Q; 2%Q]
     | _ => False
     end.
Proof. vm_compute. repeat split; reflexivity. Qed.

Lemma request_airdrop_refuses_witness :
  (wallet (manager granted_state) = None
   \/ decimal_le_zero (DFinite false 0 0) = inr true
   \/ (decimal_le_zero (DFinite false 0 0) = inr false
       /\ decimal_le_zero two_sol = inr true))
  /\ request_airdrop confirming any_address granting_faucet 3 (DFinite false 0 0) Confirmed
       two_sol 3 (FFinite 2) granted_state
     = Some (inl (Propagated (Raise ClsValueError MAmountNotPositive None)), granted_state).
Proof.
  assert (wallet (manager granted_state) = None
          \/ decimal_le_zero (DFinite false 0 0) = inr true
          \/ (decimal_le_zero (DFinite false 0 0) = inr false
              /\ decimal_le_zero two_sol = inr true)) as H
    by (right; left; reflexivity).
  split; [exact H|].
  exact (request_airdrop_refuses confirming any_address granting_faucet 3 (DFinite false 0 0)
           Confirmed two_sol 3 (FFinite 2) granted_state H).
Defined.

Lemma granted_state_ok : pool_ok (manager granted_state).
Proof.
  split; vm_compute; (reflexivity || discriminate || (split; (reflexivity || discriminate))).
Qed.

Lemma request_airdrop_infinite_amount_witness :
  wallet (manager granted_state) = Some example_wallet
  /\ pool_ok (manager granted_state)
  /\ plain_amount two_sol 2000000000
  /\ 0 < 3
  /\ sleep_taken (FFinite 2)
  /\ any_address "airdrop" = true
  /\ err confirmed_status = None
  /\ poll_succeeds confirmed_status = true
  /\ (forall c public_key lamports cm w, exists calls w',
        granting_faucet c public_key lamports cm w
        = ((inr (SignatureResp "airdrop"), calls), w'))
  /\ (forall c w, exists more w',
        confirming c (GetSignatureStatuses ["airdrop"]) w
        = (inr (StatusesResp (Some confirmed_status :: more)), w'))
  /\ forall fuel,
       request_airdrop confirming any_address granting_faucet fuel (DInfinity false) Confirmed
         two_sol 3 (FFinite 2) granted_state
       = None.
Proof.
  assert (wallet (manager granted_state) = Some example_wallet) as H1 by reflexivity.
  pose proof granted_state_ok as H2.
  assert (plain_amount two_sol 2000000000) as H3
    by (exists 20, (-1); repeat split; (reflexivity || discriminate)).
  assert (0 < 3) as H4 by lia.
  assert (sleep_taken (FFinite 2)) as H5 by (split; vm_compute; discriminate).
  assert (any_address "airdrop" = true) as H6 by reflexivity.
  assert (err confirmed_status = None) as H7 by reflexivity.
  assert (poll_succeeds confirmed_status = true) as H8 by (vm_compute; reflexivity).
  assert (forall c public_key lamports cm w, exists calls w',
            granting_faucet c public_key lamports cm w
            = ((inr (SignatureResp "airdrop"), calls), w')) as H9
    by (intros c public_key lamports cm w; exists [], w; reflexivity).
  assert (forall c w, exists more w',
            confirming c (GetSignatureStatuses ["airdrop"]) w
            = (inr (StatusesResp (Some confirmed_status :: more)), w')) as H10
    by (intros c w; exists [], w; reflexivity).
  repeat (split; [assumption|]).
  exact (proj2 (request_airdrop_infinite_amount confirming any_address granting_faucet
                  Confirmed two_sol 3 (FFinite 2) granted_state)
           example_wallet 2000000000 "airdrop" confirmed_status
           H1 H2 H3 H4 H5 H6 H7 H8 H9 H10).
Defined.
